(** * LokiTs: the collection engine, its value comparator and its result sets

    A shallow embedding of the TypeScript sources
      - [src/utils/index.ts]      (comparators, query operators, [clone])
      - [utils/objects]           ([Utils.getIn])
      - [core/Collection]         (documents, [$loki] index, binary and unique indices)
      - [core/ResultSet.ts]       ([Resultset], [UniqueIndex])
    followed by the properties of the specification that are checked against it.

    Conventions of the embedding.
      - A JavaScript number is [NaN], an infinity, or a finite rational: every
        finite double is a rational and the code only compares numbers and adds
        one to them.  The sum is rounded to the nearest double ([to_double]),
        so that it is exact on the safe integers and [2^53 + 1] is [2^53].
        Negative zero is not distinguished from zero (no operation used here
        separates them).
      - Field values are the primitive JavaScript values.  A document is an
        object whose own properties hold primitives, [$loki] included.
      - The names of fields, of binary indices and of unique constraints are
        not names of members of [Object.prototype]: a name the object does
        not own reads [undefined].  Where a hash object made from [{}] is
        keyed by data (the join map of [eqJoin], the ids to remove of
        [removeBatchByPositions]) the members it inherits are modelled.
      - [Number(s)] and [String(n)] are builtins of the host.  They are not
        re-implemented: the whole development is parametric in them
        ([StringToNumber], [NumberToString]).
      - Array positions and loop counters are integers ([Z]); reading an array
        outside its bounds gives [undefined], as in JavaScript.
      - Statements that can throw return a [completion] next to the state they
        leave behind; mutation is explicit state passing.
      - Collections are modelled with [disableMeta = true] (the [meta] stamps
        read the wall clock), [cloneMethod = 'parse-stringify'] (the default),
        no dynamic views, no event listeners and the Changes API switched off
        (its default). *)

From Stdlib Require Import ZArith QArith Qcanon String Ascii List Bool Lia.
From Stdlib Require Import DecimalString OrdersEx.
From stdpp Require Import gmap strings list sorting.

Set Warnings "-register-all".

Set Default Proof Using "Type".
Local Open Scope Z_scope.

(** ** Numbers and primitive values *)

Inductive number : Type :=
  | NaN
  | NegInfinity
  | Finite (q : Qc)
  | PosInfinity.

Inductive value : Type :=
  | VUndefined
  | VNull
  | VBool (b : bool)
  | VNum (n : number)
  | VStr (s : string).

#[global] Instance number_eq_dec : EqDecision number.
Proof. solve_decision. Defined.

#[global] Instance value_eq_dec : EqDecision value.
Proof. solve_decision. Defined.

Definition num_of_Z (z : Z) : number := Finite (Q2Qc (inject_Z z)).

(** Three-way comparison of two numbers; [None] when either is [NaN]
    (every relational operator is then false). *)
Definition num_compare (x y : number) : option comparison :=
  match x, y with
  | NaN, _ | _, NaN => None
  | NegInfinity, NegInfinity => Some Eq
  | NegInfinity, _ => Some Lt
  | _, NegInfinity => Some Gt
  | PosInfinity, PosInfinity => Some Eq
  | PosInfinity, _ => Some Gt
  | _, PosInfinity => Some Lt
  | Finite p, Finite q => Some (p ?= q)%Qc
  end.

(** [x < y], [x > y] and [x === y] on numbers. *)
Definition num_lt (x y : number) : bool :=
  match num_compare x y with Some Lt => true | _ => false end.
Definition num_gt (x y : number) : bool :=
  match num_compare x y with Some Gt => true | _ => false end.
Definition num_eq (x y : number) : bool :=
  match num_compare x y with Some Eq => true | _ => false end.

(** [isNaN] on a number. *)
Definition isNaN (x : number) : bool :=
  match x with NaN => true | _ => false end.

(** [n / d] rounded to the nearest integer, a tie to the even one
    ([0 <= n], [0 < d]). *)
Definition round_half_even (n d : Z) : Z :=
  let q := n / d in
  match 2 * (n mod d) ?= d with
  | Lt => q
  | Gt => q + 1
  | Eq => if Z.even q then q else q + 1
  end.

(** The double nearest to a rational, as the arithmetic of JavaScript
    rounds a result (IEEE 754 binary64, round to nearest, ties to even): a
    significand [m] of at most 53 bits times [2^e], with [e] from -1074, and
    an infinity from [2^1024] on. *)
Definition to_double (x : Qc) : number :=
  let n := Z.abs (Qnum x) in
  let d := Zpos (Qden x) in
  if n =? 0 then Finite x
  else
    (* [2^k <= n/d < 2^(k+1)] *)
    let k0 := Z.log2 n - Z.log2 d in
    let k := if n * 2 ^ Z.max 0 (- k0) <? d * 2 ^ Z.max 0 k0 then k0 - 1 else k0 in
    let e := Z.max (k - 52) (-1074) in
    let m := round_half_even (n * 2 ^ Z.max 0 (- e)) (d * 2 ^ Z.max 0 e) in
    if (971 <? e) || ((e =? 971) && (m =? 2 ^ 53)) then
      if Qnum x <? 0 then NegInfinity else PosInfinity
    else
      Finite (Q2Qc (Qred ((Z.sgn (Qnum x) * m * 2 ^ Z.max 0 e)
                          # Z.to_pos (2 ^ Z.max 0 (- e))))).
Arguments to_double : simpl never.

(** [x + 1] on a number. *)
Definition num_succ (x : number) : number :=
  match x with
  | Finite q => to_double (q + 1)%Qc
  | other => other
  end.
Arguments num_succ : simpl never.

(** Lexicographic order on strings, as [<] on two JavaScript strings. *)
Definition str_lt (s1 s2 : string) : bool :=
  match String.compare s1 s2 with Lt => true | _ => false end.

(** [!v]: the falsy values are [undefined], [null], [false], [0], [NaN], [""]. *)
Definition falsy (v : value) : bool :=
  match v with
  | VUndefined | VNull => true
  | VBool b => negb b
  | VNum n => isNaN n || num_eq n (num_of_Z 0)
  | VStr s => String.eqb s ""
  end.

(** [a === b]. *)
Definition strict_eq (a b : value) : bool :=
  match a, b with
  | VUndefined, VUndefined => true
  | VNull, VNull => true
  | VBool x, VBool y => Bool.eqb x y
  | VNum x, VNum y => num_eq x y
  | VStr x, VStr y => String.eqb x y
  | _, _ => false
  end.

(** [Array.prototype.indexOf(a) !== -1] uses [===]; [Set.prototype.has] uses
    SameValueZero, which differs on [NaN] only. *)
Definition sameValueZero (a b : value) : bool :=
  match a, b with
  | VNum NaN, VNum NaN => true
  | _, _ => strict_eq a b
  end.

(** Reading an array: [l[i]], [None] standing for [undefined]. *)
Definition nthZ {A : Type} (l : list A) (i : Z) : option A :=
  if i <? 0 then None else nth_error l (Z.to_nat i).

Definition lengthZ {A : Type} (l : list A) : Z := Z.of_nat (length l).

(** [l.splice(i, 1)] and [l.splice(i, 0, x)] for an integer [i] within
    [0 .. l.length]; a negative start counts from the end, as in JavaScript. *)
Definition splice_start {A : Type} (l : list A) (i : Z) : nat :=
  if i <? 0 then Z.to_nat (Z.max 0 (lengthZ l + i)) else Z.to_nat i.

Definition splice_remove {A : Type} (l : list A) (i : Z) : list A :=
  let s := splice_start l i in firstn s l ++ skipn (S s) l.

Definition splice_insert {A : Type} (l : list A) (i : Z) (x : A) : list A :=
  let s := splice_start l i in firstn s l ++ x :: skipn s l.

(** ** Completions

    A statement either returns a value or throws. *)

Inductive exn : Type :=
  | TypeError (msg : string)
  | Error (msg : string).

Inductive completion (A : Type) : Type :=
  | Return (a : A)
  | Throw (e : exn).
Arguments Return {A} a.
Arguments Throw {A} e.

(** [parseInt(s, 10)]: leading white space, an optional sign, then the
    longest run of decimal digits, read as the nearest double; [NaN] when
    there is none. *)
Definition is_white_space (c : ascii) : bool :=
  let n := nat_of_ascii c in
  ((9 <=? n)%nat && (n <=? 13)%nat) || (n =? 32)%nat.

Fixpoint skip_white_space (s : string) : string :=
  match s with
  | String c rest => if is_white_space c then skip_white_space rest else s
  | EmptyString => s
  end.

Definition digit_of (c : ascii) : option Z :=
  let n := nat_of_ascii c in
  if (48 <=? n)%nat && (n <=? 57)%nat then Some (Z.of_nat n - 48) else None.

Fixpoint leading_digits (s : string) (acc : option Z) : option Z :=
  match s with
  | String c rest =>
      match digit_of c with
      | Some d => leading_digits rest (Some (10 * default 0 acc + d))
      | None => acc
      end
  | EmptyString => acc
  end.

Definition parseInt10 (s : string) : number :=
  let s := skip_white_space s in
  let '(negative, s) :=
    match s with
    | String "-" rest => (true, rest)
    | String "+" rest => (false, rest)
    | _ => (false, s)
    end in
  match leading_digits s None with
  | Some n => to_double (Q2Qc (inject_Z (if negative then - n else n)))
  | None => NaN
  end.

(** ** An instance of the two builtins

    The development is parametric in [Number(s)] and [String(n)].  To run the
    embedding on concrete inputs, the examples use the instance below, which
    is exact on integer numerals. *)

Fixpoint all_digits (s : string) (acc : option Z) : option Z :=
  match s with
  | EmptyString => acc
  | String c rest =>
      match digit_of c with
      | Some d => all_digits rest (Some (10 * default 0 acc + d))
      | None => None
      end
  end.

Definition integerStringToNumber (s : string) : number :=
  match s with
  | EmptyString => num_of_Z 0
  | String "-" rest =>
      match all_digits rest None with
      | Some n => num_of_Z (- n)
      | None => NaN
      end
  | _ =>
      match all_digits s None with
      | Some n => num_of_Z n
      | None => NaN
      end
  end.

Definition decimal (z : Z) : string := NilZero.string_of_int (Z.to_int z).

Definition integerNumberToString (n : number) : string :=
  match n with
  | NaN => "NaN"
  | NegInfinity => "-Infinity"
  | PosInfinity => "Infinity"
  | Finite q =>
      if (Qden q =? 1)%positive then decimal (Qnum q)
      else decimal (Qnum q) +:+ "/" +:+ decimal (Zpos (Qden q))
  end.

(** * The value comparator ([src/utils/index.ts]) *)

Section Engine.

(** [Number(s)] on a string and [String(n)] on a number. *)
Variable StringToNumber : string -> number.
Variable NumberToString : number -> string.

(** [Number(v)]. *)
Definition ToNumber (v : value) : number :=
  match v with
  | VUndefined => NaN
  | VNull => num_of_Z 0
  | VBool true => num_of_Z 1
  | VBool false => num_of_Z 0
  | VNum n => n
  | VStr s => StringToNumber s
  end.

(** [String(v)], also the property key [v] selects in [o[v]]. *)
Definition ToString (v : value) : string :=
  match v with
  | VUndefined => "undefined"
  | VNull => "null"
  | VBool true => "true"
  | VBool false => "false"
  | VNum n => NumberToString n
  | VStr s => s
  end.

(** [a < b]: both strings compare as strings, anything else as numbers. *)
Definition js_lt (a b : value) : bool :=
  match a, b with
  | VStr s1, VStr s2 => str_lt s1 s2
  | _, _ => num_lt (ToNumber a) (ToNumber b)
  end.

(** [a <= b] is [!(b < a)] unless the comparison is undefined ([NaN]). *)
Definition js_le (a b : value) : bool :=
  match a, b with
  | VStr s1, VStr s2 => negb (str_lt s2 s1)
  | _, _ => match num_compare (ToNumber a) (ToNumber b) with
            | Some Lt | Some Eq => true
            | _ => false
            end
  end.

(** [a == b]. *)
Definition loose_eq (a b : value) : bool :=
  match a, b with
  | VUndefined, VUndefined | VUndefined, VNull
  | VNull, VUndefined | VNull, VNull => true
  | VUndefined, _ | VNull, _ | _, VUndefined | _, VNull => false
  | VStr s1, VStr s2 => String.eqb s1 s2
  | _, _ => num_eq (ToNumber a) (ToNumber b)
  end.

(** The [switch] of the three helpers: the tier of an edge value. *)
Definition tier (prop : value) : Z :=
  match prop with
  | VUndefined => 1
  | VNull => 1
  | VBool false => 3
  | VBool true => 4
  | VStr EmptyString => 5
  | _ => if strict_eq prop prop then 9 else 0
  end.

(** The guard [!prop1 || !prop2 || prop1 === true || prop2 === true ||
    prop1 !== prop1 || prop2 !== prop2]. *)
Definition edge_guard (prop1 prop2 : value) : bool :=
  falsy prop1 || falsy prop2
  || strict_eq prop1 (VBool true) || strict_eq prop2 (VBool true)
  || negb (strict_eq prop1 prop1) || negb (strict_eq prop2 prop2).

Definition aeqHelper (prop1 prop2 : value) : bool :=
  if strict_eq prop1 prop2 then true
  else
    let t1 := tier prop1 in
    let t2 := tier prop2 in
    if edge_guard prop1 prop2 && (negb (t1 =? 9) || negb (t2 =? 9))
    then t1 =? t2
    else
      let cv1 := ToNumber prop1 in
      let cv2 := ToNumber prop2 in
      if num_eq cv1 cv1 || num_eq cv2 cv2 then num_eq cv1 cv2
      else String.eqb (ToString prop1) (ToString prop2).

Definition ltHelper (prop1 prop2 : value) (equal : bool) : bool :=
  let t1 := tier prop1 in
  let t2 := tier prop2 in
  if edge_guard prop1 prop2 && (negb (t1 =? 9) || negb (t2 =? 9))
  then (if t1 =? t2 then equal else t1 <? t2)
  else
    let cv1 := ToNumber prop1 in
    let cv2 := ToNumber prop2 in
    if num_eq cv1 cv1 && num_eq cv2 cv2 then
      if num_lt cv1 cv2 then true
      else if num_gt cv1 cv2 then false
      else equal
    else if num_eq cv1 cv1 && negb (num_eq cv2 cv2) then true
    else if num_eq cv2 cv2 && negb (num_eq cv1 cv1) then false
    else if js_lt prop1 prop2 then true
    else if js_lt prop2 prop1 then false
    else if loose_eq prop1 prop2 then equal
    else
      let s1 := ToString prop1 in
      let s2 := ToString prop2 in
      if str_lt s1 s2 then true
      else if String.eqb s1 s2 then equal
      else false.

Definition gtHelper (prop1 prop2 : value) (equal : bool) : bool :=
  let t1 := tier prop1 in
  let t2 := tier prop2 in
  if edge_guard prop1 prop2 && (negb (t1 =? 9) || negb (t2 =? 9))
  then (if t1 =? t2 then equal else t1 >? t2)
  else
    let cv1 := ToNumber prop1 in
    let cv2 := ToNumber prop2 in
    if num_eq cv1 cv1 && num_eq cv2 cv2 then
      if num_gt cv1 cv2 then true
      else if num_lt cv1 cv2 then false
      else equal
    else if num_eq cv1 cv1 && negb (num_eq cv2 cv2) then false
    else if num_eq cv2 cv2 && negb (num_eq cv1 cv1) then true
    else if js_lt prop2 prop1 then true
    else if js_lt prop1 prop2 then false
    else if loose_eq prop1 prop2 then equal
    else
      let s1 := ToString prop1 in
      let s2 := ToString prop2 in
      if str_lt s2 s1 then true
      else if String.eqb s1 s2 then equal
      else false.

(** * Documents and property paths ([utils/objects]) *)

(** [d[p]] on a document: an absent property reads [undefined]. *)
Definition get_prop (d : gmap string value) (p : string) : value :=
  default VUndefined (d !! p).

(** A canonical array index: ["0"], or decimal digits that do not start
    with a zero. *)
Definition array_index (name : string) : option N :=
  match NilEmpty.uint_of_string name with
  | Some u =>
      let n := N.of_uint u in
      if String.eqb (NilEmpty.string_of_uint (N.to_uint n)) name then Some n
      else None
  | None => None
  end.

(** [v[name]] on a primitive.  A string has its [length] and its
    characters.  The other members a primitive answers for are the functions
    of its wrapper, which lie outside the value model: as any name it does
    not know, they read [undefined] here. *)
Definition prim_member (v : value) (name : string) : value :=
  match v with
  | VStr s =>
      if String.eqb name "length" then VNum (num_of_Z (Z.of_nat (String.length s)))
      else
        match array_index name with
        | Some i =>
            if (i <? N.of_nat (String.length s))%N then
              match String.get (N.to_nat i) s with
              | Some ch => VStr (String ch EmptyString)
              | None => VUndefined
              end
            else VUndefined
        | None => VUndefined
        end
  | _ => VUndefined
  end.

(** [v == null]. *)
Definition is_nullish (v : value) : bool :=
  match v with VUndefined | VNull => true | _ => false end.

(** [s.indexOf('.') !== -1] and [s.split('.')]. *)
Fixpoint has_dot (s : string) : bool :=
  match s with
  | EmptyString => false
  | String c rest => Ascii.eqb c "." || has_dot rest
  end.

Fixpoint split_dot (s : string) : list string :=
  match s with
  | EmptyString => [EmptyString]
  | String c rest =>
      if Ascii.eqb c "." then EmptyString :: split_dot rest
      else match split_dot rest with
           | [] => [String c EmptyString]
           | hd :: tl => String c hd :: tl
           end
  end.

(** The [while (object != null && index < length)] loop of [getIn], below
    the document itself: returns the value reached and whether the whole
    path was consumed. *)
Fixpoint getIn_walk (object : value) (path : list string) : value * bool :=
  match path with
  | [] => (object, true)
  | name :: rest =>
      if is_nullish object then (object, false)
      else getIn_walk (prim_member object name) rest
  end.

(** [Utils.getIn(object, path, usingDotNotation)]; [object] is [None] when
    the caller read it from outside an array. *)
Definition getIn (object : option (gmap string value)) (path : string)
    (usingDotNotation : bool) : value :=
  match object with
  | None => VUndefined
  | Some d =>
      if negb usingDotNotation then get_prop d path
      else
        match split_dot path with
        | [] => VUndefined
        | name :: rest =>
            let '(reached, consumed) := getIn_walk (get_prop d name) rest in
            if consumed then reached else VUndefined
        end
  end.

(** [dotSubScan(root, paths, fun, value, extra, poffset)], [paths] being the
    part of the path from [poffset] on.  [root] is the record itself or a
    value found on the way; [path in null] throws. *)
Inductive scan_root : Type :=
  | RootDoc (d : gmap string value)
  | RootVal (v : value).

Fixpoint dotSubScan (root : scan_root) (paths : list string)
    (fun_ : value -> bool) : completion bool :=
  match paths with
  | [] => Return (fun_ VUndefined)
  | path :: rest =>
      match root with
      | RootVal VNull =>
          Throw (TypeError "Cannot use 'in' operator to search for a key in null")
      | _ =>
          let element :=
            match root with
            | RootDoc d => get_prop d path
            | RootVal _ => VUndefined
            end in
          match rest with
          | [] => Return (fun_ element)
          | _ :: _ => dotSubScan (RootVal element) rest fun_
          end
      end
  end.

(** ** [clone(data, method)] on a document *)

Inductive cloneMethod : Type :=
  | ParseStringify
  | Shallow
  | ShallowAssign
  | ShallowRecurseObjects.

(** [JSON.parse(JSON.stringify(v))] on a property value: a non-finite
    number comes back as [null]. *)
Definition json_value (v : value) : value :=
  match v with
  | VNum NaN | VNum NegInfinity | VNum PosInfinity => VNull
  | other => other
  end.

(** The error [clone(data, method)] throws on a document, if any.  The
    shallow methods start from [Object.create(data.constructor.prototype)],
    which reads the field of a document that has one named [constructor];
    'shallow-recurse-objects' then reads [data[key].constructor] for each
    property whose [typeof] is "object", which [null] is. *)
Definition clone_error (d : gmap string value) (method : cloneMethod) : option exn :=
  let shallow :=
    match d !! "constructor" with
    | None => None
    | Some VNull =>
        Some (TypeError "Cannot read properties of null (reading 'prototype')")
    | Some VUndefined =>
        Some (TypeError "Cannot read properties of undefined (reading 'prototype')")
    | Some _ =>
        Some (TypeError "Object prototype may only be an Object or null: undefined")
    end in
  match method with
  | ParseStringify => None
  | Shallow | ShallowAssign => shallow
  | ShallowRecurseObjects =>
      match shallow with
      | Some e => Some e
      | None =>
          if bool_decide (VNull ∈ (map_to_list d).*2) then
            Some (TypeError "Cannot read properties of null (reading 'constructor')")
          else None
      end
  end.

(** The clone, when [clone] returns.  [JSON.stringify] drops the properties
    that hold [undefined].  The shallow methods assign the properties one by
    one to a fresh object, on which an assignment to [__proto__] adds no
    property. *)
Definition clone (d : gmap string value) (method : cloneMethod) : gmap string value :=
  match method with
  | ParseStringify =>
      json_value <$> filter (fun kv => kv.2 <> VUndefined) d
  | Shallow | ShallowAssign | ShallowRecurseObjects => delete "__proto__" d
  end.

(** * Query operators ([LokiOps], [indexedOps]) *)

(** An operator together with its query value: [{ $gt: b }], [{ $in: vals }].
    Only the operators that act on primitive values are embedded; the
    array-valued ones carry the array of their operand.  [$inSet] is the
    operator [find] substitutes for [$in] on a linear scan. *)
Inductive operation : Type :=
  | O_eq (b : value)
  | O_aeq (b : value)
  | O_ne (b : value)
  | O_dteq (b : value)
  | O_gt (b : value)
  | O_gte (b : value)
  | O_lt (b : value)
  | O_lte (b : value)
  | O_jgt (b : value)
  | O_jgte (b : value)
  | O_jlt (b : value)
  | O_jlte (b : value)
  | O_between (vals : list value)
  | O_jbetween (vals : list value)
  | O_in (vals : list value)
  | O_inSet (vals : list value)
  | O_nin (vals : list value)
  | O_exists (b : value).

(** [vals[i]] on an array of values. *)
Definition val_at (vals : list value) (i : Z) : value :=
  default VUndefined (nthZ vals i).

(** [LokiOps[op](a, b)]. *)
Definition LokiOps (op : operation) (a : value) : bool :=
  match op with
  | O_eq b => strict_eq a b
  | O_aeq b => loose_eq a b
  | O_ne b =>
      if negb (strict_eq b b) then strict_eq a a
      else negb (strict_eq a b)
  | O_dteq b => aeqHelper a b
  | O_gt b => gtHelper a b false
  | O_gte b => gtHelper a b true
  | O_lt b => ltHelper a b false
  | O_lte b => ltHelper a b true
  | O_jgt b => js_lt b a
  | O_jgte b => js_le b a
  | O_jlt b => js_lt a b
  | O_jlte b => js_le a b
  | O_between vals =>
      if strict_eq a VUndefined || strict_eq a VNull then false
      else gtHelper a (val_at vals 0) true && ltHelper a (val_at vals 1) true
  | O_jbetween vals =>
      if strict_eq a VUndefined || strict_eq a VNull then false
      else js_le (val_at vals 0) a && js_le a (val_at vals 1)
  | O_in vals => existsb (fun x => strict_eq x a) vals
  | O_inSet vals => existsb (fun x => sameValueZero x a) vals
  | O_nin vals => negb (existsb (fun x => strict_eq x a) vals)
  | O_exists b =>
      if negb (falsy b) then negb (strict_eq a VUndefined)
      else strict_eq a VUndefined
  end.

(** [indexedOps[op]]: absent, [true], or a function run as a second pass
    over what the index returned ([$eq] only, with [LokiOps.$eq]). *)
Inductive indexedOp : Type :=
  | NotIndexed
  | IndexedTrue
  | IndexedSecondPass (f : value -> value -> bool).

Definition indexedOps (op : operation) : indexedOp :=
  match op with
  | O_eq _ => IndexedSecondPass strict_eq
  | O_aeq _ | O_dteq _ | O_gt _ | O_gte _ | O_lt _ | O_lte _
  | O_in _ | O_between _ => IndexedTrue
  | _ => NotIndexed
  end.

(** The query value of an operator whose operand is a single value. *)
Definition operand (op : operation) : value :=
  match op with
  | O_eq b | O_aeq b | O_ne b | O_dteq b | O_gt b | O_gte b | O_lt b
  | O_lte b | O_jgt b | O_jgte b | O_jlt b | O_jlte b | O_exists b => b
  | _ => VUndefined
  end.

(** * Index structures *)

(** [{ name, dirty, values }]: [values] holds positions into [data]. *)
Record BinaryIndex : Type := mkBinaryIndex {
  bi_name : string;
  bi_dirty : bool;
  values : list Z
}.

(** [UniqueIndex]: both maps are objects without a prototype; a slot set to
    [undefined] reads like an absent one and is represented as absent. *)
Record UniqueIndex : Type := mkUniqueIndex {
  field : string;
  keyMap : gmap string (gmap string value);
  lokiMap : gmap string value
}.

Definition UniqueIndex_new (uniqueField : string) : UniqueIndex :=
  {| field := uniqueField; keyMap := ∅; lokiMap := ∅ |}.

Definition UniqueIndex_set (u : UniqueIndex) (obj : gmap string value)
    : completion UniqueIndex :=
  let fieldValue := get_prop obj (field u) in
  if negb (strict_eq fieldValue VNull) && negb (strict_eq fieldValue VUndefined) then
    match keyMap u !! ToString fieldValue with
    | Some _ =>
        Throw (Error ("Duplicate key for property " +:+ field u +:+ ": "
                        +:+ ToString fieldValue))
    | None =>
        Return {| field := field u;
                  keyMap := <[ToString fieldValue := obj]> (keyMap u);
                  lokiMap := <[ToString (get_prop obj "$loki") := fieldValue]> (lokiMap u) |}
    end
  else Return u.

Definition UniqueIndex_get (u : UniqueIndex) (key : value)
    : option (gmap string value) :=
  keyMap u !! ToString key.

Definition UniqueIndex_remove (u : UniqueIndex) (key : value)
    : completion UniqueIndex :=
  match keyMap u !! ToString key with
  | Some obj =>
      Return {| field := field u;
                keyMap := delete (ToString key) (keyMap u);
                lokiMap := delete (ToString (get_prop obj "$loki")) (lokiMap u) |}
  | None => Throw (Error ("Key is not in unique index: " +:+ field u))
  end.

(** * Binary index range search ([core/Collection]) *)

(** [Utils.getIn(rcd[index[i]], prop, usingDotNotation)]. *)
Definition indexed_value (rcd : list (gmap string value)) (index : list Z)
    (prop : string) (usingDotNotation : bool) (i : Z) : value :=
  getIn (nthZ index i ≫= nthZ rcd) prop usingDotNotation.

(** The [while (min < max)] loop of [calculateRangeStart]; returns the final
    [min].  [fuel] bounds the number of iterations. *)
Fixpoint rangeStart_loop (key : Z -> value) (val : value) (fuel : nat)
    (min max : Z) : Z :=
  match fuel with
  | O => min
  | S fuel' =>
      if min <? max then
        let mid := Z.shiftr (min + max) 1 in
        if ltHelper (key mid) val false
        then rangeStart_loop key val fuel' (mid + 1) max
        else rangeStart_loop key val fuel' min mid
      else min
  end.

Definition calculateRangeStart (rcd : list (gmap string value)) (index : list Z)
    (prop : string) (val : value) (adaptive usingDotNotation : bool) : Z :=
  let key := indexed_value rcd index prop usingDotNotation in
  let min := 0 in
  let max := lengthZ index - 1 in
  if lengthZ index =? 0 then -1
  else
    let lbound := rangeStart_loop key val (length index) min max in
    if aeqHelper val (key lbound) then lbound
    else if ltHelper val (key lbound) false
         then (if adaptive then lbound else lbound - 1)
         else (if adaptive then lbound + 1 else lbound).

(** The loop of [calculateRangeEnd]; returns the final [max]. *)
Fixpoint rangeEnd_loop (key : Z -> value) (val : value) (fuel : nat)
    (min max : Z) : Z :=
  match fuel with
  | O => max
  | S fuel' =>
      if min <? max then
        let mid := Z.shiftr (min + max) 1 in
        if ltHelper val (key mid) false
        then rangeEnd_loop key val fuel' min mid
        else rangeEnd_loop key val fuel' (mid + 1) max
      else max
  end.

Definition calculateRangeEnd (rcd : list (gmap string value)) (index : list Z)
    (prop : string) (val : value) (usingDotNotation : bool) : Z :=
  let key := indexed_value rcd index prop usingDotNotation in
  let min := 0 in
  let max := lengthZ index - 1 in
  if lengthZ index =? 0 then -1
  else
    let ubound := rangeEnd_loop key val (length index) min max in
    if aeqHelper val (key ubound) then ubound
    else if gtHelper val (key ubound) false then ubound + 1
    else if aeqHelper val (key (ubound - 1)) then ubound - 1
    else ubound.

(** What [calculateRange] returns: [[lo, hi]], or for [$in] the list of
    index positions. *)
Inductive range : Type :=
  | Range (lo hi : Z)
  | Positions (seg : list Z).

(** The [$eq], [$aeq], [$dteq] path of [calculateRange]. *)
Definition calculateRange_eq (rcd : list (gmap string value)) (index : list Z)
    (prop : string) (val : value) : Z * Z :=
  let max := lengthZ index - 1 in
  if lengthZ rcd =? 0 then (0, -1)
  else
    let usingDotNotation := has_dot prop in
    let key := indexed_value rcd index prop usingDotNotation in
    let minVal := key 0 in
    let maxVal := key max in
    if ltHelper val minVal false || gtHelper val maxVal false then (0, -1)
    else
      let lbound := calculateRangeStart rcd index prop val false usingDotNotation in
      let lval := key lbound in
      let ubound := calculateRangeEnd rcd index prop val usingDotNotation in
      if negb (aeqHelper lval val) then (0, -1)
      else (lbound, ubound).

(** The [$in] path: the segments of every value, merged without repeats. *)
Definition merge_segment (segResult : list Z) (seg : Z * Z) : list Z :=
  foldl (fun acc i => if existsb (Z.eqb i) acc then acc else acc ++ [i])
        segResult (seqZ seg.1 (seg.2 - seg.1 + 1)).

Definition calculateRange (rcd : list (gmap string value)) (index : list Z)
    (op : operation) (prop : string) : range :=
  let min := 0 in
  let max := lengthZ index - 1 in
  if lengthZ rcd =? 0 then Range 0 (-1)
  else
    let usingDotNotation := has_dot prop in
    let key := indexed_value rcd index prop usingDotNotation in
    let minVal := key min in
    let maxVal := key max in
    match op with
    | O_eq val | O_aeq val | O_dteq val =>
        let seg := calculateRange_eq rcd index prop val in
        Range seg.1 seg.2
    | O_gt val =>
        if gtHelper val maxVal true then Range 0 (-1)
        else if gtHelper minVal val false then Range min max
        else
          let ubound := calculateRangeEnd rcd index prop val usingDotNotation in
          if negb (aeqHelper (key ubound) val) then Range ubound max
          else Range (ubound + 1) max
    | O_gte val =>
        if gtHelper val maxVal false then Range 0 (-1)
        else if gtHelper minVal val true then Range min max
        else
          let lbound := calculateRangeStart rcd index prop val false usingDotNotation in
          if negb (aeqHelper (key lbound) val) then Range (lbound + 1) max
          else Range lbound max
    | O_lt val =>
        if ltHelper val minVal true then Range 0 (-1)
        else if ltHelper maxVal val false then Range min max
        else
          let lbound := calculateRangeStart rcd index prop val false usingDotNotation in
          if negb (aeqHelper (key lbound) val) then Range min lbound
          else Range min (lbound - 1)
    | O_lte val =>
        if ltHelper val minVal false then Range 0 (-1)
        else if ltHelper maxVal val true then Range min max
        else
          let ubound := calculateRangeEnd rcd index prop val usingDotNotation in
          if negb (aeqHelper (key ubound) val) then Range min (ubound - 1)
          else Range min ubound
    | O_between vals =>
        let val0 := val_at vals 0 in
        let val1 := val_at vals 1 in
        if gtHelper val0 maxVal false then Range 0 (-1)
        else if ltHelper val1 minVal false then Range 0 (-1)
        else
          let lbound := calculateRangeStart rcd index prop val0 false usingDotNotation in
          let ubound := calculateRangeEnd rcd index prop val1 usingDotNotation in
          let lbound := if lbound <? 0 then lbound + 1 else lbound in
          let ubound := if ubound >? max then ubound - 1 else ubound in
          let lbound := if negb (gtHelper (key lbound) val0 true)
                        then lbound + 1 else lbound in
          let ubound := if negb (ltHelper (key ubound) val1 true)
                        then ubound - 1 else ubound in
          if ubound <? lbound then Range 0 (-1)
          else Range lbound ubound
    | O_in vals =>
        Positions
          (foldl (fun segResult v =>
                    merge_segment segResult (calculateRange_eq rcd index prop v))
                 [] vals)
    | _ => Range 0 (lengthZ rcd - 1)
    end.

(** [getBinaryIndexPosition(dataPosition, binaryIndexName)]; [None] is
    [null]. *)
Definition getBinaryIndexPosition (rcd : list (gmap string value))
    (index : list Z) (dataPosition : Z) (binaryIndexName : string) : option Z :=
  let val := getIn (nthZ rcd dataPosition) binaryIndexName true in
  let range := calculateRange_eq rcd index binaryIndexName val in
  if (range.1 =? 0) && (range.2 =? -1) then None
  else
    List.find (fun idx => bool_decide (nthZ index idx = Some dataPosition))
              (seqZ range.1 (range.2 - range.1 + 1)).

(** [adaptiveBinaryIndexInsert(dataPosition, binaryIndexName)] on the index
    [bi = this.binaryIndices[binaryIndexName]]. *)
Definition adaptiveBinaryIndexInsert (rcd : list (gmap string value))
    (dataPosition : Z) (binaryIndexName : string) (bi : BinaryIndex) : BinaryIndex :=
  let usingDotNotation := has_dot binaryIndexName in
  let index := values bi in
  let val := getIn (nthZ rcd dataPosition) binaryIndexName usingDotNotation in
  let idxPos :=
    if lengthZ index =? 0 then 0
    else calculateRangeStart rcd index binaryIndexName val true usingDotNotation in
  {| bi_name := bi_name bi; bi_dirty := bi_dirty bi;
     values := splice_insert index idxPos dataPosition |}.

(** Number of removed positions below [curr], [sortedPositions] ascending:
    the inner [for] of the batch branch. *)
Fixpoint shift_of (curr : Z) (sortedPositions : list Z) : Z :=
  match sortedPositions with
  | [] => 0
  | p :: rest => if curr >? p then 1 + shift_of curr rest else 0
  end.

(** [sortedPositions.sort(function (a, b) { return a - b; })]. *)
Definition sort_positions (positions : list Z) : list Z :=
  merge_sort Z.le positions.

(** [adaptiveBinaryIndexRemove(dataPosition, binaryIndexName,
    removedFromIndexOnly)]: [dataPosition] is a position or a batch of
    positions.  When the position is not found the index is left as it is
    (the source returns [null]). *)
Definition adaptiveBinaryIndexRemove (rcd : list (gmap string value))
    (dataPosition : Z + list Z) (binaryIndexName : string)
    (removedFromIndexOnly : bool) (bi : BinaryIndex) : BinaryIndex :=
  let single (dataPosition : Z) :=
    match getBinaryIndexPosition rcd (values bi) dataPosition binaryIndexName with
    | None => bi
    | Some idxPos =>
        let spliced := splice_remove (values bi) idxPos in
        {| bi_name := bi_name bi; bi_dirty := bi_dirty bi;
           values :=
             if removedFromIndexOnly then spliced
             else (fun v => if v >? dataPosition then v - 1 else v) <$> spliced |}
    end in
  match dataPosition with
  | inl pos => single pos
  | inr [pos] => single pos
  | inr batch =>
      let kept := filter (fun di => di ∉ batch) (values bi) in
      {| bi_name := bi_name bi; bi_dirty := bi_dirty bi;
         values :=
           if removedFromIndexOnly then kept
           else
             let sortedPositions := sort_positions batch in
             (fun curr => curr - shift_of curr sortedPositions) <$> kept |}
  end.

(** * The collection *)

(** [cachedIndex] and [cachedBinaryIndex] are references to the very objects
    [idIndex] and [binaryIndices] point at: what is done to these in place
    shows through the caches.  [cachedIndex] is therefore only recorded as
    set ([true]) or [null] ([false]). *)
Record Collection : Type := mkCollection {
  data : list (gmap string value);
  idIndex : option (list value);
  binaryIndices : gmap string BinaryIndex;
  constraints_unique : gmap string UniqueIndex;
  uniqueNames : list string;
  adaptiveBinaryIndices : bool;
  transactional : bool;
  cloneObjects : bool;
  maxId : value;
  dirty : bool;
  cachedData : option (list (gmap string value));
  cachedIndex : bool
}.

Definition set_data f (c : Collection) : Collection :=
  mkCollection (f (data c)) (idIndex c) (binaryIndices c) (constraints_unique c)
    (uniqueNames c) (adaptiveBinaryIndices c) (transactional c) (cloneObjects c)
    (maxId c) (dirty c) (cachedData c) (cachedIndex c).
Definition set_idIndex f (c : Collection) : Collection :=
  mkCollection (data c) (f (idIndex c)) (binaryIndices c) (constraints_unique c)
    (uniqueNames c) (adaptiveBinaryIndices c) (transactional c) (cloneObjects c)
    (maxId c) (dirty c) (cachedData c) (cachedIndex c).
Definition set_binaryIndices f (c : Collection) : Collection :=
  mkCollection (data c) (idIndex c) (f (binaryIndices c)) (constraints_unique c)
    (uniqueNames c) (adaptiveBinaryIndices c) (transactional c) (cloneObjects c)
    (maxId c) (dirty c) (cachedData c) (cachedIndex c).
Definition set_constraints_unique f (c : Collection) : Collection :=
  mkCollection (data c) (idIndex c) (binaryIndices c) (f (constraints_unique c))
    (uniqueNames c) (adaptiveBinaryIndices c) (transactional c) (cloneObjects c)
    (maxId c) (dirty c) (cachedData c) (cachedIndex c).
Definition set_uniqueNames f (c : Collection) : Collection :=
  mkCollection (data c) (idIndex c) (binaryIndices c) (constraints_unique c)
    (f (uniqueNames c)) (adaptiveBinaryIndices c) (transactional c) (cloneObjects c)
    (maxId c) (dirty c) (cachedData c) (cachedIndex c).
Definition set_maxId f (c : Collection) : Collection :=
  mkCollection (data c) (idIndex c) (binaryIndices c) (constraints_unique c)
    (uniqueNames c) (adaptiveBinaryIndices c) (transactional c) (cloneObjects c)
    (f (maxId c)) (dirty c) (cachedData c) (cachedIndex c).
Definition set_dirty f (c : Collection) : Collection :=
  mkCollection (data c) (idIndex c) (binaryIndices c) (constraints_unique c)
    (uniqueNames c) (adaptiveBinaryIndices c) (transactional c) (cloneObjects c)
    (maxId c) (f (dirty c)) (cachedData c) (cachedIndex c).
Definition set_cached (cd : option (list (gmap string value)))
    (ci : bool) (c : Collection) : Collection :=
  mkCollection (data c) (idIndex c) (binaryIndices c) (constraints_unique c)
    (uniqueNames c) (adaptiveBinaryIndices c) (transactional c) (cloneObjects c)
    (maxId c) (dirty c) cd ci.

(** [prepareFullDocIndex()]: [[0, 1, ..., data.length - 1]]. *)
Definition prepareFullDocIndex (c : Collection) : list Z :=
  seqZ 0 (lengthZ (data c)).

(** [Array.prototype.sort(comparer)]: stable, as ECMAScript 2019 requires;
    [comparer a b] is negative when [a] goes first. *)
Fixpoint sort_insert (comparer : Z -> Z -> Z) (x : Z) (sorted : list Z) : list Z :=
  match sorted with
  | [] => [x]
  | y :: rest =>
      if comparer x y <? 0 then x :: y :: rest
      else y :: sort_insert comparer x rest
  end.

Definition array_sort (comparer : Z -> Z -> Z) (l : list Z) : list Z :=
  foldl (fun sorted x => sort_insert comparer x sorted) [] l.

(** The comparer [ensureIndex] sorts the positions with. *)
Definition wrappedComparer (prop : string) (rcd : list (gmap string value))
    (a b : Z) : Z :=
  let val1 := getIn (nthZ rcd a) prop (has_dot prop) in
  let val2 := getIn (nthZ rcd b) prop (has_dot prop) in
  if negb (strict_eq val1 val2) then
    if ltHelper val1 val2 false then -1
    else if gtHelper val1 val2 false then 1
    else 0
  else 0.

(** The own properties of [Object.prototype]. *)
Definition Object_prototype_keys : list string :=
  ["constructor"; "__defineGetter__"; "__defineSetter__"; "hasOwnProperty";
   "__lookupGetter__"; "__lookupSetter__"; "isPrototypeOf";
   "propertyIsEnumerable"; "toString"; "valueOf"; "__proto__";
   "toLocaleString"].

(** [ensureIndex(property, force)].  [binaryIndices] is made from [{}]:
    besides the indices it owns, [binaryIndices[property]] finds the member
    of [Object.prototype] of that name, which is truthy and whose [dirty]
    reads [undefined].  ([hasOwnProperty] finds the own indices only.) *)
Definition ensureIndex (c : Collection) (property : string) (force : bool)
    : Collection :=
  let existing := binaryIndices c !! property in
  if match existing with
     | Some bi => negb force && negb (bi_dirty bi)
     | None => negb force && bool_decide (property ∈ Object_prototype_keys)
     end
  then c
  else if adaptiveBinaryIndices c && bool_decide (is_Some existing) && negb force
  then c
  else
    let index :=
      {| bi_name := property; bi_dirty := false;
         values := array_sort (wrappedComparer property (data c))
                              (prepareFullDocIndex c) |} in
    set_dirty (fun _ => true)
      (set_binaryIndices (fun b => <[property := index]> b) c).

(** [ensureAllIndexes(force)]: each index is rebuilt from [data] alone. *)
Definition ensureAllIndexes (c : Collection) (force : bool) : Collection :=
  foldl (fun c key => ensureIndex c key force) c
        (map fst (map_to_list (binaryIndices c))).

(** [flagBinaryIndexesDirty()]. *)
Definition flagBinaryIndexesDirty (c : Collection) : Collection :=
  set_binaryIndices
    (fmap (fun bi => {| bi_name := bi_name bi; bi_dirty := true;
                        values := values bi |})) c.

(** [count()] without a query. *)
Definition Collection_count (c : Collection) : Z := lengthZ (data c).

(** [ensureId()]. *)
Definition ensureId (c : Collection) : Collection :=
  match idIndex c with
  | Some _ => c
  | None => set_idIndex (fun _ => Some ((fun d => get_prop d "$loki") <$> data c)) c
  end.

(** Running [index.set(obj)] over documents in turn; the index keeps what
    was set before a throw. *)
Fixpoint UniqueIndex_set_all (u : UniqueIndex) (docs : list (gmap string value))
    : completion unit * UniqueIndex :=
  match docs with
  | [] => (Return (), u)
  | obj :: rest =>
      match UniqueIndex_set u obj with
      | Return u' => UniqueIndex_set_all u' rest
      | Throw e => (Throw e, u)
      end
  end.

(** [ensureUniqueIndex(field)].  [constraints.unique] is made from [{}]:
    for a field named as a member of [Object.prototype], the lookup finds
    that member and the name is not recorded. *)
Definition ensureUniqueIndex (c : Collection) (fld : string)
    : completion UniqueIndex * Collection :=
  let c :=
    match constraints_unique c !! fld with
    | None =>
        if bool_decide (fld ∈ Object_prototype_keys) then c
        else if bool_decide (fld ∈ uniqueNames c) then c
        else set_uniqueNames (fun names => names ++ [fld]) c
    | Some _ => c
    end in
  let '(r, index) := UniqueIndex_set_all (UniqueIndex_new fld) (data c) in
  let c := set_constraints_unique (fun u => <[fld := index]> u) c in
  match r with
  | Return _ => (Return index, c)
  | Throw e => (Throw e, c)
  end.

(** [getUniqueIndex(field, force)]; [Return None] is [undefined].  The
    lookup is that of the indices [constraints.unique] owns: on a field
    named as a member of [Object.prototype] and without an index the source
    returns that member, which is no unique index and is not modelled. *)
Definition getUniqueIndex (c : Collection) (fld : string) (force : bool)
    : completion (option UniqueIndex) * Collection :=
  match constraints_unique c !! fld with
  | Some index => (Return (Some index), c)
  | None =>
      if force then
        match ensureUniqueIndex c fld with
        | (Return index, c') => (Return (Some index), c')
        | (Throw e, c') => (Throw e, c')
        end
      else (Return None, c)
  end.

(** ** Transactions *)

Definition startTransaction (c : Collection) : Collection :=
  if transactional c then
    set_cached (Some ((fun d => clone d ParseStringify) <$> data c))
               (bool_decide (is_Some (idIndex c))) c
  else c.

Definition commit (c : Collection) : Collection :=
  if transactional c then set_cached None false c else c.

(** [rollback()]: [data] goes back to the snapshot; [idIndex] and
    [binaryIndices] are assigned references to themselves. *)
Definition rollback (c : Collection) : Collection :=
  if transactional c then
    match cachedData c, cachedIndex c with
    | Some cd, true => set_data (fun _ => cd) c
    | _, _ => c
    end
  else c.

(** ** [get], [add], [insertOne], [remove] *)

(** An argument handed to the collection: a primitive or a document. *)
Inductive jsarg : Type :=
  | ArgVal (v : value)
  | ArgDoc (d : gmap string value).

(** What [get] returns: [null], [this.data[min]] (which reads [undefined]
    outside [data]), or the pair [[this.data[min], min]]. *)
Inductive getResult : Type :=
  | GotNull
  | GotDoc (d : option (gmap string value))
  | GotPair (d : option (gmap string value)) (position : Z).

(** The [while (data[min] < data[max])] loop of [get]. *)
Fixpoint get_loop (ids : list value) (id : number) (fuel : nat) (min max : Z)
    : Z * Z :=
  match fuel with
  | O => (min, max)
  | S fuel' =>
      if js_lt (val_at ids min) (val_at ids max) then
        let mid := Z.shiftr (min + max) 1 in
        if js_lt (val_at ids mid) (VNum id)
        then get_loop ids id fuel' (mid + 1) max
        else get_loop ids id fuel' min mid
      else (min, max)
  end.

Definition Collection_get (c : Collection) (id : value) (returnPosition : bool)
    : completion getResult * Collection :=
  let c := match idIndex c with None => ensureId c | Some _ => c end in
  let ids := default [] (idIndex c) in
  let max := lengthZ ids - 1 in
  let min := 0 in
  let id := match id with
            | VNum n => n
            | other => parseInt10 (ToString other)
            end in
  if isNaN id then (Throw (TypeError "Passed id is not an integer"), c)
  else
    let '(min, max) := get_loop ids id (length ids) min max in
    if (max =? min) && strict_eq (val_at ids min) (VNum id) then
      if returnPosition then (Return (GotPair (nthZ (data c) min) min), c)
      else (Return (GotDoc (nthZ (data c) min)), c)
    else (Return GotNull, c).

(** [x + 1] where [x] may be a string. *)
Definition js_plus_one (x : value) : value :=
  match x with
  | VStr s => VStr (s +:+ "1")
  | other => VNum (num_succ (ToNumber other))
  end.

(** The loop of [add] over [uniqueNames]. *)
Fixpoint add_unique (c : Collection) (names : list string)
    (obj : gmap string value) : completion unit * Collection :=
  match names with
  | [] => (Return (), c)
  | name :: rest =>
      match getUniqueIndex c name true with
      | (Return (Some index), c1) =>
          match UniqueIndex_set index obj with
          | Return index' =>
              add_unique
                (set_constraints_unique (fun u => <[name := index']> u) c1)
                rest obj
          | Throw e => (Throw e, c1)
          end
      | (Return None, c1) =>
          (Throw (TypeError "Cannot read properties of undefined (reading 'set')"), c1)
      | (Throw e, c1) => (Throw e, c1)
      end
  end.

(** The [try] block of [add]. *)
Definition add_try (c : Collection) (obj : gmap string value)
    : completion (gmap string value) * Collection :=
  let c := startTransaction c in
  let c := set_maxId (fun m => VNum (num_succ (ToNumber m))) c in
  let fallback : completion unit * Collection :=
    if isNaN (ToNumber (maxId c)) then
      match nthZ (data c) (lengthZ (data c) - 1) with
      | Some last =>
          (Return (), set_maxId (fun _ => js_plus_one (get_prop last "$loki")) c)
      | None =>
          (Throw (TypeError "Cannot read properties of undefined (reading '$loki')"), c)
      end
    else (Return (), c) in
  match fallback with
  | (Throw e, c) => (Throw e, c)
  | (Return _, c) =>
      let newId := maxId c in
      let obj := <["$loki" := newId]> obj in
      match add_unique c (uniqueNames c) obj with
      | (Throw e, c) => (Throw e, c)
      | (Return _, c) =>
          let c := set_idIndex (fmap (fun ids => ids ++ [newId])) c in
          let c := set_data (fun d => d ++ [obj]) c in
          let addedPos := lengthZ (data c) - 1 in
          let c :=
            if adaptiveBinaryIndices c then
              set_binaryIndices
                (map_imap (fun key bi =>
                   Some (adaptiveBinaryIndexInsert (data c) addedPos key bi))) c
            else flagBinaryIndexesDirty c in
          let c := commit c in
          let c := set_dirty (fun _ => true) c in
          (Return (if cloneObjects c then clone obj ParseStringify else obj), c)
      end
  end.

(** [add(obj)]: the [catch] rolls back and throws the error again. *)
Definition Collection_add (c : Collection) (obj : jsarg)
    : completion (gmap string value) * Collection :=
  match obj with
  | ArgVal VNull =>
      (Throw (TypeError "Cannot read properties of null (reading '$loki')"), c)
  | ArgVal _ => (Throw (TypeError "Object being added needs to be an object"), c)
  | ArgDoc obj =>
      if negb (strict_eq (get_prop obj "$loki") VUndefined) then
        (Throw (Error "Document is already in collection, please use update()"), c)
      else
        match add_try c obj with
        | (Return r, c) => (Return r, c)
        | (Throw err, c) => (Throw err, rollback c)
        end
  end.

(** [insertOne(doc, bulkInsert)]. *)
Definition insertOne (c : Collection) (doc : jsarg)
    : completion (gmap string value) * Collection :=
  match doc with
  | ArgVal VNull => (Throw (TypeError "Object cannot be null"), c)
  | ArgVal _ => (Throw (TypeError "Document needs to be an object"), c)
  | ArgDoc doc =>
      let obj := if cloneObjects c then clone doc ParseStringify else doc in
      match Collection_add c (ArgDoc obj) with
      | (Throw e, c) => (Throw e, c)
      | (Return added, c) =>
          (* [add] has set [$loki] on [obj] itself; [returnObj], which is
             [clone(obj)] or [obj], is what [add] returned *)
          (Return added, c)
      end
  end.

(** [insert(doc)] for a single document. *)
Definition Collection_insert (c : Collection) (doc : jsarg)
    : completion (gmap string value) * Collection :=
  insertOne c doc.

(** What [remove] returns: the document stripped of [$loki] and [meta], or
    [null] when the [catch] was taken. *)
Inductive removeResult : Type :=
  | RemovedDoc (d : gmap string value)
  | RemovedNull.

(** The [forEach] of [remove] over [uniqueNames]. *)
Fixpoint remove_unique (c : Collection) (names : list string)
    (doc : gmap string value) : completion unit * Collection :=
  match names with
  | [] => (Return (), c)
  | key :: rest =>
      let fieldValue := get_prop doc key in
      if negb (strict_eq fieldValue VNull) && negb (strict_eq fieldValue VUndefined) then
        match getUniqueIndex c key false with
        | (Return (Some index), c1) =>
            match UniqueIndex_remove index fieldValue with
            | Return index' =>
                remove_unique
                  (set_constraints_unique (fun u => <[key := index']> u) c1)
                  rest doc
            | Throw e => (Throw e, c1)
            end
        | (Return None, c1) => remove_unique c1 rest doc
        | (Throw e, c1) => (Throw e, c1)
        end
      else remove_unique c rest doc
  end.

(** The [try] block of [remove]. *)
Definition remove_try (c : Collection) (doc : gmap string value)
    : completion removeResult * Collection :=
  let c := startTransaction c in
  match Collection_get c (get_prop doc "$loki") true with
  | (Throw e, c) => (Throw e, c)
  | (Return (GotPair _ position), c) =>
      match remove_unique c (uniqueNames c) doc with
      | (Throw e, c) => (Throw e, c)
      | (Return _, c) =>
          let c :=
            if adaptiveBinaryIndices c then
              set_binaryIndices
                (map_imap (fun key bi =>
                   Some (adaptiveBinaryIndexRemove (data c) (inl position) key false bi))) c
            else flagBinaryIndexesDirty c in
          let c := set_data (fun d => splice_remove d position) c in
          let c := set_idIndex (fmap (fun ids => splice_remove ids position)) c in
          let c := commit c in
          let c := set_dirty (fun _ => true) c in
          (Return (RemovedDoc (delete "meta" (delete "$loki" doc))), c)
      end
  | (Return _, c) =>
      (Throw (TypeError "Cannot read properties of null (reading '1')"), c)
  end.

(** [remove(doc)] for a document or a [$loki] id.  An error inside the
    [try] is caught: the collection is rolled back and [null] returned. *)
Definition Collection_remove (c : Collection) (doc : jsarg)
    : completion removeResult * Collection :=
  let '(looked_up, c) :=
    match doc with
    | ArgVal (VNum n) =>
        match Collection_get c (VNum n) false with
        | (Return (GotDoc (Some d)), c) => (Return (ArgDoc d), c)
        | (Return (GotDoc None), c) => (Return (ArgVal VUndefined), c)
        | (Return _, c) => (Return (ArgVal VNull), c)
        | (Throw e, c) => (Throw e, c)
        end
    | other => (Return other, c)
    end in
  match looked_up with
  | Throw e => (Throw e, c)
  | Return (ArgVal VNull) =>
      (Throw (TypeError "Cannot convert undefined or null to object"), c)
  | Return (ArgVal _) => (Throw (Error "Parameter is not an object"), c)
  | Return (ArgDoc doc) =>
      if bool_decide (doc !! "$loki" = None) then
        (Throw (Error "Object is not a document stored in the collection"), c)
      else
        match remove_try c doc with
        | (Return r, c) => (Return r, c)
        | (Throw err, c) => (Return RemovedNull, rollback c)
        end
  end.

(** * The result set ([core/ResultSet.ts]) *)

(** A result set refers to its collection; the state of the collection is
    carried along, since [find] may rebuild a lazy index. *)
Record Resultset : Type := mkResultset {
  collection : Collection;
  filteredrows : list Z;
  filterInitialized : bool
}.

(** [new Resultset(collection)], which is [collection.chain()]. *)
Definition chain (c : Collection) : Resultset :=
  {| collection := c; filteredrows := []; filterInitialized := false |}.

(** [copy()], also [branch()]. *)
Definition copy (rs : Resultset) : Resultset :=
  {| collection := collection rs;
     filteredrows := filteredrows rs;
     filterInitialized := filterInitialized rs |}.

(** [count()]. *)
Definition Resultset_count (rs : Resultset) : Z :=
  if filterInitialized rs then lengthZ (filteredrows rs)
  else Collection_count (collection rs).

(** A query object.  [{ p: v }] is the shorthand for [{ p: { $eq: v } }];
    an object with several properties is rewritten by [find] into the
    [$and] of its single-property parts before anything else, and is
    represented in that form.  [{ $and: [...] }] and [{ $or: [...] }] are
    [QAnd] and [QOr]; the property of a [QProp] is any other name. *)
Inductive condition : Type :=
  | CValue (v : value)
  | COp (op : operation).

Inductive query : Type :=
  | QAll
  | QProp (property : string) (cond : condition)
  | QAnd (expressionArray : list query)
  | QOr (expressionArray : list query).

(** A linear scan: [test] is the predicate applied at a row (it may throw),
    [firstOnly] stops at the first hit. *)
Fixpoint scan_rows (test : Z -> completion bool) (rows : list Z)
    (firstOnly : bool) : completion (list Z) :=
  match rows with
  | [] => Return []
  | rowIdx :: rest =>
      match test rowIdx with
      | Throw e => Throw e
      | Return true =>
          if firstOnly then Return [rowIdx]
          else match scan_rows test rest firstOnly with
               | Return result => Return (rowIdx :: result)
               | Throw e => Throw e
               end
      | Return false => scan_rows test rest firstOnly
      end
  end.

(** The branch of [find] taken when no property is queried. *)
Definition find_all (rs : Resultset) (firstOnly : bool) : Resultset :=
  if firstOnly then
    if filterInitialized rs then
      {| collection := collection rs;
         filteredrows := firstn 1 (filteredrows rs);
         filterInitialized := true |}
    else
      {| collection := collection rs;
         filteredrows := if lengthZ (data (collection rs)) >? 0 then [0] else [];
         filterInitialized := true |}
  else rs.

(** [find] on a single [{ property: ... }] expression.  The lookup
    [binaryIndices[property]] is that of the indices the collection owns: on
    a property named as a member of [Object.prototype] and without an index
    the source takes that member for an index, which is not modelled. *)
Definition find_property (rs : Resultset) (property : string)
    (cond : condition) (firstOnly : bool) : completion Resultset :=
  let operator := match cond with CValue v => O_eq v | COp op => op end in
  let usingDotNotation := has_dot property in
  let doIndexCheck := negb (filterInitialized rs) in
  let c := collection rs in
  let searchByIndex :=
    doIndexCheck && bool_decide (is_Some (binaryIndices c !! property))
    && match indexedOps operator with NotIndexed => false | _ => true end in
  let c :=
    if searchByIndex && negb (adaptiveBinaryIndices c)
    then ensureIndex c property false else c in
  let scanOperator :=
    match operator with
    | O_in vals => if searchByIndex then operator else O_inSet vals
    | _ => operator
    end in
  let fun_ := LokiOps scanOperator in
  let t := data c in
  let test (rowIdx : Z) : completion bool :=
    if usingDotNotation then
      dotSubScan (match nthZ t rowIdx with
                  | Some record => RootDoc record
                  | None => RootVal VUndefined
                  end) (split_dot property) fun_
    else
      match nthZ t rowIdx with
      | Some record => Return (fun_ (get_prop record property))
      | None => Throw (TypeError "Cannot read properties of undefined")
      end in
  let finish (result : completion (list Z)) : completion Resultset :=
    match result with
    | Return rows =>
        Return {| collection := c; filteredrows := rows; filterInitialized := true |}
    | Throw e => Throw e
    end in
  if filterInitialized rs then finish (scan_rows test (filteredrows rs) firstOnly)
  else if negb searchByIndex then
    finish (scan_rows test (seqZ 0 (lengthZ t)) firstOnly)
  else
    let index := default [] (values <$> binaryIndices c !! property) in
    (* a position read outside the index is [undefined]; it only serves to
       index [data] and is represented by [-1], which reads [undefined] too *)
    let row (i : Z) : Z := default (-1) (nthZ index i) in
    match calculateRange t index operator property with
    | Range lo hi =>
        let candidates := row <$> seqZ lo (hi - lo + 1) in
        match indexedOps operator with
        | IndexedSecondPass f =>
            finish (scan_rows
                      (fun r => Return (f (getIn (nthZ t r) property usingDotNotation)
                                          (operand operator)))
                      candidates firstOnly)
        | _ => finish (scan_rows (fun _ => Return true) candidates firstOnly)
        end
    | Positions segm =>
        finish (scan_rows (fun _ => Return true) (row <$> segm) firstOnly)
    end.

(** [find(query, firstOnly)], with [findAnd] and [findOr] inlined as the
    local loops over the expression array. *)
Fixpoint Resultset_find (q : query) (firstOnly : bool) (rs : Resultset)
    {struct q} : completion Resultset :=
  if lengthZ (data (collection rs)) =? 0 then
    Return {| collection := collection rs; filteredrows := [];
              filterInitialized := true |}
  else
    match q with
    | QAll => Return (find_all rs firstOnly)
    | QProp property cond =>
        if String.eqb property "" then Return (find_all rs firstOnly)
        else find_property rs property cond firstOnly
    | QAnd expressionArray =>
        let fix findAnd (exprs : list query) (rs : Resultset)
            : completion Resultset :=
          match exprs with
          | [] => Return rs
          | e :: rest =>
              if Resultset_count rs =? 0 then Return rs
              else match Resultset_find e false rs with
                   | Return rs' => findAnd rest rs'
                   | Throw err => Throw err
                   end
          end in
        match findAnd expressionArray rs with
        | Return rs' =>
            Return (if firstOnly && (lengthZ (filteredrows rs') >? 1)
                    then {| collection := collection rs';
                            filteredrows := firstn 1 (filteredrows rs');
                            filterInitialized := filterInitialized rs' |}
                    else rs')
        | Throw err => Throw err
        end
    | QOr expressionArray =>
        let fix findOr (exprs : list query) (c : Collection) (docset : list Z)
            : completion (Collection * list Z) :=
          match exprs with
          | [] => Return (c, docset)
          | e :: rest =>
              match Resultset_find e false
                      (copy {| collection := c; filteredrows := filteredrows rs;
                               filterInitialized := filterInitialized rs |}) with
              | Return branch =>
                  findOr rest (collection branch)
                    (foldl (fun docset idx =>
                              if existsb (Z.eqb idx) docset then docset
                              else docset ++ [idx])
                           docset (filteredrows branch))
              | Throw err => Throw err
              end
          end in
        match findOr expressionArray (collection rs) [] with
        | Return (c, docset) =>
            let rows := if firstOnly && (lengthZ docset >? 1)
                        then firstn 1 docset else docset in
            Return {| collection := c; filteredrows := rows;
                      filterInitialized := true |}
        | Throw err => Throw err
        end
    end.

(** [collection.find(query)] is [chain().find(query).data()]; its rows are
    those of [Resultset_find q false (chain c)]. *)

(** ** [data(options)] *)

Record dataOptions : Type := mkDataOptions {
  forceClones : bool;
  forceCloneMethod : option cloneMethod;
  removeMeta : bool
}.

(** [data()] called without options. *)
Definition no_options : dataOptions :=
  {| forceClones := false; forceCloneMethod := None; removeMeta := false |}.

(** What [data] does to one row, once it clones: [clone(undefined)] is
    [null], on which [delete obj.$loki] throws.  A row that is [null] or
    [undefined] is [None]. *)
Definition clone_row (method : cloneMethod) (strip : bool)
    (row : option (gmap string value)) : completion (option (gmap string value)) :=
  match row with
  | Some d =>
      match clone_error d method with
      | Some e => Throw e
      | None =>
          let obj := clone d method in
          Return (Some (if strip then delete "meta" (delete "$loki" obj) else obj))
      end
  | None =>
      if strip then Throw (TypeError "Cannot convert undefined or null to object")
      else Return None
  end.

Fixpoint clone_rows (method : cloneMethod) (strip : bool)
    (rows : list (option (gmap string value)))
    : completion (list (option (gmap string value))) :=
  match rows with
  | [] => Return []
  | row :: rest =>
      match clone_row method strip row with
      | Throw e => Throw e
      | Return obj =>
          match clone_rows method strip rest with
          | Throw e => Throw e
          | Return result => Return (obj :: result)
          end
      end
  end.

(** [data(options)]: the array returned, and the result set, which [data]
    marks as initialized when [filteredrows] was filled by hand. *)
Definition Resultset_data (rs : Resultset) (options : dataOptions)
    : completion (list (option (gmap string value))) * Resultset :=
  let data_ := data (collection rs) in
  let options :=
    if removeMeta options && negb (forceClones options) then
      {| forceClones := true;
         forceCloneMethod := Some (default Shallow (forceCloneMethod options));
         removeMeta := removeMeta options |}
    else options in
  let cloning := cloneObjects (collection rs) || forceClones options in
  let method := default ParseStringify (forceCloneMethod options) in
  if negb (filterInitialized rs) && (lengthZ (filteredrows rs) =? 0) then
    if cloning then
      (clone_rows method (removeMeta options) (Some <$> data_), rs)
    else (Return (Some <$> data_), rs)
  else
    let rs := {| collection := collection rs; filteredrows := filteredrows rs;
                 filterInitialized := true |} in
    let rows := (fun i => nthZ data_ i) <$> filteredrows rs in
    if cloning then (clone_rows method (removeMeta options) rows, rs)
    else (Return rows, rs).

(** ** [eqJoin] *)

(** The lookup table [joinMap = {}] is an ordinary object: besides its own
    properties it answers for what it inherits.  Assigning to [__proto__]
    replaces its prototype by the assigned row instead of adding a
    property. *)
Record JoinMap : Type := mkJoinMap {
  own : gmap string (gmap string value);
  proto : option (gmap string value)
}.

(** What the map function may receive as [right]. *)
Inductive joinRight : Type :=
  | RightRow (d : gmap string value)      (* a row, or the fresh [{}] *)
  | RightValue (v : value)                (* a property of the row set as prototype *)
  | RightInherited (name : string)        (* a member of [Object.prototype] *)
  | RightObjectPrototype.                 (* [Object.prototype] itself *)

Definition empty_object : joinRight := RightRow ∅.

Definition JoinMap_set (m : JoinMap) (key : string) (row : gmap string value)
    : JoinMap :=
  if String.eqb key "__proto__" then {| own := own m; proto := Some row |}
  else {| own := <[key := row]> (own m); proto := proto m |}.

(** [joinMap[key]]; [None] is [undefined]. *)
Definition JoinMap_get (m : JoinMap) (key : string) : option joinRight :=
  match own m !! key with
  | Some row => Some (RightRow row)
  | None =>
      if String.eqb key "__proto__" then
        Some (match proto m with
              | Some row => RightRow row
              | None => RightObjectPrototype
              end)
      else
        match proto m ≫= (fun row => row !! key) with
        | Some v => Some (RightValue v)
        | None =>
            if bool_decide (key ∈ Object_prototype_keys)
            then Some (RightInherited key) else None
        end
  end.

(** [joinMap[key] || {}]. *)
Definition right_or_empty (found : option joinRight) : joinRight :=
  match found with
  | Some (RightValue v) => if falsy v then empty_object else RightValue v
  | Some r => r
  | None => empty_object
  end.

Inductive joinKey : Type :=
  | KeyField (name : string)
  | KeyFun (f : gmap string value -> value).

Definition join_key (k : joinKey) (row : gmap string value) : string :=
  ToString (match k with
            | KeyField name => get_prop row name
            | KeyFun f => f row
            end).

Inductive joinSource : Type :=
  | JoinCollection (c : Collection)
  | JoinResultset (rs : Resultset)
  | JoinArray (rows : list (gmap string value))
  | JoinOther.

Fixpoint build_joinMap (rightJoinKey : joinKey)
    (rightData : list (option (gmap string value))) (joinMap : JoinMap)
    : completion JoinMap :=
  match rightData with
  | [] => Return joinMap
  | Some row :: rest =>
      build_joinMap rightJoinKey rest
        (JoinMap_set joinMap (join_key rightJoinKey row) row)
  | None :: _ => Throw (TypeError "Cannot read properties of undefined")
  end.

Fixpoint join_rows {R : Type} (leftJoinKey : joinKey) (joinMap : JoinMap)
    (mapFun : gmap string value -> joinRight -> R)
    (leftData : list (option (gmap string value))) : completion (list R) :=
  match leftData with
  | [] => Return []
  | Some leftRow :: rest =>
      let row := mapFun leftRow
                   (right_or_empty
                      (JoinMap_get joinMap (join_key leftJoinKey leftRow))) in
      match join_rows leftJoinKey joinMap mapFun rest with
      | Return result => Return (row :: result)
      | Throw e => Throw e
      end
  | None :: _ => Throw (TypeError "Cannot read properties of undefined")
  end.

(** The map function [eqJoin] uses when none is given. *)
Definition default_mapFun (leftRow : gmap string value) (rightRow : joinRight)
    : gmap string value * joinRight := (leftRow, rightRow).

(** [eqJoin(joinData, leftJoinKey, rightJoinKey, mapFun, dataOptions)] up to
    the array [result] of joined rows.  The source then hands [result] to
    [insert] on a fresh collection named 'joinData' and resets the filter;
    that collection stamps [meta] from the clock and is not embedded. *)
Definition Resultset_eqJoin {R : Type} (rs : Resultset) (joinData : joinSource)
    (leftJoinKey rightJoinKey : joinKey)
    (mapFun : gmap string value -> joinRight -> R) (dataOptions : dataOptions)
    : completion (list R) :=
  match (Resultset_data rs dataOptions).1 with
  | Throw e => Throw e
  | Return leftData =>
      let rightData : completion (list (option (gmap string value))) :=
        match joinData with
        | JoinCollection c => (Resultset_data (chain c) dataOptions).1
        | JoinResultset rightSet => (Resultset_data rightSet dataOptions).1
        | JoinArray rows => Return (Some <$> rows)
        | JoinOther => Throw (TypeError "joinData needs to be an array or result set")
        end in
      match rightData with
      | Throw e => Throw e
      | Return rightData =>
          match build_joinMap rightJoinKey rightData
                  {| own := ∅; proto := None |} with
          | Throw e => Throw e
          | Return joinMap => join_rows leftJoinKey joinMap mapFun leftData
          end
      end
  end.

(** * The comparator as a three-way comparison

    The specification asks for one three-way comparison from which [lt],
    [gt] and [aeq] derive.  [Comparator] is that comparison, written from
    the words of the specification: edge values by tier, then values that
    coerce to a number by their number, then the others as strings.  The
    tiers are those of the code: [NaN] sorts below [undefined] and [null]. *)

Inductive extended : Type :=
  | ENegInf
  | EFin (q : Qc)
  | EPosInf.

Inductive sortKey : Type :=
  | KEdge (t : Z)
  | KNumber (n : extended)
  | KString (s : string).

Definition number_key (n : number) (otherwise : sortKey) : sortKey :=
  match n with
  | NaN => otherwise
  | NegInfinity => KNumber ENegInf
  | Finite q => KNumber (EFin q)
  | PosInfinity => KNumber EPosInf
  end.

Definition sort_key (v : value) : sortKey :=
  match v with
  | VNum NaN => KEdge 0
  | VUndefined | VNull => KEdge 1
  | VBool false => KEdge 3
  | VBool true => KEdge 4
  | VStr EmptyString => KEdge 5
  | VNum n => number_key n (KEdge 0)
  | VStr s => number_key (StringToNumber s) (KString s)
  end.

Definition extended_compare (x y : extended) : comparison :=
  match x, y with
  | ENegInf, ENegInf => Eq
  | ENegInf, _ => Lt
  | _, ENegInf => Gt
  | EPosInf, EPosInf => Eq
  | EPosInf, _ => Gt
  | _, EPosInf => Lt
  | EFin p, EFin q => (p ?= q)%Qc
  end.

Definition key_compare (a b : sortKey) : comparison :=
  match a, b with
  | KEdge x, KEdge y => x ?= y
  | KEdge _, _ => Lt
  | _, KEdge _ => Gt
  | KNumber x, KNumber y => extended_compare x y
  | KNumber _, KString _ => Lt
  | KString _, KNumber _ => Gt
  | KString x, KString y => String.compare x y
  end.

Definition Comparator (a b : value) : comparison :=
  key_compare (sort_key a) (sort_key b).

(** The tier order as the specification words it, [undefined] and [null]
    below [NaN]; kept to state where the code departs from it. *)
Definition spec_tier (v : value) : Z :=
  match v with
  | VUndefined | VNull => 0
  | VNum NaN => 1
  | VBool false => 2
  | VBool true => 3
  | VStr EmptyString => 4
  | _ => 5
  end.

(** ** Well-formed indices

    A binary index that is not dirty lists positions whose keys do not
    decrease under the comparator. *)
Definition keys_sorted (key : Z -> value) (n : Z) : Prop :=
  forall i j, 0 <= i -> i <= j -> j < n -> Comparator (key i) (key j) <> Gt.

Definition index_sorted (rcd : list (gmap string value)) (index : list Z)
    (prop : string) : Prop :=
  keys_sorted (indexed_value rcd index prop (has_dot prop)) (lengthZ index).

Definition is_Eq (c : comparison) : bool :=
  match c with Eq => true | _ => false end.

(** On sorted keys, [lb] is the first position whose key is not below
    [val] and [ub] the first whose key is above it (the length when there
    is none). *)
Definition first_not_below (key : Z -> value) (n : Z) (val : value) (lb : Z)
    : Prop :=
  0 <= lb <= n
  /\ (forall i, 0 <= i < lb -> Comparator (key i) val = Lt)
  /\ (forall i, lb <= i < n -> Comparator (key i) val <> Lt).

Definition first_above (key : Z -> value) (n : Z) (val : value) (ub : Z)
    : Prop :=
  0 <= ub <= n
  /\ (forall i, 0 <= i < ub -> Comparator val (key i) <> Lt)
  /\ (forall i, ub <= i < n -> Comparator val (key i) = Lt).

(** The comparator test an index-eligible range operator stands for. *)
Definition range_test (op : operation) (v : value) : bool :=
  match op with
  | O_eq val | O_aeq val | O_dteq val => aeqHelper v val
  | O_gt val => gtHelper v val false
  | O_gte val => gtHelper v val true
  | O_lt val => ltHelper v val false
  | O_lte val => ltHelper v val true
  | O_between vals =>
      gtHelper v (val_at vals 0) true && ltHelper v (val_at vals 1) true
  | _ => false
  end.

Definition range_operator (op : operation) : bool :=
  match op with
  | O_eq _ | O_aeq _ | O_dteq _ | O_gt _ | O_gte _ | O_lt _ | O_lte _
  | O_between _ => true
  | _ => false
  end.

(** A decision procedure for [keys_sorted], to run on concrete indices. *)
Definition keys_sortedb (key : Z -> value) (n : Z) : bool :=
  forallb (fun i =>
    forallb (fun j => match Comparator (key i) (key j) with
                      | Gt => false | _ => true end)
            (seqZ i (n - i)))
    (seqZ 0 n).

(** ** The [$loki] index

    [idIndex], when built, lists the [$loki] of the documents in order;
    [get] relies on these being numbers in strictly ascending order. *)
Definition loki_ids (c : Collection) : list value :=
  (fun d => get_prop d "$loki") <$> data c.

Definition idIndex_parallel (c : Collection) : Prop :=
  default (loki_ids c) (idIndex c) = loki_ids c.

Definition ids_ascending (ids : list value) : Prop :=
  forall i j, 0 <= i -> i < j -> j < lengthZ ids ->
    exists x y, nthZ ids i = Some (VNum x) /\ nthZ ids j = Some (VNum y)
                /\ num_lt x y = true.

(** The id [get] searches for: a number as it is, anything else through
    [parseInt(id, 10)]. *)
Definition coerce_id (id : value) : number :=
  match id with
  | VNum n => n
  | other => parseInt10 (ToString other)
  end.

(** Every value is an edge value with a tier below 9, or coerces to a
    number, or is a non-empty string that does not. *)
Definition number_of_extended (x : extended) : number :=
  match x with
  | ENegInf => NegInfinity
  | EFin q => Finite q
  | EPosInf => PosInfinity
  end.

Inductive value_kind (v : value) : Type :=
  | IsEdge (t : Z) :
      tier v = t -> 0 <= t < 9 -> sort_key v = KEdge t ->
      (forall w, edge_guard v w = true) -> (forall w, edge_guard w v = true) ->
      value_kind v
  | IsNumber (x : extended) :
      tier v = 9 -> ToNumber v = number_of_extended x ->
      sort_key v = KNumber x -> value_kind v
  | IsString (s : string) :
      tier v = 9 -> v = VStr s -> ToNumber v = NaN ->
      sort_key v = KString s -> value_kind v.

(** ** Statements about [add], [insert] and [data] *)

Definition already_in_collection : exn :=
  Error "Document is already in collection, please use update()".

(** The errors [UniqueIndex.set] throws. *)
Definition DuplicateKey (e : exn) : Prop :=
  exists fld key,
    e = Error ("Duplicate key for property " +:+ fld +:+ ": " +:+ key).

(** Two states of a collection with the same documents, indexes on them,
    configuration and transaction snapshot: they may differ in the unique
    indexes, in [maxId] and in [dirty]. *)
Definition same_store (c c' : Collection) : Prop :=
  data c' = data c /\ idIndex c' = idIndex c
  /\ binaryIndices c' = binaryIndices c
  /\ adaptiveBinaryIndices c' = adaptiveBinaryIndices c
  /\ transactional c' = transactional c /\ cloneObjects c' = cloneObjects c
  /\ cachedData c' = cachedData c /\ cachedIndex c' = cachedIndex c.

(** The method [data(options)] clones with, when it clones. *)
Definition data_method (options : dataOptions) : cloneMethod :=
  if removeMeta options && negb (forceClones options)
  then default Shallow (forceCloneMethod options)
  else default ParseStringify (forceCloneMethod options).

(** The error [data(options)] meets on a stored document, if any: that of
    [clone], when it clones. *)
Definition handing_out_error (c : Collection) (options : dataOptions)
    (d : gmap string value) : option exn :=
  if cloneObjects c || forceClones options || removeMeta options
  then clone_error d (data_method options) else None.

(** The document [data(options)] hands out for a stored one: the document
    itself, or its clone, stripped of [$loki] and [meta] on [removeMeta]. *)
Definition handed_out (c : Collection) (options : dataOptions)
    (d : gmap string value) : gmap string value :=
  if cloneObjects c || forceClones options || removeMeta options then
    let obj := clone d (data_method options) in
    if removeMeta options then delete "meta" (delete "$loki" obj) else obj
  else d.

(** A decision procedure for [ids_ascending]. *)
Definition ids_ascendingb (ids : list value) : bool :=
  forallb (fun i =>
    forallb (fun j => match nthZ ids i, nthZ ids j with
                      | Some (VNum x), Some (VNum y) => num_lt x y
                      | _, _ => false
                      end)
            (seqZ (i + 1) (lengthZ ids - i - 1)))
    (seqZ 0 (lengthZ ids)).

(** ** Collections of the examples *)

(** [new Collection(name)] with the default options, but [disableMeta]. *)
Definition new_collection : Collection :=
  {| data := []; idIndex := None; binaryIndices := ∅;
     constraints_unique := ∅; uniqueNames := [];
     adaptiveBinaryIndices := true; transactional := false;
     cloneObjects := false; maxId := VNum (num_of_Z 0); dirty := true;
     cachedData := None; cachedIndex := false |}.

Definition person (name : string) (age : value) (id : Z) : gmap string value :=
  {[ "name" := VStr name; "age" := age; "$loki" := VNum (num_of_Z id) ]}.

(** Three documents, inserted in this order, with an adaptive binary index
    on [age]. *)
Definition people : Collection :=
  {| data := [person "a" (VNum (num_of_Z 30)) 1;
              person "b" (VNum (num_of_Z 25)) 2;
              person "c" (VNum (num_of_Z 40)) 3];
     idIndex := Some [VNum (num_of_Z 1); VNum (num_of_Z 2); VNum (num_of_Z 3)];
     binaryIndices :=
       {[ "age" := {| bi_name := "age"; bi_dirty := false; values := [1; 0; 2] |} ]};
     constraints_unique := ∅; uniqueNames := [];
     adaptiveBinaryIndices := true; transactional := false;
     cloneObjects := false; maxId := VNum (num_of_Z 3); dirty := true;
     cachedData := None; cachedIndex := false |}.

(** One document whose [age] is [NaN], under a binary index on [age]. *)
Definition ageless : Collection :=
  {| data := [person "a" (VNum NaN) 1];
     idIndex := Some [VNum (num_of_Z 1)];
     binaryIndices :=
       {[ "age" := {| bi_name := "age"; bi_dirty := false; values := [0] |} ]};
     constraints_unique := ∅; uniqueNames := [];
     adaptiveBinaryIndices := true; transactional := false;
     cloneObjects := false; maxId := VNum (num_of_Z 1); dirty := true;
     cachedData := None; cachedIndex := false |}.

(** A collection with a unique constraint on [name], after
    [insert({ name: 'a' })]. *)
Definition named : Collection :=
  {| data := [{[ "name" := VStr "a"; "$loki" := VNum (num_of_Z 1) ]}];
     idIndex := None;
     binaryIndices := ∅;
     constraints_unique :=
       {[ "name" :=
            {| field := "name";
               keyMap := {[ "a" := {[ "name" := VStr "a";
                                      "$loki" := VNum (num_of_Z 1) ]} ]};
               lokiMap := {[ "1" := VStr "a" ]} |} ]};
     uniqueNames := ["name"];
     adaptiveBinaryIndices := true; transactional := false;
     cloneObjects := false; maxId := VNum (num_of_Z 1); dirty := true;
     cachedData := None; cachedIndex := false |}.

(** One document whose join key is the string 'constructor'. *)
Definition constructors : Collection :=
  {| data := [{[ "k" := VStr "constructor"; "$loki" := VNum (num_of_Z 1) ]}];
     idIndex := None; binaryIndices := ∅;
     constraints_unique := ∅; uniqueNames := [];
     adaptiveBinaryIndices := true; transactional := false;
     cloneObjects := false; maxId := VNum (num_of_Z 1); dirty := true;
     cachedData := None; cachedIndex := false |}.

(** The query [{ age: { $aeq: NaN } }]. *)
Definition aeq_NaN : query := QProp "age" (COp (O_aeq (VNum NaN))).

(** [filteredrows] after a [find]. *)
Definition found_rows (r : completion Resultset) : completion (list Z) :=
  match r with
  | Return rs => Return (filteredrows rs)
  | Throw e => Throw e
  end.

(** [rs.find(q).find(q)]. *)
Definition find_twice (q : query) (rs : Resultset) : completion Resultset :=
  match Resultset_find q false rs with
  | Return rs' => Resultset_find q false rs'
  | Throw e => Throw e
  end.

(** ** Invariants of a collection

    A binary index that is not dirty holds every position of [data] once,
    sorted by the key found there. *)
Definition binary_index_ok (rcd : list (gmap string value)) (name : string)
    (bi : BinaryIndex) : Prop :=
  values bi ≡ₚ seqZ 0 (lengthZ rcd) /\ index_sorted rcd (values bi) name.

Definition indices_ok (c : Collection) : Prop :=
  forall name bi, binaryIndices c !! name = Some bi ->
    binary_index_ok (data c) name bi.

(** What removing position [k] from [data] does to a stored position. *)
Definition shift_down (k v : Z) : Z := if v >? k then v - 1 else v.

(** The binary index [bi] once position [k] has left [data]. *)
Definition index_without (k : Z) (bi : BinaryIndex) : BinaryIndex :=
  {| bi_name := bi_name bi; bi_dirty := bi_dirty bi;
     values := shift_down k <$> filter (fun v => v <> k) (values bi) |}.

(** The test of [UniqueIndex.set] and of [remove] on a field value:
    [fieldValue !== null && typeof fieldValue !== 'undefined']. *)
Definition has_key (fieldValue : value) : bool :=
  negb (strict_eq fieldValue VNull) && negb (strict_eq fieldValue VUndefined).

(** The index kept under a name is the index of that field, and the unique
    names are listed once. *)
Definition fields_ok (c : Collection) : Prop :=
  forall name u, constraints_unique c !! name = Some u -> field u = name.

Definition unique_ok (c : Collection) : Prop :=
  NoDup (uniqueNames c) /\ fields_ok c.

(** [Number.isSafeInteger]: an integer of magnitude below 2^53.  One more
    than a safe integer is a double, so that [maxId++] is exact on it; from
    2^53 on, [x + 1] is rounded and may be [x] again. *)
Definition safe_integer (x : number) : Prop :=
  exists z, x = num_of_Z z /\ - 2 ^ 53 < z < 2 ^ 53.

(** No stored [$loki] reaches [maxId + 1], the next id. *)
Definition ids_below_maxId (c : Collection) : Prop :=
  exists q, ToNumber (maxId c) = Finite q
    /\ forall v, v ∈ loki_ids c ->
         exists x, v = VNum x /\ num_lt x (Finite (q + 1)%Qc) = true.

(** ** Sortedness of an index, position by position

    [key_at rcd prop v] is the key a binary index on [prop] sorts the data
    position [v] by. *)
Definition key_at (rcd : list (gmap string value)) (prop : string) (v : Z) : value :=
  getIn (nthZ rcd v) prop (has_dot prop).

Definition key_le (rcd : list (gmap string value)) (prop : string) (a b : Z) : Prop :=
  Comparator (key_at rcd prop a) (key_at rcd prop b) <> Gt.

(** ** Statements about [find]

    The operators whose test on a linear scan is the comparator test the
    index range stands for ([$eq] through its second pass). *)
Definition comparator_operator (op : operation) : bool :=
  match op with
  | O_eq _ | O_dteq _ | O_gt _ | O_gte _ | O_lt _ | O_lte _ => true
  | _ => false
  end.

(** [data[r][prop]], which reads [undefined] where [data] has no document. *)
Definition field_at (c : Collection) (prop : string) (r : Z) : value :=
  match nthZ (data c) r with
  | Some d => get_prop d prop
  | None => VUndefined
  end.

(** The position what is at [i], once [k] has left, came from. *)
Definition shift_up (k i : Z) : Z := if i <? k then i else i + 1.

(** ** [by(field, value)]

    What [by] returns: the function it curries into when [value] is
    [undefined], the document the unique index holds (its clone when the
    collection clones), or, for a key the index does not hold, [undefined]
    (and [null] when the collection clones, [clone(undefined)] being
    [null]). *)
Inductive byResult : Type :=
  | ByFunction
  | ByDoc (d : gmap string value)
  | ByUndefined
  | ByNull.

Definition Collection_by (c : Collection) (fld : string) (val : value)
    : completion byResult * Collection :=
  if strict_eq val VUndefined then (Return ByFunction, c)
  else
    match getUniqueIndex c fld true with
    | (Throw e, c) => (Throw e, c)
    | (Return None, c) =>
        (Throw (TypeError "Cannot read properties of undefined (reading 'get')"), c)
    | (Return (Some index), c) =>
        let result := UniqueIndex_get index val in
        if negb (cloneObjects c) then
          (Return (match result with Some d => ByDoc d | None => ByUndefined end), c)
        else
          (Return (match result with
                   | Some d => ByDoc (clone d ParseStringify)
                   | None => ByNull
                   end), c)
    end.

(** ** [limit], [offset], [where] *)

(** [l.slice(start, end)] on integers; [end] may be left out.  A negative
    bound counts from the end of the array. *)
Definition js_slice {A : Type} (l : list A) (start : Z) (stop : option Z) : list A :=
  let len := lengthZ l in
  let relative x := if x <? 0 then Z.max (len + x) 0 else Z.min x len in
  let k := relative start in
  let final := match stop with Some e => relative e | None => len end in
  firstn (Z.to_nat (final - k)) (skipn (Z.to_nat k) l).

(** The head of [limit] and [offset]: a result set no filter was applied to
    takes every position of the collection as its rows. *)
Definition populate (rs : Resultset) : Resultset :=
  if negb (filterInitialized rs) && (lengthZ (filteredrows rs) =? 0) then
    {| collection := collection rs;
       filteredrows := prepareFullDocIndex (collection rs);
       filterInitialized := filterInitialized rs |}
  else rs.

(** [limit(qty)]: the copy returned, and the result set it was called on. *)
Definition Resultset_limit (rs : Resultset) (qty : Z) : Resultset * Resultset :=
  let this := populate rs in
  ({| collection := collection this;
      filteredrows := js_slice (filteredrows this) 0 (Some qty);
      filterInitialized := true |}, this).

(** [offset(pos)]. *)
Definition Resultset_offset (rs : Resultset) (pos : Z) : Resultset * Resultset :=
  let this := populate rs in
  ({| collection := collection this;
      filteredrows := js_slice (filteredrows this) pos None;
      filterInitialized := true |}, this).

(** The loop [while (j--) { if (test(j)) result.push(row(j)) }]. *)
Fixpoint where_loop (test : Z -> bool) (row : Z -> Z) (j : nat) (result : list Z)
    : list Z :=
  match j with
  | O => result
  | S j' =>
      let i := Z.of_nat j' in
      where_loop test row j' (if test i then result ++ [row i] else result)
  end.

(** [where(fun)] for a function that returns a value on every document (and
    on [undefined], which a row outside [data] reads). *)
Definition Resultset_where (viewFunction : option (gmap string value) -> value)
    (rs : Resultset) : Resultset :=
  let data_ := data (collection rs) in
  if filterInitialized rs then
    let rows := filteredrows rs in
    let row j := default 0 (nthZ rows j) in
    {| collection := collection rs;
       filteredrows :=
         where_loop (fun j => strict_eq (viewFunction (nthZ data_ (row j))) (VBool true))
                    row (length rows) [];
       filterInitialized := filterInitialized rs |}
  else
    {| collection := collection rs;
       filteredrows :=
         where_loop (fun k => strict_eq (viewFunction (nthZ data_ k)) (VBool true))
                    (fun k => k) (length data_) [];
       filterInitialized := true |}.

(** The rows a result set stands for: its [filteredrows] once a filter was
    applied, every position of [data] before. *)
Definition rows_of (rs : Resultset) : list Z :=
  if filterInitialized rs then filteredrows rs
  else prepareFullDocIndex (collection rs).

(** [fun(doc) === true] on the document at a row. *)
Definition passes (viewFunction : option (gmap string value) -> value)
    (c : Collection) (row : Z) : bool :=
  strict_eq (viewFunction (nthZ (data c) row)) (VBool true).

(** ** [findOne(query)]

    What [findOne] returns: [null] when nothing is found, otherwise
    [result[0]], a document or, for a row outside [data], [undefined]
    ([null] when the collection clones); with it, the collection, whose
    lazy index the [find] may have rebuilt. *)
Inductive findOneResult : Type :=
  | OneNull
  | OneDoc (d : gmap string value)
  | OneUndefined.

Definition Collection_findOne (c : Collection) (q : query)
    : completion (findOneResult * Collection) :=
  match Resultset_find q true (chain c) with
  | Throw e => Throw e
  | Return rs =>
      match Resultset_data rs no_options with
      | (Throw e, _) => Throw e
      | (Return [], rs) => Return (OneNull, collection rs)
      | (Return (first :: _), rs) =>
          let c := collection rs in
          if negb (cloneObjects c) then
            Return (match first with Some d => OneDoc d | None => OneUndefined end, c)
          else
            Return (match first with
                    | Some d => OneDoc (clone d ParseStringify)
                    | None => OneNull
                    end, c)
      end
  end.

(** ** [binarySearch(array, item, fun)] ([utils])

    [fun] is taken to return an integer; [array[mid]] reads [undefined]
    outside the array. *)
Record searchResult : Type := mkSearchResult {
  found : bool;
  index : Z
}.

Fixpoint binarySearch_loop {A : Type} (undefined : A) (array : list A) (item : A)
    (fun_ : A -> A -> Z) (fuel : nat) (lo hi : Z) : searchResult :=
  match fuel with
  | O => {| found := false; index := hi |}
  | S fuel' =>
      if lo <? hi then
        let mid := Z.shiftr (lo + hi) 1 in
        let compared := fun_ item (default undefined (nthZ array mid)) in
        if compared =? 0 then {| found := true; index := mid |}
        else if compared <? 0 then
          binarySearch_loop undefined array item fun_ fuel' lo mid
        else binarySearch_loop undefined array item fun_ fuel' (mid + 1) hi
      else {| found := false; index := hi |}
  end.

Definition binarySearch {A : Type} (undefined : A) (array : list A) (item : A)
    (fun_ : A -> A -> Z) : searchResult :=
  binarySearch_loop undefined array item fun_ (length array) 0 (lengthZ array).

(** [array] is sorted for [fun(item, _)]: the elements [item] goes after
    come first, the ones it goes before come last. *)
Definition sorted_for {A : Type} (undefined : A) (array : list A) (item : A)
    (fun_ : A -> A -> Z) : Prop :=
  forall i j, 0 <= i -> i <= j -> j < lengthZ array ->
    (fun_ item (default undefined (nthZ array i)) <= 0 ->
     fun_ item (default undefined (nthZ array j)) <= 0)
    /\ (fun_ item (default undefined (nthZ array i)) < 0 ->
        fun_ item (default undefined (nthZ array j)) < 0).

(** A collection with unique constraints on [name] and on [email], after
    [insert({ name: 'a', email: 'a@x' })]. *)
Definition registered : Collection :=
  {| data := [{[ "name" := VStr "a"; "email" := VStr "a@x";
                 "$loki" := VNum (num_of_Z 1) ]}];
     idIndex := None;
     binaryIndices := ∅;
     constraints_unique :=
       {[ "name" :=
            {| field := "name";
               keyMap := {[ "a" := {[ "name" := VStr "a"; "email" := VStr "a@x";
                                      "$loki" := VNum (num_of_Z 1) ]} ]};
               lokiMap := {[ "1" := VStr "a" ]} |};
          "email" :=
            {| field := "email";
               keyMap := {[ "a@x" := {[ "name" := VStr "a"; "email" := VStr "a@x";
                                        "$loki" := VNum (num_of_Z 1) ]} ]};
               lokiMap := {[ "1" := VStr "a@x" ]} |} ]};
     uniqueNames := ["name"; "email"];
     adaptiveBinaryIndices := true; transactional := false;
     cloneObjects := false; maxId := VNum (num_of_Z 1); dirty := true;
     cachedData := None; cachedIndex := false |}.

(** The keys a unique index on [fld] files the documents under: the field
    values that are neither [null] nor [undefined], read as strings. *)
Definition unique_keys (fld : string) (docs : list (gmap string value)) : list string :=
  (fun d => ToString (get_prop d fld))
    <$> filter (fun d => has_key (get_prop d fld) = true) docs.

(** ** [update(doc)] for a single document *)

(** [l[i] = x] for [0 <= i <= l.length].  (A write further out would leave
    holes, which [data] and [idIndex] hold nowhere else; [get] hands
    [update] a position below the length of [idIndex].) *)
Definition array_set {A : Type} (l : list A) (i : Z) (x : A) : list A :=
  if i <? lengthZ l then <[Z.to_nat i := x]> l else l ++ [x].

(** [UniqueIndex.update(obj, doc)]; a slot of [lokiMap] that is absent reads
    [undefined]. *)
Definition UniqueIndex_update (u : UniqueIndex) (obj doc : gmap string value)
    : completion UniqueIndex :=
  let old := default VUndefined (lokiMap u !! ToString (get_prop obj "$loki")) in
  if negb (strict_eq old (get_prop doc (field u))) then
    match UniqueIndex_set u doc with
    | Throw e => Throw e
    | Return u1 =>
        Return {| field := field u1;
                  keyMap := delete (ToString old) (keyMap u1);
                  lokiMap := lokiMap u1 |}
    end
  else
    Return {| field := field u;
              keyMap := <[ToString (get_prop obj (field u)) := doc]> (keyMap u);
              lokiMap := lokiMap u |}.

(** The [forEach] of [update] over [uniqueNames]; [oldInternal] is
    [undefined] when [data] has nothing at the position [get] found. *)
Fixpoint update_unique (c : Collection) (names : list string)
    (oldInternal : option (gmap string value)) (newInternal : gmap string value)
    : completion unit * Collection :=
  match names with
  | [] => (Return (), c)
  | key :: rest =>
      match getUniqueIndex c key true with
      | (Return (Some index), c1) =>
          match oldInternal with
          | None =>
              (Throw (TypeError "Cannot read properties of undefined (reading '$loki')"), c1)
          | Some obj =>
              match UniqueIndex_update index obj newInternal with
              | Return index' =>
                  update_unique
                    (set_constraints_unique (fun u => <[key := index']> u) c1)
                    rest oldInternal newInternal
              | Throw e => (Throw e, c1)
              end
          end
      | (Return None, c1) =>
          (Throw (TypeError "Cannot read properties of undefined (reading 'update')"), c1)
      | (Throw e, c1) => (Throw e, c1)
      end
  end.

(** The [for] loop of [adaptiveBinaryIndexUpdate]: the first position of
    [dataPosition] in the index, its length when there is none. *)
Fixpoint index_of (dataPosition : Z) (index : list Z) : Z :=
  match index with
  | [] => 0
  | v :: rest => if v =? dataPosition then 0 else 1 + index_of dataPosition rest
  end.

(** [adaptiveBinaryIndexUpdate(dataPosition, binaryIndexName)]. *)
Definition adaptiveBinaryIndexUpdate (rcd : list (gmap string value))
    (dataPosition : Z) (binaryIndexName : string) (bi : BinaryIndex) : BinaryIndex :=
  let idxPos := index_of dataPosition (values bi) in
  adaptiveBinaryIndexInsert rcd dataPosition binaryIndexName
    {| bi_name := bi_name bi; bi_dirty := bi_dirty bi;
       values := splice_remove (values bi) idxPos |}.

(** The [try] block of [update]. *)
Definition update_try (c : Collection) (doc : gmap string value)
    : completion (gmap string value) * Collection :=
  let c := startTransaction c in
  match Collection_get c (get_prop doc "$loki") true with
  | (Throw e, c) => (Throw e, c)
  | (Return (GotPair oldInternal position), c) =>
      let newInternal := if cloneObjects c then clone doc ParseStringify else doc in
      match update_unique c (uniqueNames c) oldInternal newInternal with
      | (Throw e, c) => (Throw e, c)
      | (Return _, c) =>
          let c := set_data (fun d => array_set d position newInternal) c in
          let c :=
            if adaptiveBinaryIndices c then
              set_binaryIndices
                (map_imap (fun key bi =>
                   Some (adaptiveBinaryIndexUpdate (data c) position key bi))) c
            else flagBinaryIndexesDirty c in
          let c :=
            set_idIndex
              (fmap (fun ids => array_set ids position (get_prop newInternal "$loki")))
              c in
          let c := commit c in
          let c := set_dirty (fun _ => true) c in
          (Return (if cloneObjects c then clone newInternal ParseStringify
                   else newInternal), c)
      end
  | (Return _, c) =>
      (Throw (Error "Trying to update a document not in collection."), c)
  end.

(** [update(doc)]: the [catch] rolls back and throws the error again. *)
Definition Collection_update (c : Collection) (doc : jsarg)
    : completion (gmap string value) * Collection :=
  match doc with
  | ArgVal VNull | ArgVal VUndefined =>
      (Throw (TypeError "Cannot convert undefined or null to object"), c)
  | ArgVal _ =>
      (Throw (Error "Trying to update unsynced document. Please save the document first by using insert() or addMany()"), c)
  | ArgDoc doc =>
      if bool_decide (doc !! "$loki" = None) then
        (Throw (Error "Trying to update unsynced document. Please save the document first by using insert() or addMany()"), c)
      else
        match update_try c doc with
        | (Return r, c) => (Return r, c)
        | (Throw err, c) => (Throw err, rollback c)
        end
  end.

(** ** [simplesort(propname, options)]

    [sortHelper(prop1, prop2, desc)] of [utils]. *)
Definition sortHelper (prop1 prop2 : value) (desc : bool) : Z :=
  if aeqHelper prop1 prop2 then 0
  else if ltHelper prop1 prop2 false then (if desc then 1 else -1)
  else if gtHelper prop1 prop2 false then (if desc then -1 else 1)
  else 0.

(** The options of [simplesort]; [true] and [false] stand for
    [{ desc: true }] and [{ desc: false }].  [useJavascriptSorting], whose
    comparer answers [undefined] on values [<] and [>] do not order, is not
    embedded: the options are those with [useJavascriptSorting] unset. *)
Record sortOptions : Type := mkSortOptions {
  desc : bool;
  disableIndexIntersect : bool;
  forceIndexIntersect : bool
}.

(** The comparer [simplesort] hands to [Array.prototype.sort]. *)
Definition simplesort_comparer (prop : string) (descending : bool)
    (rcd : list (gmap string value)) (a b : Z) : Z :=
  sortHelper (getIn (nthZ rcd a) prop (has_dot prop))
             (getIn (nthZ rcd b) prop (has_dot prop)) descending.

(** [simplesort]: the comparer reads [data[a][prop]], which throws on a row
    outside [data]; a sort of two rows or more compares every row. *)
Definition Resultset_simplesort (rs : Resultset) (propname : string)
    (options : sortOptions) : completion Resultset :=
  let c := collection rs in
  let dc := lengthZ (data c) in
  let frl := lengthZ (filteredrows rs) in
  let hasBinaryIndex := bool_decide (is_Some (binaryIndices c !! propname)) in
  let sorted (rows : list Z) : completion Resultset :=
    if (2 <=? lengthZ rows) && negb (has_dot propname)
       && existsb (fun r => negb (bool_decide (is_Some (nthZ (data c) r)))) rows
    then Throw (TypeError "Cannot read properties of undefined")
    else
      Return {| collection := c;
                filteredrows :=
                  array_sort (simplesort_comparer propname (desc options) (data c)) rows;
                filterInitialized := filterInitialized rs |} in
  if frl =? 0 then
    if filterInitialized rs then Return rs
    else if hasBinaryIndex then
      let c' := ensureIndex c propname false in
      let vals := default [] (values <$> binaryIndices c' !! propname) in
      Return {| collection := c';
                filteredrows := if desc options then reverse vals else vals;
                filterInitialized := filterInitialized rs |}
    else sorted (prepareFullDocIndex c)
  else
    if negb (disableIndexIntersect options) && hasBinaryIndex
       && ((dc <=? 10 * frl) || forceIndexIntersect options)
    then
      let pv := default [] (values <$> binaryIndices c !! propname) in
      let kept := filter (fun n => n ∈ filteredrows rs) pv in
      Return {| collection := c;
                filteredrows := if desc options then reverse kept else kept;
                filterInitialized := filterInitialized rs |}
    else sorted (filteredrows rs).

(** The order [simplesort] is to produce: by the key of [prop], ascending,
    or descending on [desc]. *)
Definition sorted_by (rcd : list (gmap string value)) (prop : string)
    (descending : bool) (a b : Z) : Prop :=
  if descending then key_le rcd prop b a else key_le rcd prop a b.

(** The right row [eqJoin] pairs a key with: the last row of [rightRows]
    under that key. *)
Definition matching_row (rightJoinKey : joinKey)
    (rightRows : list (gmap string value)) (key : string)
    : option (gmap string value) :=
  last (filter (fun row => join_key rightJoinKey row = key) rightRows).

(** ** [removeBatchByPositions(positions)] and [Resultset.remove()] *)

Definition set_adaptiveBinaryIndices (b : bool) (c : Collection) : Collection :=
  mkCollection (data c) (idIndex c) (binaryIndices c) (constraints_unique c)
    (uniqueNames c) b (transactional c) (cloneObjects c)
    (maxId c) (dirty c) (cachedData c) (cachedIndex c).

(** The inner loop over the positions, for one unique index: the keys of
    the documents to remove leave the index; the index keeps what was done
    before a throw. *)
Fixpoint remove_keys (index : UniqueIndex) (key : string)
    (docs : list (option (gmap string value)))
    : completion unit * UniqueIndex :=
  match docs with
  | [] => (Return (), index)
  | None :: _ =>
      (Throw (TypeError "Cannot read properties of undefined"), index)
  | Some doc :: rest =>
      let fieldValue := get_prop doc key in
      if negb (strict_eq fieldValue VNull) && negb (strict_eq fieldValue VUndefined) then
        match UniqueIndex_remove index fieldValue with
        | Return index' => remove_keys index' key rest
        | Throw e => (Throw e, index)
        end
      else remove_keys index key rest
  end.

(** The [forEach] over [uniqueNames]. *)
Fixpoint remove_unique_batch (c : Collection) (names : list string)
    (docs : list (option (gmap string value))) : completion unit * Collection :=
  match names with
  | [] => (Return (), c)
  | key :: rest =>
      match constraints_unique c !! key with
      | None => remove_unique_batch c rest docs
      | Some index =>
          let '(r, index') := remove_keys index key docs in
          let c := set_constraints_unique (fun u => <[key := index']> u) c in
          match r with
          | Return _ => remove_unique_batch c rest docs
          | Throw e => (Throw e, c)
          end
      end
  end.

(** What [removeBatchByPositions] returns: nothing, or [null] when the
    [catch] was taken. *)
Inductive batchResult : Type :=
  | BatchUndefined
  | BatchNull.

(** The names under which a hash object made from [{}] reads truthy once
    [names] were set to [true]: these, and the members it inherits from
    [Object.prototype]. *)
Definition hash_names (names : list string) : list string :=
  names ++ Object_prototype_keys.

(** The [try] block of [removeBatchByPositions]; [xo] holds the [$loki] of
    the positions, as the property names of a hash object. *)
Definition removeBatch_try (c : Collection) (positions : list Z)
    : completion unit * Collection :=
  let bic := negb (bool_decide (binaryIndices c = ∅)) in
  let uic := negb (bool_decide (constraints_unique c = ∅)) in
  let adaptiveOverride := adaptiveBinaryIndices c && bic in
  let c := startTransaction c in
  let c := ensureId c in
  let ids := default [] (idIndex c) in
  let xo := hash_names ((fun pos => ToString (val_at ids pos)) <$> positions) in
  let indexed : completion unit * Collection :=
    if bic || uic then
      let c :=
        if adaptiveBinaryIndices c && negb adaptiveOverride then
          set_binaryIndices
            (map_imap (fun key bi =>
               Some (adaptiveBinaryIndexRemove (data c) (inr positions) key false bi))) c
        else flagBinaryIndexesDirty c in
      if uic then
        remove_unique_batch c (uniqueNames c) ((fun pos => nthZ (data c) pos) <$> positions)
      else (Return (), c)
    else (Return (), c) in
  match indexed with
  | (Throw e, c) => (Throw e, c)
  | (Return _, c) =>
      let c := set_data (filter (fun obj => ToString (get_prop obj "$loki") ∉ xo)) c in
      let c := set_idIndex (fun _ => Some (filter (fun id => ToString id ∉ xo) ids)) c in
      let c :=
        if adaptiveBinaryIndices c && adaptiveOverride then
          set_adaptiveBinaryIndices true
            (ensureAllIndexes (set_adaptiveBinaryIndices false c) true)
        else c in
      let c := commit c in
      (Return (), set_dirty (fun _ => true) c)
  end.

Definition removeBatchByPositions (c : Collection) (positions : list Z)
    : batchResult * Collection :=
  let adaptiveOverride :=
    adaptiveBinaryIndices c && negb (bool_decide (binaryIndices c = ∅)) in
  match removeBatch_try c positions with
  | (Return _, c) => (BatchUndefined, c)
  | (Throw _, c) =>
      let c := rollback c in
      (BatchNull, if adaptiveOverride then set_adaptiveBinaryIndices true c else c)
  end.

(** [Resultset.remove()]. *)
Definition Resultset_remove (rs : Resultset) : Resultset :=
  let this := populate rs in
  {| collection := (removeBatchByPositions (collection this) (filteredrows this)).2;
     filteredrows := [];
     filterInitialized := filterInitialized this |}.

(** ** [checkIndex(property, options)]

    The full test: [options.randomSampling] and
    [options.randomSamplingFactor] are not set, so that no position is drawn
    from [Math.random]; [repair] is [options.repair]. *)

(** The [for] loop over the neighbours of the index; it stops at the first
    pair out of sequence. *)
Fixpoint checkIndex_loop (key : Z -> value) (positions : list Z) : bool :=
  match positions with
  | [] => true
  | idx :: rest =>
      if negb (LokiOps (O_lte (key (idx + 1))) (key idx)) then false
      else checkIndex_loop key rest
  end.

Definition checkIndex (c : Collection) (property : string) (repair : bool)
    : completion bool * Collection :=
  match binaryIndices c !! property with
  | None =>
      (Throw (Error ("called checkIndex on property without an index: "
                       +:+ property)), c)
  | Some _ =>
      let c := if negb (adaptiveBinaryIndices c) then ensureIndex c property false
               else c in
      let biv := match binaryIndices c !! property with
                 | Some bi => values bi
                 | None => []
                 end in
      let len := lengthZ biv in
      if negb (len =? lengthZ (data c)) then
        (Return false, if repair then ensureIndex c property true else c)
      else if len =? 0 then (Return true, c)
      else
        let usingDotNotation := has_dot property in
        let valid :=
          if len =? 1 then bool_decide (nthZ biv 0 = Some 0)
          else checkIndex_loop (indexed_value (data c) biv property usingDotNotation)
                               (seqZ 0 (len - 1)) in
        (Return valid,
         if negb valid && repair then ensureIndex c property true else c)
  end.

(** * Properties of the comparator *)

Lemma Qccompare_refl (q : Qc) : (q ?= q)%Qc = Eq.
Proof. by apply Qceq_alt. Qed.

Lemma Qccompare_antisym (p q : Qc) : (q ?= p)%Qc = CompOpp (p ?= q)%Qc.
Proof. unfold Qccompare. by rewrite Qcompare_antisym. Qed.

Lemma Qccompare_eq (p q : Qc) : (p ?= q)%Qc = Eq -> p = q.
Proof. by intros ?%Qceq_alt. Qed.

Lemma Qccompare_lt_trans (p q r : Qc) :
  (p ?= q)%Qc = Lt -> (q ?= r)%Qc = Lt -> (p ?= r)%Qc = Lt.
Proof.
  intros H1%Qclt_alt H2%Qclt_alt. apply Qclt_alt. by eapply Qclt_trans.
Qed.

Lemma string_compare_refl (s : string) : String.compare s s = Eq.
Proof.
  destruct (String.compare s s) eqn:E; [done| |];
    pose proof (String.compare_antisym s s) as H; rewrite E in H; discriminate.
Qed.

Lemma string_compare_lt_trans (a b c : string) :
  String.compare a b = Lt -> String.compare b c = Lt -> String.compare a c = Lt.
Proof.
  intros H1 H2.
  exact (@StrictOrder_Transitive _ _ String_as_OT.lt_strorder a b c H1 H2).
Qed.

Lemma extended_compare_refl (x : extended) : extended_compare x x = Eq.
Proof. destruct x; simpl; auto using Qccompare_refl. Qed.

Lemma extended_compare_antisym (x y : extended) :
  extended_compare y x = CompOpp (extended_compare x y).
Proof. destruct x, y; simpl; auto using Qccompare_antisym. Qed.

Lemma extended_compare_eq (x y : extended) : extended_compare x y = Eq -> x = y.
Proof.
  destruct x, y; simpl; try done. by intros ->%Qccompare_eq.
Qed.

Lemma extended_compare_lt_trans (x y z : extended) :
  extended_compare x y = Lt -> extended_compare y z = Lt ->
  extended_compare x z = Lt.
Proof.
  destruct x, y, z; simpl; try done. apply Qccompare_lt_trans.
Qed.

(** [Comparator] is a total preorder. *)
Lemma key_compare_refl (a : sortKey) : key_compare a a = Eq.
Proof.
  destruct a; simpl;
    auto using Z.compare_refl, extended_compare_refl, string_compare_refl.
Qed.

Lemma key_compare_antisym (a b : sortKey) :
  key_compare b a = CompOpp (key_compare a b).
Proof.
  destruct a, b; simpl;
    auto using Z.compare_antisym, extended_compare_antisym, String.compare_antisym.
Qed.

Lemma key_compare_eq (a b : sortKey) : key_compare a b = Eq -> a = b.
Proof.
  destruct a, b; simpl; try done.
  - by intros ->%Z.compare_eq.
  - by intros ->%extended_compare_eq.
  - by intros ->%String.compare_eq_iff.
Qed.

Lemma key_compare_lt_trans (a b c : sortKey) :
  key_compare a b = Lt -> key_compare b c = Lt -> key_compare a c = Lt.
Proof.
  destruct a, b, c; simpl; try done.
  - rewrite !Z.compare_lt_iff. lia.
  - apply extended_compare_lt_trans.
  - apply string_compare_lt_trans.
Qed.

Lemma Comparator_refl (a : value) : Comparator a a = Eq.
Proof. apply key_compare_refl. Qed.

Lemma Comparator_antisym (a b : value) :
  Comparator b a = CompOpp (Comparator a b).
Proof. apply key_compare_antisym. Qed.

Lemma Comparator_eq_l (a b c : value) :
  Comparator a b = Eq -> Comparator a c = Comparator b c.
Proof. unfold Comparator. by intros ->%key_compare_eq. Qed.

Lemma Comparator_eq_r (a b c : value) :
  Comparator a b = Eq -> Comparator c a = Comparator c b.
Proof. unfold Comparator. by intros ->%key_compare_eq. Qed.

Lemma Comparator_lt_trans (a b c : value) :
  Comparator a b = Lt -> Comparator b c = Lt -> Comparator a c = Lt.
Proof. apply key_compare_lt_trans. Qed.

(** [a <= b] and [b <= c] give [a <= c]. *)
Lemma Comparator_le_trans (a b c : value) :
  Comparator a b <> Gt -> Comparator b c <> Gt -> Comparator a c <> Gt.
Proof.
  intros H1 H2.
  destruct (Comparator a b) eqn:E1; [|clear H1|done].
  - by rewrite (Comparator_eq_l _ _ _ E1).
  - destruct (Comparator b c) eqn:E2; [|clear H2|done].
    + by rewrite <- (Comparator_eq_r _ _ _ E2), E1.
    + by rewrite (Comparator_lt_trans _ _ _ E1 E2).
Qed.

(** ** The helpers derive from [Comparator] *)

Lemma edge_guard_l (v w : value) :
  falsy v || strict_eq v (VBool true) || negb (strict_eq v v) = true ->
  edge_guard v w = true.
Proof.
  unfold edge_guard. intros H.
  destruct (falsy v), (strict_eq v (VBool true)), (strict_eq v v);
    simpl in *; try done; by rewrite ?orb_true_r.
Qed.

Lemma edge_guard_r (v w : value) :
  falsy v || strict_eq v (VBool true) || negb (strict_eq v v) = true ->
  edge_guard w v = true.
Proof.
  unfold edge_guard. intros H.
  destruct (falsy v), (strict_eq v (VBool true)), (strict_eq v v);
    simpl in *; try done; by rewrite ?orb_true_r.
Qed.

Lemma num_eq_refl_extended (x : extended) :
  num_eq (number_of_extended x) (number_of_extended x) = true.
Proof. destruct x; simpl; try done. unfold num_eq; simpl. by rewrite Qccompare_refl. Qed.

Lemma num_compare_extended (x y : extended) :
  num_compare (number_of_extended x) (number_of_extended y)
  = Some (extended_compare x y).
Proof. by destruct x, y. Qed.

Lemma classify (v : value) : value_kind v.
Proof.
  destruct v as [| |[]|n|s].
  - by apply (IsEdge _ 1); [|lia| |intros; apply edge_guard_l|intros; apply edge_guard_r].
  - by apply (IsEdge _ 1); [|lia| |intros; apply edge_guard_l|intros; apply edge_guard_r].
  - by apply (IsEdge _ 4); [|lia| |intros; apply edge_guard_l|intros; apply edge_guard_r].
  - by apply (IsEdge _ 3); [|lia| |intros; apply edge_guard_l|intros; apply edge_guard_r].
  - destruct n as [| |q|].
    + by apply (IsEdge _ 0); [|lia| |intros; apply edge_guard_l|intros; apply edge_guard_r].
    + by apply (IsNumber _ ENegInf).
    + apply (IsNumber _ (EFin q)); try done.
      simpl. unfold num_eq; simpl. by rewrite Qccompare_refl.
    + by apply (IsNumber _ EPosInf).
  - destruct s as [|c s].
    + by apply (IsEdge _ 5); [|lia| |intros; apply edge_guard_l|intros; apply edge_guard_r].
    + assert (Ht : tier (VStr (String c s)) = 9).
      { change (tier (VStr (String c s)))
          with (if String.eqb (String c s) (String c s) then 9 else 0).
        by rewrite String.eqb_refl. }
      destruct (StringToNumber (String c s)) as [| |q|] eqn:E.
      * apply (IsString _ (String c s)); try done. simpl. by rewrite E.
      * apply (IsNumber _ ENegInf); try done. simpl. by rewrite E.
      * apply (IsNumber _ (EFin q)); try done. simpl. by rewrite E.
      * apply (IsNumber _ EPosInf); try done. simpl. by rewrite E.
Qed.

Lemma str_lt_compare (s1 s2 : string) :
  str_lt s1 s2 = match String.compare s1 s2 with Lt => true | _ => false end.
Proof. done. Qed.

Lemma string_eqb_compare (s1 s2 : string) :
  String.eqb s1 s2 = match String.compare s1 s2 with Eq => true | _ => false end.
Proof.
  destruct (String.eqb_spec s1 s2) as [->|Hne].
  - by rewrite string_compare_refl.
  - destruct (String.compare s1 s2) eqn:E; try done.
    by apply String.compare_eq_iff in E.
Qed.

(** [lt], [gt] and [aeq] are the three readings of [Comparator]. *)
Lemma ltHelper_Comparator (a b : value) (equal : bool) :
  ltHelper a b equal
  = match Comparator a b with Lt => true | Eq => equal | Gt => false end.
Proof.
  unfold ltHelper, Comparator.
  destruct (classify a) as [t1 Ht1 Hr1 Hk1 Hg1 _|x Ht1 Hn1 Hk1|s1 Ht1 -> Hn1 Hk1],
           (classify b) as [t2 Ht2 Hr2 Hk2 _ Hg2|y Ht2 Hn2 Hk2|s2 Ht2 -> Hn2 Hk2];
    rewrite Ht1, Ht2, Hk1, Hk2, ?Hg1, ?Hg2; simpl key_compare.
  - replace (negb (t1 =? 9) || negb (t2 =? 9)) with true
      by (destruct (Z.eqb_spec t1 9); [lia|done]).
    cbn [andb]. destruct (Z.compare_spec t1 t2), (Z.eqb_spec t1 t2), (Z.ltb_spec t1 t2);
      try done; lia.
  - replace (negb (t1 =? 9) || negb (9 =? 9)) with true
      by (destruct (Z.eqb_spec t1 9); [lia|done]).
    cbn [andb]. destruct (Z.eqb_spec t1 9), (Z.ltb_spec t1 9); try done; lia.
  - replace (negb (t1 =? 9) || negb (9 =? 9)) with true
      by (destruct (Z.eqb_spec t1 9); [lia|done]).
    cbn [andb]. destruct (Z.eqb_spec t1 9), (Z.ltb_spec t1 9); try done; lia.
  - replace (negb (9 =? 9) || negb (t2 =? 9)) with true
      by (destruct (Z.eqb_spec t2 9); [lia|done]).
    cbn [andb]. destruct (Z.eqb_spec 9 t2), (Z.ltb_spec 9 t2); try done; lia.
  - rewrite andb_false_r, Hn1, Hn2, !num_eq_refl_extended. simpl.
    unfold num_lt, num_gt. rewrite num_compare_extended.
    by destruct (extended_compare x y).
  - rewrite andb_false_r, Hn1, Hn2, !num_eq_refl_extended. by simpl.
  - replace (negb (9 =? 9) || negb (t2 =? 9)) with true
      by (destruct (Z.eqb_spec t2 9); [lia|done]).
    cbn [andb]. destruct (Z.eqb_spec 9 t2), (Z.ltb_spec 9 t2); try done; lia.
  - rewrite andb_false_r, Hn1, Hn2, !num_eq_refl_extended. by simpl.
  - rewrite andb_false_r, Hn1, Hn2. simpl.
    rewrite !str_lt_compare, string_eqb_compare, (String.compare_antisym s2 s1).
    by destruct (String.compare s1 s2).
Qed.

Lemma gtHelper_Comparator (a b : value) (equal : bool) :
  gtHelper a b equal
  = match Comparator a b with Gt => true | Eq => equal | Lt => false end.
Proof.
  unfold gtHelper, Comparator.
  destruct (classify a) as [t1 Ht1 Hr1 Hk1 Hg1 _|x Ht1 Hn1 Hk1|s1 Ht1 -> Hn1 Hk1],
           (classify b) as [t2 Ht2 Hr2 Hk2 _ Hg2|y Ht2 Hn2 Hk2|s2 Ht2 -> Hn2 Hk2];
    rewrite Ht1, Ht2, Hk1, Hk2, ?Hg1, ?Hg2; simpl key_compare.
  - replace (negb (t1 =? 9) || negb (t2 =? 9)) with true
      by (destruct (Z.eqb_spec t1 9); [lia|done]).
    cbn [andb]. destruct (Z.compare_spec t1 t2), (Z.eqb_spec t1 t2), (Z.gtb_spec t1 t2);
      try done; lia.
  - replace (negb (t1 =? 9) || negb (9 =? 9)) with true
      by (destruct (Z.eqb_spec t1 9); [lia|done]).
    cbn [andb]. destruct (Z.eqb_spec t1 9), (Z.gtb_spec t1 9); try done; lia.
  - replace (negb (t1 =? 9) || negb (9 =? 9)) with true
      by (destruct (Z.eqb_spec t1 9); [lia|done]).
    cbn [andb]. destruct (Z.eqb_spec t1 9), (Z.gtb_spec t1 9); try done; lia.
  - replace (negb (9 =? 9) || negb (t2 =? 9)) with true
      by (destruct (Z.eqb_spec t2 9); [lia|done]).
    cbn [andb]. destruct (Z.eqb_spec 9 t2), (Z.gtb_spec 9 t2); try done; lia.
  - rewrite andb_false_r, Hn1, Hn2, !num_eq_refl_extended. simpl.
    unfold num_lt, num_gt. rewrite num_compare_extended.
    by destruct (extended_compare x y).
  - rewrite andb_false_r, Hn1, Hn2, !num_eq_refl_extended. by simpl.
  - replace (negb (9 =? 9) || negb (t2 =? 9)) with true
      by (destruct (Z.eqb_spec t2 9); [lia|done]).
    cbn [andb]. destruct (Z.eqb_spec 9 t2), (Z.gtb_spec 9 t2); try done; lia.
  - rewrite andb_false_r, Hn1, Hn2, !num_eq_refl_extended. by simpl.
  - rewrite andb_false_r, Hn1, Hn2. simpl.
    rewrite !str_lt_compare, string_eqb_compare, (String.compare_antisym s2 s1).
    by destruct (String.compare s1 s2).
Qed.

Lemma strict_eq_eq (a b : value) : strict_eq a b = true -> a = b.
Proof.
  destruct a as [| |x|x|x], b as [| |y|y|y]; simpl; try done.
  - by intros ->%Bool.eqb_prop.
  - unfold num_eq. destruct x, y; simpl; try done.
    intros H. destruct (q ?= q0)%Qc eqn:E; try done.
    by apply Qccompare_eq in E as ->.
  - by intros ->%String.eqb_eq.
Qed.

Lemma aeqHelper_Comparator (a b : value) :
  aeqHelper a b = match Comparator a b with Eq => true | _ => false end.
Proof.
  unfold aeqHelper.
  destruct (strict_eq a b) eqn:Hs.
  { apply strict_eq_eq in Hs as ->. by rewrite Comparator_refl. }
  clear Hs. unfold Comparator.
  destruct (classify a) as [t1 Ht1 Hr1 Hk1 Hg1 _|x Ht1 Hn1 Hk1|s1 Ht1 -> Hn1 Hk1],
           (classify b) as [t2 Ht2 Hr2 Hk2 _ Hg2|y Ht2 Hn2 Hk2|s2 Ht2 -> Hn2 Hk2];
    rewrite Ht1, Ht2, Hk1, Hk2, ?Hg1, ?Hg2; simpl key_compare.
  - replace (negb (t1 =? 9) || negb (t2 =? 9)) with true
      by (destruct (Z.eqb_spec t1 9); [lia|done]).
    cbn [andb]. destruct (Z.compare_spec t1 t2), (Z.eqb_spec t1 t2); try done; lia.
  - replace (negb (t1 =? 9) || negb (9 =? 9)) with true
      by (destruct (Z.eqb_spec t1 9); [lia|done]).
    cbn [andb]. destruct (Z.eqb_spec t1 9); try done; lia.
  - replace (negb (t1 =? 9) || negb (9 =? 9)) with true
      by (destruct (Z.eqb_spec t1 9); [lia|done]).
    cbn [andb]. destruct (Z.eqb_spec t1 9); try done; lia.
  - replace (negb (9 =? 9) || negb (t2 =? 9)) with true
      by (destruct (Z.eqb_spec t2 9); [lia|done]).
    cbn [andb]. destruct (Z.eqb_spec 9 t2); try done; lia.
  - rewrite andb_false_r, Hn1, Hn2, !num_eq_refl_extended. simpl.
    unfold num_eq. rewrite num_compare_extended.
    by destruct (extended_compare x y).
  - rewrite andb_false_r, Hn1, Hn2, !num_eq_refl_extended. simpl.
    by destruct x.
  - replace (negb (9 =? 9) || negb (t2 =? 9)) with true
      by (destruct (Z.eqb_spec t2 9); [lia|done]).
    cbn [andb]. destruct (Z.eqb_spec 9 t2); try done; lia.
  - rewrite andb_false_r, Hn1, Hn2, !num_eq_refl_extended. by simpl.
  - rewrite andb_false_r, Hn1, Hn2. simpl.
    rewrite string_eqb_compare. by destruct (String.compare s1 s2).
Qed.

(** C1 (amended): the comparator is a total order across types.  [lt], [gt]
    and [aeq] all read the one three-way comparison [Comparator], which
    ranks the edge values [NaN] < [undefined] = [null] < [false] < [true]
    < [""] below every other value, ranks the other values that coerce to a
    number by that number and before those that do not, and ranks the
    latter as strings.  Any two values are comparable, and swapping them
    swaps the outcome.  ([tier v = 9] says that [v] is none of the edge
    values.) *)
Theorem comparator_tiered_total_order (a b : value) (equal : bool) :
  ltHelper a b equal
    = match Comparator a b with Lt => true | Eq => equal | Gt => false end
  /\ gtHelper a b equal
    = match Comparator a b with Gt => true | Eq => equal | Lt => false end
  /\ aeqHelper a b
    = match Comparator a b with Eq => true | _ => false end
  /\ Comparator b a = CompOpp (Comparator a b)
  /\ (forall c, Comparator a b <> Gt -> Comparator b c <> Gt ->
                Comparator a c <> Gt)
  /\ (Comparator (VNum NaN) VUndefined = Lt
      /\ Comparator VUndefined VNull = Eq
      /\ Comparator VNull (VBool false) = Lt
      /\ Comparator (VBool false) (VBool true) = Lt
      /\ Comparator (VBool true) (VStr "") = Lt
      /\ forall v, tier v = 9 -> Comparator (VStr "") v = Lt).
Proof.
  split; [apply ltHelper_Comparator|].
  split; [apply gtHelper_Comparator|].
  split; [apply aeqHelper_Comparator|].
  split; [apply Comparator_antisym|].
  split; [intros c; apply Comparator_le_trans|].
  do 5 (split; [done|]).
  intros v Hv. unfold Comparator.
  destruct (classify v) as [t Ht Hr Hk _ _|x Ht Hn Hk|s Ht Hs Hn Hk];
    rewrite Hk; [lia|done..].
Qed.

(** * The two binary searches *)

Lemma shiftr_1_bounds (min max : Z) :
  min < max -> min <= Z.shiftr (min + max) 1 < max.
Proof.
  intros H. rewrite Z.shiftr_div_pow2 by lia.
  change (2 ^ 1) with 2. split.
  - apply Z.div_le_lower_bound; lia.
  - apply Z.div_lt_upper_bound; lia.
Qed.

Section Loops.
Variable key : Z -> value.
Variable val : value.

(** [rangeStart_loop] narrows onto the first position whose key is not
    below [val], provided keys below [val] come first. *)
Lemma rangeStart_loop_spec (fuel : nat) (min max : Z) :
  min <= max -> (Z.to_nat (max - min) <= fuel)%nat ->
  (forall i j, min <= i <= j -> j <= max ->
     ltHelper (key j) val false = true -> ltHelper (key i) val false = true) ->
  let r := rangeStart_loop key val fuel min max in
  min <= r <= max
  /\ (forall i, min <= i < r -> ltHelper (key i) val false = true)
  /\ (forall i, r <= i < max -> ltHelper (key i) val false = false).
Proof.
  revert min max. induction fuel as [|fuel IH]; intros min max Hle Hfuel Hmono.
  - simpl. assert (min = max) as -> by lia. repeat split; intros; lia.
  - simpl. destruct (Z.ltb_spec min max) as [Hlt|Hge].
    + pose proof (shiftr_1_bounds min max Hlt) as Hmid.
      set (mid := Z.shiftr (min + max) 1) in *.
      destruct (ltHelper (key mid) val false) eqn:Hp.
      * destruct (IH (mid + 1) max) as (Hr & Hbelow & Habove); [lia|lia| |].
        { intros i j Hij Hj. apply Hmono; lia. }
        repeat split; [lia|lia| |done].
        intros i Hi. destruct (Z.lt_ge_cases i (mid + 1)).
        -- apply (Hmono i mid); [lia|lia|done].
        -- apply Hbelow. lia.
      * destruct (IH min mid) as (Hr & Hbelow & Habove); [lia|lia| |].
        { intros i j Hij Hj. apply Hmono; lia. }
        repeat split; [lia|lia|done|].
        intros i Hi. destruct (Z.lt_ge_cases i mid).
        -- apply Habove. lia.
        -- destruct (ltHelper (key i) val false) eqn:Hi'; [|done].
           rewrite <- Hp. symmetry. apply (Hmono mid i); [lia|lia|done].
    + assert (min = max) as -> by lia. repeat split; intros; lia.
Qed.

(** [rangeEnd_loop] narrows onto the first position whose key is above
    [val], provided keys above [val] come last. *)
Lemma rangeEnd_loop_spec (fuel : nat) (min max : Z) :
  min <= max -> (Z.to_nat (max - min) <= fuel)%nat ->
  (forall i j, min <= i <= j -> j <= max ->
     ltHelper val (key i) false = true -> ltHelper val (key j) false = true) ->
  let r := rangeEnd_loop key val fuel min max in
  min <= r <= max
  /\ (forall i, min <= i < r -> ltHelper val (key i) false = false)
  /\ (forall i, r <= i < max -> ltHelper val (key i) false = true).
Proof.
  revert min max. induction fuel as [|fuel IH]; intros min max Hle Hfuel Hmono.
  - simpl. assert (min = max) as -> by lia. repeat split; intros; lia.
  - simpl. destruct (Z.ltb_spec min max) as [Hlt|Hge].
    + pose proof (shiftr_1_bounds min max Hlt) as Hmid.
      set (mid := Z.shiftr (min + max) 1) in *.
      destruct (ltHelper val (key mid) false) eqn:Hp.
      * destruct (IH min mid) as (Hr & Hbelow & Habove); [lia|lia| |].
        { intros i j Hij Hj. apply Hmono; lia. }
        repeat split; [lia|lia|done|].
        intros i Hi. destruct (Z.lt_ge_cases i mid).
        -- apply Habove. lia.
        -- apply (Hmono mid i); [lia|lia|done].
      * destruct (IH (mid + 1) max) as (Hr & Hbelow & Habove); [lia|lia| |].
        { intros i j Hij Hj. apply Hmono; lia. }
        repeat split; [lia|lia| |done].
        intros i Hi. destruct (Z.lt_ge_cases i (mid + 1)).
        -- destruct (ltHelper val (key i) false) eqn:Hi'; [|done].
           rewrite <- Hp. symmetry. apply (Hmono i mid); [lia|lia|done].
        -- apply Hbelow. lia.
    + assert (min = max) as -> by lia. repeat split; intros; lia.
Qed.
End Loops.

(** ** Order reasoning on [Comparator] *)

Lemma Comparator_gt_lt (a b : value) : Comparator a b = Gt <-> Comparator b a = Lt.
Proof. rewrite (Comparator_antisym a b). destruct (Comparator a b); naive_solver. Qed.

Lemma Comparator_eq_sym (a b : value) : Comparator a b = Eq <-> Comparator b a = Eq.
Proof. rewrite (Comparator_antisym a b). destruct (Comparator a b); naive_solver. Qed.

Lemma Comparator_lt_le_trans (a b c : value) :
  Comparator a b = Lt -> Comparator b c <> Gt -> Comparator a c = Lt.
Proof.
  intros H1 H2. destruct (Comparator b c) eqn:E; [|by eapply Comparator_lt_trans|done].
  by rewrite <- (Comparator_eq_r _ _ _ E).
Qed.

Lemma Comparator_le_lt_trans (a b c : value) :
  Comparator a b <> Gt -> Comparator b c = Lt -> Comparator a c = Lt.
Proof.
  intros H1 H2. destruct (Comparator a b) eqn:E; [|by eapply Comparator_lt_trans|done].
  by rewrite (Comparator_eq_l _ _ _ E).
Qed.

Lemma Comparator_not_lt_ge (a b : value) :
  Comparator a b <> Lt <-> Comparator b a <> Gt.
Proof. rewrite (Comparator_antisym a b). destruct (Comparator a b); naive_solver. Qed.

Lemma ltHelper_false_iff (a b : value) :
  ltHelper a b false = true <-> Comparator a b = Lt.
Proof. rewrite ltHelper_Comparator. destruct (Comparator a b); naive_solver. Qed.

Lemma ltHelper_false_not (a b : value) :
  ltHelper a b false = false <-> Comparator a b <> Lt.
Proof. rewrite ltHelper_Comparator. destruct (Comparator a b); naive_solver. Qed.

Lemma keys_sorted_lt_mono (key : Z -> value) (n : Z) (val : value) (i j : Z) :
  keys_sorted key n -> 0 <= i -> i <= j -> j < n ->
  Comparator (key j) val = Lt -> Comparator (key i) val = Lt.
Proof. intros Hs ? ? ? H. eapply Comparator_le_lt_trans; [by apply Hs|done]. Qed.

Lemma keys_sorted_gt_mono (key : Z -> value) (n : Z) (val : value) (i j : Z) :
  keys_sorted key n -> 0 <= i -> i <= j -> j < n ->
  Comparator val (key i) = Lt -> Comparator val (key j) = Lt.
Proof. intros Hs ? ? ? H. eapply Comparator_lt_le_trans; [done|by apply Hs]. Qed.

Lemma indexed_value_before (rcd : list (gmap string value)) (index : list Z)
    (prop : string) (dot : bool) (i : Z) :
  i < 0 -> indexed_value rcd index prop dot i = VUndefined.
Proof.
  intros H. unfold indexed_value, nthZ.
  by destruct (Z.ltb_spec i 0); [|lia].
Qed.

(** What [calculateRangeStart] computes on sorted keys: with [lb] the first
    position whose key is not below [val] (the length when there is none),
    it returns [lb] when inserting ([adaptive]); when querying it returns
    [lb] if the key there equals [val] and [lb - 1] otherwise. *)
Lemma calculateRangeStart_spec (rcd : list (gmap string value)) (index : list Z)
    (prop : string) (val : value) (adaptive dot : bool) :
  let key := indexed_value rcd index prop dot in
  let n := lengthZ index in
  0 < n -> keys_sorted key n ->
  exists lb,
    0 <= lb <= n
    /\ (forall i, 0 <= i < lb -> Comparator (key i) val = Lt)
    /\ (forall i, lb <= i < n -> Comparator (key i) val <> Lt)
    /\ calculateRangeStart rcd index prop val adaptive dot
       = if adaptive then lb
         else if (lb <? n) && is_Eq (Comparator (key lb) val) then lb
         else lb - 1.
Proof.
  intros key n Hn Hs. unfold calculateRangeStart. cbv zeta.
  change (indexed_value rcd index prop dot) with key.
  change (lengthZ index) with n.
  destruct (Z.eqb_spec n 0) as [|_]; [lia|].
  destruct (rangeStart_loop_spec key val (length index) 0 (n - 1))
    as (Hr & Hbelow & Habove); [lia|unfold n, lengthZ; lia| |].
  { intros i j Hij Hj. rewrite !ltHelper_false_iff.
    apply (keys_sorted_lt_mono key n); [done|lia..]. }
  set (lbound := rangeStart_loop key val (length index) 0 (n - 1)) in *.
  rewrite aeqHelper_Comparator, ltHelper_Comparator.
  destruct (Comparator val (key lbound)) eqn:E.
  - exists lbound. apply Comparator_eq_sym in E.
    repeat split; [lia|lia| | |].
    + intros i Hi. apply ltHelper_false_iff, Hbelow. lia.
    + intros i Hi. apply Comparator_not_lt_ge.
      rewrite <- (Comparator_eq_l _ _ _ E). apply Hs; lia.
    + rewrite E. simpl. destruct (Z.ltb_spec lbound n); [|lia]. by destruct adaptive.
  - exists lbound. apply Comparator_gt_lt in E as E'.
    repeat split; [lia|lia| | |].
    + intros i Hi. apply ltHelper_false_iff, Hbelow. lia.
    + intros i Hi. apply Comparator_not_lt_ge.
      assert (Comparator val (key i) = Lt) as ->; [|done].
      eapply Comparator_lt_le_trans; [done|]. apply Hs; lia.
    + rewrite E'. simpl. rewrite andb_false_r. by destruct adaptive.
  - assert (lbound = n - 1) as Hlast.
    { destruct (Z.lt_ge_cases lbound (n - 1)) as [Hlt|]; [|lia].
      specialize (Habove lbound ltac:(lia)).
      apply ltHelper_false_not in Habove. by apply Comparator_gt_lt in E. }
    exists n. apply Comparator_gt_lt in E.
    repeat split; [lia|lia| | |].
    + intros i Hi. destruct (Z.lt_ge_cases i lbound).
      * apply ltHelper_false_iff, Hbelow. lia.
      * by replace i with lbound by lia.
    + intros i Hi. lia.
    + rewrite Z.ltb_irrefl. simpl. destruct adaptive; lia.
Qed.

(** What [calculateRangeEnd] computes on sorted keys: with [ub] the first
    position whose key is above [val] (the length when there is none), it
    returns [ub - 1] when the key just before [ub] equals [val], and [ub]
    otherwise; except that for [ub = 0] it reads the key before the index,
    [undefined], and returns [-1] when [val] equals that. *)
Lemma calculateRangeEnd_spec (rcd : list (gmap string value)) (index : list Z)
    (prop : string) (val : value) (dot : bool) :
  let key := indexed_value rcd index prop dot in
  let n := lengthZ index in
  0 < n -> keys_sorted key n ->
  exists ub,
    0 <= ub <= n
    /\ (forall i, 0 <= i < ub -> Comparator val (key i) <> Lt)
    /\ (forall i, ub <= i < n -> Comparator val (key i) = Lt)
    /\ calculateRangeEnd rcd index prop val dot
       = if (0 <? ub) && is_Eq (Comparator val (key (ub - 1))) then ub - 1
         else if (ub =? 0) && aeqHelper val VUndefined then -1
         else ub.
Proof.
  intros key n Hn Hs. unfold calculateRangeEnd. cbv zeta.
  change (indexed_value rcd index prop dot) with key.
  change (lengthZ index) with n.
  destruct (Z.eqb_spec n 0) as [|_]; [lia|].
  destruct (rangeEnd_loop_spec key val (length index) 0 (n - 1))
    as (Hr & Hbelow & Habove); [lia|unfold n, lengthZ; lia| |].
  { intros i j Hij Hj. rewrite !ltHelper_false_iff.
    apply (keys_sorted_gt_mono key n); [done|lia..]. }
  set (ubound := rangeEnd_loop key val (length index) 0 (n - 1)) in *.
  rewrite (aeqHelper_Comparator val (key ubound)), gtHelper_Comparator.
  destruct (Comparator val (key ubound)) eqn:E.
  - assert (ubound = n - 1) as Hlast.
    { destruct (Z.lt_ge_cases ubound (n - 1)) as [Hlt|]; [|lia].
      specialize (Habove ubound ltac:(lia)).
      apply ltHelper_false_iff in Habove. congruence. }
    exists n. repeat split; [lia|lia| | |].
    + intros i Hi. destruct (Z.lt_ge_cases i ubound).
      * apply ltHelper_false_not, Hbelow. lia.
      * replace i with ubound by lia. by rewrite E.
    + intros i Hi. lia.
    + destruct (Z.ltb_spec 0 n); [|lia]. replace (n - 1) with ubound by lia.
      by rewrite E.
  - exists ubound. repeat split; [lia|lia| | |].
    + intros i Hi. apply ltHelper_false_not, Hbelow. lia.
    + intros i Hi. eapply Comparator_lt_le_trans; [done|]. apply Hs; lia.
    + destruct (Z.ltb_spec 0 ubound) as [Hpos|Hzero].
      * rewrite aeqHelper_Comparator. cbn [andb].
        destruct (Comparator val (key (ubound - 1))); simpl; try done;
          by destruct (Z.eqb_spec ubound 0); [lia|].
      * assert (ubound = 0) as Hz by lia. rewrite Hz. cbn [andb].
        unfold key at 1. rewrite indexed_value_before by lia. simpl.
        by destruct (aeqHelper val VUndefined).
  - assert (ubound = n - 1) as Hlast.
    { destruct (Z.lt_ge_cases ubound (n - 1)) as [Hlt|]; [|lia].
      specialize (Habove ubound ltac:(lia)).
      apply ltHelper_false_iff in Habove. congruence. }
    exists n. repeat split; [lia|lia| | |].
    + intros i Hi. destruct (Z.lt_ge_cases i ubound).
      * apply ltHelper_false_not, Hbelow. lia.
      * replace i with ubound by lia. by rewrite E.
    + intros i Hi. lia.
    + destruct (Z.ltb_spec 0 n); [|lia]. replace (n - 1) with ubound by lia.
      rewrite E. simpl. destruct (Z.eqb_spec n 0); [lia|]. simpl. lia.
Qed.

Lemma first_not_below_exists (rcd : list (gmap string value)) (index : list Z)
    (prop : string) (val : value) (dot : bool) :
  let key := indexed_value rcd index prop dot in
  let n := lengthZ index in
  0 < n -> keys_sorted key n ->
  exists lb, first_not_below key n val lb
    /\ calculateRangeStart rcd index prop val true dot = lb
    /\ calculateRangeStart rcd index prop val false dot
       = if (lb <? n) && is_Eq (Comparator (key lb) val) then lb else lb - 1.
Proof.
  intros key n Hn Hs.
  destruct (calculateRangeStart_spec rcd index prop val true dot Hn Hs)
    as (lb & H1 & H2 & H3 & Ha).
  destruct (calculateRangeStart_spec rcd index prop val false dot Hn Hs)
    as (lb' & H1' & H2' & H3' & Hq).
  assert (lb' = lb) as ->.
  { destruct (Z.lt_trichotomy lb' lb) as [Hlt|[->|Hgt]]; [|done|].
    - specialize (H2 lb' ltac:(lia)). specialize (H3' lb' ltac:(lia)). done.
    - specialize (H2' lb ltac:(lia)). specialize (H3 lb ltac:(lia)). done. }
  exists lb. split; [by split|]. split; [exact Ha|exact Hq].
Qed.

Lemma first_above_exists (rcd : list (gmap string value)) (index : list Z)
    (prop : string) (val : value) (dot : bool) :
  let key := indexed_value rcd index prop dot in
  let n := lengthZ index in
  0 < n -> keys_sorted key n ->
  exists ub, first_above key n val ub
    /\ calculateRangeEnd rcd index prop val dot
       = if (0 <? ub) && is_Eq (Comparator val (key (ub - 1))) then ub - 1
         else if (ub =? 0) && aeqHelper val VUndefined then -1
         else ub.
Proof.
  intros key n Hn Hs.
  destruct (calculateRangeEnd_spec rcd index prop val dot Hn Hs)
    as (ub & H1 & H2 & H3 & He).
  exists ub. split; [by split|exact He].
Qed.

Section Bounds.
Variable key : Z -> value.
Variable n : Z.
Variable val : value.
Hypothesis Hsorted : keys_sorted key n.

Lemma first_not_below_unique (lb lb' : Z) :
  first_not_below key n val lb -> first_not_below key n val lb' -> lb = lb'.
Proof using Type.
  intros (H1 & H2 & H3) (H1' & H2' & H3').
  destruct (Z.lt_trichotomy lb lb') as [Hlt|[->|Hgt]]; [|done|].
  - specialize (H2' lb ltac:(lia)). specialize (H3 lb ltac:(lia)). done.
  - specialize (H2 lb' ltac:(lia)). specialize (H3' lb' ltac:(lia)). done.
Qed.

Lemma first_above_unique (ub ub' : Z) :
  first_above key n val ub -> first_above key n val ub' -> ub = ub'.
Proof using Type.
  intros (H1 & H2 & H3) (H1' & H2' & H3').
  destruct (Z.lt_trichotomy ub ub') as [Hlt|[->|Hgt]]; [|done|].
  - specialize (H2' ub ltac:(lia)). specialize (H3 ub ltac:(lia)). done.
  - specialize (H2 ub' ltac:(lia)). specialize (H3' ub' ltac:(lia)). done.
Qed.

Lemma bounds_ordered (lb ub : Z) :
  first_not_below key n val lb -> first_above key n val ub -> lb <= ub.
Proof using Type.
  intros (H1 & H2 & H3) (H1' & H2' & H3').
  destruct (Z.le_gt_cases lb ub) as [|Hgt]; [done|].
  specialize (H2 ub ltac:(lia)). specialize (H3' ub ltac:(lia)).
  apply Comparator_gt_lt in H3'. congruence.
Qed.

(** The positions an operator selects, read off the two bounds. *)
Lemma lt_positions (lb i : Z) :
  first_not_below key n val lb -> 0 <= i < n ->
  ltHelper (key i) val false = true <-> i < lb.
Proof using Type.
  intros (H1 & H2 & H3) Hi. rewrite ltHelper_false_iff. split.
  - intros H. destruct (Z.lt_ge_cases i lb); [done|].
    by specialize (H3 i ltac:(lia)).
  - intros H. apply H2. lia.
Qed.

Lemma gte_positions (lb i : Z) :
  first_not_below key n val lb -> 0 <= i < n ->
  gtHelper (key i) val true = true <-> lb <= i.
Proof using Type.
  intros Hlb Hi. pose proof (lt_positions lb i Hlb Hi) as H.
  rewrite ltHelper_Comparator in H. rewrite gtHelper_Comparator.
  destruct (Comparator (key i) val); split; intros; try done; lia.
Qed.

Lemma gt_positions (ub i : Z) :
  first_above key n val ub -> 0 <= i < n ->
  gtHelper (key i) val false = true <-> ub <= i.
Proof using Type.
  intros (H1 & H2 & H3) Hi. rewrite gtHelper_Comparator.
  rewrite (Comparator_antisym val (key i)). split.
  - intros H. destruct (Z.lt_ge_cases i ub); [|done].
    specialize (H2 i ltac:(lia)). by destruct (Comparator val (key i)).
  - intros H. by rewrite (H3 i ltac:(lia)).
Qed.

Lemma lte_positions (ub i : Z) :
  first_above key n val ub -> 0 <= i < n ->
  ltHelper (key i) val true = true <-> i < ub.
Proof using Type.
  intros Hub Hi. pose proof (gt_positions ub i Hub Hi) as H.
  rewrite gtHelper_Comparator in H. rewrite ltHelper_Comparator.
  destruct (Comparator (key i) val); split; intros; try done; lia.
Qed.

Lemma aeq_positions (lb ub i : Z) :
  first_not_below key n val lb -> first_above key n val ub -> 0 <= i < n ->
  aeqHelper (key i) val = true <-> lb <= i < ub.
Proof using Type.
  intros Hlb Hub Hi.
  pose proof (lt_positions lb i Hlb Hi) as H1.
  pose proof (gt_positions ub i Hub Hi) as H2.
  rewrite ltHelper_Comparator in H1. rewrite gtHelper_Comparator in H2.
  rewrite aeqHelper_Comparator.
  destruct (Comparator (key i) val); split; intros; try done; lia.
Qed.
End Bounds.

(** ** What [calculateRange] returns, operator by operator *)

Section Ranges.
Variable rcd : list (gmap string value).
Variable index : list Z.
Variable prop : string.
Let key := indexed_value rcd index prop (has_dot prop).
Let n := lengthZ index.
Hypothesis Hrcd : 0 < lengthZ rcd.
Hypothesis Hn : 0 < n.
Hypothesis Hsorted : index_sorted rcd index prop.

Lemma above_all_iff (val : value) (ub : Z) :
  first_above key n val ub ->
  (Comparator val (key (n - 1)) = Lt <-> ub < n).
Proof using Hn.
  intros (H1 & H2 & H3). split.
  - intros H. destruct (Z.lt_ge_cases ub n); [done|].
    by specialize (H2 (n - 1) ltac:(lia)).
  - intros H. apply H3. lia.
Qed.

Lemma below_all_iff (val : value) (ub : Z) :
  first_above key n val ub ->
  (Comparator val (key 0) = Lt <-> ub = 0).
Proof using Hn.
  intros (H1 & H2 & H3). split.
  - intros H. destruct (Z.eq_dec ub 0); [done|].
    by specialize (H2 0 ltac:(lia)).
  - intros ->. apply H3. lia.
Qed.

Lemma not_below_last_iff (val : value) (lb : Z) :
  first_not_below key n val lb ->
  (Comparator (key (n - 1)) val = Lt <-> lb = n).
Proof using Hn.
  intros (H1 & H2 & H3). split.
  - intros H. destruct (Z.eq_dec lb n); [done|].
    by specialize (H3 (n - 1) ltac:(lia)).
  - intros ->. apply H2. lia.
Qed.

Lemma not_below_first_iff (val : value) (lb : Z) :
  first_not_below key n val lb ->
  (Comparator (key 0) val = Lt <-> 0 < lb).
Proof using Hn.
  intros (H1 & H2 & H3). split.
  - intros H. destruct (Z.lt_ge_cases 0 lb); [done|].
    by specialize (H3 0 ltac:(lia)).
  - intros H. apply H2. lia.
Qed.

(** Just before [ub] the key equals [val] exactly when [val] is a key. *)
Lemma last_equal (val : value) (lb ub : Z) :
  first_not_below key n val lb -> first_above key n val ub ->
  0 < ub -> (Comparator val (key (ub - 1)) = Eq <-> lb < ub).
Proof using Hsorted.
  intros (H1 & H2 & H3) (H1' & H2' & H3') Hpos. split.
  - intros H. destruct (Z.lt_ge_cases lb ub); [done|].
    specialize (H2 (ub - 1) ltac:(lia)).
    apply Comparator_eq_sym in H. congruence.
  - intros H.
    specialize (H2' (ub - 1) ltac:(lia)). specialize (H3 (ub - 1) ltac:(lia)).
    rewrite (Comparator_antisym val) in H3.
    by destruct (Comparator val (key (ub - 1))).
Qed.

Lemma first_equal (val : value) (lb ub : Z) :
  first_not_below key n val lb -> first_above key n val ub ->
  lb < n -> (Comparator (key lb) val = Eq <-> lb < ub).
Proof using Hsorted.
  intros (H1 & H2 & H3) (H1' & H2' & H3') Hlt. split.
  - intros H. destruct (Z.lt_ge_cases lb ub); [done|].
    specialize (H3' lb ltac:(lia)).
    apply Comparator_eq_sym in H. congruence.
  - intros H.
    specialize (H2' lb ltac:(lia)). specialize (H3 lb ltac:(lia)).
    rewrite (Comparator_antisym (key lb) val) in H2'.
    by destruct (Comparator (key lb) val).
Qed.

Lemma calculateRange_gt (val : value) :
  exists ub, first_above key n val ub
    /\ calculateRange rcd index (O_gt val) prop
       = if ub <? n then Range ub (n - 1) else Range 0 (-1).
Proof using Hrcd Hn Hsorted.
  destruct (first_above_exists rcd index prop val (has_dot prop) Hn Hsorted)
    as (ub & Hub & He).
  change (indexed_value rcd index prop (has_dot prop)) with key in Hub, He.
  change (lengthZ index) with n in Hub, He.
  exists ub. split; [done|].
  pose proof (above_all_iff val ub Hub) as Hlast.
  pose proof (below_all_iff val ub Hub) as Hfirst.
  unfold calculateRange. cbv zeta.
  change (indexed_value rcd index prop (has_dot prop)) with key.
  change (lengthZ index) with n.
  destruct (Z.eqb_spec (lengthZ rcd) 0); [lia|].
  rewrite !gtHelper_Comparator, aeqHelper_Comparator, He.
  rewrite (Comparator_antisym val (key 0)).
  destruct Hub as (H1 & H2 & H3).
  destruct (Z.ltb_spec ub n) as [Hlt|Hge].
  - rewrite (proj2 Hlast Hlt).
    destruct (Z.eq_dec ub 0) as [->|Hpos].
    + by rewrite (proj2 Hfirst eq_refl).
    + assert (Comparator val (key 0) <> Lt) as E0 by (apply H2; lia).
      replace (match CompOpp (Comparator val (key 0)) with
               | Gt => true | _ => false end) with false
        by (by destruct (Comparator val (key 0))).
      destruct (Z.ltb_spec 0 ub); [|lia]. cbn [andb].
      destruct (Comparator val (key (ub - 1))) eqn:E2; simpl.
      * apply Comparator_eq_sym in E2 as ->. f_equal. lia.
      * by specialize (H2 (ub - 1) ltac:(lia)).
      * destruct (Z.eqb_spec ub 0); [lia|]. simpl.
        by rewrite (Comparator_antisym val), (H3 ub ltac:(lia)).
  - assert (Comparator val (key (n - 1)) <> Lt) as E1 by (apply H2; lia).
    by destruct (Comparator val (key (n - 1))).
Qed.
Lemma calculateRange_gte (val : value) :
  exists lb, first_not_below key n val lb
    /\ calculateRange rcd index (O_gte val) prop
       = if lb <? n then Range lb (n - 1) else Range 0 (-1).
Proof using Hrcd Hn Hsorted.
  destruct (first_not_below_exists rcd index prop val (has_dot prop) Hn Hsorted)
    as (lb & Hlb & _ & Hq).
  change (indexed_value rcd index prop (has_dot prop)) with key in Hlb, Hq.
  change (lengthZ index) with n in Hlb, Hq.
  exists lb. split; [done|].
  pose proof (not_below_last_iff val lb Hlb) as Hlast.
  pose proof (not_below_first_iff val lb Hlb) as Hfirst.
  unfold calculateRange. cbv zeta.
  change (indexed_value rcd index prop (has_dot prop)) with key.
  change (lengthZ index) with n.
  destruct (Z.eqb_spec (lengthZ rcd) 0); [lia|].
  rewrite !gtHelper_Comparator, aeqHelper_Comparator, Hq.
  rewrite (Comparator_antisym (key (n - 1)) val).
  destruct Hlb as (H1 & H2 & H3).
  destruct (Z.ltb_spec lb n) as [Hlt|Hge].
  - assert (Comparator (key (n - 1)) val <> Lt) as E1 by (apply H3; lia).
    replace (match CompOpp (Comparator (key (n - 1)) val) with
             | Gt => true | _ => false end) with false
      by (by destruct (Comparator (key (n - 1)) val)).
    destruct (Z.eq_dec lb 0) as [->|Hpos].
    + assert (Comparator (key 0) val <> Lt) as E0 by (apply H3; lia).
      by destruct (Comparator (key 0) val).
    + rewrite (proj2 Hfirst ltac:(lia)). cbn [andb].
      destruct (Comparator (key lb) val) eqn:E2; simpl.
      * by rewrite E2.
      * by specialize (H3 lb ltac:(lia)).
      * rewrite (H2 (lb - 1) ltac:(lia)). simpl. f_equal. lia.
  - by rewrite (proj2 Hlast ltac:(lia)).
Qed.

Lemma calculateRange_lt (val : value) :
  exists lb, first_not_below key n val lb
    /\ calculateRange rcd index (O_lt val) prop
       = if 0 <? lb then Range 0 (lb - 1) else Range 0 (-1).
Proof using Hrcd Hn Hsorted.
  destruct (first_not_below_exists rcd index prop val (has_dot prop) Hn Hsorted)
    as (lb & Hlb & _ & Hq).
  change (indexed_value rcd index prop (has_dot prop)) with key in Hlb, Hq.
  change (lengthZ index) with n in Hlb, Hq.
  exists lb. split; [done|].
  pose proof (not_below_last_iff val lb Hlb) as Hlast.
  pose proof (not_below_first_iff val lb Hlb) as Hfirst.
  unfold calculateRange. cbv zeta.
  change (indexed_value rcd index prop (has_dot prop)) with key.
  change (lengthZ index) with n.
  destruct (Z.eqb_spec (lengthZ rcd) 0); [lia|].
  rewrite !ltHelper_Comparator, aeqHelper_Comparator, Hq.
  rewrite (Comparator_antisym (key 0) val).
  destruct Hlb as (H1 & H2 & H3).
  destruct (Z.ltb_spec 0 lb) as [Hpos|Hzero].
  - rewrite (proj2 Hfirst Hpos). simpl.
    destruct (Z.eq_dec lb n) as [->|Hne].
    + by rewrite (proj2 Hlast eq_refl).
    + assert (Comparator (key (n - 1)) val <> Lt) as E1 by (apply H3; lia).
      replace (match Comparator (key (n - 1)) val with
               | Lt => true | _ => false end) with false
        by (by destruct (Comparator (key (n - 1)) val)).
      destruct (Z.ltb_spec lb n); [|lia]. cbn [andb].
      destruct (Comparator (key lb) val) eqn:E2; simpl.
      * by rewrite E2.
      * by specialize (H3 lb ltac:(lia)).
      * by rewrite (H2 (lb - 1) ltac:(lia)).
  - assert (Comparator (key 0) val <> Lt) as E0 by (apply H3; lia).
    by destruct (Comparator (key 0) val).
Qed.

Lemma calculateRange_lte (val : value) :
  exists ub, first_above key n val ub
    /\ calculateRange rcd index (O_lte val) prop
       = if 0 <? ub then Range 0 (ub - 1) else Range 0 (-1).
Proof using Hrcd Hn Hsorted.
  destruct (first_above_exists rcd index prop val (has_dot prop) Hn Hsorted)
    as (ub & Hub & He).
  change (indexed_value rcd index prop (has_dot prop)) with key in Hub, He.
  change (lengthZ index) with n in Hub, He.
  exists ub. split; [done|].
  pose proof (above_all_iff val ub Hub) as Hlast.
  pose proof (below_all_iff val ub Hub) as Hfirst.
  unfold calculateRange. cbv zeta.
  change (indexed_value rcd index prop (has_dot prop)) with key.
  change (lengthZ index) with n.
  destruct (Z.eqb_spec (lengthZ rcd) 0); [lia|].
  rewrite !ltHelper_Comparator, aeqHelper_Comparator, He.
  rewrite (Comparator_antisym val (key (n - 1))).
  destruct Hub as (H1 & H2 & H3).
  destruct (Z.ltb_spec 0 ub) as [Hpos|Hzero].
  - assert (Comparator val (key 0) <> Lt) as E0 by (apply H2; lia).
    replace (match Comparator val (key 0) with
             | Lt => true | _ => false end) with false
      by (by destruct (Comparator val (key 0))).
    destruct (Z.eq_dec ub n) as [->|Hne].
    + assert (Comparator val (key (n - 1)) <> Lt) as E1 by (apply H2; lia).
      by destruct (Comparator val (key (n - 1))).
    + rewrite (proj2 Hlast ltac:(lia)). cbn [andb CompOpp].
      destruct (Comparator val (key (ub - 1))) eqn:E2; simpl.
      * by apply Comparator_eq_sym in E2 as ->.
      * by specialize (H2 (ub - 1) ltac:(lia)).
      * destruct (Z.eqb_spec ub 0); [lia|]. simpl.
        by rewrite (Comparator_antisym val), (H3 ub ltac:(lia)).
  - assert (ub = 0) as -> by lia. by rewrite (proj2 Hfirst eq_refl).
Qed.
Lemma calculateRange_eq_result (val : value) :
  exists lb ub, first_not_below key n val lb /\ first_above key n val ub
    /\ calculateRange_eq rcd index prop val
       = if lb <? ub then (lb, ub - 1) else (0, -1).
Proof using Hrcd Hn Hsorted.
  destruct (first_not_below_exists rcd index prop val (has_dot prop) Hn Hsorted)
    as (lb & Hlb & _ & Hq).
  destruct (first_above_exists rcd index prop val (has_dot prop) Hn Hsorted)
    as (ub & Hub & He).
  change (indexed_value rcd index prop (has_dot prop)) with key in Hlb, Hq, Hub, He.
  change (lengthZ index) with n in Hlb, Hq, Hub, He.
  exists lb, ub. split; [done|]. split; [done|].
  pose proof (bounds_ordered key n val lb ub Hlb Hub) as Hord.
  pose proof (not_below_last_iff val lb Hlb) as Hlast.
  pose proof (below_all_iff val ub Hub) as Hfirst.
  pose proof (first_equal val lb ub Hlb Hub) as Hfe.
  pose proof (last_equal val lb ub Hlb Hub) as Hle.
  unfold calculateRange_eq. cbv zeta.
  change (indexed_value rcd index prop (has_dot prop)) with key.
  change (lengthZ index) with n.
  destruct (Z.eqb_spec (lengthZ rcd) 0); [lia|].
  rewrite ltHelper_Comparator, gtHelper_Comparator, aeqHelper_Comparator, Hq, He.
  rewrite (Comparator_antisym (key (n - 1)) val).
  destruct Hlb as (H1 & H2 & H3), Hub as (H1' & H2' & H3').
  destruct (Z.eq_dec ub 0) as [->|Hpos].
  { rewrite (proj2 Hfirst eq_refl). simpl. by destruct (Z.ltb_spec lb 0); [lia|]. }
  assert (Comparator val (key 0) <> Lt) as E0 by (apply H2'; lia).
  replace (match Comparator val (key 0) with Lt => true | _ => false end)
    with false by (by destruct (Comparator val (key 0))).
  destruct (Z.eq_dec lb n) as [->|Hne].
  { rewrite (proj2 Hlast eq_refl). simpl. by destruct (Z.ltb_spec n ub); [lia|]. }
  assert (Comparator (key (n - 1)) val <> Lt) as E1 by (apply H3; lia).
  replace (match CompOpp (Comparator (key (n - 1)) val) with
           | Gt => true | _ => false end) with false
    by (by destruct (Comparator (key (n - 1)) val)).
  destruct (Z.ltb_spec lb n); [|lia]. destruct (Z.ltb_spec 0 ub); [|lia].
  cbn [andb orb].
  destruct (Z.ltb_spec lb ub) as [Hlt|Hge].
  - rewrite (proj2 (Hfe ltac:(lia)) Hlt), (proj2 (Hle ltac:(lia)) Hlt). simpl.
    by rewrite (proj2 (Hfe ltac:(lia)) Hlt).
  - assert (Comparator (key lb) val <> Eq) as E2.
    { intros E. apply (Hfe ltac:(lia)) in E. lia. }
    replace (is_Eq (Comparator (key lb) val)) with false
      by (by destruct (Comparator (key lb) val)).
    by rewrite (H2 (lb - 1) ltac:(lia)).
Qed.

Lemma calculateRange_eq_range (op : operation) (val : value) :
  op = O_eq val \/ op = O_aeq val \/ op = O_dteq val ->
  exists lb ub, first_not_below key n val lb /\ first_above key n val ub
    /\ calculateRange rcd index op prop
       = if lb <? ub then Range lb (ub - 1) else Range 0 (-1).
Proof using Hrcd Hn Hsorted.
  intros Hop.
  destruct (calculateRange_eq_result val) as (lb & ub & Hlb & Hub & Heq).
  exists lb, ub. split; [done|]. split; [done|].
  assert (calculateRange rcd index op prop
          = Range (calculateRange_eq rcd index prop val).1
                  (calculateRange_eq rcd index prop val).2) as ->.
  { unfold calculateRange.
    destruct (Z.eqb_spec (lengthZ rcd) 0); [lia|].
    by destruct Hop as [->|[->| ->]]. }
  rewrite Heq. by destruct (lb <? ub).
Qed.

Lemma calculateRange_between (vals : list value) :
  exists lb ub,
    first_not_below key n (val_at vals 0) lb
    /\ first_above key n (val_at vals 1) ub
    /\ calculateRange rcd index (O_between vals) prop
       = if lb <? ub then Range lb (ub - 1) else Range 0 (-1).
Proof using Hrcd Hn Hsorted.
  set (val0 := val_at vals 0). set (val1 := val_at vals 1).
  destruct (first_not_below_exists rcd index prop val0 (has_dot prop) Hn Hsorted)
    as (lb & Hlb & _ & Hq).
  destruct (first_above_exists rcd index prop val1 (has_dot prop) Hn Hsorted)
    as (ub & Hub & He).
  change (indexed_value rcd index prop (has_dot prop)) with key in Hlb, Hq, Hub, He.
  change (lengthZ index) with n in Hlb, Hq, Hub, He.
  exists lb, ub. split; [done|]. split; [done|].
  pose proof (not_below_last_iff val0 lb Hlb) as Hlast.
  pose proof (below_all_iff val1 ub Hub) as Hfirst.
  unfold calculateRange. cbv zeta.
  change (indexed_value rcd index prop (has_dot prop)) with key.
  change (lengthZ index) with n.
  fold val0 val1.
  destruct (Z.eqb_spec (lengthZ rcd) 0); [lia|].
  rewrite !ltHelper_Comparator, !gtHelper_Comparator, Hq, He.
  rewrite (Comparator_antisym (key (n - 1)) val0).
  destruct Hlb as (H1 & H2 & H3), Hub as (H1' & H2' & H3').
  destruct (Z.eq_dec lb n) as [->|Hne].
  { rewrite (proj2 Hlast eq_refl). simpl. by destruct (Z.ltb_spec n ub); [lia|]. }
  assert (Comparator (key (n - 1)) val0 <> Lt) as E1 by (apply H3; lia).
  replace (match CompOpp (Comparator (key (n - 1)) val0) with
           | Gt => true | _ => false end) with false
    by (by destruct (Comparator (key (n - 1)) val0)).
  destruct (Z.eq_dec ub 0) as [->|Hpos].
  { rewrite (proj2 Hfirst eq_refl). by destruct (Z.ltb_spec lb 0); [lia|]. }
  assert (Comparator val1 (key 0) <> Lt) as E0 by (apply H2'; lia).
  replace (match Comparator val1 (key 0) with Lt => true | _ => false end)
    with false by (by destruct (Comparator val1 (key 0))).
  destruct (Z.ltb_spec lb n); [|lia]. destruct (Z.ltb_spec 0 ub); [|lia].
  cbn [andb].
  (* the lower bound settles on [lb] *)
  assert ((let lbound :=
             if is_Eq (Comparator (key lb) val0) then lb else lb - 1 in
           let lbound := if lbound <? 0 then lbound + 1 else lbound in
           if negb match Comparator (key lbound) val0 with
                   | Gt => true | Eq => true | Lt => false end
           then lbound + 1 else lbound) = lb) as Hlo.
  { cbv zeta. destruct (Comparator (key lb) val0) eqn:E2; simpl.
    - destruct (Z.ltb_spec lb 0); [lia|]. by rewrite E2.
    - by specialize (H3 lb ltac:(lia)).
    - destruct (Z.ltb_spec (lb - 1) 0).
      + replace (lb - 1 + 1) with lb by lia. by rewrite E2.
      + rewrite (H2 (lb - 1) ltac:(lia)). simpl. lia. }
  (* the upper bound settles on [ub - 1] *)
  assert ((let ubound :=
             if is_Eq (Comparator val1 (key (ub - 1))) then ub - 1
             else if (ub =? 0) && aeqHelper val1 VUndefined then -1 else ub in
           let ubound := if ubound >? n - 1 then ubound - 1 else ubound in
           if negb match Comparator (key ubound) val1 with
                   | Lt => true | Eq => true | Gt => false end
           then ubound - 1 else ubound) = ub - 1) as Hhi.
  { cbv zeta. destruct (Z.eqb_spec ub 0); [lia|]. cbn [andb].
    destruct (Comparator val1 (key (ub - 1))) eqn:E2; simpl.
    - destruct (Z.gtb_spec (ub - 1) (n - 1)); [lia|].
      by apply Comparator_eq_sym in E2 as ->.
    - by specialize (H2' (ub - 1) ltac:(lia)).
    - apply Comparator_gt_lt in E2.
      destruct (Z.gtb_spec ub (n - 1)).
      + by rewrite E2.
      + rewrite (Comparator_antisym val1), (H3' ub ltac:(lia)). done. }
  cbv zeta in Hlo, Hhi. rewrite Hlo, Hhi.
  destruct (Z.ltb_spec (ub - 1) lb), (Z.ltb_spec lb ub); try done; lia.
Qed.
End Ranges.

Lemma keys_sortedb_sound (key : Z -> value) (n : Z) :
  keys_sortedb key n = true -> keys_sorted key n.
Proof.
  unfold keys_sortedb. rewrite forallb_forall. intros H i j Hi Hij Hj.
  specialize (H i). rewrite forallb_forall in H.
  assert (In i (seqZ 0 n)) as Hin.
  { apply list_elem_of_In, elem_of_seqZ. lia. }
  specialize (H Hin j).
  assert (In j (seqZ i (n - i))) as Hjn.
  { apply list_elem_of_In, elem_of_seqZ. lia. }
  specialize (H Hjn). by destruct (Comparator (key i) (key j)).
Qed.

(** C3 (amended): on a sorted (non-dirty) binary index over non-empty data,
    [calculateRange] returns [[0, -1]] whenever no indexed key passes the
    comparator test the index range of a range operator stands for
    ([range_test]: [Comparators.aeq] for [$eq], [$aeq] and [$dteq],
    [Comparators.gt] and [lt] for [$gt], [$gte], [$lt] and [$lte], both
    bounds for [$between]).  For [$eq], [$aeq] and [$between] that test is
    looser than the operator: a key that is [aeq] to the value without
    matching the operator still gives a range.  For [$gt] with some key
    above the value: it returns [[0, max]] when the value is below every
    key; otherwise [[ubound + 1, max]] when some key of the index is [aeq]
    to the value and [[ubound, max]] when none is (a hole), [ubound] being
    what [calculateRangeEnd] computes and [max] the last index position. *)
Theorem calculateRange_edge_policy (rcd : list (gmap string value))
    (index : list Z) (prop : string) :
  0 < lengthZ rcd -> 0 < lengthZ index -> index_sorted rcd index prop ->
  let key := indexed_value rcd index prop (has_dot prop) in
  let n := lengthZ index in
  let max := n - 1 in
  (forall op, range_operator op = true ->
     (forall i, 0 <= i < n -> range_test op (key i) = false) ->
     calculateRange rcd index op prop = Range 0 (-1))
  /\ (forall val,
       (exists i, 0 <= i < n /\ gtHelper (key i) val false = true) ->
       let ubound := calculateRangeEnd rcd index prop val (has_dot prop) in
       (gtHelper (key 0) val false = true ->
          calculateRange rcd index (O_gt val) prop = Range 0 max)
       /\ ((exists i, 0 <= i < n /\ aeqHelper (key i) val = true) ->
          calculateRange rcd index (O_gt val) prop = Range (ubound + 1) max)
       /\ (gtHelper (key 0) val false = false ->
           (forall i, 0 <= i < n -> aeqHelper (key i) val = false) ->
          calculateRange rcd index (O_gt val) prop = Range ubound max)).
Proof.
  intros Hrcd Hn Hsorted key n max. split.
  - intros op Hop Hnone.
    destruct op; try discriminate Hop; simpl in Hnone.
    + destruct (calculateRange_eq_range rcd index prop Hrcd Hn Hsorted (O_eq b) b)
        as (lb & ub & Hlb & Hub & ->); [by left|].
      destruct (Z.ltb_spec lb ub); [|done].
      pose proof (proj2 (aeq_positions key n b lb ub lb Hlb Hub
                           ltac:(destruct Hlb, Hub; lia)) ltac:(lia)) as E.
      rewrite Hnone in E; [done|destruct Hlb, Hub; lia].
    + destruct (calculateRange_eq_range rcd index prop Hrcd Hn Hsorted (O_aeq b) b)
        as (lb & ub & Hlb & Hub & ->); [by right; left|].
      destruct (Z.ltb_spec lb ub); [|done].
      pose proof (proj2 (aeq_positions key n b lb ub lb Hlb Hub
                           ltac:(destruct Hlb, Hub; lia)) ltac:(lia)) as E.
      rewrite Hnone in E; [done|destruct Hlb, Hub; lia].
    + destruct (calculateRange_eq_range rcd index prop Hrcd Hn Hsorted (O_dteq b) b)
        as (lb & ub & Hlb & Hub & ->); [by right; right|].
      destruct (Z.ltb_spec lb ub); [|done].
      pose proof (proj2 (aeq_positions key n b lb ub lb Hlb Hub
                           ltac:(destruct Hlb, Hub; lia)) ltac:(lia)) as E.
      rewrite Hnone in E; [done|destruct Hlb, Hub; lia].
    + destruct (calculateRange_gt rcd index prop Hrcd Hn Hsorted b)
        as (ub & Hub & ->). fold n.
      destruct (Z.ltb_spec ub n); [|done].
      pose proof (proj2 (gt_positions key n b ub ub Hub
                           ltac:(destruct Hub; lia)) ltac:(lia)) as E.
      rewrite Hnone in E; [done|destruct Hub; lia].
    + destruct (calculateRange_gte rcd index prop Hrcd Hn Hsorted b)
        as (lb & Hlb & ->). fold n.
      destruct (Z.ltb_spec lb n); [|done].
      pose proof (proj2 (gte_positions key n b lb lb Hlb
                           ltac:(destruct Hlb; lia)) ltac:(lia)) as E.
      rewrite Hnone in E; [done|destruct Hlb; lia].
    + destruct (calculateRange_lt rcd index prop Hrcd Hn Hsorted b)
        as (lb & Hlb & ->).
      destruct (Z.ltb_spec 0 lb); [|done].
      pose proof (proj2 (lt_positions key n b lb 0 Hlb ltac:(lia)) ltac:(lia)) as E.
      rewrite Hnone in E; [done|lia].
    + destruct (calculateRange_lte rcd index prop Hrcd Hn Hsorted b)
        as (ub & Hub & ->).
      destruct (Z.ltb_spec 0 ub); [|done].
      pose proof (proj2 (lte_positions key n b ub 0 Hub ltac:(lia)) ltac:(lia)) as E.
      rewrite Hnone in E; [done|lia].
    + destruct (calculateRange_between rcd index prop Hrcd Hn Hsorted vals)
        as (lb & ub & Hlb & Hub & ->).
      destruct (Z.ltb_spec lb ub); [|done].
      assert (0 <= lb < n) as Hin by (destruct Hlb, Hub; lia).
      pose proof (proj2 (gte_positions key n _ lb lb Hlb Hin) ltac:(lia)) as E1.
      pose proof (proj2 (lte_positions key n _ ub lb Hub Hin) ltac:(lia)) as E2.
      specialize (Hnone lb Hin). by rewrite E1, E2 in Hnone.
  - intros val (i & Hi & Hgt) ubound.
    destruct (calculateRange_gt rcd index prop Hrcd Hn Hsorted val)
      as (ub & Hub & ->). fold n.
    destruct (first_above_exists rcd index prop val (has_dot prop) Hn Hsorted)
      as (ub' & Hub' & He).
    assert (ub' = ub) as -> by (by eapply first_above_unique).
    fold ubound in He. fold key in He.
    pose proof (proj1 (gt_positions key n val ub i Hub Hi) Hgt) as Hle.
    destruct (Z.ltb_spec ub n); [|lia].
    destruct Hub as (H1 & H2 & H3). fold key in H2, H3. repeat split.
    + intros H0. apply (gt_positions key n val ub 0) in H0; [|done|lia].
      f_equal. lia.
    + intros (j & Hj & Haeq).
      rewrite aeqHelper_Comparator in Haeq.
      destruct (Comparator (key j) val) eqn:Ej; try done.
      assert (j < ub) as Hjub.
      { destruct (Z.lt_ge_cases j ub); [done|].
        specialize (H3 j ltac:(lia)). apply Comparator_eq_sym in Ej. congruence. }
      assert (Comparator val (key (ub - 1)) = Eq) as Elast.
      { specialize (H2 (ub - 1) ltac:(lia)).
        assert (Comparator val (key (ub - 1)) <> Gt).
        { rewrite <- (Comparator_eq_l _ _ _ Ej). apply Hsorted; lia. }
        by destruct (Comparator val (key (ub - 1))). }
      rewrite Elast in He. destruct (Z.ltb_spec 0 ub); [|lia].
      simpl in He. rewrite He. f_equal. lia.
    + intros H0 Habsent.
      assert (ub <> 0) as Hpos.
      { intros ->. rewrite (proj2 (gt_positions key n val 0 0
                                     ltac:(done) ltac:(lia)) ltac:(lia)) in H0.
        done. }
      assert (is_Eq (Comparator val (key (ub - 1))) = false) as Ehole.
      { specialize (Habsent (ub - 1) ltac:(lia)).
        rewrite aeqHelper_Comparator, (Comparator_antisym val) in Habsent.
        by destruct (Comparator val (key (ub - 1))). }
      rewrite Ehole, andb_false_r in He.
      destruct (Z.eqb_spec ub 0); [lia|]. simpl in He. by rewrite He.
Qed.

(** * [get]: binary search on the [$loki] index *)

Lemma num_lt_irrefl (x : number) : num_lt x x = false.
Proof.
  unfold num_lt. destruct x; simpl; try done. by rewrite Qccompare_refl.
Qed.

Lemma num_lt_trans (x y z : number) :
  num_lt x y = true -> num_lt y z = true -> num_lt x z = true.
Proof.
  unfold num_lt. destruct x, y, z; simpl; try done.
  destruct (q ?= q0)%Qc eqn:E1; try done.
  destruct (q0 ?= q1)%Qc eqn:E2; try done.
  by rewrite (Qccompare_lt_trans _ _ _ E1 E2).
Qed.

Lemma num_lt_eq_trans (x y z : number) :
  num_lt x y = true -> num_eq y z = true -> num_lt x z = true.
Proof.
  unfold num_lt, num_eq. destruct x, y, z; simpl; try done.
  destruct (q0 ?= q1)%Qc eqn:E2; try done.
  by apply Qccompare_eq in E2 as ->.
Qed.

Lemma num_eq_not_lt (x y : number) : num_eq x y = true -> num_lt x y = false.
Proof. unfold num_eq, num_lt. by destruct (num_compare x y) as [[]|]. Qed.

Lemma js_lt_irrefl (v : value) : js_lt v v = false.
Proof.
  destruct v as [| |[]| |s]; simpl; try apply num_lt_irrefl.
  unfold str_lt. by rewrite string_compare_refl.
Qed.

Lemma nthZ_lookup {A : Type} (l : list A) (i : Z) :
  0 <= i -> nthZ l i = l !! Z.to_nat i.
Proof.
  intros H. unfold nthZ. destruct (Z.ltb_spec i 0); [lia|].
  revert l. generalize (Z.to_nat i). intros k l. revert k.
  induction l; intros [|k]; simpl; auto.
Qed.

Lemma nthZ_Some_range {A : Type} (l : list A) (i : Z) (x : A) :
  nthZ l i = Some x -> 0 <= i < lengthZ l.
Proof.
  unfold nthZ, lengthZ. destruct (Z.ltb_spec i 0); [done|].
  intros Hx. assert (nth_error l (Z.to_nat i) <> None) as Hlt by congruence.
  apply nth_error_Some in Hlt. lia.
Qed.

Lemma nthZ_fmap {A B : Type} (f : A -> B) (l : list A) (i : Z) :
  nthZ (f <$> l) i = f <$> nthZ l i.
Proof.
  unfold nthZ. destruct (i <? 0); [done|].
  generalize (Z.to_nat i). intros k. revert k.
  induction l; intros [|k]; simpl; auto.
Qed.

Section GetLoop.
Variable ids : list value.
Variable id : number.
Hypothesis Hids : ids_ascending ids.

Lemma ids_ascending_lt (i j : Z) :
  0 <= i -> i < j -> j < lengthZ ids ->
  js_lt (val_at ids i) (val_at ids j) = true.
Proof using Hids.
  intros Hi Hij Hj. destruct (Hids i j Hi Hij Hj) as (x & y & Hx & Hy & Hlt).
  unfold val_at. by rewrite Hx, Hy.
Qed.

Lemma ids_ascending_mono (i j : Z) :
  0 <= i -> i <= j -> j < lengthZ ids ->
  js_lt (val_at ids j) (VNum id) = true -> js_lt (val_at ids i) (VNum id) = true.
Proof using Hids.
  intros Hi Hij Hj H. destruct (Z.eq_dec i j) as [->|Hne]; [done|].
  destruct (Hids i j Hi ltac:(lia) Hj) as (x & y & Hx & Hy & Hlt).
  unfold val_at in *. rewrite Hx. rewrite Hy in H. simpl in *.
  by eapply num_lt_trans.
Qed.

Lemma get_loop_spec (fuel : nat) (min max : Z) :
  0 <= min -> min <= max -> max < lengthZ ids ->
  (Z.to_nat (max - min) <= fuel)%nat ->
  exists r, get_loop ids id fuel min max = (r, r)
    /\ min <= r <= max
    /\ (forall i, min <= i < r -> js_lt (val_at ids i) (VNum id) = true)
    /\ (forall i, r <= i < max -> js_lt (val_at ids i) (VNum id) = false).
Proof using Hids.
  revert min max. induction fuel as [|fuel IH]; intros min max H0 Hle Hmax Hfuel.
  - simpl. assert (min = max) as -> by lia. exists max.
    repeat split; intros; lia.
  - simpl. destruct (Z.eq_dec min max) as [->|Hne].
    + rewrite js_lt_irrefl. exists max. repeat split; intros; lia.
    + rewrite ids_ascending_lt by lia.
      pose proof (shiftr_1_bounds min max ltac:(lia)) as Hmid.
      set (mid := Z.shiftr (min + max) 1) in *.
      destruct (js_lt (val_at ids mid) (VNum id)) eqn:Hp.
      * destruct (IH (mid + 1) max) as (r & -> & Hr & Hbelow & Habove);
          [lia..|].
        exists r. repeat split; [lia|lia| |done].
        intros i Hi. destruct (Z.lt_ge_cases i (mid + 1)).
        -- apply (ids_ascending_mono i mid); [lia..|done].
        -- apply Hbelow. lia.
      * destruct (IH min mid) as (r & -> & Hr & Hbelow & Habove); [lia..|].
        exists r. repeat split; [lia|lia|done|].
        intros i Hi. destruct (Z.lt_ge_cases i mid).
        -- apply Habove. lia.
        -- destruct (js_lt (val_at ids i) (VNum id)) eqn:Hi'; [|done].
           rewrite <- Hp. symmetry.
           apply (ids_ascending_mono mid i); [lia..|done].
Qed.

(** The position [get] settles on is the one holding [id], if any. *)
Lemma get_loop_finds (pos : Z) (v : value) :
  nthZ ids pos = Some v -> strict_eq v (VNum id) = true ->
  get_loop ids id (length ids) 0 (lengthZ ids - 1) = (pos, pos).
Proof using Hids.
  intros Hpos Heq. pose proof (nthZ_Some_range _ _ _ Hpos) as Hrange.
  destruct (get_loop_spec (length ids) 0 (lengthZ ids - 1))
    as (r & -> & Hr & Hbelow & Habove); [lia..|unfold lengthZ; lia|].
  destruct v as [| | |x|]; try done. simpl in Heq.
  destruct (Z.lt_trichotomy pos r) as [Hlt|[->|Hgt]]; [|done|].
  - specialize (Hbelow pos ltac:(lia)). unfold val_at in Hbelow.
    rewrite Hpos in Hbelow. simpl in Hbelow.
    by rewrite (num_eq_not_lt _ _ Heq) in Hbelow.
  - specialize (Habove r ltac:(lia)).
    destruct (Hids r pos ltac:(lia) Hgt ltac:(lia)) as (a & b & Ha & Hb & Hlt).
    unfold val_at in Habove. rewrite Ha in Habove. simpl in Habove.
    rewrite Hpos in Hb. injection Hb as <-.
    by rewrite (num_lt_eq_trans _ _ _ Hlt Heq) in Habove.
Qed.

Lemma get_loop_settles :
  0 < lengthZ ids ->
  exists r, get_loop ids id (length ids) 0 (lengthZ ids - 1) = (r, r)
            /\ 0 <= r < lengthZ ids.
Proof using Hids.
  intros Hn.
  destruct (get_loop_spec (length ids) 0 (lengthZ ids - 1))
    as (r & -> & Hr & _); [lia..|unfold lengthZ; lia|].
  exists r. split; [done|lia].
Qed.
End GetLoop.

Lemma Collection_get_unfold (c : Collection) (id : value) (returnPosition : bool) :
  idIndex_parallel c ->
  (Collection_get c id returnPosition).1 =
    let ids := loki_ids c in
    if isNaN (coerce_id id) then Throw (TypeError "Passed id is not an integer")
    else
      let '(min, max) := get_loop ids (coerce_id id) (length ids) 0 (lengthZ ids - 1) in
      if (max =? min) && strict_eq (val_at ids min) (VNum (coerce_id id)) then
        if returnPosition then Return (GotPair (nthZ (data c) min) min)
        else Return (GotDoc (nthZ (data c) min))
      else Return GotNull.
Proof.
  unfold idIndex_parallel, Collection_get, ensureId. intros Hpar.
  fold (coerce_id id).
  destruct (idIndex c) as [ids|] eqn:Hidx; simpl in Hpar.
  - rewrite Hidx. simpl. subst ids. cbv zeta.
    destruct (isNaN (coerce_id id)); [done|].
    destruct (get_loop _ _ _ _ _) as [mn mx].
    destruct (_ && _); [by destruct returnPosition|done].
  - simpl. cbv zeta. fold (loki_ids c).
    destruct (isNaN (coerce_id id)); [done|].
    destruct (get_loop _ _ _ _ _) as [mn mx].
    destruct (_ && _); [by destruct returnPosition|done].
Qed.

(** [get] finds the document whose [$loki] equals the id. *)
Lemma Collection_get_found (c : Collection) (id : value) (returnPosition : bool)
    (pos : Z) (d : gmap string value) :
  idIndex_parallel c -> ids_ascending (loki_ids c) ->
  isNaN (coerce_id id) = false ->
  nthZ (data c) pos = Some d ->
  strict_eq (get_prop d "$loki") (VNum (coerce_id id)) = true ->
  (Collection_get c id returnPosition).1
  = Return (if returnPosition then GotPair (Some d) pos else GotDoc (Some d)).
Proof.
  intros Hpar Hasc Hnan Hd Heq.
  rewrite (Collection_get_unfold c id returnPosition Hpar). cbv zeta.
  rewrite Hnan.
  assert (nthZ (loki_ids c) pos = Some (get_prop d "$loki")) as Hpos.
  { unfold loki_ids. by rewrite nthZ_fmap, Hd. }
  rewrite (get_loop_finds _ _ Hasc pos _ Hpos Heq).
  rewrite Z.eqb_refl. unfold val_at. rewrite Hpos. simpl.
  rewrite Heq, Hd. by destruct returnPosition.
Qed.

(** C8 (amended): [get(id, returnPosition)] throws the [TypeError] exactly
    when the id, a number taken as it is and anything else read by
    [parseInt(id, 10)], is [NaN]; a number that is not an integer does not
    throw.  Otherwise, on a collection whose [$loki] are numbers in strictly
    ascending order, it returns the stored document whose [$loki] equals
    the id (with its position in [data] when [returnPosition] is set), or
    [null] if there is none. *)
Theorem get_by_id (c : Collection) (id : value) (returnPosition : bool) :
  idIndex_parallel c -> ids_ascending (loki_ids c) ->
  (isNaN (coerce_id id) = true <->
     (Collection_get c id returnPosition).1
     = Throw (TypeError "Passed id is not an integer"))
  /\ (isNaN (coerce_id id) = false ->
      (forall pos d, nthZ (data c) pos = Some d ->
          strict_eq (get_prop d "$loki") (VNum (coerce_id id)) = true ->
          (Collection_get c id returnPosition).1
          = Return (if returnPosition then GotPair (Some d) pos
                    else GotDoc (Some d)))
      /\ ((forall pos d, nthZ (data c) pos = Some d ->
             strict_eq (get_prop d "$loki") (VNum (coerce_id id)) = false) ->
          (Collection_get c id returnPosition).1 = Return GotNull)).
Proof.
  intros Hpar Hasc. split; [|intros Hnan; split].
  - rewrite (Collection_get_unfold c id returnPosition Hpar). cbv zeta.
    destruct (isNaN (coerce_id id)); [done|]. split; [done|].
    destruct (get_loop _ _ _ _ _) as [mn mx].
    destruct (_ && _); [by destruct returnPosition|done].
  - intros pos d Hd Heq. by apply Collection_get_found.
  - rewrite (Collection_get_unfold c id returnPosition Hpar). cbv zeta.
    rewrite Hnan. intros Hnone.
    destruct (Z.lt_ge_cases 0 (lengthZ (loki_ids c))) as [Hn|Hn].
    + destruct (get_loop_settles _ (coerce_id id) Hasc Hn) as (r & -> & Hr).
      rewrite Z.eqb_refl. simpl.
      assert (exists d, nthZ (data c) r = Some d) as [d Hd].
      { destruct (nthZ (data c) r) as [d|] eqn:Hd; [by exists d|].
        exfalso. revert Hd. unfold nthZ.
        destruct (Z.ltb_spec r 0); [lia|].
        intros Hd%nth_error_None. unfold loki_ids, lengthZ in Hr.
        rewrite length_fmap in Hr. lia. }
      unfold val_at, loki_ids. rewrite nthZ_fmap, Hd. simpl.
      by rewrite (Hnone r d Hd).
    + assert (loki_ids c = []) as ->.
      { destruct (loki_ids c); [done|]. unfold lengthZ in Hn. simpl in Hn. lia. }
      done.
Qed.

(** * [add] and [insert] *)

Lemma strict_eq_undefined (v : value) :
  strict_eq v VUndefined = false <-> v <> VUndefined.
Proof. by destruct v. Qed.

Lemma json_value_defined (v : value) :
  v <> VUndefined -> json_value v <> VUndefined.
Proof. by destruct v as [| | |[]|]. Qed.

Lemma get_prop_clone (d : gmap string value) (p : string) :
  get_prop (clone d ParseStringify) p = json_value (get_prop d p).
Proof.
  unfold get_prop, clone. rewrite lookup_fmap, map_lookup_filter.
  destruct (d !! p) as [v|]; simpl; [|done].
  case_guard as Hv; simpl in *; [done|].
  destruct (decide (v = VUndefined)) as [->|]; [done|]. by destruct Hv.
Qed.

Ltac fold_clone :=
  repeat match goal with
  | |- context [json_value <$> filter ?P ?m] =>
      change (json_value <$> filter P m) with (clone m ParseStringify)
  end.

Lemma get_prop_insert (d : gmap string value) (p : string) (v : value) :
  get_prop (<[p := v]> d) p = v.
Proof. unfold get_prop. by rewrite lookup_insert_eq. Qed.

Lemma js_plus_one_defined (x : value) : js_plus_one x <> VUndefined.
Proof. by destruct x. Qed.

(** What a successful [add] returns carries the new [$loki]. *)
Lemma add_try_result (c : Collection) (obj r : gmap string value) (c' : Collection) :
  add_try c obj = (Return r, c') -> get_prop r "$loki" <> VUndefined.
Proof.
  unfold add_try. cbv zeta.
  set (c1 := set_maxId _ (startTransaction c)).
  destruct (isNaN (ToNumber (maxId c1))).
  - destruct (nthZ (data c1) (lengthZ (data c1) - 1)) as [last|]; [|done].
    destruct (add_unique _ _ _) as [[[]|e] c3]; [|done].
    intros [= <- _]. destruct (cloneObjects _).
    + fold_clone. rewrite get_prop_clone, get_prop_insert.
      apply json_value_defined. simpl. apply js_plus_one_defined.
    + rewrite get_prop_insert. simpl. apply js_plus_one_defined.
  - destruct (add_unique _ _ _) as [[[]|e] c3]; [|done].
    intros [= <- _]. destruct (cloneObjects _).
    + fold_clone. rewrite get_prop_clone, get_prop_insert.
      by apply json_value_defined.
    + by rewrite get_prop_insert.
Qed.

(** C9 (amended): [add], and [insert] through it, throw 'Document is
    already in collection, please use update()' on every object whose
    [$loki] is defined, and leave the collection as it was; in particular on
    every document an [insert] has returned, as long as it carries its
    [$loki].  [remove(obj)] deletes [$loki] from the object it is passed:
    what it returns, the same object, has none. *)
Theorem add_rejects_document_with_loki (c : Collection) (obj : gmap string value) :
  get_prop obj "$loki" <> VUndefined
  \/ (exists c0 doc c1, Collection_insert c0 (ArgDoc doc) = (Return obj, c1)) ->
  Collection_add c (ArgDoc obj) = (Throw already_in_collection, c)
  /\ Collection_insert c (ArgDoc obj) = (Throw already_in_collection, c)
  /\ (forall c1 r c2,
        Collection_remove c1 (ArgDoc obj) = (Return (RemovedDoc r), c2) ->
        r = delete "meta" (delete "$loki" obj)
        /\ get_prop r "$loki" = VUndefined).
Proof.
  intros H.
  assert (forall c1 r c2,
            Collection_remove c1 (ArgDoc obj) = (Return (RemovedDoc r), c2) ->
            r = delete "meta" (delete "$loki" obj)
            /\ get_prop r "$loki" = VUndefined) as Hremoved.
  { intros c1 r c2. unfold Collection_remove.
    case_bool_decide; [done|]. unfold remove_try.
    destruct (Collection_get _ _ _) as [[[| |dd pos]|e] cg]; try done.
    destruct (remove_unique _ _ _) as [[[]|e] cu]; [|done].
    intros [= <- _]. split; [done|].
    unfold get_prop. by rewrite lookup_delete_ne, lookup_delete_eq. }
  assert (get_prop obj "$loki" <> VUndefined) as Hloki.
  { destruct H as [H|(c0 & doc & c1 & H)]; [done|].
    unfold Collection_insert, insertOne, Collection_add in H.
    destruct (negb _); [done|].
    destruct (add_try _ _) as [[r|e] c2] eqn:Hadd; [|done].
    injection H as -> _. by eapply add_try_result. }
  assert (forall o, get_prop o "$loki" <> VUndefined ->
            Collection_add c (ArgDoc o) = (Throw already_in_collection, c)) as Hadd.
  { intros o Ho%strict_eq_undefined. unfold Collection_add. by rewrite Ho. }
  split; [by apply Hadd|]. split; [|done].
  unfold Collection_insert, insertOne. rewrite Hadd; [done|].
  destruct (cloneObjects c); [|done].
  rewrite get_prop_clone. by apply json_value_defined.
Qed.

(** * [data] *)

Lemma clone_rows_Some (method : cloneMethod) (strip : bool)
    (rows : list (gmap string value)) :
  (forall d, d ∈ rows -> clone_error d method = None) ->
  clone_rows method strip (Some <$> rows)
  = Return ((fun d => Some (if strip then delete "meta" (delete "$loki" (clone d method))
                            else clone d method)) <$> rows).
Proof.
  induction rows as [|d rows IH]; intros Hrows; [done|].
  rewrite !fmap_cons. cbn [clone_rows clone_row].
  rewrite (Hrows d) by (by left). rewrite IH; [done|].
  intros d' Hd'. apply Hrows. by right.
Qed.

Lemma clone_rows_throws (method : cloneMethod) (strip : bool)
    (rows : list (gmap string value)) (d : gmap string value) :
  d ∈ rows -> clone_error d method <> None ->
  exists e, clone_rows method strip (Some <$> rows) = Throw e.
Proof.
  induction rows as [|d' rows IH]; intros Hd Herr.
  - by apply elem_of_nil in Hd.
  - rewrite fmap_cons. cbn [clone_rows clone_row].
    destruct (clone_error d' method) as [e|] eqn:Hd'; [by exists e|].
    apply elem_of_cons in Hd as [->|Hd]; [done|].
    destruct (IH Hd Herr) as (e & ->). by exists e.
Qed.

(** C6: with [filteredrows] empty, [data()] returns every document of the
    collection when the result set is not initialized (the documents
    themselves unless cloning is configured or asked for), and the empty
    array when it is.  Where [data] clones with a method asked for in its
    options, it returns as long as [clone] throws on no document, and throws
    otherwise; called without options it always returns. *)
Theorem data_on_empty_filteredrows (rs : Resultset) (options : dataOptions) :
  filteredrows rs = [] ->
  (filterInitialized rs = false ->
     ((forall d, d ∈ data (collection rs) ->
         handing_out_error (collection rs) options d = None) ->
      (Resultset_data rs options).1
      = Return ((fun d => Some (handed_out (collection rs) options d))
                  <$> data (collection rs)))
     /\ ((exists d, d ∈ data (collection rs)
                    /\ handing_out_error (collection rs) options d <> None) ->
         exists e, (Resultset_data rs options).1 = Throw e)
     /\ (Resultset_data rs no_options).1
        = Return ((fun d => Some (handed_out (collection rs) no_options d))
                    <$> data (collection rs))
     /\ (cloneObjects (collection rs) = false ->
         (Resultset_data rs no_options).1 = Return (Some <$> data (collection rs))))
  /\ (filterInitialized rs = true -> (Resultset_data rs options).1 = Return []).
Proof.
  intros Hrows.
  assert (forall opts,
            filterInitialized rs = false ->
            ((forall d, d ∈ data (collection rs) ->
                handing_out_error (collection rs) opts d = None) ->
             (Resultset_data rs opts).1
             = Return ((fun d => Some (handed_out (collection rs) opts d))
                         <$> data (collection rs)))
            /\ ((exists d, d ∈ data (collection rs)
                           /\ handing_out_error (collection rs) opts d <> None) ->
                exists e, (Resultset_data rs opts).1 = Throw e)) as Hdata.
  { intros opts Hinit. unfold Resultset_data. rewrite Hrows, Hinit.
    cbn [negb andb lengthZ length Z.of_nat Z.eqb].
    unfold handing_out_error, handed_out, data_method.
    destruct opts as [fc fm rm]. cbn [forceClones forceCloneMethod removeMeta].
    destruct (cloneObjects (collection rs)), rm, fc;
      cbn [negb andb orb forceClones forceCloneMethod removeMeta fst default];
      (split;
       [intros Hnone; rewrite ?clone_rows_Some by done; done
       |intros (d & Hd & Herr); try done; by eapply clone_rows_throws]). }
  split.
  - intros Hinit. destruct (Hdata options Hinit) as [H1 H2].
    split; [done|]. split; [done|].
    destruct (Hdata no_options Hinit) as [H3 _].
    split.
    + apply H3. intros d _. unfold handing_out_error, data_method. simpl.
      by destruct (cloneObjects (collection rs)).
    + intros Hclone. rewrite H3.
      * unfold handed_out. simpl. by rewrite Hclone.
      * intros d _. unfold handing_out_error. simpl. by rewrite Hclone.
  - intros Hinit. unfold Resultset_data. rewrite Hrows, Hinit. cbn [negb andb].
    destruct (cloneObjects (collection rs) || _); done.
Qed.

(** * Unique constraints *)

Lemma same_store_refl (c : Collection) : same_store c c.
Proof. by repeat split. Qed.

Lemma same_store_trans (c1 c2 c3 : Collection) :
  same_store c1 c2 -> same_store c2 c3 -> same_store c1 c3.
Proof. unfold same_store. intros H1 H2. destruct_and!. repeat split; congruence. Qed.

Lemma same_store_constraints f (c : Collection) :
  same_store c (set_constraints_unique f c).
Proof. by repeat split. Qed.

Lemma same_store_names f (c : Collection) :
  same_store c (set_uniqueNames f c).
Proof. by repeat split. Qed.

Lemma UniqueIndex_set_throw (u : UniqueIndex) (obj : gmap string value) (e : exn) :
  UniqueIndex_set u obj = Throw e -> DuplicateKey e.
Proof.
  unfold UniqueIndex_set. destruct (_ && _); [|done].
  destruct (keyMap u !! _); [|done]. intros [= <-]. by eexists _, _.
Qed.

Lemma UniqueIndex_set_all_throw (docs : list (gmap string value)) (u u' : UniqueIndex)
    (e : exn) :
  UniqueIndex_set_all u docs = (Throw e, u') -> DuplicateKey e.
Proof.
  revert u. induction docs as [|d docs IH]; intros u; simpl; [done|].
  destruct (UniqueIndex_set u d) as [u1|e1] eqn:Hset; [by apply IH|].
  intros [= <- _]. by eapply UniqueIndex_set_throw.
Qed.

Lemma ensureUniqueIndex_spec (c : Collection) (fld : string) :
  same_store c (ensureUniqueIndex c fld).2
  /\ (forall name, name <> fld ->
        constraints_unique (ensureUniqueIndex c fld).2 !! name
        = constraints_unique c !! name)
  /\ (forall e, (ensureUniqueIndex c fld).1 = Throw e -> DuplicateKey e).
Proof.
  unfold ensureUniqueIndex.
  set (c1 := match constraints_unique c !! fld with
             | None => _ | Some _ => c end).
  assert (same_store c c1 /\ constraints_unique c1 = constraints_unique c)
    as [H1 Hcu].
  { subst c1. destruct (constraints_unique c !! fld).
    - split; [apply same_store_refl|done].
    - do 2 (case_bool_decide; [split; [apply same_store_refl|done]|]).
      split; try done; by repeat split. }
  destruct (UniqueIndex_set_all _ _) as [r index] eqn:Hall.
  split; [|split].
  - destruct r; simpl;
      (eapply same_store_trans; [exact H1|apply same_store_constraints]).
  - intros name Hne.
    destruct r; simpl; by rewrite lookup_insert_ne, Hcu.
  - intros e. destruct r; simpl; [done|]. intros [= <-].
    by eapply UniqueIndex_set_all_throw.
Qed.

Lemma getUniqueIndex_force (c : Collection) (fld : string) :
  same_store c (getUniqueIndex c fld true).2
  /\ (forall name, name <> fld ->
        constraints_unique (getUniqueIndex c fld true).2 !! name
        = constraints_unique c !! name)
  /\ (forall e, (getUniqueIndex c fld true).1 = Throw e -> DuplicateKey e)
  /\ (getUniqueIndex c fld true).1 <> Return None.
Proof.
  unfold getUniqueIndex. destruct (constraints_unique c !! fld) as [u|] eqn:Hu.
  - simpl. split; [apply same_store_refl|]. by repeat split.
  - destruct (ensureUniqueIndex_spec c fld) as (H1 & H2 & H3).
    destruct (ensureUniqueIndex c fld) as [[index|e] c1]; simpl in *;
      (split; [done|]; split; [done|]; split; [|done]); [done|].
    intros e0 [= <-]. by apply H3.
Qed.

Lemma add_unique_spec (names : list string) (c : Collection)
    (obj : gmap string value) :
  same_store c (add_unique c names obj).2
  /\ (forall e, (add_unique c names obj).1 = Throw e -> DuplicateKey e).
Proof.
  revert c. induction names as [|name names IH]; intros c.
  - simpl. split; [apply same_store_refl|done].
  - simpl. destruct (getUniqueIndex_force c name) as (H1 & _ & H3 & H4).
    destruct (getUniqueIndex c name true) as [[[index|]|e] c1]; simpl in *;
      [|done|split; [done|intros e0 [= <-]; by apply H3]].
    destruct (UniqueIndex_set index obj) as [index'|e] eqn:Hset.
    + destruct (IH (set_constraints_unique (fun u => <[name := index']> u) c1))
        as [IH1 IH2].
      split; [|done].
      eapply same_store_trans; [exact H1|].
      eapply same_store_trans; [|exact IH1].
      apply same_store_constraints.
    + simpl. split; [done|]. intros e' [= <-]. by eapply UniqueIndex_set_throw.
Qed.

(** A key the index of [name] already holds makes the loop of [add] throw. *)
Lemma add_unique_duplicate (names : list string) (c : Collection)
    (obj : gmap string value) (name : string) (u : UniqueIndex)
    (existing : gmap string value) :
  name ∈ names ->
  constraints_unique c !! name = Some u ->
  field u = name ->
  get_prop obj name <> VNull -> get_prop obj name <> VUndefined ->
  keyMap u !! ToString (get_prop obj name) = Some existing ->
  exists e, (add_unique c names obj).1 = Throw e.
Proof.
  intros Hin Hu Hfield Hnull Hundef Hkey. revert c Hin Hu.
  induction names as [|name' names IH]; intros c Hin Hu.
  - by apply elem_of_nil in Hin.
  - simpl. destruct (decide (name' = name)) as [->|Hne].
    + unfold getUniqueIndex. rewrite Hu. unfold UniqueIndex_set.
      rewrite Hfield.
      assert (strict_eq (get_prop obj name) VNull = false) as ->
        by (by destruct (get_prop obj name)).
      assert (strict_eq (get_prop obj name) VUndefined = false) as ->
        by (by apply strict_eq_undefined).
      simpl. rewrite Hkey. by eexists.
    + apply elem_of_cons in Hin as [->|Hin]; [done|].
      destruct (getUniqueIndex_force c name') as (_ & H2 & _ & H4).
      destruct (getUniqueIndex c name' true) as [[[index|]|e] c1]; simpl in *;
        [|done|by eexists].
      destruct (UniqueIndex_set index obj) as [index'|e]; [|by eexists].
      apply IH; [done|]. simpl. rewrite lookup_insert_ne by done.
      by rewrite H2.
Qed.

Lemma get_prop_insert_ne (d : gmap string value) (p q : string) (v : value) :
  p <> q -> get_prop (<[p := v]> d) q = get_prop d q.
Proof. intros H. unfold get_prop. by rewrite lookup_insert_ne. Qed.

Lemma lengthZ_fmap {A B : Type} (f : A -> B) (l : list A) :
  lengthZ (f <$> l) = lengthZ l.
Proof. unfold lengthZ. by rewrite length_fmap. Qed.

Lemma nthZ_last_Some {A : Type} (l : list A) (x : A) :
  x ∈ l -> is_Some (nthZ l (lengthZ l - 1)).
Proof.
  intros Hx. destruct l as [|y l]; [by apply elem_of_nil in Hx|].
  rewrite nthZ_lookup by (unfold lengthZ; simpl; lia).
  apply lookup_lt_is_Some. unfold lengthZ. simpl. lia.
Qed.

(** C5: on a collection with a unique constraint on [name], inserting a
    new document whose value for [name] (as [add] receives it, that is after
    the clone when the collection clones) is neither [null] nor [undefined]
    and is a key the index already maps to a stored document throws a
    'Duplicate key' error, and the collection counts as many documents
    after the failed insert as before. *)
Theorem unique_constraint_rejects_duplicate (c : Collection) (name : string)
    (u : UniqueIndex) (doc existing : gmap string value) :
  let obj := if cloneObjects c then clone doc ParseStringify else doc in
  constraints_unique c !! name = Some u -> field u = name ->
  name ∈ uniqueNames c -> name <> "$loki" ->
  get_prop obj "$loki" = VUndefined ->
  get_prop obj name <> VNull -> get_prop obj name <> VUndefined ->
  keyMap u !! ToString (get_prop obj name) = Some existing ->
  existing ∈ data c ->
  exists e c', Collection_insert c (ArgDoc doc) = (Throw e, c')
    /\ DuplicateKey e
    /\ Collection_count c' = Collection_count c
    /\ (forall rest, uniqueNames c = name :: rest ->
          e = Error ("Duplicate key for property " +:+ name +:+ ": "
                       +:+ ToString (get_prop obj name))).
Proof.
  intros obj Hu Hfield Hname Hne Hloki Hnull Hundef Hkey Hexisting.
  unfold Collection_insert, insertOne. fold obj. unfold Collection_add.
  rewrite Hloki. cbn [strict_eq negb]. unfold add_try. cbv zeta.
  set (c1 := set_maxId _ (startTransaction c)).
  assert (data c1 = data c /\ constraints_unique c1 = constraints_unique c
          /\ uniqueNames c1 = uniqueNames c
          /\ (forall c3, same_store c1 c3 ->
                Collection_count (rollback c3) = Collection_count c))
    as (Hdata & Hcu & Hnames & Hcount).
  { subst c1. unfold startTransaction, rollback, Collection_count.
    destruct (transactional c) eqn:Ht; simpl; (repeat split; [done..|]);
      intros c3 (H1 & _ & _ & _ & H5 & _ & H8 & H9); simpl in *;
      rewrite H5, ?H8, ?H9, ?Ht; simpl.
    - case_bool_decide; simpl; [by rewrite lengthZ_fmap|by rewrite H1].
    - by rewrite H1. }
  assert (forall c2, data c2 = data c1 -> constraints_unique c2 = constraints_unique c1 ->
            uniqueNames c2 = uniqueNames c1 -> same_store c1 c2 ->
            exists e c3,
              add_unique c2 (uniqueNames c2) (<["$loki" := maxId c2]> obj) = (Throw e, c3)
              /\ DuplicateKey e
              /\ Collection_count (rollback c3) = Collection_count c
              /\ (forall rest, uniqueNames c = name :: rest ->
                    e = Error ("Duplicate key for property " +:+ name +:+ ": "
                                 +:+ ToString (get_prop obj name)))) as Hmain.
  { intros c2 Hd2 Hcu2 Hn2 Hsame.
    set (obj2 := <["$loki" := maxId c2]> obj).
    assert (get_prop obj2 name = get_prop obj name) as Hval
      by (apply get_prop_insert_ne; congruence).
    destruct (add_unique_duplicate (uniqueNames c2) c2 obj2 name u existing)
      as [e He]; [congruence..| |].
    { by rewrite Hval. }
    destruct (add_unique_spec (uniqueNames c2) c2 obj2) as [Hs Hdup].
    destruct (add_unique c2 (uniqueNames c2) obj2) as [r c3] eqn:Hadd.
    simpl in *. subst r. exists e, c3. split; [done|]. split; [by apply Hdup|].
    split; [apply Hcount; by eapply same_store_trans|].
    intros rest Hrest. revert Hadd. rewrite Hn2, Hnames, Hrest. simpl.
    unfold getUniqueIndex. rewrite Hcu2, Hcu, Hu. unfold UniqueIndex_set.
    rewrite Hfield, Hval.
    assert (strict_eq (get_prop obj name) VNull = false) as ->
      by (by destruct (get_prop obj name)).
    assert (strict_eq (get_prop obj name) VUndefined = false) as ->
      by (by apply strict_eq_undefined).
    simpl. rewrite Hkey. by intros [= <- _]. }
  destruct (isNaN (ToNumber (maxId c1))).
  - destruct (nthZ_last_Some (data c1) existing) as [last Hlast];
      [by rewrite Hdata|].
    rewrite Hlast.
    destruct (Hmain (set_maxId (fun _ => js_plus_one (get_prop last "$loki")) c1))
      as (e & c3 & Hadd & Hdup & Hc & Hfirst); [done..|by repeat split|].
    rewrite Hadd. by exists e, (rollback c3).
  - destruct (Hmain c1) as (e & c3 & Hadd & Hdup & Hc & Hfirst);
      [done..|apply same_store_refl|].
    rewrite Hadd. by exists e, (rollback c3).
Qed.

Lemma ids_ascendingb_sound (ids : list value) :
  ids_ascendingb ids = true -> ids_ascending ids.
Proof.
  unfold ids_ascendingb. rewrite forallb_forall. intros H i j Hi Hij Hj.
  specialize (H i). rewrite forallb_forall in H.
  assert (In i (seqZ 0 (lengthZ ids))) as Hin.
  { apply list_elem_of_In, elem_of_seqZ. lia. }
  specialize (H Hin j).
  assert (In j (seqZ (i + 1) (lengthZ ids - i - 1))) as Hjn.
  { apply list_elem_of_In, elem_of_seqZ. lia. }
  specialize (H Hjn).
  destruct (nthZ ids i) as [[| | |x|]|]; try done.
  destruct (nthZ ids j) as [[| | |y|]|]; try done.
  by exists x, y.
Qed.

(** * Adaptive maintenance of the binary indices *)

Lemma split_dot_no_dot (s : string) : has_dot s = false -> split_dot s = [s].
Proof.
  induction s as [|c s IH]; [done|]. simpl.
  destruct (Ascii.eqb c "."); [done|]. simpl. intros H. by rewrite (IH H).
Qed.

(** [getBinaryIndexPosition] always asks for dot notation; on a name without
    a dot this reads the same property. *)
Lemma getIn_dot (object : option (gmap string value)) (path : string) :
  getIn object path true = getIn object path (has_dot path).
Proof.
  destruct (has_dot path) eqn:Hdot; [done|].
  unfold getIn. destruct object as [d|]; [|done]. simpl.
  by rewrite (split_dot_no_dot _ Hdot).
Qed.

Lemma filter_all {A : Type} (P : A -> Prop) `{forall x, Decision (P x)} (l : list A) :
  (forall x, x ∈ l -> P x) -> filter P l = l.
Proof.
  induction l as [|x l IH]; intros Hall; [done|].
  rewrite filter_cons_True by (apply Hall; left).
  f_equal. apply IH. intros y Hy. apply Hall. by right.
Qed.

Lemma splice_remove_middle {A : Type} (l1 l2 : list A) (x : A) :
  splice_remove (l1 ++ x :: l2) (lengthZ l1) = l1 ++ l2.
Proof.
  unfold splice_remove, splice_start, lengthZ.
  destruct (Z.ltb_spec (Z.of_nat (length l1)) 0); [lia|].
  rewrite Nat2Z.id.
  rewrite firstn_app, Nat.sub_diag, firstn_all. simpl. rewrite app_nil_r.
  rewrite (skipn_app (S (length l1))).
  rewrite skipn_all2 by lia.
  by replace (S (length l1) - length l1)%nat with 1%nat by lia.
Qed.

Lemma splice_remove_at {A : Type} (l : list A) (i : Z) (x : A) :
  nthZ l i = Some x ->
  exists l1 l2, l = l1 ++ x :: l2 /\ lengthZ l1 = i
                /\ splice_remove l i = l1 ++ l2.
Proof.
  intros Hx. pose proof (nthZ_Some_range _ _ _ Hx) as Hrange.
  rewrite nthZ_lookup in Hx by lia.
  exists (take (Z.to_nat i) l), (drop (S (Z.to_nat i)) l).
  assert (l = take (Z.to_nat i) l ++ x :: drop (S (Z.to_nat i)) l) as Hl
    by (by rewrite take_drop_middle).
  assert (lengthZ (take (Z.to_nat i) l) = i) as Hlen.
  { unfold lengthZ in *. rewrite length_take. lia. }
  split; [done|]. split; [done|].
  pose proof (splice_remove_middle (take (Z.to_nat i) l)
                (drop (S (Z.to_nat i)) l) x) as Hrm.
  by rewrite <- Hl, Hlen in Hrm.
Qed.

Lemma splice_remove_filter (l : list Z) (i k : Z) :
  NoDup l -> nthZ l i = Some k ->
  splice_remove l i = filter (fun v => v <> k) l.
Proof.
  intros Hnd Hk. destruct (splice_remove_at l i k Hk) as (l1 & l2 & Hl & _ & ->).
  rewrite Hl in Hnd |- *. apply NoDup_app in Hnd as (_ & Hdisj & Hnd2).
  apply NoDup_cons in Hnd2 as [Hk2 _].
  rewrite filter_app, filter_cons_False by naive_solver.
  rewrite !filter_all; [done| |].
  - intros x Hx ->. done.
  - intros x Hx ->. apply (Hdisj k Hx). left.
Qed.

Lemma splice_remove_fmap {A B : Type} (f : A -> B) (l : list A) (i : Z) :
  splice_remove (f <$> l) i = f <$> splice_remove l i.
Proof.
  unfold splice_remove, splice_start. rewrite lengthZ_fmap.
  by rewrite fmap_app, fmap_take, fmap_drop.
Qed.

Lemma aeqHelper_refl (v : value) : aeqHelper v v = true.
Proof. by rewrite aeqHelper_Comparator, Comparator_refl. Qed.

Lemma indexed_value_at (rcd : list (gmap string value)) (index : list Z)
    (name : string) (p k : Z) :
  nthZ index p = Some k ->
  indexed_value rcd index name (has_dot name) p = getIn (nthZ rcd k) name true.
Proof. intros Hp. unfold indexed_value. rewrite Hp. simpl. by rewrite getIn_dot. Qed.

(** On a sorted index that holds [k], the position of [k] is found. *)
Lemma getBinaryIndexPosition_finds (rcd : list (gmap string value))
    (index : list Z) (k : Z) (name : string) :
  0 < lengthZ rcd -> index_sorted rcd index name -> k ∈ index ->
  exists idx, getBinaryIndexPosition rcd index k name = Some idx
              /\ nthZ index idx = Some k.
Proof.
  intros Hrcd Hs Hin. apply list_elem_of_lookup in Hin as [p Hp].
  assert (nthZ index (Z.of_nat p) = Some k) as Hp'
    by (rewrite nthZ_lookup by lia; by rewrite Nat2Z.id).
  pose proof (nthZ_Some_range _ _ _ Hp') as Hrange.
  set (val := getIn (nthZ rcd k) name true).
  destruct (calculateRange_eq_result rcd index name Hrcd ltac:(lia) Hs val)
    as (lb & ub & Hlb & Hub & Heq).
  pose proof (aeq_positions _ _ val lb ub (Z.of_nat p) Hlb Hub Hrange) as Hpos.
  rewrite (indexed_value_at rcd index name _ k Hp') in Hpos. fold val in Hpos.
  rewrite aeqHelper_refl in Hpos. destruct Hpos as [Hpos _].
  specialize (Hpos eq_refl).
  unfold getBinaryIndexPosition. cbv zeta. fold val. rewrite Heq.
  destruct (Z.ltb_spec lb ub) as [_|]; [|lia]. cbn [fst snd].
  destruct (Z.eqb_spec (ub - 1) (-1)) as [|_]; [lia|]. rewrite andb_false_r.
  destruct (find _ _) as [idx|] eqn:Hfind.
  - apply find_some in Hfind as [_ Hidx]. apply bool_decide_eq_true in Hidx.
    by exists idx.
  - apply find_none with (x := Z.of_nat p) in Hfind.
    + apply bool_decide_eq_false in Hfind. done.
    + apply list_elem_of_In, elem_of_seqZ. lia.
Qed.

(** [adaptiveBinaryIndexRemove] at a position the index holds, the index
    being a sorted permutation of the positions of [rcd]: the position is
    taken out and every stored position above it moves down by one. *)
Lemma adaptiveBinaryIndexRemove_position (rcd : list (gmap string value))
    (k : Z) (name : string) (bi : BinaryIndex) :
  0 <= k < lengthZ rcd -> binary_index_ok rcd name bi ->
  adaptiveBinaryIndexRemove rcd (inl k) name false bi = index_without k bi.
Proof.
  intros Hk [Hperm Hs].
  assert (k ∈ values bi) as Hin by (rewrite Hperm; apply elem_of_seqZ; lia).
  assert (NoDup (values bi)) as Hnd by (rewrite Hperm; apply NoDup_seqZ).
  destruct (getBinaryIndexPosition_finds rcd (values bi) k name) as (idx & Hidx & Hat);
    [lia|done..|].
  unfold adaptiveBinaryIndexRemove. rewrite Hidx.
  by rewrite (splice_remove_filter _ idx k Hnd Hat).
Qed.

(** * [remove] *)

Lemma remove_unique_spec (names : list string) (c : Collection)
    (doc : gmap string value) :
  same_store c (remove_unique c names doc).2
  /\ uniqueNames (remove_unique c names doc).2 = uniqueNames c.
Proof.
  revert c. induction names as [|key names IH]; intros c; simpl.
  - split; [apply same_store_refl|done].
  - destruct (_ && _); [|apply IH].
    unfold getUniqueIndex. destruct (constraints_unique c !! key) as [index|];
      [|apply IH].
    destruct (UniqueIndex_remove index (get_prop doc key)) as [index'|e]; simpl.
    + destruct (IH (set_constraints_unique (fun u => <[key := index']> u) c))
        as [IH1 IH2].
      split; [|done].
      eapply same_store_trans; [apply same_store_constraints|exact IH1].
    + split; [apply same_store_refl|done].
Qed.

(** Whether the unique indexes let go of a document depends on these
    indexes only. *)
Lemma remove_unique_congr (names : list string) (c c' : Collection)
    (doc : gmap string value) :
  constraints_unique c = constraints_unique c' ->
  (remove_unique c names doc).1 = (remove_unique c' names doc).1.
Proof.
  revert c c'. induction names as [|key names IH]; intros c c' Hcu; simpl; [done|].
  destruct (_ && _); [|by apply IH].
  unfold getUniqueIndex. rewrite <- Hcu.
  destruct (constraints_unique c !! key) as [index|]; [|by apply IH].
  destruct (UniqueIndex_remove index (get_prop doc key)) as [index'|e]; simpl; [|done].
  apply IH. simpl. by rewrite Hcu.
Qed.

Lemma num_eq_refl (x : number) : isNaN x = false -> num_eq x x = true.
Proof.
  unfold num_eq. destruct x; simpl; try done. by rewrite Qccompare_refl.
Qed.

(** [get] builds the [$loki] index when it is missing and leaves the rest of
    the collection alone. *)
Lemma Collection_get_state (c : Collection) (id : value) (returnPosition : bool) :
  idIndex_parallel c ->
  (Collection_get c id returnPosition).2
  = set_idIndex (fun _ => Some (loki_ids c)) c.
Proof.
  unfold idIndex_parallel, Collection_get, ensureId, loki_ids. intros Hpar.
  destruct c as [d ii bi cu un ad tr cl mx di cd ci]. simpl in *.
  destruct ii as [ids|]; simpl in *; subst; unfold set_idIndex; simpl;
    (destruct (isNaN _); [done|]);
    destruct (get_loop _ _ _ _ _) as [mn mx'];
    destruct (_ && _); by destruct returnPosition.
Qed.

Lemma startTransaction_fields (c : Collection) :
  data (startTransaction c) = data c
  /\ idIndex (startTransaction c) = idIndex c
  /\ binaryIndices (startTransaction c) = binaryIndices c
  /\ constraints_unique (startTransaction c) = constraints_unique c
  /\ uniqueNames (startTransaction c) = uniqueNames c
  /\ adaptiveBinaryIndices (startTransaction c) = adaptiveBinaryIndices c
  /\ cloneObjects (startTransaction c) = cloneObjects c
  /\ maxId (startTransaction c) = maxId c.
Proof. unfold startTransaction. by destruct (transactional c). Qed.

Lemma commit_fields (c : Collection) :
  data (commit c) = data c
  /\ idIndex (commit c) = idIndex c
  /\ binaryIndices (commit c) = binaryIndices c
  /\ constraints_unique (commit c) = constraints_unique c
  /\ uniqueNames (commit c) = uniqueNames c
  /\ adaptiveBinaryIndices (commit c) = adaptiveBinaryIndices c
  /\ cloneObjects (commit c) = cloneObjects c
  /\ maxId (commit c) = maxId c.
Proof. unfold commit. by destruct (transactional c). Qed.

(** The [try] block of [remove] on the document stored at position [k]. *)
Lemma remove_try_spec (c : Collection) (k : Z) (doc : gmap string value)
    (id : number) :
  adaptiveBinaryIndices c = true ->
  idIndex_parallel c -> ids_ascending (loki_ids c) -> indices_ok c ->
  nthZ (data c) k = Some doc ->
  get_prop doc "$loki" = VNum id -> isNaN id = false ->
  (remove_unique c (uniqueNames c) doc).1 = Return () ->
  exists c',
    remove_try c doc = (Return (RemovedDoc (delete "meta" (delete "$loki" doc))), c')
    /\ data c' = splice_remove (data c) k
    /\ idIndex c' = Some (loki_ids c')
    /\ binaryIndices c' = index_without k <$> binaryIndices c
    /\ adaptiveBinaryIndices c' = true
    /\ uniqueNames c' = uniqueNames c
    /\ cloneObjects c' = cloneObjects c.
Proof.
  intros Had Hpar Hasc Hidx Hk Hloki Hnan Huniq.
  pose proof (nthZ_Some_range _ _ _ Hk) as Hrange.
  unfold remove_try. cbv zeta. rewrite Hloki.
  destruct (startTransaction_fields c)
    as (Hd1 & Hi1 & Hb1 & Hc1 & Hn1 & Ha1 & Hcl1 & Hm1).
  set (c1 := startTransaction c) in *.
  assert (loki_ids c1 = loki_ids c) as Hids1 by (unfold loki_ids; by rewrite Hd1).
  assert (idIndex_parallel c1) as Hpar1
    by (unfold idIndex_parallel; by rewrite Hi1, Hids1).
  assert ((Collection_get c1 (VNum id) true).1 = Return (GotPair (Some doc) k))
    as Hfound.
  { apply (Collection_get_found c1 (VNum id) true k doc); try done.
    - by rewrite Hids1.
    - by rewrite Hd1.
    - rewrite Hloki. by apply num_eq_refl. }
  pose proof (Collection_get_state c1 (VNum id) true Hpar1) as Hstate.
  destruct (Collection_get c1 (VNum id) true) as [r c2]. simpl in Hfound, Hstate.
  subst r c2. rewrite Hids1.
  set (c2 := set_idIndex (fun _ => Some (loki_ids c)) c1).
  assert ((remove_unique c2 (uniqueNames c2) doc).1 = Return ()) as Huniq2.
  { rewrite <- Huniq. subst c2. simpl. rewrite Hn1.
    apply remove_unique_congr. simpl. done. }
  destruct (remove_unique_spec (uniqueNames c2) c2 doc)
    as [(Hd3 & Hi3 & Hb3 & Ha3 & _ & Hcl3 & _) Hn3].
  destruct (remove_unique c2 (uniqueNames c2) doc) as [[[]|e] c3];
    simpl in Huniq2, Hd3, Hi3, Hb3, Ha3, Hcl3, Hn3; [|done].
  rewrite Ha3, Ha1, Had.
  assert (map_imap (fun key bi =>
                      Some (adaptiveBinaryIndexRemove (data c3) (inl k) key false bi))
                   (binaryIndices c3)
          = index_without k <$> binaryIndices c) as Hmap.
  { apply map_eq. intros name. rewrite map_lookup_imap, lookup_fmap, Hb3, Hb1, Hd3, Hd1.
    destruct (binaryIndices c !! name) as [bi|] eqn:Hbi; simpl; [|done].
    f_equal. apply adaptiveBinaryIndexRemove_position; [lia|by apply Hidx]. }
  eexists. split; [reflexivity|].
  unfold commit, loki_ids.
  destruct (transactional _); cbn -[adaptiveBinaryIndexRemove];
    rewrite Hmap, ?Hd3, ?Hi3, ?Ha3, ?Hn3, ?Hcl3, ?Hd1, ?Ha1, ?Hn1, ?Hcl1;
    cbn; unfold loki_ids; rewrite splice_remove_fmap; done.
Qed.

Lemma Collection_remove_doc (c : Collection) (k : Z) (doc : gmap string value)
    (id : number) :
  adaptiveBinaryIndices c = true ->
  idIndex_parallel c -> ids_ascending (loki_ids c) -> indices_ok c ->
  nthZ (data c) k = Some doc ->
  get_prop doc "$loki" = VNum id -> isNaN id = false ->
  (remove_unique c (uniqueNames c) doc).1 = Return () ->
  exists c',
    Collection_remove c (ArgDoc doc)
    = (Return (RemovedDoc (delete "meta" (delete "$loki" doc))), c')
    /\ data c' = splice_remove (data c) k
    /\ idIndex c' = Some (loki_ids c')
    /\ binaryIndices c' = index_without k <$> binaryIndices c
    /\ adaptiveBinaryIndices c' = true
    /\ uniqueNames c' = uniqueNames c
    /\ cloneObjects c' = cloneObjects c.
Proof.
  intros Had Hpar Hasc Hidx Hk Hloki Hnan Huniq.
  destruct (remove_try_spec c k doc id) as (c' & Htry & Hrest); [done..|].
  exists c'. split; [|done]. unfold Collection_remove.
  assert (doc !! "$loki" <> None) as Hown.
  { intros Hnone. unfold get_prop in Hloki. by rewrite Hnone in Hloki. }
  rewrite bool_decide_eq_false_2 by done. by rewrite Htry.
Qed.

(** [remove(id)]: the document is looked up with [get] first. *)
Lemma Collection_remove_id (c : Collection) (k : Z) (doc : gmap string value)
    (id : number) :
  adaptiveBinaryIndices c = true ->
  idIndex_parallel c -> ids_ascending (loki_ids c) -> indices_ok c ->
  nthZ (data c) k = Some doc ->
  get_prop doc "$loki" = VNum id -> isNaN id = false ->
  (remove_unique c (uniqueNames c) doc).1 = Return () ->
  exists c',
    Collection_remove c (ArgVal (VNum id))
    = (Return (RemovedDoc (delete "meta" (delete "$loki" doc))), c')
    /\ data c' = splice_remove (data c) k
    /\ idIndex c' = Some (loki_ids c')
    /\ binaryIndices c' = index_without k <$> binaryIndices c
    /\ adaptiveBinaryIndices c' = true
    /\ uniqueNames c' = uniqueNames c
    /\ cloneObjects c' = cloneObjects c.
Proof.
  intros Had Hpar Hasc Hidx Hk Hloki Hnan Huniq.
  assert ((Collection_get c (VNum id) false).1 = Return (GotDoc (Some doc)))
    as Hfound.
  { apply (Collection_get_found c (VNum id) false k doc); try done.
    rewrite Hloki. by apply num_eq_refl. }
  pose proof (Collection_get_state c (VNum id) false Hpar) as Hstate.
  unfold Collection_remove.
  destruct (Collection_get c (VNum id) false) as [r c2]. simpl in Hfound, Hstate.
  subst r c2. set (c2 := set_idIndex (fun _ => Some (loki_ids c)) c).
  destruct (remove_try_spec c2 k doc id) as (c' & Htry & Hrest); try done.
  { rewrite <- Huniq. by apply remove_unique_congr. }
  exists c'. split; [|done].
  assert (doc !! "$loki" <> None) as Hown.
  { intros Hnone. unfold get_prop in Hloki. by rewrite Hnone in Hloki. }
  rewrite bool_decide_eq_false_2 by done. by rewrite Htry.
Qed.

(** C2: on a collection with adaptive binary indices, each a sorted
    permutation of the positions of [data], whose [$loki] index is parallel
    to [data] and ascending, removing the document stored at position [k]
    (the unique indexes letting go of it) takes [k] out of the values of
    every binary index and moves every stored position above [k] down by
    one; afterwards [idIndex] lists the [$loki] of [data], position by
    position. *)
Theorem remove_shifts_binary_indices (c : Collection) (k : Z)
    (doc : gmap string value) (id : number) :
  adaptiveBinaryIndices c = true ->
  idIndex_parallel c -> ids_ascending (loki_ids c) -> indices_ok c ->
  nthZ (data c) k = Some doc ->
  get_prop doc "$loki" = VNum id -> isNaN id = false ->
  (remove_unique c (uniqueNames c) doc).1 = Return () ->
  exists c',
    Collection_remove c (ArgDoc doc)
    = (Return (RemovedDoc (delete "meta" (delete "$loki" doc))), c')
    /\ data c' = splice_remove (data c) k
    /\ (forall name bi, binaryIndices c !! name = Some bi ->
          exists bi', binaryIndices c' !! name = Some bi'
            /\ values bi'
               = (fun v => if v >? k then v - 1 else v)
                   <$> filter (fun v => v <> k) (values bi))
    /\ (exists ids, idIndex c' = Some ids
          /\ lengthZ ids = lengthZ (data c')
          /\ forall i d, nthZ (data c') i = Some d ->
               nthZ ids i = Some (get_prop d "$loki")).
Proof.
  intros Had Hpar Hasc Hidx Hk Hloki Hnan Huniq.
  destruct (Collection_remove_doc c k doc id)
    as (c' & Hrm & Hdata & Hids & Hbi & _); [done..|].
  exists c'. split; [done|]. split; [done|]. split.
  - intros name bi Hname. exists (index_without k bi).
    by rewrite Hbi, lookup_fmap, Hname.
  - exists (loki_ids c'). split; [done|]. unfold loki_ids. split.
    + apply lengthZ_fmap.
    + intros i d Hd. by rewrite nthZ_fmap, Hd.
Qed.

(** * [insert] followed by [remove] *)

Lemma nthZ_app_l {A : Type} (l1 l2 : list A) (i : Z) :
  i < lengthZ l1 -> nthZ (l1 ++ l2) i = nthZ l1 i.
Proof.
  intros Hi. unfold nthZ. destruct (Z.ltb_spec i 0); [done|].
  apply nth_error_app1. unfold lengthZ in Hi. lia.
Qed.

Lemma nthZ_app_r {A : Type} (l1 l2 : list A) (i : Z) :
  lengthZ l1 <= i -> nthZ (l1 ++ l2) i = nthZ l2 (i - lengthZ l1).
Proof.
  intros Hi. unfold nthZ, lengthZ in *.
  destruct (Z.ltb_spec i 0); [lia|].
  destruct (Z.ltb_spec (i - Z.of_nat (length l1)) 0); [lia|].
  rewrite nth_error_app2 by lia. f_equal. lia.
Qed.

Lemma splice_insert_split {A : Type} (l : list A) (p : Z) (x : A) :
  0 <= p <= lengthZ l ->
  exists l1 l2, l = l1 ++ l2 /\ lengthZ l1 = p
                /\ splice_insert l p x = l1 ++ x :: l2.
Proof.
  intros Hp. exists (take (Z.to_nat p) l), (drop (Z.to_nat p) l).
  split; [by rewrite take_drop|]. split.
  - unfold lengthZ in *. rewrite length_take. lia.
  - unfold splice_insert, splice_start. by destruct (Z.ltb_spec p 0); [lia|].
Qed.

Lemma nthZ_splice_insert {A : Type} (l : list A) (p : Z) (x : A) (i : Z) :
  0 <= p <= lengthZ l ->
  nthZ (splice_insert l p x) i
  = if i <? p then nthZ l i else if i =? p then Some x else nthZ l (i - 1).
Proof.
  intros Hp. destruct (splice_insert_split l p x Hp) as (l1 & l2 & -> & Hlen & ->).
  destruct (Z.ltb_spec i p).
  - by rewrite !nthZ_app_l by lia.
  - rewrite nthZ_app_r by lia. destruct (Z.eqb_spec i p) as [->|Hne].
    + by rewrite Hlen, Z.sub_diag.
    + rewrite nthZ_app_r by lia. unfold nthZ.
      destruct (Z.ltb_spec (i - lengthZ l1) 0); [lia|].
      destruct (Z.ltb_spec (i - 1 - lengthZ l1) 0); [lia|].
      replace (Z.to_nat (i - lengthZ l1)) with (S (Z.to_nat (i - 1 - lengthZ l1))) by lia.
      done.
Qed.

Lemma lengthZ_splice_insert {A : Type} (l : list A) (p : Z) (x : A) :
  0 <= p <= lengthZ l -> lengthZ (splice_insert l p x) = lengthZ l + 1.
Proof.
  intros Hp. destruct (splice_insert_split l p x Hp) as (l1 & l2 & -> & Hlen & ->).
  unfold lengthZ. rewrite !length_app. simpl. lia.
Qed.

Lemma lengthZ_app {A : Type} (l1 l2 : list A) :
  lengthZ (l1 ++ l2) = lengthZ l1 + lengthZ l2.
Proof. unfold lengthZ. rewrite length_app. lia. Qed.

Lemma splice_remove_last {A : Type} (l : list A) (x : A) :
  splice_remove (l ++ [x]) (lengthZ l) = l.
Proof. rewrite splice_remove_middle. apply app_nil_r. Qed.

(** Taking out the position that was put in gives the index back. *)
Lemma index_without_inserted (l : list Z) (p n : Z) :
  0 <= p <= lengthZ l -> (forall v, v ∈ l -> v < n) ->
  shift_down n <$> filter (fun v => v <> n) (splice_insert l p n) = l.
Proof.
  intros Hp Hlt.
  destruct (splice_insert_split l p n Hp) as (l1 & l2 & Hl & _ & Hs).
  rewrite Hs. subst l.
  rewrite filter_app, filter_cons_False by (intros Hne; by apply Hne).
  rewrite <- filter_app, filter_all.
  - rewrite <- (list_fmap_id (l1 ++ l2)) at 2. apply list_fmap_ext. intros i v Hv.
    apply list_elem_of_lookup_2 in Hv. specialize (Hlt v Hv). unfold shift_down.
    destruct (Z.gtb_spec v n); [lia|done].
  - intros v Hv ->. specialize (Hlt n Hv). lia.
Qed.

Lemma keys_sorted_insert (key key' : Z -> value) (n : Z) (val : value) (p : Z) :
  keys_sorted key n -> first_not_below key n val p ->
  (forall i, key' i = if i <? p then key i
                      else if i =? p then val else key (i - 1)) ->
  keys_sorted key' (n + 1).
Proof.
  intros Hs (Hp & Hlt & Hge) Hk i j Hi Hij Hj. rewrite !Hk.
  destruct (Z.ltb_spec i p), (Z.ltb_spec j p); try lia.
  - apply Hs; lia.
  - destruct (Z.eqb_spec j p).
    + by rewrite Hlt by lia.
    + apply Hs; lia.
  - destruct (Z.eqb_spec i p), (Z.eqb_spec j p); try lia.
    + by rewrite Comparator_refl.
    + specialize (Hge (j - 1) ltac:(lia)).
      rewrite (Comparator_antisym (key (j - 1)) val).
      by destruct (Comparator (key (j - 1)) val).
    + apply Hs; lia.
Qed.

Lemma keys_sorted_ext (key key' : Z -> value) (n : Z) :
  (forall i, key' i = key i) -> keys_sorted key n -> keys_sorted key' n.
Proof. intros Hk Hs i j Hi Hij Hj. rewrite !Hk. by apply Hs. Qed.

(** The keys of an index do not change when a document is appended. *)
Lemma indexed_value_app (rcd : list (gmap string value)) (obj : gmap string value)
    (index : list Z) (name : string) (dot : bool) (i : Z) :
  (forall v, v ∈ index -> v < lengthZ rcd) ->
  indexed_value (rcd ++ [obj]) index name dot i = indexed_value rcd index name dot i.
Proof.
  intros Hin. unfold indexed_value.
  destruct (nthZ index i) as [v|] eqn:Hv; [|done]. simpl.
  rewrite nthZ_app_l; [done|]. apply Hin.
  pose proof (nthZ_Some_range _ _ _ Hv).
  rewrite nthZ_lookup in Hv by lia. by eapply list_elem_of_lookup_2.
Qed.

Lemma nthZ_snoc {A : Type} (l : list A) (x : A) :
  nthZ (l ++ [x]) (lengthZ l) = Some x.
Proof.
  rewrite nthZ_app_r by lia. by rewrite Z.sub_diag.
Qed.

(** [adaptiveBinaryIndexInsert] of the position just appended keeps the
    index a sorted permutation. *)
Lemma adaptiveBinaryIndexInsert_ok (rcd : list (gmap string value))
    (obj : gmap string value) (name : string) (bi : BinaryIndex) :
  binary_index_ok rcd name bi ->
  exists p, 0 <= p <= lengthZ (values bi)
    /\ adaptiveBinaryIndexInsert (rcd ++ [obj]) (lengthZ rcd) name bi
       = {| bi_name := bi_name bi; bi_dirty := bi_dirty bi;
            values := splice_insert (values bi) p (lengthZ rcd) |}
    /\ binary_index_ok (rcd ++ [obj]) name
         (adaptiveBinaryIndexInsert (rcd ++ [obj]) (lengthZ rcd) name bi).
Proof.
  intros [Hperm Hs].
  assert (forall v, v ∈ values bi -> v < lengthZ rcd) as Hrange.
  { intros v Hv. rewrite Hperm in Hv. apply elem_of_seqZ in Hv. lia. }
  set (dot := has_dot name).
  set (val := getIn (nthZ (rcd ++ [obj]) (lengthZ rcd)) name dot).
  set (key := indexed_value rcd (values bi) name dot).
  set (key1 := indexed_value (rcd ++ [obj]) (values bi) name dot).
  assert (forall i, key1 i = key i) as Hkey
    by (intros i; by apply indexed_value_app).
  assert (keys_sorted key1 (lengthZ (values bi))) as Hs1
    by (by apply (keys_sorted_ext key)).
  assert (exists p, first_not_below key (lengthZ (values bi)) val p
            /\ (if lengthZ (values bi) =? 0 then 0
                else calculateRangeStart (rcd ++ [obj]) (values bi) name val true dot)
               = p) as (p & Hp & Hpos).
  { destruct (Z.eqb_spec (lengthZ (values bi)) 0) as [H0|H0].
    - exists 0. split; [|done]. repeat split; intros; lia.
    - destruct (first_not_below_exists (rcd ++ [obj]) (values bi) name val dot)
        as (lb & (H1 & H2 & H3) & Hlb & _);
        [unfold lengthZ in *; lia|done|].
      exists lb. split; [|done]. repeat split; try lia.
      + intros i Hi. rewrite <- Hkey. by apply H2.
      + intros i Hi. rewrite <- Hkey. by apply H3. }
  exists p. split; [by destruct Hp|].
  assert (adaptiveBinaryIndexInsert (rcd ++ [obj]) (lengthZ rcd) name bi
          = {| bi_name := bi_name bi; bi_dirty := bi_dirty bi;
               values := splice_insert (values bi) p (lengthZ rcd) |}) as ->.
  { unfold adaptiveBinaryIndexInsert. cbv zeta. fold dot. fold val. by rewrite Hpos. }
  split; [done|]. split; simpl.
  - destruct (splice_insert_split (values bi) p (lengthZ rcd)) as (l1 & l2 & Hl & _ & ->);
      [by destruct Hp|].
    rewrite lengthZ_app. change (lengthZ [obj]) with 1.
    rewrite seqZ_app by (unfold lengthZ; lia). simpl.
    change (seqZ (lengthZ rcd) 1) with [lengthZ rcd].
    rewrite <- Permutation_middle, <- Hl, Hperm.
    apply Permutation_cons_append.
  - unfold index_sorted. rewrite lengthZ_splice_insert by (by destruct Hp).
    apply (keys_sorted_insert key _ _ val p); [done..|].
    intros i. unfold indexed_value at 1.
    rewrite nthZ_splice_insert by (by destruct Hp).
    destruct (Z.ltb_spec i p); [by rewrite <- Hkey|].
    destruct (Z.eqb_spec i p); [done|]. by rewrite <- Hkey.
Qed.

(** ** The unique indexes through [add] and [remove] *)

Lemma UniqueIndex_set_field (u u' : UniqueIndex) (obj : gmap string value) :
  UniqueIndex_set u obj = Return u' -> field u' = field u.
Proof.
  unfold UniqueIndex_set. destruct (_ && _); [|by intros [= <-]].
  destruct (keyMap u !! _); [done|]. by intros [= <-].
Qed.

Lemma UniqueIndex_set_all_field (docs : list (gmap string value)) (u : UniqueIndex) :
  field (UniqueIndex_set_all u docs).2 = field u.
Proof.
  revert u. induction docs as [|d docs IH]; intros u; simpl; [done|].
  destruct (UniqueIndex_set u d) as [u1|e] eqn:Hset; [|done].
  rewrite IH. by eapply UniqueIndex_set_field.
Qed.

Lemma UniqueIndex_set_key (u u' : UniqueIndex) (obj : gmap string value) :
  UniqueIndex_set u obj = Return u' ->
  has_key (get_prop obj (field u)) = true ->
  is_Some (keyMap u' !! ToString (get_prop obj (field u))).
Proof.
  unfold UniqueIndex_set, has_key. intros Hset Hkey. rewrite Hkey in Hset.
  destruct (keyMap u !! _); [done|]. injection Hset as <-. simpl.
  rewrite lookup_insert_eq. by eexists.
Qed.

Lemma getUniqueIndex_force_index (c c1 : Collection) (fld : string)
    (index : UniqueIndex) :
  getUniqueIndex c fld true = (Return (Some index), c1) ->
  fld ∈ uniqueNames c -> fields_ok c ->
  fields_ok c1 /\ constraints_unique c1 !! fld = Some index
  /\ uniqueNames c1 = uniqueNames c.
Proof.
  unfold getUniqueIndex. intros Hget Hin Hok.
  destruct (constraints_unique c !! fld) as [u|] eqn:Hu.
  - by injection Hget as <- <-.
  - unfold ensureUniqueIndex in Hget. rewrite Hu in Hget.
    assert (forall (a b : Collection),
              (if bool_decide (fld ∈ Object_prototype_keys) then a
               else if bool_decide (fld ∈ uniqueNames c) then a else b) = a)
      as Hkeep
      by (intros; case_bool_decide; [done|]; by rewrite bool_decide_eq_true_2).
    rewrite Hkeep in Hget.
    pose proof (UniqueIndex_set_all_field (data c) (UniqueIndex_new fld)) as Hf.
    destruct (UniqueIndex_set_all _ _) as [[[]|e] index0]; [|done].
    injection Hget as <- <-. simpl in *.
    split; [|by rewrite lookup_insert_eq].
    intros name u. simpl. destruct (decide (name = fld)) as [->|Hne].
    + rewrite lookup_insert_eq. by intros [= <-].
    + rewrite lookup_insert_ne by done. apply Hok.
Qed.

Lemma fields_ok_insert (c : Collection) (name : string) (u : UniqueIndex) :
  fields_ok c -> field u = name ->
  fields_ok (set_constraints_unique (fun m => <[name := u]> m) c).
Proof.
  intros Hok Hf name' u'. simpl. destruct (decide (name' = name)) as [->|Hne].
  - rewrite lookup_insert_eq. by intros [= <-].
  - rewrite lookup_insert_ne by done. apply Hok.
Qed.

Lemma add_unique_keeps (names : list string) (c : Collection)
    (obj : gmap string value) (name : string) :
  name ∉ names ->
  constraints_unique (add_unique c names obj).2 !! name
  = constraints_unique c !! name.
Proof.
  revert c. induction names as [|name' names IH]; intros c Hnot; simpl; [done|].
  apply not_elem_of_cons in Hnot as [Hne Hnot].
  destruct (getUniqueIndex_force c name') as (_ & H2 & _).
  destruct (getUniqueIndex c name' true) as [[[index|]|e] c1]; simpl in *;
    [|by apply H2..].
  destruct (UniqueIndex_set index obj) as [index'|e]; simpl; [|by apply H2].
  rewrite IH by done. simpl. rewrite lookup_insert_ne by done. by apply H2.
Qed.

(** After a successful [add], every unique index holds the key of the
    document. *)
Lemma add_unique_holds (names : list string) (c c' : Collection)
    (obj : gmap string value) :
  NoDup names -> (forall name, name ∈ names -> name ∈ uniqueNames c) ->
  fields_ok c ->
  add_unique c names obj = (Return (), c') ->
  uniqueNames c' = uniqueNames c
  /\ forall name, name ∈ names -> has_key (get_prop obj name) = true ->
       exists u, constraints_unique c' !! name = Some u
                 /\ is_Some (keyMap u !! ToString (get_prop obj name)).
Proof.
  revert c. induction names as [|name' names IH]; intros c Hnd Hsub Hok; simpl.
  - intros [= <-]. split; [done|]. intros name Hin. by apply elem_of_nil in Hin.
  - apply NoDup_cons in Hnd as [Hnot Hnd].
    destruct (getUniqueIndex c name' true) as [[[index|]|e] c1] eqn:Hget;
      [|done..].
    destruct (getUniqueIndex_force_index c c1 name' index Hget) as (Hok1 & Hidx & Hn1);
      [apply Hsub; left|done|].
    pose proof (Hok1 _ _ Hidx) as Hfield.
    destruct (UniqueIndex_set index obj) as [index'|e] eqn:Hset; [|done].
    intros Hadd.
    pose proof (UniqueIndex_set_field _ _ _ Hset) as Hfield'.
    destruct (IH (set_constraints_unique (fun u => <[name' := index']> u) c1))
      as [Hn' Hkeys]; [done| | |done|].
    { intros name Hin. simpl. rewrite Hn1. apply Hsub. by right. }
    { apply fields_ok_insert; [done|congruence]. }
    split; [by rewrite Hn'|].
    intros name Hin Hkey. apply elem_of_cons in Hin as [->|Hin]; [|by apply Hkeys].
    exists index'. split.
    + pose proof (add_unique_keeps names
                    (set_constraints_unique (fun u => <[name' := index']> u) c1)
                    obj name' Hnot) as Hkeep.
      rewrite Hadd in Hkeep. simpl in Hkeep. by rewrite Hkeep, lookup_insert_eq.
    + rewrite <- Hfield. apply (UniqueIndex_set_key index); [done|by rewrite Hfield].
Qed.

(** [remove] gets past the unique indexes when each of them holds the key
    of the document. *)
Lemma remove_unique_ok (names : list string) (c : Collection)
    (doc : gmap string value) :
  NoDup names ->
  (forall name u, name ∈ names -> has_key (get_prop doc name) = true ->
     constraints_unique c !! name = Some u ->
     is_Some (keyMap u !! ToString (get_prop doc name))) ->
  (remove_unique c names doc).1 = Return ().
Proof.
  revert c. induction names as [|key names IH]; intros c Hnd Hkeys; simpl; [done|].
  apply NoDup_cons in Hnd as [Hnot Hnd].
  fold (has_key (get_prop doc key)).
  destruct (has_key (get_prop doc key)) eqn:Hkey.
  - unfold getUniqueIndex.
    destruct (constraints_unique c !! key) as [index|] eqn:Hidx.
    + destruct (Hkeys key index) as [found Hfound]; [left|done..|].
      unfold UniqueIndex_remove. rewrite Hfound. apply IH; [done|].
      intros name u Hin Hk. simpl. rewrite lookup_insert_ne by (by intros ->).
      apply Hkeys; [by right|done].
    + apply IH; [done|]. intros name u Hin. apply Hkeys. by right.
  - apply IH; [done|]. intros name u Hin. apply Hkeys. by right.
Qed.

(** ** Adding one to a number *)

Lemma to_double_not_NaN (x : Qc) : isNaN (to_double x) = false.
Proof.
  unfold to_double.
  destruct (_ =? 0); [done|]. cbv zeta.
  destruct (_ || _); [by destruct (_ <? 0)|done].
Qed.

Lemma num_succ_not_NaN (q : Qc) : isNaN (num_succ (Finite q)) = false.
Proof. apply to_double_not_NaN. Qed.

Lemma this_Q2Qc_integer (z : Z) : this (Q2Qc (inject_Z z)) = inject_Z z.
Proof.
  unfold Q2Qc. cbn [this]. apply Qred_identity. simpl. apply Z.gcd_1_r.
Qed.

(** The integers up to 2^53 in magnitude are doubles. *)
Lemma to_double_integer (z : Z) :
  - 2 ^ 53 <= z <= 2 ^ 53 -> to_double (Q2Qc (inject_Z z)) = num_of_Z z.
Proof.
  intros Hz. unfold to_double. rewrite this_Q2Qc_integer.
  cbn [Qnum Qden inject_Z].
  destruct (Z.eqb_spec (Z.abs z) 0) as [H0|H0]; [done|].
  cbv zeta. change (Z.log2 1) with 0. rewrite Z.sub_0_r.
  set (n := Z.abs z) in *.
  assert (0 < n) as Hn by (unfold n; lia).
  pose proof (Z.log2_spec n Hn) as [Hlo Hhi].
  pose proof (Z.log2_nonneg n) as Hk.
  set (k := Z.log2 n) in *.
  rewrite (Z.max_l 0 (- k)) by lia. rewrite (Z.max_r 0 k) by lia.
  rewrite Z.pow_0_r, Z.mul_1_r, Z.mul_1_l.
  destruct (Z.ltb_spec n (2 ^ k)) as [?|_]; [lia|].
  assert (k <= 53) as Hk53.
  { destruct (Z.le_gt_cases k 53) as [?|Hgt]; [done|].
    assert (2 ^ 54 <= 2 ^ k) by (apply Z.pow_le_mono_r; lia).
    assert (n <= 2 ^ 53) by (unfold n; lia).
    assert (2 ^ 53 < 2 ^ 54) by (by vm_compute).
    lia. }
  rewrite (Z.max_l (k - 52) (-1074)) by lia.
  destruct (Z.le_gt_cases k 52) as [Hle|Hgt].
  - rewrite (Z.max_r 0 (- (k - 52))) by lia. rewrite (Z.max_l 0 (k - 52)) by lia.
    rewrite Z.pow_0_r, Z.mul_1_r.
    set (p := - (k - 52)).
    assert (0 < 2 ^ p) as Hp by (apply Z.pow_pos_nonneg; unfold p; lia).
    assert (round_half_even (n * 2 ^ p) 1 = n * 2 ^ p) as ->.
    { unfold round_half_even. rewrite Z.mod_1_r, Z.div_1_r. done. }
    destruct (Z.ltb_spec 971 (k - 52)); [lia|].
    destruct (Z.eqb_spec (k - 52) 971); [lia|]. cbn [orb andb].
    unfold num_of_Z. f_equal. apply Qc_is_canon.
    unfold Q2Qc. cbn [this]. rewrite !Qred_correct.
    unfold Qeq, inject_Z. cbn [Qnum Qden].
    rewrite Z2Pos.id by done. unfold n.
    replace (Z.sgn z * (Z.abs z * 2 ^ p) * 1 * 1)
      with (Z.sgn z * Z.abs z * 2 ^ p) by ring.
    f_equal. clear. destruct z; simpl; lia.
  - assert (k = 53) as Hk' by lia.
    assert (n = 2 ^ 53) as Hn'.
    { assert (2 ^ 53 <= 2 ^ k) by (apply Z.pow_le_mono_r; lia).
      unfold n in *. lia. }
    assert (z = 2 ^ 53 \/ z = - 2 ^ 53) as [-> | ->] by (unfold n in Hn'; lia);
      vm_compute; reflexivity.
Qed.

(** [x + 1] is exact on a safe integer. *)
Lemma num_succ_safe (q : Qc) :
  safe_integer (Finite q) -> num_succ (Finite q) = Finite (q + 1)%Qc.
Proof.
  intros (z & [= ->] & Hz). unfold num_succ.
  assert ((Q2Qc (inject_Z z) + 1)%Qc = Q2Qc (inject_Z (z + 1))) as ->.
  { apply Qc_is_canon. unfold Qcplus, Q2Qc. cbn [this].
    rewrite !Qred_correct. rewrite inject_Z_plus. reflexivity. }
  apply to_double_integer. lia.
Qed.

Lemma ids_ascending_snoc (ids : list value) (y : number) :
  ids_ascending ids ->
  (forall v, v ∈ ids -> exists x, v = VNum x /\ num_lt x y = true) ->
  ids_ascending (ids ++ [VNum y]).
Proof.
  intros Hasc Hbelow i j Hi Hij Hj. rewrite lengthZ_app in Hj.
  change (lengthZ [VNum y]) with 1 in Hj.
  destruct (Z.lt_ge_cases j (lengthZ ids)) as [Hlt|Hge].
  - rewrite !nthZ_app_l by lia. by apply Hasc.
  - assert (j = lengthZ ids) as -> by lia.
    rewrite nthZ_snoc, nthZ_app_l by lia.
    destruct (nthZ ids i) as [v|] eqn:Hv.
    + assert (v ∈ ids) as Hin.
      { rewrite nthZ_lookup in Hv by lia. by eapply list_elem_of_lookup_2. }
      destruct (Hbelow v Hin) as (x & -> & Hx). by exists x, y.
    + exfalso. revert Hv. unfold nthZ. destruct (Z.ltb_spec i 0); [lia|].
      intros Hv%nth_error_None. unfold lengthZ in *. lia.
Qed.

(** What a successful [add] leaves behind, [maxId] being a finite number. *)
Lemma add_try_success (c c' : Collection) (obj0 d : gmap string value) (q : Qc) :
  adaptiveBinaryIndices c = true -> ToNumber (maxId c) = Finite q ->
  add_try c obj0 = (Return d, c') ->
  let newId := VNum (num_succ (Finite q)) in
  let obj := <["$loki" := newId]> obj0 in
  (exists ca cb, constraints_unique ca = constraints_unique c
     /\ uniqueNames ca = uniqueNames c
     /\ add_unique ca (uniqueNames c) obj = (Return (), cb)
     /\ constraints_unique c' = constraints_unique cb
     /\ uniqueNames c' = uniqueNames cb)
  /\ data c' = data c ++ [obj]
  /\ idIndex c' = (fun ids => ids ++ [newId]) <$> idIndex c
  /\ binaryIndices c'
     = map_imap (fun key bi =>
         Some (adaptiveBinaryIndexInsert (data c ++ [obj]) (lengthZ (data c)) key bi))
         (binaryIndices c)
  /\ adaptiveBinaryIndices c' = true
  /\ d = (if cloneObjects c then clone obj ParseStringify else obj).
Proof.
  intros Had Hq. unfold add_try. cbv zeta.
  destruct (startTransaction_fields c)
    as (Hd1 & Hi1 & Hb1 & Hc1 & Hn1 & Ha1 & Hcl1 & Hm1).
  set (c1 := set_maxId _ (startTransaction c)).
  assert (maxId c1 = VNum (num_succ (Finite q))) as Hmax.
  { subst c1. simpl. by rewrite Hm1, Hq. }
  assert (uniqueNames c1 = uniqueNames c) as Hn1' by done.
  rewrite Hmax. simpl ToNumber. rewrite num_succ_not_NaN. cbv beta iota.
  rewrite ?Hmax, Hn1'.
  destruct (add_unique_spec (uniqueNames c) c1 (<["$loki" := VNum (num_succ (Finite q))]> obj0))
    as [(Hd3 & Hi3 & Hb3 & Ha3 & _ & Hcl3 & _) _].
  destruct (add_unique c1 (uniqueNames c) _) as [[[]|e] c3] eqn:Hadd; [|done].
  simpl in Hd3, Hi3, Hb3, Ha3, Hcl3.
  assert (adaptiveBinaryIndices c3 = true) as Ha3' by congruence.
  assert (lengthZ (data c3 ++ [<["$loki" := VNum (num_succ (Finite q))]> obj0]) - 1
          = lengthZ (data c)) as Hlen.
  { rewrite lengthZ_app, Hd3. simpl. rewrite Hd1. change (lengthZ [_]) with 1. lia. }
  intros [= <- <-]. rewrite Ha3', Hlen. unfold commit.
  split.
  { exists c1, c3. split; [done|]. split; [done|]. split; [done|].
    by destruct (transactional _). }
  destruct (transactional _); cbn -[adaptiveBinaryIndexInsert];
    rewrite Hd3, Hi3, Hb3, Ha3, Hcl3; cbn -[adaptiveBinaryIndexInsert];
    rewrite Hd1, Hi1, Hb1, Ha1, Hcl1; done.
Qed.


(** * What the other functions of the engine guarantee *)

(** ** [calculateRange] returns exactly the matching segment *)

Lemma calculateRange_segment (rcd : list (gmap string value)) (index : list Z)
    (prop : string) (op : operation) :
  0 < lengthZ rcd -> 0 < lengthZ index -> index_sorted rcd index prop ->
  range_operator op = true ->
  exists lo hi,
    calculateRange rcd index op prop = Range lo hi
    /\ (lo <= hi -> 0 <= lo /\ hi < lengthZ index)
    /\ forall i, 0 <= i < lengthZ index ->
         (lo <= i <= hi
          <-> range_test op (indexed_value rcd index prop (has_dot prop) i) = true).
Proof.
  intros Hrcd Hn Hs Hop.
  set (key := indexed_value rcd index prop (has_dot prop)).
  set (n := lengthZ index) in *.
  assert (forall val val' lb ub,
            first_not_below key n val lb -> first_above key n val' ub ->
            exists lo hi,
              (if lb <? ub then Range lb (ub - 1) else Range 0 (-1)) = Range lo hi
              /\ (lo <= hi -> 0 <= lo /\ hi < n)
              /\ forall i, 0 <= i < n -> (lo <= i <= hi <-> lb <= i < ub)) as Hseg.
  { intros val val' lb ub (Hlb & _) (Hub & _). destruct (Z.ltb_spec lb ub).
    - exists lb, (ub - 1). split; [done|]. split; [lia|]. intros; lia.
    - exists 0, (-1). split; [done|]. split; [lia|]. intros; lia. }
  destruct op as [val|val| |val|val|val|val|val| | | | |vals| | | | | ]; try done.
  - destruct (calculateRange_eq_range rcd index prop Hrcd Hn Hs (O_eq val) val)
      as (lb & ub & Hlb & Hub & ->); [by left|].
    destruct (Hseg val val lb ub Hlb Hub) as (lo & hi & -> & Hin & Hiff).
    exists lo, hi. split; [done|]. split; [done|]. intros i Hi.
    rewrite (Hiff i Hi). symmetry. by apply (aeq_positions key n val).
  - destruct (calculateRange_eq_range rcd index prop Hrcd Hn Hs (O_aeq val) val)
      as (lb & ub & Hlb & Hub & ->); [by right; left|].
    destruct (Hseg val val lb ub Hlb Hub) as (lo & hi & -> & Hin & Hiff).
    exists lo, hi. split; [done|]. split; [done|]. intros i Hi.
    rewrite (Hiff i Hi). symmetry. by apply (aeq_positions key n val).
  - destruct (calculateRange_eq_range rcd index prop Hrcd Hn Hs (O_dteq val) val)
      as (lb & ub & Hlb & Hub & ->); [by right; right|].
    destruct (Hseg val val lb ub Hlb Hub) as (lo & hi & -> & Hin & Hiff).
    exists lo, hi. split; [done|]. split; [done|]. intros i Hi.
    rewrite (Hiff i Hi). symmetry. by apply (aeq_positions key n val).
  - destruct (calculateRange_gt rcd index prop Hrcd Hn Hs val) as (ub & Hub & ->).
    fold n. pose proof Hub as (Hb & _). simpl.
    pose proof (fun i Hi => gt_positions key n val ub i Hub Hi) as Hpos.
    destruct (Z.ltb_spec ub n).
    + exists ub, (n - 1). split; [done|]. split; [lia|]. intros i Hi.
      rewrite (Hpos i Hi). lia.
    + exists 0, (-1). split; [done|]. split; [lia|]. intros i Hi.
      rewrite (Hpos i Hi). lia.
  - destruct (calculateRange_gte rcd index prop Hrcd Hn Hs val) as (lb & Hlb & ->).
    fold n. pose proof Hlb as (Hb & _). simpl.
    pose proof (fun i Hi => gte_positions key n val lb i Hlb Hi) as Hpos.
    destruct (Z.ltb_spec lb n).
    + exists lb, (n - 1). split; [done|]. split; [lia|]. intros i Hi.
      rewrite (Hpos i Hi). lia.
    + exists 0, (-1). split; [done|]. split; [lia|]. intros i Hi.
      rewrite (Hpos i Hi). lia.
  - destruct (calculateRange_lt rcd index prop Hrcd Hn Hs val) as (lb & Hlb & ->).
    pose proof Hlb as (Hb & _). simpl.
    pose proof (fun i Hi => lt_positions key n val lb i Hlb Hi) as Hpos.
    destruct (Z.ltb_spec 0 lb).
    + exists 0, (lb - 1). split; [done|]. split; [lia|]. intros i Hi.
      rewrite (Hpos i Hi). lia.
    + exists 0, (-1). split; [done|]. split; [lia|]. intros i Hi.
      rewrite (Hpos i Hi). lia.
  - destruct (calculateRange_lte rcd index prop Hrcd Hn Hs val) as (ub & Hub & ->).
    pose proof Hub as (Hb & _). simpl.
    pose proof (fun i Hi => lte_positions key n val ub i Hub Hi) as Hpos.
    destruct (Z.ltb_spec 0 ub).
    + exists 0, (ub - 1). split; [done|]. split; [lia|]. intros i Hi.
      rewrite (Hpos i Hi). lia.
    + exists 0, (-1). split; [done|]. split; [lia|]. intros i Hi.
      rewrite (Hpos i Hi). lia.
  - destruct (calculateRange_between rcd index prop Hrcd Hn Hs vals)
      as (lb & ub & Hlb & Hub & ->).
    destruct (Hseg _ _ lb ub Hlb Hub) as (lo & hi & -> & Hin & Hiff).
    exists lo, hi. split; [done|]. split; [done|]. intros i Hi.
    rewrite (Hiff i Hi). simpl. rewrite andb_true_iff.
    rewrite (gte_positions key n _ lb i Hlb Hi).
    rewrite (lte_positions key n _ ub i Hub Hi). lia.
Qed.

(** The loop that appends what is not there yet ([$in] in [calculateRange],
    [$or] in [find]). *)
Lemma add_absent_spec (acc l : list Z) :
  let result := foldl (fun acc i => if existsb (Z.eqb i) acc then acc else acc ++ [i])
                      acc l in
  (forall i, i ∈ result <-> i ∈ acc \/ i ∈ l)
  /\ (NoDup acc -> NoDup result).
Proof.
  revert acc. induction l as [|x l IH]; intros acc; simpl.
  - split; [|done]. intros i. rewrite elem_of_nil. tauto.
  - destruct (existsb (Z.eqb x) acc) eqn:Hx.
    + destruct (IH acc) as [IH1 IH2]. split; [|done].
      intros i. rewrite IH1, elem_of_cons.
      apply existsb_exists in Hx as (y & Hy & ->%Z.eqb_eq).
      apply list_elem_of_In in Hy. split; [tauto|].
      intros [?|[->|?]]; tauto.
    + destruct (IH (acc ++ [x])) as [IH1 IH2]. split.
      * intros i. rewrite IH1, elem_of_app, list_elem_of_singleton, elem_of_cons.
        tauto.
      * intros Hnd. apply IH2. apply NoDup_app. split; [done|].
        split; [|apply NoDup_singleton].
        intros y Hy ->%list_elem_of_singleton.
        assert (existsb (Z.eqb x) acc = true) as Hex; [|congruence].
        apply existsb_exists. exists x. split; [by apply list_elem_of_In|].
        apply Z.eqb_refl.
Qed.

(** X1. [calculateRange] is exact for the comparator.  On a sorted index,
    the segment returned for a range operator holds the index positions
    whose key passes the comparator test the index range stands for
    ([range_test]: [Comparators.aeq] for [$eq], [$aeq] and [$dteq],
    [Comparators.gt] and [lt] for [$gt], [$gte], [$lt] and [$lte], both
    bounds for [$between]), all of them and no other, and never reaches
    outside the index.  That test is not the operator's own for [$eq],
    [$aeq] and [$between], which is why [find] filters the segment of [$eq]
    a second time.  For [$in] the positions listed are those whose key
    equals, under [aeq], one of the values, each listed once. *)
Theorem calculateRange_exact (rcd : list (gmap string value)) (index : list Z)
    (prop : string) :
  0 < lengthZ rcd -> 0 < lengthZ index -> index_sorted rcd index prop ->
  let key := indexed_value rcd index prop (has_dot prop) in
  (forall op, range_operator op = true ->
     exists lo hi,
       calculateRange rcd index op prop = Range lo hi
       /\ (lo <= hi -> 0 <= lo /\ hi < lengthZ index)
       /\ forall i, 0 <= i < lengthZ index ->
            (lo <= i <= hi <-> range_test op (key i) = true))
  /\ (forall vals,
        exists seg,
          calculateRange rcd index (O_in vals) prop = Positions seg
          /\ NoDup seg
          /\ forall i, i ∈ seg <->
               0 <= i < lengthZ index
               /\ exists v, v ∈ vals /\ aeqHelper (key i) v = true).
Proof.
  intros Hrcd Hn Hs key. split.
  { intros op. by apply calculateRange_segment. }
  intros vals. unfold calculateRange. cbv zeta.
  destruct (Z.eqb_spec (lengthZ rcd) 0) as [|_]; [lia|].
  eexists. split; [reflexivity|].
  assert (forall acc,
            NoDup acc ->
            let seg := foldl (fun segResult v =>
                                merge_segment segResult
                                  (calculateRange_eq rcd index prop v)) acc vals in
            NoDup seg
            /\ forall i, i ∈ seg <->
                 i ∈ acc
                 \/ (0 <= i < lengthZ index
                     /\ exists v, v ∈ vals /\ aeqHelper (key i) v = true)) as H.
  { induction vals as [|v vals IH]; intros acc Hacc; simpl.
    - split; [done|]. intros i. split; [by left|].
      intros [?|(_ & v & Hv & _)]; [done|]. by apply elem_of_nil in Hv.
    - destruct (calculateRange_eq_result rcd index prop Hrcd Hn Hs v)
        as (lb & ub & Hlb & Hub & Heq).
      unfold merge_segment at 2.
      destruct (add_absent_spec acc
                  (seqZ (calculateRange_eq rcd index prop v).1
                        ((calculateRange_eq rcd index prop v).2
                         - (calculateRange_eq rcd index prop v).1 + 1)))
        as [Hin Hnd].
      destruct (IH _ (Hnd Hacc)) as [IH1 IH2]. split; [done|].
      intros i. rewrite IH2, Hin, Heq.
      assert (i ∈ seqZ (if lb <? ub then (lb, ub - 1) else (0, -1)).1
                       ((if lb <? ub then (lb, ub - 1) else (0, -1)).2
                        - (if lb <? ub then (lb, ub - 1) else (0, -1)).1 + 1)
              <-> 0 <= i < lengthZ index /\ aeqHelper (key i) v = true) as ->.
      { pose proof Hlb as (Hb1 & _). pose proof Hub as (Hb2 & _).
        destruct (Z.ltb_spec lb ub); simpl; rewrite elem_of_seqZ.
        - split.
          + intros Hi. split; [lia|].
            apply (aeq_positions key (lengthZ index) v lb ub); [done..|lia|lia].
          + intros [Hi Ha].
            apply (aeq_positions key (lengthZ index) v lb ub) in Ha; [lia|done..].
        - split; [lia|]. intros [Hi Ha].
          apply (aeq_positions key (lengthZ index) v lb ub) in Ha; [lia|done..]. }
      split.
      { intros [[?|[? ?]]|(? & v0 & ? & ?)].
        - by left.
        - right. split; [done|]. exists v. split; [left|done].
        - right. split; [done|]. exists v0. split; [by right|done]. }
      intros [?|(? & v0 & Hv0 & ?)]; [by left; left|].
      apply elem_of_cons in Hv0 as [->|?].
      { left. by right. }
      right. split; [done|]. by exists v0. }
  destruct (H [] (NoDup_nil_2)) as [H1 H2]. split; [done|].
  intros i. rewrite H2, elem_of_nil. tauto.
Qed.

(** ** Sorted indices as sorted lists of positions *)

Lemma StronglySorted_lookup {A : Type} (R : A -> A -> Prop) (l : list A)
    (i j : nat) (x y : A) :
  StronglySorted R l -> (i < j)%nat -> l !! i = Some x -> l !! j = Some y -> R x y.
Proof.
  intros Hs. revert i j. induction Hs as [|a l Hs IH Hall]; intros i j Hij Hx Hy.
  - done.
  - destruct j as [|j]; [lia|]. destruct i as [|i]; simpl in *.
    + injection Hx as <-. rewrite Forall_forall in Hall. apply Hall.
      by eapply list_elem_of_lookup_2.
    + apply (IH i j); [lia|done..].
Qed.

Lemma lookup_StronglySorted {A : Type} (R : A -> A -> Prop) (l : list A) :
  (forall i j x y, (i < j)%nat -> l !! i = Some x -> l !! j = Some y -> R x y) ->
  StronglySorted R l.
Proof.
  induction l as [|a l IH]; intros H; [constructor|].
  constructor.
  - apply IH. intros i j x y Hij Hx Hy. apply (H (S i) (S j)); [lia|done..].
  - apply Forall_forall. intros y Hy. apply list_elem_of_lookup in Hy as [j Hj].
    apply (H 0%nat (S j)); [lia|done..].
Qed.

Lemma indexed_value_key_at (rcd : list (gmap string value)) (index : list Z)
    (prop : string) (i : Z) (v : Z) :
  nthZ index i = Some v ->
  indexed_value rcd index prop (has_dot prop) i = key_at rcd prop v.
Proof. intros Hv. unfold indexed_value, key_at. by rewrite Hv. Qed.

Lemma nthZ_is_Some {A : Type} (l : list A) (i : Z) :
  0 <= i < lengthZ l -> exists x, nthZ l i = Some x.
Proof.
  intros Hi. rewrite nthZ_lookup by lia. apply lookup_lt_is_Some.
  unfold lengthZ in Hi. lia.
Qed.

(** [index_sorted] says that the list of positions is sorted by key. *)
Lemma index_sorted_iff (rcd : list (gmap string value)) (index : list Z)
    (prop : string) :
  index_sorted rcd index prop <-> StronglySorted (key_le rcd prop) index.
Proof.
  unfold index_sorted, keys_sorted. split.
  - intros H. apply lookup_StronglySorted. intros i j x y Hij Hx Hy.
    pose proof (lookup_lt_Some _ _ _ Hy) as Hlen.
    specialize (H (Z.of_nat i) (Z.of_nat j) ltac:(lia) ltac:(lia)
                  ltac:(unfold lengthZ; lia)).
    rewrite (indexed_value_key_at _ _ _ _ x) in H
      by (rewrite nthZ_lookup by lia; by rewrite Nat2Z.id).
    rewrite (indexed_value_key_at _ _ _ _ y) in H
      by (rewrite nthZ_lookup by lia; by rewrite Nat2Z.id).
    done.
  - intros Hs i j Hi Hij Hj.
    destruct (nthZ_is_Some index i ltac:(lia)) as [x Hx].
    destruct (nthZ_is_Some index j ltac:(lia)) as [y Hy].
    rewrite (indexed_value_key_at _ _ _ _ x Hx), (indexed_value_key_at _ _ _ _ y Hy).
    destruct (Z.eq_dec i j) as [->|Hne].
    + rewrite Hx in Hy. injection Hy as <-. by rewrite Comparator_refl.
    + rewrite nthZ_lookup in Hx, Hy by lia.
      apply (StronglySorted_lookup (key_le rcd prop) index
               (Z.to_nat i) (Z.to_nat j) x y); [done|lia|done..].
Qed.

(** ** [ensureIndex] *)

Lemma wrappedComparer_lt (prop : string) (rcd : list (gmap string value)) (a b : Z) :
  (wrappedComparer prop rcd a b <? 0)
  = match Comparator (key_at rcd prop a) (key_at rcd prop b) with
    | Lt => true | _ => false end.
Proof.
  unfold wrappedComparer. cbv zeta. fold (key_at rcd prop a) (key_at rcd prop b).
  destruct (strict_eq _ _) eqn:Heq; simpl.
  - apply strict_eq_eq in Heq. by rewrite Heq, Comparator_refl.
  - rewrite ltHelper_Comparator, gtHelper_Comparator.
    by destruct (Comparator _ _).
Qed.

Lemma sort_insert_Permutation (comparer : Z -> Z -> Z) (x : Z) (l : list Z) :
  sort_insert comparer x l ≡ₚ x :: l.
Proof.
  induction l as [|y l IH]; simpl; [done|].
  destruct (_ <? 0); [done|]. rewrite IH. apply perm_swap.
Qed.

Lemma array_sort_Permutation (comparer : Z -> Z -> Z) (l : list Z) :
  array_sort comparer l ≡ₚ l.
Proof.
  unfold array_sort.
  assert (forall acc, foldl (fun sorted x => sort_insert comparer x sorted) acc l
                      ≡ₚ acc ++ l) as H.
  { induction l as [|x l IH]; intros acc; simpl; [by rewrite app_nil_r|].
    rewrite IH, sort_insert_Permutation. by rewrite <- Permutation_middle. }
  apply (H []).
Qed.

Lemma sort_insert_sorted (prop : string) (rcd : list (gmap string value))
    (x : Z) (l : list Z) :
  StronglySorted (key_le rcd prop) l ->
  StronglySorted (key_le rcd prop) (sort_insert (wrappedComparer prop rcd) x l).
Proof.
  induction 1 as [|y l Hs IH Hall]; simpl; [by repeat constructor|].
  rewrite wrappedComparer_lt.
  destruct (Comparator (key_at rcd prop x) (key_at rcd prop y)) eqn:Hxy.
  - constructor; [done|]. rewrite (sort_insert_Permutation _ x l).
    constructor; [|done]. unfold key_le.
    rewrite (Comparator_antisym (key_at rcd prop x)), Hxy. done.
  - constructor; [by constructor|]. constructor.
    + unfold key_le. by rewrite Hxy.
    + eapply Forall_impl; [exact Hall|]. intros z Hz. unfold key_le in *.
      assert (Comparator (key_at rcd prop x) (key_at rcd prop z) = Lt) as ->
        by (by eapply Comparator_lt_le_trans).
      done.
  - constructor; [done|]. rewrite (sort_insert_Permutation _ x l).
    constructor; [|done]. unfold key_le.
    rewrite (Comparator_antisym (key_at rcd prop x)), Hxy. done.
Qed.

Lemma array_sort_sorted (prop : string) (rcd : list (gmap string value))
    (l : list Z) :
  StronglySorted (key_le rcd prop) (array_sort (wrappedComparer prop rcd) l).
Proof.
  unfold array_sort.
  assert (forall acc, StronglySorted (key_le rcd prop) acc ->
            StronglySorted (key_le rcd prop)
              (foldl (fun sorted x => sort_insert (wrappedComparer prop rcd) x sorted)
                     acc l)) as H.
  { induction l as [|x l IH]; intros acc Hacc; simpl; [done|].
    apply IH. by apply sort_insert_sorted. }
  apply H. constructor.
Qed.

Lemma ensureIndex_valid (c : Collection) (property : string) (force : bool) :
  (binaryIndices c !! property = None -> property ∉ Object_prototype_keys) ->
  (forall bi, binaryIndices c !! property = Some bi -> bi_dirty bi = false ->
     binary_index_ok (data c) property bi) ->
  force = true \/ adaptiveBinaryIndices c = false
  \/ binaryIndices c !! property = None ->
  data (ensureIndex c property force) = data c
  /\ (forall p, p <> property ->
        binaryIndices (ensureIndex c property force) !! p = binaryIndices c !! p)
  /\ exists bi, binaryIndices (ensureIndex c property force) !! property = Some bi
       /\ bi_dirty bi = false
       /\ binary_index_ok (data c) property bi.
Proof.
  intros Hown Hclean Hwhen. unfold ensureIndex. cbv zeta.
  set (built := {| bi_name := property; bi_dirty := false;
                   values := array_sort (wrappedComparer property (data c))
                                        (prepareFullDocIndex c) |}).
  assert (binary_index_ok (data c) property built) as Hbuilt.
  { split; simpl.
    - apply array_sort_Permutation.
    - apply index_sorted_iff, array_sort_sorted. }
  assert (let c' := set_dirty (fun _ => true)
                      (set_binaryIndices (fun b => <[property := built]> b) c) in
          data c' = data c
          /\ (forall p, p <> property -> binaryIndices c' !! p = binaryIndices c !! p)
          /\ exists bi, binaryIndices c' !! property = Some bi
               /\ bi_dirty bi = false /\ binary_index_ok (data c) property bi)
    as Hrebuilt.
  { simpl. split; [done|]. split.
    - intros p Hp. by rewrite lookup_insert_ne.
    - exists built. by rewrite lookup_insert_eq. }
  destruct (binaryIndices c !! property) as [bi|] eqn:Hbi; simpl.
  - destruct force; simpl; [by rewrite andb_false_r|].
    destruct (bi_dirty bi) eqn:Hdirty; simpl.
    + destruct Hwhen as [?|[->|?]]; try done.
    + split; [done|]. split; [done|]. exists bi. split; [done|]. split; [done|].
      by apply Hclean.
  - rewrite (bool_decide_eq_false_2 _ (Hown eq_refl)).
    rewrite !andb_false_r. simpl. done.
Qed.

(** X2. [ensureIndex(property, force)], for a property that is no member
    name of [Object.prototype] (the lookup [binaryIndices[property]] would
    find the inherited member), leaves under [property] an index that is not
    dirty and is a sorted permutation of the positions of [data]: it builds
    one when forced, when there is none, or when the one there is dirty and
    the collection is not adaptive, and otherwise keeps the index it finds.
    [data], [idIndex], the unique indexes and the other binary indices are
    not touched. *)
Theorem ensureIndex_builds_index (c : Collection) (property : string) (force : bool) :
  property ∉ Object_prototype_keys ->
  (forall bi, binaryIndices c !! property = Some bi -> bi_dirty bi = false ->
     binary_index_ok (data c) property bi) ->
  force = true \/ adaptiveBinaryIndices c = false
  \/ binaryIndices c !! property = None ->
  (exists bi, binaryIndices (ensureIndex c property force) !! property = Some bi
     /\ bi_dirty bi = false
     /\ binary_index_ok (data (ensureIndex c property force)) property bi)
  /\ data (ensureIndex c property force) = data c
  /\ idIndex (ensureIndex c property force) = idIndex c
  /\ constraints_unique (ensureIndex c property force) = constraints_unique c
  /\ (forall p, p <> property ->
        binaryIndices (ensureIndex c property force) !! p = binaryIndices c !! p).
Proof.
  intros Hown Hclean Hwhen.
  destruct (ensureIndex_valid c property force (fun _ => Hown) Hclean Hwhen)
    as (Hdata & Hothers & bi & Hbi & Hdirty & Hok).
  split; [exists bi; by rewrite Hdata|]. split; [done|].
  split; [|split; [|done]]; unfold ensureIndex; cbv zeta;
    destruct (match binaryIndices c !! property with Some _ => _ | None => _ end);
    try done; by destruct (_ && _ && _).
Qed.

(** ** [find] served from a binary index *)

Lemma scan_rows_filter (test : Z -> completion bool) (p : Z -> bool) (rows : list Z) :
  (forall r, r ∈ rows -> test r = Return (p r)) ->
  scan_rows test rows false = Return (filter (fun r => p r = true) rows).
Proof.
  induction rows as [|r rows IH]; intros Htest; [done|]. simpl.
  rewrite (Htest r) by left. rewrite IH by (intros; apply Htest; by right).
  destruct (p r) eqn:Hp.
  - by rewrite filter_cons_True.
  - rewrite filter_cons_False; [done|]. by rewrite Hp.
Qed.

Lemma scan_rows_all (rows : list Z) :
  scan_rows (fun _ => Return true) rows false = Return rows.
Proof. induction rows as [|r rows IH]; [done|]. simpl. by rewrite IH. Qed.

Lemma key_at_field_at (c : Collection) (prop : string) (r : Z) :
  has_dot prop = false -> key_at (data c) prop r = field_at c prop r.
Proof.
  intros Hdot. unfold key_at, field_at, getIn. rewrite Hdot.
  by destruct (nthZ (data c) r).
Qed.

Lemma lengthZ_Permutation {A : Type} (l k : list A) :
  l ≡ₚ k -> lengthZ l = lengthZ k.
Proof. intros H. unfold lengthZ. by rewrite H. Qed.

Lemma lengthZ_seqZ (n : Z) : 0 <= n -> lengthZ (seqZ 0 n) = n.
Proof. intros H. unfold lengthZ. rewrite length_seqZ. lia. Qed.

(** The rows an index hands out for a segment of its positions. *)
Lemma index_rows_spec (index : list Z) (lo hi : Z) :
  NoDup index -> (lo <= hi -> 0 <= lo /\ hi < lengthZ index) ->
  let rows := (fun i => default (-1) (nthZ index i)) <$> seqZ lo (hi - lo + 1) in
  NoDup rows
  /\ forall r, r ∈ rows <-> exists i, lo <= i <= hi /\ nthZ index i = Some r.
Proof.
  intros Hnd Hin rows. split.
  - apply NoDup_fmap_2_strong; [|apply NoDup_seqZ].
    intros i j Hi Hj Heq. apply elem_of_seqZ in Hi, Hj.
    destruct (nthZ_is_Some index i ltac:(lia)) as [x Hx].
    destruct (nthZ_is_Some index j ltac:(lia)) as [y Hy].
    rewrite Hx, Hy in Heq. simpl in Heq. subst y.
    rewrite nthZ_lookup in Hx, Hy by lia.
    pose proof (NoDup_lookup _ _ _ _ Hnd Hx Hy). lia.
  - intros r. unfold rows. rewrite list_elem_of_fmap. split.
    + intros (i & -> & Hi). apply elem_of_seqZ in Hi.
      destruct (nthZ_is_Some index i ltac:(lia)) as [x Hx].
      exists i. rewrite Hx. split; [lia|done].
    + intros (i & Hi & Hr). exists i. rewrite Hr. split; [done|].
      apply elem_of_seqZ. lia.
Qed.

Lemma String_eqb_false (s1 s2 : string) : s1 <> s2 -> String.eqb s1 s2 = false.
Proof. intros H. by apply String.eqb_neq. Qed.

(** Without an index on [prop], [find] keeps, in order, the rows that pass
    the test of the operator. *)
Lemma find_scan (c : Collection) (prop : string) (op : operation) :
  has_dot prop = false -> prop <> "" -> 0 < lengthZ (data c) ->
  binaryIndices c !! prop = None ->
  (forall vals, op <> O_in vals) ->
  found_rows (Resultset_find (QProp prop (COp op)) false (chain c))
  = Return (filter (fun r => LokiOps op (field_at c prop r) = true)
                   (seqZ 0 (lengthZ (data c)))).
Proof.
  intros Hdot Hname Hdata Hnone Hin. simpl.
  destruct (Z.eqb_spec (lengthZ (data c)) 0) as [|_]; [lia|].
  rewrite (String_eqb_false _ _ Hname).
  unfold find_property. cbv zeta. simpl. rewrite Hdot, Hnone. simpl.
  assert (match op with O_in vals => O_inSet vals | _ => op end = op) as ->
    by (destruct op; try done; by destruct (Hin vals)).
  rewrite (scan_rows_filter _ (fun r => LokiOps op (field_at c prop r))); [done|].
  intros r Hr. apply elem_of_seqZ in Hr. unfold field_at.
  by destruct (nthZ_is_Some (data c) r ltac:(lia)) as [d ->].
Qed.

(** With a valid index on [prop], [find] keeps the rows that pass the test. *)
Lemma find_indexed (c : Collection) (prop : string) (op : operation)
    (bi : BinaryIndex) :
  has_dot prop = false -> prop <> "" -> 0 < lengthZ (data c) ->
  comparator_operator op = true ->
  binaryIndices c !! prop = Some bi ->
  (adaptiveBinaryIndices c = true \/ bi_dirty bi = false ->
   binary_index_ok (data c) prop bi) ->
  exists rows,
    found_rows (Resultset_find (QProp prop (COp op)) false (chain c)) = Return rows
    /\ NoDup rows
    /\ forall r, r ∈ rows <->
         0 <= r < lengthZ (data c) /\ LokiOps op (field_at c prop r) = true.
Proof.
  intros Hdot Hname Hdata Hop Hbi Hvalid. simpl.
  destruct (Z.eqb_spec (lengthZ (data c)) 0) as [|_]; [lia|].
  rewrite (String_eqb_false _ _ Hname).
  unfold find_property. cbv zeta.
  change (collection (chain c)) with c.
  change (filterInitialized (chain c)) with false. cbn [negb].
  rewrite Hdot, Hbi.
  assert (bool_decide (is_Some (Some bi)) = true) as -> by done.
  assert (match indexedOps op with NotIndexed => false | _ => true end = true) as ->
    by (by destruct op).
  cbn [andb].
  set (c2 := if negb (adaptiveBinaryIndices c) then ensureIndex c prop false else c).
  assert (exists bi2, binaryIndices c2 !! prop = Some bi2
            /\ binary_index_ok (data c) prop bi2 /\ data c2 = data c)
    as (bi2 & Hbi2 & [Hperm Hsorted] & Hdata2).
  { subst c2. destruct (adaptiveBinaryIndices c) eqn:Had; simpl.
    - exists bi. split; [done|]. split; [|done]. apply Hvalid. by left.
    - destruct (ensureIndex_valid c prop false) as (Hd & _ & bi2 & H1 & _ & H2).
      + by rewrite Hbi.
      + intros bi0 Hbi0 Hclean. rewrite Hbi in Hbi0. injection Hbi0 as <-.
        apply Hvalid. by right.
      + right. by left.
      + by exists bi2. }
  rewrite Hbi2, Hdata2. simpl.
  set (index := values bi2) in *.
  assert (lengthZ index = lengthZ (data c)) as Hlen.
  { rewrite (lengthZ_Permutation _ _ Hperm). apply lengthZ_seqZ. lia. }
  assert (NoDup index) as Hnd by (rewrite Hperm; apply NoDup_seqZ).
  destruct (calculateRange_segment (data c) index prop op)
    as (lo & hi & -> & Hin & Hseg); [done|lia|done|by destruct op|].
  destruct (index_rows_spec index lo hi Hnd Hin) as [Hnd_rows Hrows].
  set (rows := (fun i => default (-1) (nthZ index i)) <$> seqZ lo (hi - lo + 1)) in *.
  assert (forall r, r ∈ rows <->
            0 <= r < lengthZ (data c)
            /\ range_test op (field_at c prop r) = true) as Hcand.
  { intros r. rewrite Hrows. split.
    - intros (i & Hi & Hr). pose proof (nthZ_Some_range _ _ _ Hr) as Hri.
      split.
      + assert (r ∈ index) as Hel.
        { rewrite nthZ_lookup in Hr by lia. by eapply list_elem_of_lookup_2. }
        rewrite Hperm in Hel. apply elem_of_seqZ in Hel. lia.
      + rewrite <- (key_at_field_at c prop r Hdot).
        rewrite <- (indexed_value_key_at (data c) index prop i r Hr).
        apply Hseg; [lia|done].
    - intros [Hr Htest].
      assert (r ∈ index) as Hel by (rewrite Hperm; apply elem_of_seqZ; lia).
      apply list_elem_of_lookup in Hel as [k Hk].
      assert (nthZ index (Z.of_nat k) = Some r) as Hk'
        by (rewrite nthZ_lookup by lia; by rewrite Nat2Z.id).
      pose proof (nthZ_Some_range _ _ _ Hk') as Hrange.
      exists (Z.of_nat k). split; [|done]. apply Hseg; [done|].
      rewrite (indexed_value_key_at (data c) index prop _ r Hk').
      by rewrite (key_at_field_at c prop r Hdot). }
  destruct op as [val| | |val|val|val|val|val| | | | | | | | | | ]; try done; simpl.
  - rewrite (scan_rows_filter _ (fun r => strict_eq (field_at c prop r) val)).
    + eexists. split; [reflexivity|]. cbn [filteredrows].
      split; [by apply NoDup_filter|].
      intros r. rewrite list_elem_of_filter, Hcand. simpl. split.
      * intros (Heq & Hr & _). done.
      * intros (Hr & Heq). split; [done|]. split; [done|].
        unfold aeqHelper. by rewrite Heq.
    + intros r _. rewrite <- (key_at_field_at c prop r Hdot).
      unfold key_at. by rewrite Hdot.
  - rewrite scan_rows_all. by exists rows.
  - rewrite scan_rows_all. by exists rows.
  - rewrite scan_rows_all. by exists rows.
  - rewrite scan_rows_all. by exists rows.
  - rewrite scan_rows_all. by exists rows.
Qed.


(** ** [insert] and [remove] keep the collection well formed *)

Lemma ensureUniqueIndex_maxId (c : Collection) (fld : string) :
  maxId (ensureUniqueIndex c fld).2 = maxId c.
Proof.
  unfold ensureUniqueIndex.
  destruct (UniqueIndex_set_all _ _) as [[]]; simpl;
    destruct (constraints_unique c !! fld); try done;
    by repeat case_bool_decide.
Qed.

Lemma add_unique_maxId (names : list string) (c : Collection)
    (obj : gmap string value) :
  maxId (add_unique c names obj).2 = maxId c.
Proof.
  revert c. induction names as [|name names IH]; intros c; simpl; [done|].
  assert (maxId (getUniqueIndex c name true).2 = maxId c) as Hget.
  { unfold getUniqueIndex. destruct (constraints_unique c !! name); [done|].
    pose proof (ensureUniqueIndex_maxId c name) as H.
    by destruct (ensureUniqueIndex c name) as [[] ?]. }
  destruct (getUniqueIndex c name true) as [[[index|]|e] c1]; simpl in *; try done.
  destruct (UniqueIndex_set index obj) as [index'|e]; simpl; [|done].
  by rewrite IH.
Qed.

(** What a successful [add] leaves in [data], [idIndex] and [maxId], whether
    the binary indices are adaptive or not. *)
Lemma add_try_fields (c c' : Collection) (obj0 d : gmap string value) (q : Qc) :
  ToNumber (maxId c) = Finite q ->
  add_try c obj0 = (Return d, c') ->
  let newId := VNum (num_succ (Finite q)) in
  let obj := <["$loki" := newId]> obj0 in
  (exists ca cb, constraints_unique ca = constraints_unique c
     /\ uniqueNames ca = uniqueNames c
     /\ add_unique ca (uniqueNames c) obj = (Return (), cb)
     /\ constraints_unique c' = constraints_unique cb
     /\ uniqueNames c' = uniqueNames cb)
  /\ data c' = data c ++ [obj]
  /\ idIndex c' = (fun ids => ids ++ [newId]) <$> idIndex c
  /\ maxId c' = newId
  /\ adaptiveBinaryIndices c' = adaptiveBinaryIndices c
  /\ cloneObjects c' = cloneObjects c
  /\ d = (if cloneObjects c then clone obj ParseStringify else obj).
Proof.
  intros Hq. unfold add_try. cbv zeta.
  destruct (startTransaction_fields c)
    as (Hd1 & Hi1 & Hb1 & Hc1 & Hn1 & Ha1 & Hcl1 & Hm1).
  set (c1 := set_maxId _ (startTransaction c)).
  assert (maxId c1 = VNum (num_succ (Finite q))) as Hmax.
  { subst c1. simpl. by rewrite Hm1, Hq. }
  assert (uniqueNames c1 = uniqueNames c) as Hn1' by done.
  rewrite Hmax. simpl ToNumber. rewrite num_succ_not_NaN. cbv beta iota.
  rewrite ?Hmax, Hn1'.
  destruct (add_unique_spec (uniqueNames c) c1 (<["$loki" := VNum (num_succ (Finite q))]> obj0))
    as [(Hd3 & Hi3 & Hb3 & Ha3 & _ & Hcl3 & _) _].
  pose proof (add_unique_maxId (uniqueNames c) c1
                (<["$loki" := VNum (num_succ (Finite q))]> obj0)) as Hm3.
  destruct (add_unique c1 (uniqueNames c) _) as [[[]|e] c3] eqn:Hadd; [|done].
  simpl in Hd3, Hi3, Hb3, Ha3, Hcl3, Hm3.
  intros [= <- <-]. unfold commit, flagBinaryIndexesDirty.
  match goal with
  | |- context [if ?b then set_binaryIndices _ _ else _] => generalize b
  end.
  intros b. split.
  { exists c1, c3. split; [done|]. split; [done|]. split; [done|].
    by destruct b, (transactional _). }
  destruct b; destruct (transactional _);
    cbn -[adaptiveBinaryIndexInsert];
    rewrite ?Hd3, ?Hi3, ?Ha3, ?Hcl3, ?Hm3, ?Hmax; cbn -[adaptiveBinaryIndexInsert];
    rewrite ?Hd1, ?Hi1, ?Ha1, ?Hcl1; done.
Qed.

Lemma Qc_lt_succ (q : Qc) : (q ?= q + 1)%Qc = Lt.
Proof.
  apply Qclt_alt, Qclt_minus_iff.
  replace (q + 1 + - q)%Qc with (1%Qc) by ring. reflexivity.
Qed.

Lemma num_lt_succ (x : number) (q : Qc) :
  num_lt x (Finite q) = true -> num_lt x (Finite (q + 1)%Qc) = true.
Proof.
  intros H. apply (num_lt_trans _ _ _ H). unfold num_lt. simpl.
  by rewrite Qc_lt_succ.
Qed.

Lemma num_lt_not_NaN (x y : number) : num_lt x y = true -> isNaN x = false.
Proof. by destruct x. Qed.

(** What a successful [insert] of one document leaves behind. *)
Lemma insert_shape (c c1 : Collection) (doc d : gmap string value) (q : Qc) :
  ToNumber (maxId c) = Finite q ->
  Collection_insert c (ArgDoc doc) = (Return d, c1) ->
  let y := num_succ (Finite q) in
  let obj := <["$loki" := VNum y]>
               (if cloneObjects c then clone doc ParseStringify else doc) in
  add_try c (if cloneObjects c then clone doc ParseStringify else doc)
  = (Return d, c1)
  /\ data c1 = data c ++ [obj]
  /\ loki_ids c1 = loki_ids c ++ [VNum y]
  /\ idIndex c1 = (fun ids => ids ++ [VNum y]) <$> idIndex c
  /\ maxId c1 = VNum y
  /\ adaptiveBinaryIndices c1 = adaptiveBinaryIndices c
  /\ cloneObjects c1 = cloneObjects c
  /\ d = (if cloneObjects c then clone obj ParseStringify else obj)
  /\ get_prop d "$loki" = (if cloneObjects c then json_value (VNum y) else VNum y).
Proof.
  intros Hq Hins y obj.
  unfold Collection_insert, insertOne, Collection_add in Hins.
  set (obj0 := if cloneObjects c then clone doc ParseStringify else doc) in *.
  destruct (negb _); [done|].
  destruct (add_try c obj0) as [[r|e] cx] eqn:Hadd; [|done].
  injection Hins as -> ->.
  destruct (add_try_fields c c1 obj0 d q Hq Hadd)
    as (_ & Hdata & Hids & Hmax & Had & Hcl & Hd).
  fold y in Hdata, Hids, Hmax, Hd. fold obj in Hdata, Hd.
  assert (get_prop obj "$loki" = VNum y) as Hloki by apply get_prop_insert.
  repeat split; try done.
  - unfold loki_ids. by rewrite Hdata, fmap_app, <- Hloki.
  - rewrite Hd. destruct (cloneObjects c); [|done].
    by rewrite get_prop_clone, Hloki.
Qed.

(** The [$loki] index of a collection that has taken one more document. *)
Lemma insert_ids (c c1 : Collection) (y : number) :
  idIndex_parallel c ->
  loki_ids c1 = loki_ids c ++ [VNum y] ->
  idIndex c1 = (fun ids => ids ++ [VNum y]) <$> idIndex c ->
  idIndex_parallel c1.
Proof.
  unfold idIndex_parallel. intros Hpar -> ->.
  destruct (idIndex c) as [ids|]; simpl in *; [by subst|done].
Qed.

(** X4. Insert and look up: on a collection whose [$loki] are ascending
    numbers not above [maxId], a safe integer, a successful [insert(doc)]
    appends one document, whose [$loki] is [maxId + 1]; it returns that
    document (its clone when the collection clones); [get] of the returned
    [$loki] finds the stored document, and [get] of the [$loki] of any
    document stored before still finds that document, at its position. *)
Theorem insert_then_get (c c1 : Collection) (doc d : gmap string value) :
  idIndex_parallel c -> ids_ascending (loki_ids c) -> ids_below_maxId c ->
  safe_integer (ToNumber (maxId c)) ->
  Collection_insert c (ArgDoc doc) = (Return d, c1) ->
  exists stored,
    data c1 = data c ++ [stored]
    /\ d = (if cloneObjects c then clone stored ParseStringify else stored)
    /\ get_prop d "$loki" = VNum (num_succ (ToNumber (maxId c)))
    /\ Collection_count c1 = Collection_count c + 1
    /\ (Collection_get c1 (get_prop d "$loki") true).1
       = Return (GotPair (Some stored) (Collection_count c))
    /\ (forall pos old, nthZ (data c) pos = Some old ->
          (Collection_get c1 (get_prop old "$loki") true).1
          = Return (GotPair (Some old) pos)).
Proof.
  intros Hpar Hasc (q & Hq & Hbelow) Hsafe Hins.
  destruct (insert_shape c c1 doc d q Hq Hins)
    as (_ & Hdata & Hloki1 & Hids & _ & _ & _ & Hd & Hlokid).
  rewrite Hq in Hsafe. rewrite (num_succ_safe q Hsafe) in *.
  assert (get_prop d "$loki" = VNum (Finite (q + 1)%Qc)) as Hlokid'
    by (rewrite Hlokid; by destruct (cloneObjects c)).
  clear Hlokid. rename Hlokid' into Hlokid.
  set (y := Finite (q + 1)%Qc) in *.
  set (obj := <["$loki" := VNum y]> _) in *.
  assert (idIndex_parallel c1) as Hpar1 by (by eapply insert_ids).
  assert (ids_ascending (loki_ids c1)) as Hasc1
    by (rewrite Hloki1; by apply ids_ascending_snoc).
  exists obj. split; [done|]. split; [done|]. split.
  { by rewrite Hlokid, Hq, (num_succ_safe q Hsafe). }
  split.
  { unfold Collection_count. rewrite Hdata, lengthZ_app.
    by change (lengthZ [obj]) with 1. }
  split.
  - rewrite Hlokid.
    apply (Collection_get_found c1 (VNum y) true (lengthZ (data c)) obj);
      try done.
    + rewrite Hdata. apply nthZ_snoc.
    + unfold obj. rewrite get_prop_insert. simpl. by apply num_eq_refl.
  - intros pos old Hold.
    assert (get_prop old "$loki" ∈ loki_ids c) as Hin.
    { unfold loki_ids. apply list_elem_of_fmap. exists old. split; [done|].
      rewrite nthZ_lookup in Hold by (apply nthZ_Some_range in Hold; lia).
      by eapply list_elem_of_lookup_2. }
    destruct (Hbelow _ Hin) as (x & Hx & Hlt).
    pose proof (num_lt_not_NaN _ _ Hlt) as Hnan.
    rewrite Hx.
    apply (Collection_get_found c1 (VNum x) true pos old); try done.
    + rewrite Hdata. rewrite nthZ_app_l; [done|].
      apply nthZ_Some_range in Hold. lia.
    + rewrite Hx. simpl. by apply num_eq_refl.
Qed.

Lemma add_unique_fields_ok (names : list string) (c c' : Collection)
    (obj : gmap string value) :
  (forall name, name ∈ names -> name ∈ uniqueNames c) -> fields_ok c ->
  add_unique c names obj = (Return (), c') ->
  fields_ok c' /\ uniqueNames c' = uniqueNames c.
Proof.
  revert c. induction names as [|name names IH]; intros c Hsub Hok; simpl.
  - by intros [= <-].
  - destruct (getUniqueIndex c name true) as [[[index|]|e] c1] eqn:Hget; [|done..].
    destruct (getUniqueIndex_force_index c c1 name index Hget)
      as (Hok1 & Hidx & Hn1); [apply Hsub; left|done|].
    destruct (UniqueIndex_set index obj) as [index'|e] eqn:Hset; [|done].
    intros Hadd.
    destruct (IH (set_constraints_unique (fun u => <[name := index']> u) c1))
      as [Hok' Hn']; [| |done|].
    + intros name' Hin. simpl. rewrite Hn1. apply Hsub. by right.
    + apply fields_ok_insert; [done|].
      rewrite (UniqueIndex_set_field _ _ _ Hset). by apply Hok1.
    + split; [done|]. by rewrite Hn'.
Qed.

(** X5. [insert] keeps a collection with adaptive indices well formed, as
    long as [maxId] stays a safe integer: after a successful [insert(doc)],
    [idIndex] (when built) is again the list of the [$loki] of [data], these
    are ascending numbers not above the new [maxId], every binary index is
    again a sorted permutation of the positions of [data], and each unique
    index is still filed under the field it indexes. *)
Theorem insert_keeps_invariants (c c1 : Collection) (doc d : gmap string value) :
  adaptiveBinaryIndices c = true ->
  idIndex_parallel c -> ids_ascending (loki_ids c) -> ids_below_maxId c ->
  safe_integer (ToNumber (maxId c)) -> safe_integer (ToNumber (maxId c1)) ->
  indices_ok c -> unique_ok c ->
  Collection_insert c (ArgDoc doc) = (Return d, c1) ->
  adaptiveBinaryIndices c1 = true
  /\ idIndex_parallel c1 /\ ids_ascending (loki_ids c1) /\ ids_below_maxId c1
  /\ indices_ok c1 /\ unique_ok c1
  /\ uniqueNames c1 = uniqueNames c
  /\ (forall name, is_Some (binaryIndices c1 !! name)
                   <-> is_Some (binaryIndices c !! name)).
Proof.
  intros Had Hpar Hasc (q & Hq & Hbelow) Hsafe Hsafe1 Hidx [Hnd Hfields] Hins.
  destruct (insert_shape c c1 doc d q Hq Hins)
    as (Hadd & Hdata & Hloki1 & Hids & Hmax & Had1 & _).
  destruct (add_try_success c c1 _ d q Had Hq Hadd)
    as ((ca & cb & Hcua & Huna & Haddu & Hcu1 & Hun1) & _ & _ & Hbi & _).
  rewrite Hq in Hsafe. rewrite (num_succ_safe q Hsafe) in *.
  set (y := Finite (q + 1)%Qc) in *.
  set (obj := <["$loki" := VNum y]> _) in *.
  destruct (add_unique_fields_ok (uniqueNames c) ca cb obj) as [Hokb Hunb];
    [by rewrite Huna|by intros name u; rewrite Hcua; apply Hfields|done|].
  split; [congruence|].
  split; [by eapply insert_ids|].
  split; [rewrite Hloki1; by apply ids_ascending_snoc|].
  split; [|split; [|split; [|split]]].
  - exists (q + 1)%Qc. split; [by rewrite Hmax|].
    intros v. rewrite Hloki1, elem_of_app, list_elem_of_singleton.
    intros [Hv | ->].
    + destruct (Hbelow v Hv) as (x & -> & Hx). exists x. split; [done|].
      by apply num_lt_succ.
    + exists y. split; [done|]. unfold num_lt, y. simpl. by rewrite Qc_lt_succ.
  - intros name bi'. rewrite Hbi, map_lookup_imap.
    destruct (binaryIndices c !! name) as [bi|] eqn:Hname;
      cbn -[adaptiveBinaryIndexInsert]; [|done].
    intros [= <-]. rewrite Hdata.
    by destruct (adaptiveBinaryIndexInsert_ok (data c) obj name bi (Hidx _ _ Hname))
      as (p & _ & _ & Hok).
  - split.
    + by rewrite Hun1, Hunb, Huna.
    + intros name u. rewrite Hcu1. apply Hokb.
  - by rewrite Hun1, Hunb, Huna.
  - intros name. rewrite Hbi, map_lookup_imap.
    destruct (binaryIndices c !! name); cbn -[adaptiveBinaryIndexInsert];
      split; intros [x Hx]; by eauto.
Qed.

(** *** What [splice(k, 1)] does to the positions *)

Lemma lengthZ_splice_remove {A : Type} (l : list A) (k : Z) (x : A) :
  nthZ l k = Some x -> lengthZ (splice_remove l k) = lengthZ l - 1.
Proof.
  intros Hx. destruct (splice_remove_at l k x Hx) as (l1 & l2 & -> & _ & ->).
  rewrite !lengthZ_app. unfold lengthZ. simpl. lia.
Qed.

(** The element at position [v] is found at [shift_down k v] afterwards. *)
Lemma nthZ_splice_remove {A : Type} (l : list A) (k v : Z) (x : A) :
  nthZ l k = Some x -> v <> k ->
  nthZ (splice_remove l k) (shift_down k v) = nthZ l v.
Proof.
  intros Hx Hne. destruct (splice_remove_at l k x Hx) as (l1 & l2 & -> & Hlen & ->).
  unfold shift_down. destruct (Z.gtb_spec v k) as [Hgt|Hle].
  - rewrite !nthZ_app_r by lia.
    change (x :: l2) with ([x] ++ l2). rewrite nthZ_app_r.
    + f_equal. change (lengthZ [x]) with 1. lia.
    + change (lengthZ [x]) with 1. lia.
  - rewrite !nthZ_app_l by lia. done.
Qed.

Lemma nthZ_splice_remove_up {A : Type} (l : list A) (k i : Z) (x : A) :
  nthZ l k = Some x ->
  nthZ (splice_remove l k) i = nthZ l (shift_up k i).
Proof.
  intros Hx. rewrite <- (nthZ_splice_remove l k (shift_up k i) x Hx).
  - f_equal. unfold shift_down, shift_up.
    destruct (Z.ltb_spec i k); [destruct (Z.gtb_spec i k)|destruct (Z.gtb_spec (i + 1) k)]; lia.
  - unfold shift_up. destruct (Z.ltb_spec i k); lia.
Qed.

Lemma elem_of_splice_remove {A : Type} (l : list A) (k : Z) (x y : A) :
  nthZ l k = Some x -> y ∈ splice_remove l k -> y ∈ l.
Proof.
  intros Hx. destruct (splice_remove_at l k x Hx) as (l1 & l2 & -> & _ & ->).
  rewrite !elem_of_app, elem_of_cons. tauto.
Qed.

Lemma ids_ascending_splice_remove (ids : list value) (k : Z) (x : value) :
  nthZ ids k = Some x -> ids_ascending ids -> ids_ascending (splice_remove ids k).
Proof.
  intros Hx Hasc i j Hi Hij Hj.
  rewrite (lengthZ_splice_remove ids k x Hx) in Hj.
  rewrite !(nthZ_splice_remove_up ids k _ x Hx).
  apply Hasc; unfold shift_up;
    destruct (Z.ltb_spec i k); destruct (Z.ltb_spec j k); lia.
Qed.

(** *** A binary index once a position has left *)

Lemma sorted_filter_fmap {A B : Type} (R : relation A) (R' : relation B)
    (P : A -> Prop) `{forall x, Decision (P x)} (f : A -> B) (l : list A) :
  StronglySorted R l ->
  (forall a b, P a -> P b -> R a b -> R' (f a) (f b)) ->
  StronglySorted R' (f <$> filter P l).
Proof.
  intros Hs Hf. induction Hs as [|a l Hs IH Hall]; [constructor|].
  destruct (decide (P a)) as [Ha|Ha].
  - rewrite filter_cons_True by done. rewrite fmap_cons. constructor; [done|].
    apply Forall_fmap, Forall_forall. intros b Hb.
    apply list_elem_of_filter in Hb as [Hb Hin]. simpl. apply Hf; [done..|].
    rewrite Forall_forall in Hall. by apply Hall.
  - by rewrite filter_cons_False.
Qed.

Lemma shift_down_seqZ (k n : Z) :
  0 <= k < n ->
  shift_down k <$> filter (fun v => v <> k) (seqZ 0 n) = seqZ 0 (n - 1).
Proof.
  intros Hk.
  replace n with (k + (1 + (n - k - 1))) at 1 by lia.
  rewrite seqZ_app by lia. rewrite (seqZ_app (0 + k) 1) by lia.
  rewrite !filter_app, !fmap_app.
  change (seqZ (0 + k) 1) with [0 + k].
  rewrite filter_cons_False by (intros Hne; apply Hne; lia).
  rewrite filter_nil. simpl.
  rewrite !filter_all by (intros x Hx%elem_of_seqZ; lia).
  replace (n - 1) with (k + (n - k - 1)) by lia.
  rewrite (seqZ_app 0 k) by lia. f_equal.
  - rewrite <- (list_fmap_id (seqZ 0 k)) at 2. apply list_fmap_ext.
    intros i x Hx. apply lookup_seqZ in Hx. unfold shift_down. simpl.
    destruct (Z.gtb_spec x k); lia.
  - replace (0 + k) with (-1 + (0 + k + 1)) at 2 by lia.
    rewrite <- (fmap_add_seqZ (-1) (0 + k + 1)).
    apply list_fmap_ext. intros i x Hx. apply lookup_seqZ in Hx.
    unfold shift_down. destruct (Z.gtb_spec x k); lia.
Qed.

(** [index_without] keeps a sorted permutation one. *)
Lemma index_without_ok (rcd : list (gmap string value)) (k : Z)
    (doc : gmap string value) (name : string) (bi : BinaryIndex) :
  nthZ rcd k = Some doc ->
  binary_index_ok rcd name bi ->
  binary_index_ok (splice_remove rcd k) name (index_without k bi).
Proof.
  intros Hk [Hperm Hs]. pose proof (nthZ_Some_range _ _ _ Hk) as Hrange.
  split.
  - unfold index_without. simpl.
    rewrite (lengthZ_splice_remove rcd k doc Hk), Hperm.
    by rewrite shift_down_seqZ.
  - apply index_sorted_iff. apply index_sorted_iff in Hs.
    unfold index_without. simpl.
    apply (sorted_filter_fmap (key_le rcd name)); [done|].
    intros a b Ha Hb Hab. unfold key_le, key_at in *.
    by rewrite !(nthZ_splice_remove rcd k _ doc Hk).
Qed.

(** *** What [remove] leaves of the unique indexes and of [maxId] *)

Lemma Collection_get_keeps (c : Collection) (id : value) (returnPosition : bool) :
  constraints_unique (Collection_get c id returnPosition).2 = constraints_unique c
  /\ uniqueNames (Collection_get c id returnPosition).2 = uniqueNames c
  /\ maxId (Collection_get c id returnPosition).2 = maxId c.
Proof.
  unfold Collection_get, ensureId.
  destruct (idIndex c) as [ids|] eqn:Hidx; rewrite ?Hidx; cbv zeta;
    (destruct (isNaN _); [done|]);
    destruct (get_loop _ _ _ _ _) as [mn mx];
    destruct (_ && _); by destruct returnPosition.
Qed.

Lemma remove_unique_keeps (names : list string) (c : Collection)
    (doc : gmap string value) :
  fields_ok c ->
  fields_ok (remove_unique c names doc).2
  /\ maxId (remove_unique c names doc).2 = maxId c.
Proof.
  revert c. induction names as [|key names IH]; intros c Hok; simpl; [done|].
  destruct (_ && _); [|by apply IH].
  unfold getUniqueIndex.
  destruct (constraints_unique c !! key) as [index|] eqn:Hidx; [|by apply IH].
  unfold UniqueIndex_remove.
  destruct (keyMap index !! _) as [obj|]; simpl; [|done].
  match goal with
  | |- context [remove_unique ?c' names doc] => destruct (IH c') as [H1 H2]
  end.
  { apply fields_ok_insert; [done|]. simpl. by apply Hok. }
  split; [done|]. exact H2.
Qed.

Lemma remove_try_keeps (c c' : Collection) (doc : gmap string value)
    (r : completion removeResult) :
  remove_try c doc = (r, c') -> fields_ok c ->
  fields_ok c' /\ maxId c' = maxId c.
Proof.
  unfold remove_try. cbv zeta. intros Htry Hok.
  destruct (startTransaction_fields c)
    as (_ & _ & _ & Hc1 & Hn1 & _ & _ & Hm1).
  set (c1 := startTransaction c) in *.
  destruct (Collection_get_keeps c1 (get_prop doc "$loki") true)
    as (Hc2 & Hn2 & Hm2).
  destruct (Collection_get c1 (get_prop doc "$loki") true) as [g c2].
  simpl in Hc2, Hn2, Hm2.
  assert (fields_ok c2) as Hok2.
  { intros name u. rewrite Hc2, Hc1. apply Hok. }
  assert (maxId c2 = maxId c) as Hmax2 by congruence.
  destruct g as [[| |d position]|e];
    try (injection Htry as _ <-; done).
  destruct (remove_unique_keeps (uniqueNames c2) c2 doc Hok2) as [Hok3 Hm3].
  destruct (remove_unique c2 (uniqueNames c2) doc) as [[[]|e] c3];
    simpl in Hok3, Hm3; injection Htry as _ <-; [|by rewrite Hm3].
  unfold commit, flagBinaryIndexesDirty.
  match goal with
  | |- context [if ?b then set_binaryIndices _ _ else _] => generalize b
  end.
  intros [|]; destruct (transactional _); simpl; by rewrite Hm3.
Qed.

(** Ascending ids are pairwise different. *)
Lemma ids_ascending_distinct (ids : list value) (i j : Z) (a b : value) :
  ids_ascending ids -> i <> j ->
  nthZ ids i = Some a -> nthZ ids j = Some b ->
  strict_eq a b = false
  /\ exists x y, a = VNum x /\ b = VNum y /\ isNaN x = false /\ isNaN y = false.
Proof.
  intros Hasc Hne Ha Hb.
  pose proof (nthZ_Some_range _ _ _ Ha) as Hi.
  pose proof (nthZ_Some_range _ _ _ Hb) as Hj.
  destruct (Z.lt_trichotomy i j) as [Hlt|[->|Hgt]]; [|done|].
  - destruct (Hasc i j ltac:(lia) Hlt ltac:(lia)) as (x & y & Hx & Hy & Hxy).
    rewrite Ha in Hx. rewrite Hb in Hy. injection Hx as ->. injection Hy as ->.
    split.
    + simpl. unfold num_lt, num_eq in *. by destruct (num_compare x y) as [[]|].
    + exists x, y. repeat split; try done; by destruct x, y.
  - destruct (Hasc j i ltac:(lia) Hgt ltac:(lia)) as (y & x & Hy & Hx & Hxy).
    rewrite Ha in Hx. rewrite Hb in Hy. injection Hx as ->. injection Hy as ->.
    split.
    + simpl. unfold num_lt, num_eq in *.
      destruct x, y; simpl in *; try done.
      destruct (q0 ?= q)%Qc eqn:E; try done.
      apply Qclt_alt in E. destruct (q ?= q0)%Qc eqn:E'; try done.
      apply Qceq_alt in E'. subst. by apply Qclt_not_eq in E.
    + exists x, y. repeat split; try done; by destruct x, y.
Qed.

(** [get] returns [null] for an id no document carries. *)
Lemma Collection_get_missing (c : Collection) (id : value) (returnPosition : bool) :
  idIndex_parallel c -> ids_ascending (loki_ids c) ->
  isNaN (coerce_id id) = false ->
  (forall pos d, nthZ (data c) pos = Some d ->
     strict_eq (get_prop d "$loki") (VNum (coerce_id id)) = false) ->
  (Collection_get c id returnPosition).1 = Return GotNull.
Proof.
  intros Hpar Hasc Hnan Hnone.
  rewrite (Collection_get_unfold c id returnPosition Hpar). cbv zeta.
  rewrite Hnan.
  destruct (Z.lt_ge_cases 0 (lengthZ (loki_ids c))) as [Hn|Hn].
  - destruct (get_loop_settles _ (coerce_id id) Hasc Hn) as (r & -> & Hr).
    rewrite Z.eqb_refl. simpl.
    destruct (nthZ_is_Some (data c) r) as [d Hd].
    { unfold loki_ids in Hr. by rewrite lengthZ_fmap in Hr. }
    unfold val_at, loki_ids. rewrite nthZ_fmap, Hd. simpl.
    by rewrite (Hnone r d Hd).
  - assert (loki_ids c = []) as ->.
    { destruct (loki_ids c); [done|]. unfold lengthZ in Hn. simpl in Hn. lia. }
    done.
Qed.

(** What [remove(doc)] leaves behind, with the unique indexes and [maxId]. *)
Lemma Collection_remove_state (c : Collection) (k : Z) (doc : gmap string value)
    (id : number) :
  adaptiveBinaryIndices c = true ->
  idIndex_parallel c -> ids_ascending (loki_ids c) -> indices_ok c ->
  fields_ok c ->
  nthZ (data c) k = Some doc ->
  get_prop doc "$loki" = VNum id -> isNaN id = false ->
  (remove_unique c (uniqueNames c) doc).1 = Return () ->
  exists c',
    Collection_remove c (ArgDoc doc)
    = (Return (RemovedDoc (delete "meta" (delete "$loki" doc))), c')
    /\ data c' = splice_remove (data c) k
    /\ loki_ids c' = splice_remove (loki_ids c) k
    /\ idIndex c' = Some (loki_ids c')
    /\ binaryIndices c' = index_without k <$> binaryIndices c
    /\ adaptiveBinaryIndices c' = true
    /\ uniqueNames c' = uniqueNames c
    /\ fields_ok c' /\ maxId c' = maxId c.
Proof.
  intros Had Hpar Hasc Hidx Hfields Hk Hloki Hnan Huniq.
  destruct (Collection_remove_doc c k doc id)
    as (c' & Hrm & Hdata & Hids & Hbi & Had' & Hun & _); [done..|].
  exists c'. split; [done|]. split; [done|].
  split; [unfold loki_ids; by rewrite Hdata, splice_remove_fmap|].
  split; [done|]. split; [done|]. split; [done|]. split; [done|].
  unfold Collection_remove in Hrm.
  assert (doc !! "$loki" <> None) as Hown.
  { intros Hnone. unfold get_prop in Hloki. by rewrite Hnone in Hloki. }
  rewrite bool_decide_eq_false_2 in Hrm by done.
  destruct (remove_try c doc) as [[r|e] cx] eqn:Htry; [|done].
  injection Hrm as _ ->. by eapply remove_try_keeps.
Qed.

(** X6. [remove] keeps a collection with adaptive indices well formed: after
    removing a stored document, [idIndex] is the list of the [$loki] of
    [data], these are still ascending and not above [maxId], which has not
    moved (an id is never handed out twice), and every binary index is again
    a sorted permutation of the positions of [data]. *)
Theorem remove_keeps_invariants (c : Collection) (k : Z)
    (doc : gmap string value) (id : number) :
  adaptiveBinaryIndices c = true ->
  idIndex_parallel c -> ids_ascending (loki_ids c) -> ids_below_maxId c ->
  indices_ok c -> unique_ok c ->
  nthZ (data c) k = Some doc ->
  get_prop doc "$loki" = VNum id -> isNaN id = false ->
  (remove_unique c (uniqueNames c) doc).1 = Return () ->
  exists r c',
    Collection_remove c (ArgDoc doc) = (Return r, c')
    /\ adaptiveBinaryIndices c' = true
    /\ idIndex_parallel c' /\ ids_ascending (loki_ids c') /\ ids_below_maxId c'
    /\ indices_ok c' /\ unique_ok c'
    /\ maxId c' = maxId c
    /\ Collection_count c' = Collection_count c - 1.
Proof.
  intros Had Hpar Hasc (q & Hq & Hbelow) Hidx [Hnd Hfields] Hk Hloki Hnan Huniq.
  destruct (Collection_remove_state c k doc id)
    as (c' & Hrm & Hdata & Hids & Hi & Hbi & Had' & Hun & Hf' & Hmax); [done..|].
  assert (nthZ (loki_ids c) k = Some (VNum id)) as Hkid.
  { unfold loki_ids. by rewrite nthZ_fmap, Hk, <- Hloki. }
  exists (RemovedDoc (delete "meta" (delete "$loki" doc))), c'.
  split; [done|]. split; [done|].
  split; [unfold idIndex_parallel; by rewrite Hi|].
  split; [rewrite Hids; by eapply ids_ascending_splice_remove|].
  split; [|split; [|split; [|split]]].
  - exists q. split; [by rewrite Hmax|]. intros v Hv. apply Hbelow.
    rewrite Hids in Hv. by eapply elem_of_splice_remove.
  - intros name bi'. rewrite Hbi, lookup_fmap.
    destruct (binaryIndices c !! name) as [bi|] eqn:Hname; [|done].
    intros [= <-]. rewrite Hdata. apply (index_without_ok _ _ doc); [done|].
    by apply Hidx.
  - split; [by rewrite Hun|done].
  - done.
  - unfold Collection_count. rewrite Hdata.
    by apply (lengthZ_splice_remove _ _ doc).
Qed.

(** X7. Remove and look up: once a stored document has been removed, [get]
    of its [$loki] returns [null], and [get] of the [$loki] of any other
    stored document still finds that document, one position down when it was
    stored after the removed one. *)
Theorem remove_then_get (c : Collection) (k : Z)
    (doc : gmap string value) (id : number) :
  adaptiveBinaryIndices c = true ->
  idIndex_parallel c -> ids_ascending (loki_ids c) -> indices_ok c ->
  nthZ (data c) k = Some doc ->
  get_prop doc "$loki" = VNum id -> isNaN id = false ->
  (remove_unique c (uniqueNames c) doc).1 = Return () ->
  exists r c',
    Collection_remove c (ArgDoc doc) = (Return r, c')
    /\ (Collection_get c' (VNum id) true).1 = Return GotNull
    /\ (forall pos other, pos <> k -> nthZ (data c) pos = Some other ->
          (Collection_get c' (get_prop other "$loki") true).1
          = Return (GotPair (Some other) (if pos >? k then pos - 1 else pos))).
Proof.
  intros Had Hpar Hasc Hidx Hk Hloki Hnan Huniq.
  destruct (Collection_remove_doc c k doc id)
    as (c' & Hrm & Hdata & Hi & _); [done..|].
  assert (loki_ids c' = splice_remove (loki_ids c) k) as Hids
    by (unfold loki_ids; by rewrite Hdata, splice_remove_fmap).
  assert (nthZ (loki_ids c) k = Some (VNum id)) as Hkid.
  { unfold loki_ids. by rewrite nthZ_fmap, Hk, <- Hloki. }
  assert (idIndex_parallel c') as Hpar'
    by (unfold idIndex_parallel; by rewrite Hi).
  assert (ids_ascending (loki_ids c')) as Hasc'
    by (rewrite Hids; by eapply ids_ascending_splice_remove).
  exists (RemovedDoc (delete "meta" (delete "$loki" doc))), c'.
  split; [done|]. split.
  - apply Collection_get_missing; try done.
    intros pos d Hd. rewrite Hdata in Hd.
    rewrite (nthZ_splice_remove_up _ _ _ doc Hk) in Hd.
    assert (shift_up k pos <> k) as Hne
      by (unfold shift_up; destruct (Z.ltb_spec pos k); lia).
    destruct (ids_ascending_distinct (loki_ids c) (shift_up k pos) k
                (get_prop d "$loki") (VNum id) Hasc Hne) as [Hdiff _];
      [|done|done].
    unfold loki_ids. by rewrite nthZ_fmap, Hd.
  - intros pos other Hne Hother.
    destruct (ids_ascending_distinct (loki_ids c) pos k
                (get_prop other "$loki") (VNum id) Hasc Hne)
      as [_ (x & y & Hx & _ & Hxnan & _)]; [|done|].
    { unfold loki_ids. by rewrite nthZ_fmap, Hother. }
    rewrite Hx.
    apply (Collection_get_found c' (VNum x) true (shift_down k pos) other);
      try done.
    + rewrite Hdata. by rewrite (nthZ_splice_remove _ k pos doc Hk Hne).
    + rewrite Hx. simpl. by apply num_eq_refl.
Qed.

(** ** Unique indexes *)

(** X8. A unique index files a document under its key read as a string:
    once [set(obj)] has succeeded on a key that is neither [null] nor
    [undefined], [get] returns [obj] for every key with the same string (so
    [1] and ['1'] are one key), the other keys are as before, [set] throws
    'Duplicate key' on any document with that key, and [remove(key)] gives
    the key map back as it was. *)
Theorem UniqueIndex_set_get_remove (u u' : UniqueIndex) (obj : gmap string value) :
  UniqueIndex_set u obj = Return u' ->
  has_key (get_prop obj (field u)) = true ->
  let key := get_prop obj (field u) in
  (forall key', ToString key' = ToString key -> UniqueIndex_get u' key' = Some obj)
  /\ (forall key', ToString key' <> ToString key ->
        UniqueIndex_get u' key' = UniqueIndex_get u key')
  /\ (forall other, has_key (get_prop other (field u)) = true ->
        ToString (get_prop other (field u)) = ToString key ->
        exists e, UniqueIndex_set u' other = Throw e /\ DuplicateKey e)
  /\ exists u'', UniqueIndex_remove u' key = Return u''
       /\ UniqueIndex_get u'' key = None
       /\ keyMap u'' = keyMap u /\ field u'' = field u.
Proof.
  intros Hset Hkey key. unfold UniqueIndex_set in Hset. fold key in Hset, Hkey.
  unfold has_key in Hkey. rewrite Hkey in Hset.
  destruct (keyMap u !! ToString key) as [existing|] eqn:Hfree; [done|].
  injection Hset as <-. unfold UniqueIndex_get, UniqueIndex_remove. simpl.
  split; [|split; [|split]].
  - intros key' ->. apply lookup_insert_eq.
  - intros key' Hne. by rewrite lookup_insert_ne.
  - intros other Hother Hsame. unfold UniqueIndex_set. simpl.
    unfold has_key in Hother. rewrite Hother, Hsame, lookup_insert_eq.
    eexists. split; [done|]. by eexists _, _.
  - rewrite lookup_insert_eq. eexists. split; [done|]. simpl.
    split; [apply lookup_delete_eq|]. split; [|done].
    by apply delete_insert_id.
Qed.

Lemma json_value_idem (v : value) : json_value (json_value v) = json_value v.
Proof. by destruct v as [| | |[]|]. Qed.

Lemma UniqueIndex_set_lookup (u u' : UniqueIndex) (obj : gmap string value) :
  UniqueIndex_set u obj = Return u' ->
  has_key (get_prop obj (field u)) = true ->
  keyMap u' !! ToString (get_prop obj (field u)) = Some obj.
Proof.
  unfold UniqueIndex_set, has_key. intros Hset Hkey. rewrite Hkey in Hset.
  destruct (keyMap u !! _); [done|]. injection Hset as <-. simpl.
  apply lookup_insert_eq.
Qed.

(** After a successful [add], every unique index maps the key of the
    document to the document. *)
Lemma add_unique_holds_doc (names : list string) (c c' : Collection)
    (obj : gmap string value) :
  NoDup names -> (forall name, name ∈ names -> name ∈ uniqueNames c) ->
  fields_ok c ->
  add_unique c names obj = (Return (), c') ->
  forall name, name ∈ names -> has_key (get_prop obj name) = true ->
    exists u, constraints_unique c' !! name = Some u
              /\ keyMap u !! ToString (get_prop obj name) = Some obj.
Proof.
  revert c. induction names as [|name' names IH]; intros c Hnd Hsub Hok; simpl.
  - intros _ name Hin. by apply elem_of_nil in Hin.
  - apply NoDup_cons in Hnd as [Hnot Hnd].
    destruct (getUniqueIndex c name' true) as [[[index|]|e] c1] eqn:Hget;
      [|done..].
    destruct (getUniqueIndex_force_index c c1 name' index Hget) as (Hok1 & Hidx & Hn1);
      [apply Hsub; left|done|].
    pose proof (Hok1 _ _ Hidx) as Hfield.
    destruct (UniqueIndex_set index obj) as [index'|e] eqn:Hset; [|done].
    intros Hadd.
    pose proof (UniqueIndex_set_field _ _ _ Hset) as Hfield'.
    intros name Hin Hkey. apply elem_of_cons in Hin as [->|Hin].
    + exists index'. split.
      * pose proof (add_unique_keeps names
                      (set_constraints_unique (fun u => <[name' := index']> u) c1)
                      obj name' Hnot) as Hkeep.
        rewrite Hadd in Hkeep. simpl in Hkeep. by rewrite Hkeep, lookup_insert_eq.
      * rewrite <- Hfield. apply (UniqueIndex_set_lookup index); [done|].
        by rewrite Hfield.
    + apply (IH (set_constraints_unique (fun u => <[name' := index']> u) c1));
        try done.
      * intros name0 Hin0. simpl. rewrite Hn1. apply Hsub. by right.
      * apply fields_ok_insert; [done|congruence].
Qed.

(** X9. Insert and look up by a unique field: on a collection with a unique
    constraint on [name], once [insert(doc)] has returned [d], whose value
    for [name] is neither [null] nor [undefined], [by(name, d[name])] returns
    [d], and leaves the collection as it is. *)
Theorem insert_then_by (c c1 : Collection) (doc d : gmap string value)
    (name : string) (q : Qc) :
  unique_ok c -> ToNumber (maxId c) = Finite q ->
  name ∈ uniqueNames c ->
  Collection_insert c (ArgDoc doc) = (Return d, c1) ->
  has_key (get_prop d name) = true ->
  Collection_by c1 name (get_prop d name) = (Return (ByDoc d), c1).
Proof.
  intros [Hnd Hfields] Hq Hname Hins Hkey.
  destruct (insert_shape c c1 doc d q Hq Hins)
    as (Hadd & _ & _ & _ & _ & _ & Hcl & Hd & _).
  destruct (add_try_fields c c1 _ d q Hq Hadd)
    as ((ca & cb & Hcua & Huna & Haddu & Hcu1 & Hun1) & _).
  set (y := num_succ (Finite q)) in *.
  set (obj := <["$loki" := VNum y]> _) in *.
  assert (get_prop d name = get_prop obj name) as Hsame.
  { rewrite Hd in Hkey |- *. destruct (cloneObjects c) eqn:Hclone; [|done].
    rewrite get_prop_clone in Hkey |- *. unfold obj in Hkey |- *.
    destruct (decide (name = "$loki")) as [->|Hne].
    - rewrite get_prop_insert in Hkey |- *.
      revert Hkey. generalize y. by intros [].
    - rewrite get_prop_insert_ne by done.
      rewrite get_prop_clone. apply json_value_idem. }
  destruct (add_unique_holds_doc (uniqueNames c) ca cb obj) with (name := name)
    as (u & Hu & Hobj);
    [done|by rewrite Huna|by intros n u; rewrite Hcua; apply Hfields|done|done
    |by rewrite <- Hsame|].
  unfold Collection_by.
  assert (strict_eq (get_prop d name) VUndefined = false) as ->.
  { unfold has_key in Hkey. by destruct (strict_eq (get_prop d name) VUndefined);
      rewrite ?andb_false_r in Hkey. }
  unfold getUniqueIndex. rewrite Hcu1, Hu. unfold UniqueIndex_get.
  rewrite Hsame, Hobj, Hcl.
  rewrite Hd. by destruct (cloneObjects c).
Qed.

(** ** Result sets: [limit], [offset], [where] *)

Lemma js_slice_head {A : Type} (l : list A) (n : Z) :
  0 <= n -> js_slice l 0 (Some n) = take (Z.to_nat n) l.
Proof.
  intros Hn. unfold js_slice. cbv zeta.
  assert (0 <= lengthZ l) as Hlen by (unfold lengthZ; lia).
  destruct (Z.ltb_spec 0 0); [lia|]. destruct (Z.ltb_spec n 0); [lia|].
  rewrite (Z.min_l 0) by lia. change (Z.to_nat 0) with 0%nat.
  rewrite drop_0, Z.sub_0_r.
  destruct (Z.le_gt_cases n (lengthZ l)).
  - by rewrite Z.min_l by lia.
  - rewrite Z.min_r by lia. unfold lengthZ. rewrite Nat2Z.id.
    rewrite firstn_all. symmetry. apply take_ge. unfold lengthZ in *. lia.
Qed.

Lemma js_slice_tail {A : Type} (l : list A) (n : Z) :
  0 <= n -> js_slice l n None = drop (Z.to_nat n) l.
Proof.
  intros Hn. unfold js_slice. cbv zeta.
  assert (0 <= lengthZ l) as Hlen by (unfold lengthZ; lia).
  destruct (Z.ltb_spec n 0); [lia|].
  destruct (Z.le_gt_cases n (lengthZ l)).
  - rewrite Z.min_l by lia. apply take_ge. rewrite length_drop.
    unfold lengthZ. lia.
  - rewrite Z.min_r by lia. rewrite Z.sub_diag. simpl.
    unfold lengthZ. rewrite Nat2Z.id. rewrite !drop_ge; [done|unfold lengthZ in *; lia|lia].
Qed.

Lemma js_slice_split {A : Type} (l : list A) (n : Z) :
  js_slice l 0 (Some n) ++ js_slice l n None = l.
Proof.
  unfold js_slice. cbv zeta.
  assert (0 <= lengthZ l) as Hlen by (unfold lengthZ; lia).
  set (k := if n <? 0 then Z.max (lengthZ l + n) 0 else Z.min n (lengthZ l)).
  assert (0 <= k <= lengthZ l) as Hk by (subst k; destruct (Z.ltb_spec n 0); lia).
  destruct (Z.ltb_spec 0 0); [lia|]. rewrite (Z.min_l 0) by lia.
  change (Z.to_nat 0) with 0%nat. rewrite drop_0, Z.sub_0_r.
  rewrite (take_ge (drop (Z.to_nat k) l)).
  - apply take_drop.
  - rewrite length_drop. unfold lengthZ in *. lia.
Qed.

Lemma populate_rows (rs : Resultset) :
  filterInitialized rs = true \/ filteredrows rs = [] ->
  filteredrows (populate rs) = rows_of rs.
Proof.
  intros Hrs. unfold populate, rows_of. destruct Hrs as [Hinit|Hrows].
  - by rewrite Hinit.
  - rewrite Hrows. by destruct (filterInitialized rs).
Qed.


Lemma where_loop_spec (test : Z -> bool) (row : Z -> Z) (j : nat) (result : list Z) :
  where_loop test row j result
  = result ++ reverse (row <$> filter (fun i => test i = true) (seqZ 0 (Z.of_nat j))).
Proof.
  revert result. induction j as [|j IH]; intros result.
  - simpl. by rewrite app_nil_r.
  - cbn [where_loop]. cbv zeta. rewrite IH, seqZ_S, filter_app, fmap_app, reverse_app.
    rewrite Z.add_0_l.
    destruct (test (Z.of_nat j)) eqn:Htest.
    + rewrite filter_cons_True by done. rewrite filter_nil. simpl.
      by rewrite <- app_assoc.
    + rewrite filter_cons_False by (by rewrite Htest). by rewrite filter_nil.
Qed.

Lemma filter_fmap_comm {A B : Type} (f : A -> B) (P : B -> Prop)
    `{forall x, Decision (P x)} (l : list A) :
  filter P (f <$> l) = f <$> filter (fun x => P (f x)) l.
Proof.
  induction l as [|x l IH]; [done|]. rewrite fmap_cons.
  destruct (decide (P (f x))) as [Hx|Hx].
  - rewrite !filter_cons_True by done. by rewrite fmap_cons, IH.
  - by rewrite !filter_cons_False.
Qed.

Lemma rows_by_position (rows : list Z) :
  (fun j => default 0 (nthZ rows j)) <$> seqZ 0 (lengthZ rows) = rows.
Proof.
  apply list_eq. intros i. rewrite list_lookup_fmap.
  destruct (rows !! i) as [r|] eqn:Hr.
  - pose proof (lookup_lt_Some _ _ _ Hr) as Hlt.
    rewrite lookup_seqZ_lt by (unfold lengthZ; lia). simpl.
    rewrite nthZ_lookup by lia. by rewrite Z.add_0_l, Nat2Z.id, Hr.
  - apply lookup_ge_None in Hr.
    by rewrite lookup_seqZ_ge by (unfold lengthZ; lia).
Qed.

(** X11. [where(fun)] keeps the rows whose document [fun] maps to [true],
    and hands them out in reverse order: its loop walks the rows from the
    last to the first.  Applying the same [where] to the result puts them
    back in their order. *)
Theorem where_reverses_rows
    (viewFunction : option (gmap string value) -> value) (rs : Resultset) :
  let kept := filter (fun r => passes viewFunction (collection rs) r = true)
                     (rows_of rs) in
  filteredrows (Resultset_where viewFunction rs) = reverse kept
  /\ filterInitialized (Resultset_where viewFunction rs) = true
  /\ filteredrows (Resultset_where viewFunction (Resultset_where viewFunction rs))
     = kept.
Proof.
  intros kept.
  assert (forall rs',
            filteredrows (Resultset_where viewFunction rs')
            = reverse (filter (fun r => passes viewFunction (collection rs') r = true)
                              (rows_of rs'))
            /\ filterInitialized (Resultset_where viewFunction rs') = true
            /\ collection (Resultset_where viewFunction rs') = collection rs')
    as Hwhere.
  { intros rs'. unfold Resultset_where, rows_of. cbv zeta.
    destruct (filterInitialized rs') eqn:Hinit; simpl; rewrite where_loop_spec; simpl.
    - split; [|done]. f_equal.
      transitivity
        (filter (fun r => passes viewFunction (collection rs') r = true)
           ((fun j => default 0 (nthZ (filteredrows rs') j))
              <$> seqZ 0 (lengthZ (filteredrows rs'))));
        [|by rewrite rows_by_position].
      by rewrite filter_fmap_comm.
    - split; [|done]. f_equal. by rewrite list_fmap_id. }
  destruct (Hwhere rs) as (H1 & H2 & H3).
  split; [done|]. split; [done|].
  destruct (Hwhere (Resultset_where viewFunction rs)) as (H4 & _).
  rewrite H4, H3. unfold rows_of. rewrite H2, H1.
  rewrite filter_reverse, reverse_involutive.
  subst kept. apply filter_all. intros r Hr.
  by apply list_elem_of_filter in Hr as [Hr _].
Qed.

(** ** [find(query, firstOnly)] and [findOne] *)

Lemma scan_rows_first (test : Z -> completion bool) (rows result : list Z) :
  scan_rows test rows false = Return result ->
  scan_rows test rows true = Return (take 1 result).
Proof.
  revert result. induction rows as [|r rows IH]; intros result; simpl.
  - by intros [= <-].
  - destruct (test r) as [[|]|e]; [| |done].
    + destruct (scan_rows test rows false) as [found|e]; [|done].
      by intros [= <-].
    + apply IH.
Qed.

Lemma ensureIndex_data (c : Collection) (property : string) (force : bool) :
  data (ensureIndex c property force) = data c.
Proof.
  unfold ensureIndex. cbv zeta.
  destruct (match binaryIndices c !! property with Some _ => _ | None => _ end);
    [done|]. by destruct (_ && _ && _).
Qed.

Lemma ensureIndex_cloneObjects (c : Collection) (property : string) (force : bool) :
  cloneObjects (ensureIndex c property force) = cloneObjects c.
Proof.
  unfold ensureIndex. cbv zeta.
  destruct (match binaryIndices c !! property with Some _ => _ | None => _ end);
    [done|]. by destruct (_ && _ && _).
Qed.

Lemma find_property_first (rs r : Resultset) (property : string)
    (cond : condition) :
  find_property rs property cond false = Return r ->
  exists r1, find_property rs property cond true = Return r1
    /\ filteredrows r1 = take 1 (filteredrows r)
    /\ collection r1 = collection r
    /\ filterInitialized r1 = true /\ filterInitialized r = true
    /\ data (collection r) = data (collection rs)
    /\ cloneObjects (collection r) = cloneObjects (collection rs).
Proof.
  unfold find_property. cbv zeta.
  set (searchByIndex :=
         negb (filterInitialized rs)
         && bool_decide (is_Some (binaryIndices (collection rs) !! property))
         && match indexedOps (match cond with CValue v => O_eq v | COp op => op end)
            with NotIndexed => false | _ => true end).
  set (c := if searchByIndex && negb (adaptiveBinaryIndices (collection rs))
            then ensureIndex (collection rs) property false else collection rs).
  assert (data c = data (collection rs)
          /\ cloneObjects c = cloneObjects (collection rs)) as [Hdata Hclone].
  { subst c. destruct (searchByIndex && _); [|done].
    split; [apply ensureIndex_data|apply ensureIndex_cloneObjects]. }
  assert (forall test rows,
            match scan_rows test rows false with
            | Return rows0 =>
                Return {| collection := c; filteredrows := rows0;
                          filterInitialized := true |}
            | Throw e => Throw e
            end = Return r ->
            exists r1,
              match scan_rows test rows true with
              | Return rows0 =>
                  Return {| collection := c; filteredrows := rows0;
                            filterInitialized := true |}
              | Throw e => Throw e
              end = Return r1
              /\ filteredrows r1 = take 1 (filteredrows r)
              /\ collection r1 = collection r
              /\ filterInitialized r1 = true /\ filterInitialized r = true
              /\ data (collection r) = data (collection rs)
              /\ cloneObjects (collection r) = cloneObjects (collection rs))
    as Hfinish.
  { intros test rows H.
    destruct (scan_rows test rows false) as [found|e] eqn:Hscan; [|done].
    injection H as <-. rewrite (scan_rows_first _ _ _ Hscan).
    eexists. split; [done|]. by repeat split. }
  destruct (filterInitialized rs); [apply Hfinish|].
  destruct (negb searchByIndex); [apply Hfinish|].
  destruct (calculateRange _ _ _ _) as [lo hi|segm]; [|apply Hfinish].
  destruct (indexedOps _); apply Hfinish.
Qed.


(** ** [binarySearch] *)

Lemma binarySearch_loop_spec {A : Type} (undefined : A) (array : list A)
    (item : A) (fun_ : A -> A -> Z) (fuel : nat) (lo hi : Z) :
  let at_ i := fun_ item (default undefined (nthZ array i)) in
  0 <= lo -> lo <= hi -> hi <= lengthZ array ->
  (Z.to_nat (hi - lo) <= fuel)%nat ->
  sorted_for undefined array item fun_ ->
  (forall i, 0 <= i < lo -> 0 < at_ i) ->
  (forall i, hi <= i < lengthZ array -> at_ i < 0) ->
  let r := binarySearch_loop undefined array item fun_ fuel lo hi in
  lo <= index r <= hi
  /\ (found r = true -> index r < hi /\ at_ (index r) = 0)
  /\ (found r = false ->
      (forall i, 0 <= i < index r -> 0 < at_ i)
      /\ (forall i, index r <= i < lengthZ array -> at_ i < 0)).
Proof.
  intros at_. revert lo hi.
  induction fuel as [|fuel IH]; intros lo hi Hlo Hle Hhi Hfuel Hs Hbelow Habove.
  - simpl. assert (lo = hi) as -> by lia.
    split; [lia|]. split; [done|]. intros _. by split.
  - cbn [binarySearch_loop]. cbv zeta. destruct (Z.ltb_spec lo hi) as [Hlt|Hge].
    + pose proof (shiftr_1_bounds lo hi Hlt) as Hmid.
      set (mid := Z.shiftr (lo + hi) 1) in *.
      fold (at_ mid).
      destruct (Z.eqb_spec (at_ mid) 0) as [H0|H0].
      * simpl. split; [lia|]. split; [intros _; split; [lia|done]|done].
      * destruct (Z.ltb_spec (at_ mid) 0) as [Hneg|Hpos].
        -- destruct (IH lo mid) as (H1 & H2 & H3); try done; try lia.
           { intros i Hi. destruct (Z.eq_dec i mid) as [->|Hne]; [done|].
             destruct (Z.lt_ge_cases i hi); [|apply Habove; lia].
             by apply (Hs mid i); try lia. }
           split; [lia|]. split; [|done].
           intros Hf. destruct (H2 Hf). split; [lia|done].
        -- destruct (IH (mid + 1) hi) as (H1 & H2 & H3); try done; try lia.
           { intros i Hi. destruct (Z.lt_ge_cases i lo); [apply Hbelow; lia|].
             destruct (Z.le_gt_cases (at_ i) 0) as [Hi0|]; [|done].
             assert (at_ mid <= 0); [|lia].
             by apply (Hs i mid); try lia. }
           split; [lia|]. done.
    + simpl. assert (lo = hi) as -> by lia.
      split; [lia|]. split; [done|]. intros _. by split.
Qed.

(** X13. [binarySearch] on an array sorted for the comparison with [item]:
    the index returned lies within [0 .. length]; when it reports a find,
    the element at the index compares equal to [item]; when it does not, no
    element compares equal, those before the index come before [item] and
    those from the index on come after it, so that the index is where [item]
    is to be inserted. *)
Theorem binarySearch_finds_or_places {A : Type} (undefined : A) (array : list A)
    (item : A) (fun_ : A -> A -> Z) :
  sorted_for undefined array item fun_ ->
  let at_ i := fun_ item (default undefined (nthZ array i)) in
  let r := binarySearch undefined array item fun_ in
  0 <= index r <= lengthZ array
  /\ (found r = true -> index r < lengthZ array /\ at_ (index r) = 0)
  /\ (found r = false ->
      (forall i, 0 <= i < index r -> 0 < at_ i)
      /\ (forall i, index r <= i < lengthZ array -> at_ i < 0))
  /\ (found r = true <-> exists i, 0 <= i < lengthZ array /\ at_ i = 0).
Proof.
  intros Hs at_ r. unfold binarySearch in r.
  destruct (binarySearch_loop_spec undefined array item fun_
              (length array) 0 (lengthZ array)) as (H1 & H2 & H3);
    try done; try (unfold lengthZ; lia); try (intros; lia).
  fold r in H1, H2, H3. fold at_ in H2, H3.
  split; [done|]. split; [done|]. split; [done|]. split.
  - intros Hf. destruct (H2 Hf). exists (index r). split; [lia|done].
  - intros (i & Hi & H0). destruct (found r) eqn:Hf; [done|].
    destruct (H3 eq_refl) as [Hb Ha]. unfold at_ in H0.
    destruct (Z.lt_ge_cases i (index r)).
    + specialize (Hb i ltac:(lia)). lia.
    + specialize (Ha i ltac:(lia)). lia.
Qed.

(** ** A failed [insert] *)

Lemma rollback_fields (c : Collection) :
  Collection_count (rollback c)
  = (if transactional c then
       match cachedData c, cachedIndex c with
       | Some cd, true => lengthZ cd
       | _, _ => Collection_count c
       end
     else Collection_count c)
  /\ constraints_unique (rollback c) = constraints_unique c
  /\ maxId (rollback c) = maxId c
  /\ cloneObjects (rollback c) = cloneObjects c.
Proof.
  unfold rollback, Collection_count.
  destruct (transactional c); [|done].
  by destruct (cachedData c), (cachedIndex c).
Qed.

(** X14. A failed [insert] is not undone in the unique indexes.  With
    unique constraints on [n1] and then on [n2], inserting a document whose
    key for [n1] is free and whose key for [n2] is taken throws 'Duplicate
    key' and stores no document; but the index of [n1] keeps the key of the
    rejected document, so that [by(n1, key)] returns a document that is not
    in the collection, and [maxId], a safe integer, has moved on: the id is
    spent. *)
Theorem failed_insert_is_not_undone (c : Collection) (doc : gmap string value)
    (n1 n2 : string) (rest : list string) (u1 u2 : UniqueIndex)
    (existing : gmap string value) (q : Qc) :
  let obj0 := if cloneObjects c then clone doc ParseStringify else doc in
  let obj := <["$loki" := VNum (Finite (q + 1)%Qc)]> obj0 in
  uniqueNames c = n1 :: n2 :: rest -> n1 <> n2 ->
  constraints_unique c !! n1 = Some u1 -> field u1 = n1 ->
  constraints_unique c !! n2 = Some u2 -> field u2 = n2 ->
  get_prop obj0 "$loki" = VUndefined -> ToNumber (maxId c) = Finite q ->
  safe_integer (Finite q) ->
  has_key (get_prop obj n1) = true ->
  keyMap u1 !! ToString (get_prop obj n1) = None ->
  has_key (get_prop obj n2) = true ->
  keyMap u2 !! ToString (get_prop obj n2) = Some existing ->
  exists e c',
    Collection_insert c (ArgDoc doc) = (Throw e, c')
    /\ DuplicateKey e
    /\ Collection_count c' = Collection_count c
    /\ maxId c' = VNum (Finite (q + 1)%Qc)
    /\ Collection_by c' n1 (get_prop obj n1)
       = (Return (ByDoc (if cloneObjects c then clone obj ParseStringify else obj)), c').
Proof.
  intros obj0 obj Hnames Hne Hu1 Hf1 Hu2 Hf2 Hloki Hq Hsafe Hk1 Hfree Hk2 Htaken.
  unfold Collection_insert, insertOne. fold obj0. unfold Collection_add.
  rewrite Hloki. cbn [strict_eq negb]. unfold add_try. cbv zeta.
  destruct (startTransaction_fields c)
    as (Hd1 & Hi1 & Hb1 & Hc1 & Hn1 & Ha1 & Hcl1 & Hm1).
  set (c1 := set_maxId _ (startTransaction c)).
  assert (maxId c1 = VNum (Finite (q + 1)%Qc)) as Hmax.
  { subst c1. simpl. by rewrite Hm1, Hq, num_succ_safe. }
  assert (uniqueNames c1 = n1 :: n2 :: rest) as Hnames1
    by (subst c1; simpl; by rewrite Hn1).
  assert (constraints_unique c1 = constraints_unique c) as Hcu1 by done.
  rewrite Hmax. simpl ToNumber. cbn [isNaN]. cbv beta iota.
  rewrite ?Hmax, Hnames1. fold obj.
  cbn [add_unique]. unfold getUniqueIndex at 1. rewrite Hcu1, Hu1.
  unfold UniqueIndex_set at 1. rewrite Hf1.
  unfold has_key in Hk1, Hk2. rewrite Hk1, Hfree.
  set (u1' := {| field := n1; keyMap := _; lokiMap := _ |}).
  unfold getUniqueIndex. cbn [constraints_unique set_constraints_unique].
  rewrite lookup_insert_ne by done. rewrite Hcu1, Hu2.
  unfold UniqueIndex_set. rewrite Hf2, Hk2, Htaken.
  set (c2 := set_constraints_unique _ c1).
  destruct (rollback_fields c2) as (Hcount & Hcu & Hm & Hcl).
  eexists _, (rollback c2). split; [done|]. split; [by eexists _, _|].
  split; [|split; [by rewrite Hm|]].
  - rewrite Hcount. subst c2 c1. unfold startTransaction, Collection_count.
    destruct (transactional c) eqn:Ht; simpl; rewrite Ht; simpl; [|done].
    case_bool_decide; [|done]. by rewrite lengthZ_fmap.
  - unfold Collection_by.
    assert (strict_eq (get_prop obj n1) VUndefined = false) as ->.
    { by destruct (strict_eq (get_prop obj n1) VUndefined);
        rewrite ?andb_false_r in Hk1. }
    unfold getUniqueIndex. rewrite Hcu. subst c2.
    cbn [constraints_unique set_constraints_unique].
    rewrite lookup_insert_eq. unfold UniqueIndex_get. subst u1'.
    cbn [keyMap]. rewrite lookup_insert_eq, Hcl. simpl. rewrite Hcl1.
    by destruct (cloneObjects c).
Qed.

(** ** Building a unique index *)

Lemma unique_keys_cons (fld : string) (d : gmap string value)
    (docs : list (gmap string value)) :
  unique_keys fld (d :: docs)
  = if has_key (get_prop d fld) then ToString (get_prop d fld) :: unique_keys fld docs
    else unique_keys fld docs.
Proof.
  unfold unique_keys. destruct (has_key (get_prop d fld)) eqn:Hk.
  - by rewrite filter_cons_True.
  - rewrite filter_cons_False; [done|]. by rewrite Hk.
Qed.

Lemma UniqueIndex_set_all_spec (docs : list (gmap string value)) (u : UniqueIndex) :
  NoDup (unique_keys (field u) docs) ->
  (forall k, k ∈ unique_keys (field u) docs -> keyMap u !! k = None) ->
  exists u',
    UniqueIndex_set_all u docs = (Return (), u')
    /\ field u' = field u
    /\ forall k d, keyMap u' !! k = Some d <->
         keyMap u !! k = Some d
         \/ (d ∈ docs /\ has_key (get_prop d (field u)) = true
             /\ k = ToString (get_prop d (field u))).
Proof.
  revert u. induction docs as [|d docs IH]; intros u Hnd Hfree.
  - exists u. split; [done|]. split; [done|]. intros k d. split; [by left|].
    intros [H|(H & _)]; [done|]. by apply elem_of_nil in H.
  - rewrite unique_keys_cons in Hnd, Hfree. cbn [UniqueIndex_set_all].
    unfold UniqueIndex_set. fold (has_key (get_prop d (field u))).
    destruct (has_key (get_prop d (field u))) eqn:Hk.
    + apply NoDup_cons in Hnd as [Hnot Hnd].
      rewrite (Hfree (ToString (get_prop d (field u)))) by left.
      set (u1 := {| field := field u; keyMap := _; lokiMap := _ |}).
      destruct (IH u1) as (u' & Hall & Hf & Hmap); [done| |].
      { intros k Hin. subst u1. cbn [keyMap field] in *.
        rewrite lookup_insert_ne by (by intros <-). apply Hfree. by right. }
      exists u'. split; [done|]. split; [done|]. intros k d'.
      rewrite Hmap. subst u1. cbn [keyMap field].
      rewrite elem_of_cons.
      destruct (decide (k = ToString (get_prop d (field u)))) as [->|Hne].
      * rewrite lookup_insert_eq, (Hfree (ToString (get_prop d (field u)))) by left.
        split.
        -- intros [[= <-]|(H1 & H2 & H3)]; right; [by auto|by auto].
        -- intros [H|([->|H1] & H2 & H3)]; [done|by left|by right].
      * rewrite lookup_insert_ne by done. split.
        -- intros [H|(H1 & H2 & H3)]; [by left|right; by auto].
        -- intros [H|([->|H1] & H2 & H3)]; [by left|done|by right].
    + destruct (IH u) as (u' & Hall & Hf & Hmap); [done..|].
      exists u'. split; [done|]. split; [done|]. intros k d'.
      rewrite Hmap, elem_of_cons. split.
      * intros [H|(H1 & H2 & H3)]; [by left|right; by auto].
      * intros [H|([->|H1] & H2 & H3)]; [by left|congruence|by right].
Qed.

Lemma UniqueIndex_set_all_duplicate (docs : list (gmap string value)) (u : UniqueIndex) :
  ~ NoDup (unique_keys (field u) docs) ->
  exists e u', UniqueIndex_set_all u docs = (Throw e, u') /\ DuplicateKey e.
Proof.
  assert (forall u,
            (exists k, k ∈ unique_keys (field u) docs /\ is_Some (keyMap u !! k))
            \/ ~ NoDup (unique_keys (field u) docs) ->
            exists e u', UniqueIndex_set_all u docs = (Throw e, u') /\ DuplicateKey e)
    as Hgen; [|intros H; apply Hgen; by right].
  clear u. induction docs as [|d docs IH]; intros u Hbad.
  - destruct Hbad as [(k & Hin & _)|Hdup].
    + by apply elem_of_nil in Hin.
    + destruct Hdup. constructor.
  - rewrite unique_keys_cons in Hbad. cbn [UniqueIndex_set_all].
    unfold UniqueIndex_set. fold (has_key (get_prop d (field u))).
    destruct (has_key (get_prop d (field u))) eqn:Hk; [|by apply IH].
    destruct (keyMap u !! ToString (get_prop d (field u))) as [old|] eqn:Hold.
    { eexists _, _. split; [done|]. by eexists _, _. }
    set (u1 := {| field := field u; keyMap := _; lokiMap := _ |}).
    apply (IH u1). subst u1. cbn [keyMap field].
    destruct Hbad as [(k & Hin & Hsome)|Hdup].
    + apply elem_of_cons in Hin as [->|Hin].
      * rewrite Hold in Hsome. by destruct Hsome.
      * left. exists k. split; [done|].
        destruct (decide (k = ToString (get_prop d (field u)))) as [->|Hne].
        -- by rewrite lookup_insert_eq.
        -- by rewrite lookup_insert_ne.
    + destruct (decide (ToString (get_prop d (field u)) ∈ unique_keys (field u) docs))
        as [Hin|Hnot].
      * left. exists (ToString (get_prop d (field u))). split; [done|].
        by rewrite lookup_insert_eq.
      * right. intros Hnd. apply Hdup. by constructor.
Qed.

(** X15. [ensureUniqueIndex(field)], for a field that is no member name
    of [Object.prototype] (the lookup [constraints.unique[field]] would find
    the inherited member), rebuilds the index from [data]: when the keys of
    the stored documents are pairwise different as strings, it returns an
    index that maps the key of every stored document to that document and
    holds nothing else; when two stored documents share a key, it throws
    'Duplicate key'.  [data] is not touched. *)
Theorem ensureUniqueIndex_indexes_every_document (c : Collection) (fld : string) :
  fld ∉ Object_prototype_keys ->
  (NoDup (unique_keys fld (data c)) ->
   exists index c',
     ensureUniqueIndex c fld = (Return index, c')
     /\ constraints_unique c' !! fld = Some index /\ field index = fld
     /\ data c' = data c
     /\ (constraints_unique c !! fld = None -> fld ∈ uniqueNames c')
     /\ forall k d, keyMap index !! k = Some d <->
          d ∈ data c /\ has_key (get_prop d fld) = true
          /\ k = ToString (get_prop d fld))
  /\ (~ NoDup (unique_keys fld (data c)) ->
      exists e, (ensureUniqueIndex c fld).1 = Throw e /\ DuplicateKey e).
Proof.
  intros Hown.
  unfold ensureUniqueIndex.
  set (c1 := match constraints_unique c !! fld with
             | None => _ | Some _ => c end).
  assert (data c1 = data c) as Hdata.
  { subst c1. destruct (constraints_unique c !! fld); [done|].
    by repeat case_bool_decide. }
  rewrite Hdata. split.
  - intros Hnd.
    destruct (UniqueIndex_set_all_spec (data c) (UniqueIndex_new fld))
      as (u' & Hall & Hf & Hmap); [done|done|].
    rewrite Hall. eexists _, _. split; [done|]. simpl.
    split; [apply lookup_insert_eq|]. split; [done|]. split; [done|]. split.
    + intros Hnone. subst c1. rewrite Hnone.
      rewrite (bool_decide_eq_false_2 _ Hown).
      destruct (decide (fld ∈ uniqueNames c)) as [Hin|Hnot].
      * by rewrite bool_decide_eq_true_2.
      * rewrite bool_decide_eq_false_2 by done. simpl.
        apply elem_of_app. right. by left.
    + intros k d. rewrite Hmap. simpl. rewrite lookup_empty. split.
      * by intros [H|H].
      * by right.
  - intros Hdup.
    destruct (UniqueIndex_set_all_duplicate (data c) (UniqueIndex_new fld) Hdup)
      as (e & u' & Hall & He).
    rewrite Hall. by exists e.
Qed.

(** ** [update] *)

(** [adaptiveBinaryIndexInsert] of any position keeps a sorted index
    sorted. *)
Lemma adaptiveBinaryIndexInsert_sorted (rcd : list (gmap string value)) (k : Z)
    (name : string) (bi : BinaryIndex) :
  index_sorted rcd (values bi) name ->
  exists p, 0 <= p <= lengthZ (values bi)
    /\ values (adaptiveBinaryIndexInsert rcd k name bi)
       = splice_insert (values bi) p k
    /\ index_sorted rcd (splice_insert (values bi) p k) name.
Proof.
  intros Hs.
  set (dot := has_dot name).
  set (val := getIn (nthZ rcd k) name dot).
  set (key := indexed_value rcd (values bi) name dot).
  assert (exists p, first_not_below key (lengthZ (values bi)) val p
            /\ (if lengthZ (values bi) =? 0 then 0
                else calculateRangeStart rcd (values bi) name val true dot)
               = p) as (p & Hp & Hpos).
  { destruct (Z.eqb_spec (lengthZ (values bi)) 0) as [H0|H0].
    - exists 0. split; [|done]. repeat split; intros; lia.
    - destruct (first_not_below_exists rcd (values bi) name val dot)
        as (lb & Hlb & Hstart & _);
        [unfold lengthZ in *; lia|done|].
      by exists lb. }
  exists p. split; [by destruct Hp|]. split.
  - unfold adaptiveBinaryIndexInsert. cbv zeta. fold dot. fold val.
    by rewrite Hpos.
  - unfold index_sorted. rewrite lengthZ_splice_insert by (by destruct Hp).
    apply (keys_sorted_insert key _ _ val p); [done..|].
    intros i. unfold indexed_value at 1.
    rewrite nthZ_splice_insert by (by destruct Hp).
    destruct (Z.ltb_spec i p); [done|].
    destruct (Z.eqb_spec i p); done.
Qed.

Lemma index_of_spec (k : Z) (index : list Z) :
  k ∈ index -> nthZ index (index_of k index) = Some k.
Proof.
  induction index as [|v index IH]; intros Hin; [by apply elem_of_nil in Hin|].
  simpl. destruct (Z.eqb_spec v k) as [->|Hne]; [done|].
  apply elem_of_cons in Hin as [->|Hin]; [done|].
  change (v :: index) with ([v] ++ index).
  assert (0 <= index_of k index).
  { clear. induction index as [|w index IH]; simpl; [lia|].
    destruct (w =? k); lia. }
  rewrite nthZ_app_r by (change (lengthZ [v]) with 1; lia).
  change (lengthZ [v]) with 1.
  replace (1 + index_of k index - 1) with (index_of k index) by lia.
  by apply IH.
Qed.

Lemma adaptiveBinaryIndexUpdate_sorted (rcd : list (gmap string value))
    (k : Z) (name : string) (bi : BinaryIndex) :
  values bi ≡ₚ seqZ 0 (lengthZ rcd) -> 0 <= k < lengthZ rcd ->
  StronglySorted (key_le rcd name) (filter (fun v => v <> k) (values bi)) ->
  binary_index_ok rcd name (adaptiveBinaryIndexUpdate rcd k name bi).
Proof.
  intros Hperm Hk Hs.
  assert (NoDup (values bi)) as Hnd by (rewrite Hperm; apply NoDup_seqZ).
  assert (k ∈ values bi) as Hin by (rewrite Hperm; apply elem_of_seqZ; lia).
  unfold adaptiveBinaryIndexUpdate. cbv zeta.
  rewrite (splice_remove_filter _ _ k Hnd (index_of_spec k _ Hin)).
  set (bi' := {| bi_name := bi_name bi; bi_dirty := bi_dirty bi;
                 values := filter (fun v => v <> k) (values bi) |}).
  destruct (adaptiveBinaryIndexInsert_sorted rcd k name bi')
    as (p & Hp & Hvalues & Hsorted); [by apply index_sorted_iff|].
  split; rewrite Hvalues; [|done]. subst bi'. cbn [values] in *.
  destruct (splice_insert_split _ p k Hp) as (l1 & l2 & Hl & _ & ->).
  rewrite <- Permutation_middle, <- Hl, <- Hperm.
  apply NoDup_Permutation; [|done|].
  - constructor; [|by apply NoDup_filter].
    rewrite list_elem_of_filter. by intros [Hne _].
  - intros x. rewrite elem_of_cons, list_elem_of_filter.
    destruct (decide (x = k)) as [->|Hne]; [tauto|]. tauto.
Qed.

(** X16. [adaptiveBinaryIndexUpdate] repairs a binary index after the
    document at one position has changed: if the index is a permutation of
    the positions of [data] and is sorted once that position is left out
    (whatever key it was filed under before), the updated index is a sorted
    permutation of the positions again. *)
Theorem adaptiveBinaryIndexUpdate_repairs (rcd : list (gmap string value))
    (k : Z) (name : string) (bi : BinaryIndex) :
  values bi ≡ₚ seqZ 0 (lengthZ rcd) -> 0 <= k < lengthZ rcd ->
  StronglySorted (key_le rcd name) (filter (fun v => v <> k) (values bi)) ->
  binary_index_ok rcd name (adaptiveBinaryIndexUpdate rcd k name bi).
Proof. apply adaptiveBinaryIndexUpdate_sorted. Qed.

Lemma update_unique_spec (names : list string) (c : Collection)
    (old : option (gmap string value)) (new : gmap string value) :
  same_store c (update_unique c names old new).2.
Proof.
  revert c. induction names as [|name names IH]; intros c; simpl.
  - apply same_store_refl.
  - destruct (getUniqueIndex_force c name) as (H1 & _).
    destruct (getUniqueIndex c name true) as [[[index|]|e] c1]; simpl in *;
      try done.
    destruct old as [obj|]; [|done].
    destruct (UniqueIndex_update index obj new) as [index'|e]; [|done].
    eapply same_store_trans; [exact H1|].
    eapply same_store_trans; [|apply IH].
    apply same_store_constraints.
Qed.

(** Whether the unique indexes take an update depends on these indexes, on
    [data] and on the unique names only. *)
Lemma update_unique_congr (names : list string) (c c' : Collection)
    (old : option (gmap string value)) (new : gmap string value) :
  constraints_unique c = constraints_unique c' -> data c = data c' ->
  uniqueNames c = uniqueNames c' ->
  (update_unique c names old new).1 = (update_unique c' names old new).1.
Proof.
  revert c c'. induction names as [|name names IH]; intros c c' Hcu Hdata Hun;
    simpl; [done|].
  assert ((getUniqueIndex c name true).1 = (getUniqueIndex c' name true).1
          /\ constraints_unique (getUniqueIndex c name true).2
             = constraints_unique (getUniqueIndex c' name true).2
          /\ data (getUniqueIndex c name true).2
             = data (getUniqueIndex c' name true).2
          /\ uniqueNames (getUniqueIndex c name true).2
             = uniqueNames (getUniqueIndex c' name true).2)
    as (Hr & Hcu1 & Hd1 & Hn1).
  { unfold getUniqueIndex, ensureUniqueIndex. rewrite <- Hcu.
    destruct (constraints_unique c !! name) as [u|]; [done|].
    rewrite <- Hun.
    assert (data (if bool_decide (name ∈ Object_prototype_keys) then c
                  else if bool_decide (name ∈ uniqueNames c) then c
                  else set_uniqueNames (fun names0 => names0 ++ [name]) c) = data c)
      as -> by (by repeat case_bool_decide).
    assert (data (if bool_decide (name ∈ Object_prototype_keys) then c'
                  else if bool_decide (name ∈ uniqueNames c) then c'
                  else set_uniqueNames (fun names0 => names0 ++ [name]) c') = data c)
      as -> by (by repeat case_bool_decide).
    destruct (UniqueIndex_set_all (UniqueIndex_new name) (data c)) as [[[]|e] index];
      simpl; repeat case_bool_decide; simpl; by rewrite ?Hcu, ?Hdata, ?Hun. }
  destruct (getUniqueIndex c name true) as [[[index|]|e] c1],
           (getUniqueIndex c' name true) as [[[index2|]|e2] c1'];
    simpl in *; try done; try congruence.
  injection Hr as <-.
  destruct old as [obj|]; [|done].
  destruct (UniqueIndex_update index obj new) as [index'|e]; [|done].
  apply IH; simpl; congruence.
Qed.

Lemma lengthZ_insert {A : Type} (l : list A) (i : nat) (x : A) :
  lengthZ (<[i := x]> l) = lengthZ l.
Proof. unfold lengthZ. by rewrite length_insert. Qed.

Lemma array_set_in_range {A : Type} (l : list A) (i : Z) (x y : A) :
  nthZ l i = Some y -> array_set l i x = <[Z.to_nat i := x]> l.
Proof.
  intros Hy. apply nthZ_Some_range in Hy. unfold array_set.
  by destruct (Z.ltb_spec i (lengthZ l)); [|lia].
Qed.

Lemma nthZ_insert {A : Type} (l : list A) (k i : Z) (x y : A) :
  nthZ l k = Some y ->
  nthZ (<[Z.to_nat k := x]> l) i = if i =? k then Some x else nthZ l i.
Proof.
  intros Hy. pose proof (nthZ_Some_range _ _ _ Hy) as Hk.
  destruct (Z.eqb_spec i k) as [->|Hne].
  - rewrite nthZ_lookup by lia. apply list_lookup_insert_eq.
    unfold lengthZ in Hk. lia.
  - destruct (Z.ltb_spec i 0) as [Hneg|Hpos].
    + unfold nthZ. by destruct (Z.ltb_spec i 0); [|lia].
    + rewrite !nthZ_lookup by lia. apply list_lookup_insert_ne. lia.
Qed.

(** The [try] block of [update] on the document stored at position [k]. *)
Lemma update_try_spec (c : Collection) (k : Z) (old doc : gmap string value)
    (q : Qc) :
  let newInternal := if cloneObjects c then clone doc ParseStringify else doc in
  adaptiveBinaryIndices c = true ->
  idIndex_parallel c -> ids_ascending (loki_ids c) ->
  nthZ (data c) k = Some old ->
  get_prop old "$loki" = VNum (Finite q) ->
  get_prop doc "$loki" = VNum (Finite q) ->
  (update_unique c (uniqueNames c) (Some old) newInternal).1 = Return () ->
  exists c',
    update_try c doc
    = (Return (if cloneObjects c then clone newInternal ParseStringify
               else newInternal), c')
    /\ data c' = <[Z.to_nat k := newInternal]> (data c)
    /\ loki_ids c' = loki_ids c
    /\ idIndex c' = Some (loki_ids c)
    /\ binaryIndices c'
       = map_imap (fun key bi =>
           Some (adaptiveBinaryIndexUpdate
                   (<[Z.to_nat k := newInternal]> (data c)) k key bi))
           (binaryIndices c)
    /\ adaptiveBinaryIndices c' = true.
Proof.
  intros newInternal Had Hpar Hasc Hk Hloki Hdoc Huniq.
  pose proof (nthZ_Some_range _ _ _ Hk) as Hrange.
  unfold update_try. cbv zeta. rewrite Hdoc.
  destruct (startTransaction_fields c)
    as (Hd1 & Hi1 & Hb1 & Hc1 & Hn1 & Ha1 & Hcl1 & Hm1).
  set (c1 := startTransaction c) in *.
  assert (loki_ids c1 = loki_ids c) as Hids1 by (unfold loki_ids; by rewrite Hd1).
  assert (idIndex_parallel c1) as Hpar1
    by (unfold idIndex_parallel; by rewrite Hi1, Hids1).
  assert ((Collection_get c1 (VNum (Finite q)) true).1 = Return (GotPair (Some old) k))
    as Hfound.
  { apply (Collection_get_found c1 (VNum (Finite q)) true k old); try done.
    - by rewrite Hids1.
    - by rewrite Hd1.
    - rewrite Hloki. by apply num_eq_refl. }
  pose proof (Collection_get_state c1 (VNum (Finite q)) true Hpar1) as Hstate.
  destruct (Collection_get c1 (VNum (Finite q)) true) as [r c2].
  simpl in Hfound, Hstate. subst r c2. rewrite Hids1.
  set (c2 := set_idIndex (fun _ => Some (loki_ids c)) c1).
  assert (cloneObjects c2 = cloneObjects c) as Hcl2 by done.
  rewrite Hcl2. fold newInternal.
  assert ((update_unique c2 (uniqueNames c2) (Some old) newInternal).1 = Return ())
    as Huniq2.
  { rewrite <- Huniq. subst c2. simpl. rewrite Hn1.
    apply update_unique_congr; simpl; done. }
  destruct (update_unique_spec (uniqueNames c2) c2 (Some old) newInternal)
    as (Hd3 & Hi3 & Hb3 & Ha3 & _ & Hcl3 & _).
  destruct (update_unique c2 (uniqueNames c2) (Some old) newInternal) as [[[]|e] c3];
    simpl in Huniq2, Hd3, Hi3, Hb3, Ha3, Hcl3; [|done].
  assert (get_prop newInternal "$loki" = VNum (Finite q)) as Hnew.
  { subst newInternal. destruct (cloneObjects c); [|done].
    by rewrite get_prop_clone, Hdoc. }
  assert (array_set (data c3) k newInternal = <[Z.to_nat k := newInternal]> (data c))
    as Hset.
  { rewrite Hd3, Hd1. by apply (array_set_in_range _ _ _ old). }
  assert (array_set (loki_ids c) k (VNum (Finite q)) = loki_ids c) as Hsetid.
  { rewrite (array_set_in_range _ _ _ (VNum (Finite q))).
    - apply list_insert_id. rewrite <- nthZ_lookup by lia.
      unfold loki_ids. by rewrite nthZ_fmap, Hk, <- Hloki.
    - unfold loki_ids. by rewrite nthZ_fmap, Hk, <- Hloki. }
  assert (adaptiveBinaryIndices
            (set_data (fun d => array_set d k newInternal) c3) = true) as Had3
    by (simpl; congruence).
  rewrite Had3.
  match goal with
  | |- exists c', (Return (if cloneObjects ?X then _ else _), _) = _ /\ _ =>
      set (cf := X)
  end.
  assert (cloneObjects cf = cloneObjects c) as Hclf.
  { subst cf. unfold commit. destruct (transactional _); simpl; congruence. }
  exists cf. rewrite Hclf. split; [done|].
  assert (loki_ids c = <[Z.to_nat k := get_prop newInternal "$loki"]> (loki_ids c))
    as Hsame.
  { symmetry. apply list_insert_id. rewrite <- nthZ_lookup by lia.
    unfold loki_ids. by rewrite nthZ_fmap, Hk, Hnew, <- Hloki. }
  subst cf. unfold commit, loki_ids.
  destruct (transactional _); cbn -[adaptiveBinaryIndexUpdate array_set];
    rewrite ?Hset, ?Hi3, ?Hb3, ?Hb1, ?Ha3, ?Ha1, ?Hnew;
    cbn -[adaptiveBinaryIndexUpdate array_set];
    fold (loki_ids c); rewrite ?Hsetid;
    (split; [done|]); (split; [|done]);
    rewrite list_fmap_insert; fold (loki_ids c); by rewrite <- Hsame.
Qed.

(** X17. [update(doc)] replaces the stored document that carries the
    [$loki] of [doc], in place: on a well-formed collection with adaptive
    indices, it leaves every other document where it is, [idIndex] and the
    [$loki] as they are, every binary index a sorted permutation of the
    positions again, and [get] of the [$loki] then finds the new
    document. *)
Theorem update_replaces_document (c : Collection) (k : Z)
    (old doc : gmap string value) (q : Qc) :
  let newInternal := if cloneObjects c then clone doc ParseStringify else doc in
  adaptiveBinaryIndices c = true ->
  idIndex_parallel c -> ids_ascending (loki_ids c) -> indices_ok c ->
  nthZ (data c) k = Some old ->
  get_prop old "$loki" = VNum (Finite q) ->
  get_prop doc "$loki" = VNum (Finite q) ->
  (update_unique c (uniqueNames c) (Some old) newInternal).1 = Return () ->
  exists c',
    Collection_update c (ArgDoc doc)
    = (Return (if cloneObjects c then clone newInternal ParseStringify
               else newInternal), c')
    /\ nthZ (data c') k = Some newInternal
    /\ (forall pos, pos <> k -> nthZ (data c') pos = nthZ (data c) pos)
    /\ Collection_count c' = Collection_count c
    /\ adaptiveBinaryIndices c' = true
    /\ idIndex_parallel c' /\ loki_ids c' = loki_ids c /\ indices_ok c'
    /\ (Collection_get c' (VNum (Finite q)) true).1
       = Return (GotPair (Some newInternal) k).
Proof.
  intros newInternal Had Hpar Hasc Hidx Hk Hloki Hdoc Huniq.
  destruct (update_try_spec c k old doc q Had Hpar Hasc Hk Hloki Hdoc Huniq)
    as (c' & Htry & Hdata & Hids & Hi & Hbi & Had').
  fold newInternal in Htry, Hdata, Hbi.
  pose proof (nthZ_Some_range _ _ _ Hk) as Hrange.
  assert (nthZ (data c') k = Some newInternal) as Hnew.
  { rewrite Hdata, (nthZ_insert _ _ _ _ old Hk). by rewrite Z.eqb_refl. }
  assert (forall pos, pos <> k -> nthZ (data c') pos = nthZ (data c) pos) as Hother.
  { intros pos Hne. rewrite Hdata, (nthZ_insert _ _ _ _ old Hk).
    by destruct (Z.eqb_spec pos k). }
  assert (idIndex_parallel c') as Hpar'
    by (unfold idIndex_parallel; by rewrite Hi, Hids).
  exists c'. split.
  { unfold Collection_update.
    assert (doc !! "$loki" <> None) as Hown.
    { intros Hnone. unfold get_prop in Hdoc. by rewrite Hnone in Hdoc. }
    rewrite bool_decide_eq_false_2 by done. by rewrite Htry. }
  split; [done|]. split; [done|]. split.
  { unfold Collection_count. by rewrite Hdata, lengthZ_insert. }
  split; [done|]. split; [done|]. split; [done|]. split.
  - intros name bi'. rewrite Hbi, map_lookup_imap.
    destruct (binaryIndices c !! name) as [bi|] eqn:Hname;
      cbn -[adaptiveBinaryIndexUpdate]; [|done].
    intros [= <-]. rewrite Hdata.
    destruct (Hidx name bi Hname) as [Hperm Hsorted].
    apply adaptiveBinaryIndexUpdate_sorted.
    + by rewrite lengthZ_insert.
    + by rewrite lengthZ_insert.
    + apply index_sorted_iff in Hsorted.
      rewrite <- (list_fmap_id (filter _ _)).
      apply (sorted_filter_fmap (key_le (data c) name)); [done|].
      intros a b Ha Hb Hab. unfold key_le, key_at in *. rewrite <- Hdata.
      by rewrite !Hother.
  - apply (Collection_get_found c' (VNum (Finite q)) true k newInternal);
      try done.
    + by rewrite Hids.
    + unfold newInternal. destruct (cloneObjects c).
      * rewrite get_prop_clone, Hdoc. simpl. by apply num_eq_refl.
      * rewrite Hdoc. simpl. by apply num_eq_refl.
Qed.

(** X18. [UniqueIndex.update(obj, doc)] on an index that files [obj] under
    its key: when [doc] carries the same key (by [===]) the index hands out
    [doc] under it; when [doc] carries another key, neither [null] nor
    [undefined], the index hands out [doc] under the new key and nothing
    under the old one, and leaves the other keys alone.  A new key the index
    already holds, be it the old key as another value with the same string
    (['1'] for [1]), makes it throw 'Duplicate key'. *)
Theorem UniqueIndex_update_moves_key (u : UniqueIndex) (obj doc : gmap string value)
    (oldKey : value) :
  let newKey := get_prop doc (field u) in
  lokiMap u !! ToString (get_prop obj "$loki") = Some oldKey ->
  get_prop obj (field u) = oldKey ->
  keyMap u !! ToString oldKey = Some obj ->
  (strict_eq oldKey newKey = true ->
   exists u', UniqueIndex_update u obj doc = Return u'
     /\ UniqueIndex_get u' newKey = Some doc
     /\ forall key, ToString key <> ToString newKey ->
          UniqueIndex_get u' key = UniqueIndex_get u key)
  /\ (strict_eq oldKey newKey = false -> has_key newKey = true ->
      match keyMap u !! ToString newKey with
      | Some other =>
          exists e, UniqueIndex_update u obj doc = Throw e /\ DuplicateKey e
      | None =>
          exists u', UniqueIndex_update u obj doc = Return u'
            /\ UniqueIndex_get u' newKey = Some doc
            /\ UniqueIndex_get u' oldKey = None
            /\ (forall key, ToString key <> ToString newKey ->
                  ToString key <> ToString oldKey ->
                  UniqueIndex_get u' key = UniqueIndex_get u key)
            /\ lokiMap u' !! ToString (get_prop doc "$loki") = Some newKey
      end).
Proof.
  intros newKey Hloki Hobj Hfiled. unfold UniqueIndex_update. rewrite Hloki. simpl.
  fold newKey. split.
  - intros Heq. rewrite Heq. simpl. eexists. split; [done|].
    unfold UniqueIndex_get. simpl. rewrite Hobj.
    apply strict_eq_eq in Heq as ->. split; [apply lookup_insert_eq|].
    intros key Hne. by rewrite lookup_insert_ne.
  - intros Hne Hkey. rewrite Hne. simpl. unfold UniqueIndex_set. fold newKey.
    unfold has_key in Hkey. rewrite Hkey.
    destruct (keyMap u !! ToString newKey) as [other|] eqn:Hnew.
    + eexists. split; [done|]. by eexists _, _.
    + assert (ToString newKey <> ToString oldKey) as Hstr
        by (intros Hs; by rewrite Hs, Hfiled in Hnew).
      eexists. split; [done|]. unfold UniqueIndex_get. simpl.
      split; [|split; [|split]].
      * rewrite lookup_delete_ne by done. apply lookup_insert_eq.
      * apply lookup_delete_eq.
      * intros key H1 H2. rewrite lookup_delete_ne by done.
        by rewrite lookup_insert_ne.
      * apply lookup_insert_eq.
Qed.

(** ** [simplesort] *)

Lemma sortHelper_lt (k1 k2 : value) (descending : bool) :
  (sortHelper k1 k2 descending <? 0)
  = match Comparator k1 k2 with
    | Lt => negb descending
    | Gt => descending
    | Eq => false
    end.
Proof.
  unfold sortHelper.
  rewrite aeqHelper_Comparator, ltHelper_Comparator, gtHelper_Comparator.
  by destruct (Comparator k1 k2), descending.
Qed.

Lemma sort_insert_sorted_by (cmp : Z -> Z -> comparison) (comparer : Z -> Z -> Z)
    (x : Z) (l : list Z) :
  (forall a b, (comparer a b <? 0) = match cmp a b with Lt => true | _ => false end) ->
  (forall a b, cmp b a = CompOpp (cmp a b)) ->
  (forall a b d, cmp a b = Lt -> cmp b d <> Gt -> cmp a d = Lt) ->
  StronglySorted (fun a b => cmp a b <> Gt) l ->
  StronglySorted (fun a b => cmp a b <> Gt) (sort_insert comparer x l).
Proof.
  intros Hlt Hanti Htrans.
  induction 1 as [|y l Hs IH Hall]; simpl; [by repeat constructor|].
  rewrite Hlt. destruct (cmp x y) eqn:Hxy.
  - constructor; [done|]. rewrite (sort_insert_Permutation _ x l).
    constructor; [|done]. by rewrite (Hanti x), Hxy.
  - constructor; [by constructor|]. constructor.
    + by rewrite Hxy.
    + eapply Forall_impl; [exact Hall|]. intros z Hz. simpl in *.
      by rewrite (Htrans x y z Hxy Hz).
  - constructor; [done|]. rewrite (sort_insert_Permutation _ x l).
    constructor; [|done]. by rewrite (Hanti x), Hxy.
Qed.

Lemma simplesort_comparer_sorts (rcd : list (gmap string value)) (prop : string)
    (descending : bool) (rows : list Z) :
  StronglySorted (sorted_by rcd prop descending)
    (array_sort (simplesort_comparer prop descending rcd) rows).
Proof.
  set (cmp := fun a b : Z =>
         if descending then Comparator (key_at rcd prop b) (key_at rcd prop a)
         else Comparator (key_at rcd prop a) (key_at rcd prop b)).
  assert (forall l, StronglySorted (fun a b => cmp a b <> Gt) l
                    -> StronglySorted (sorted_by rcd prop descending) l) as Hrel.
  { intros l Hl. eapply StronglySorted_fmap with (f := fun z : Z => z) in Hl.
    - rewrite list_fmap_id in Hl. exact Hl.
    - intros a b. unfold cmp, sorted_by, key_le. by destruct descending. }
  apply Hrel. unfold array_sort.
  assert (forall acc, StronglySorted (fun a b => cmp a b <> Gt) acc ->
            StronglySorted (fun a b => cmp a b <> Gt)
              (foldl (fun sorted x =>
                        sort_insert (simplesort_comparer prop descending rcd) x sorted)
                     acc rows)) as H.
  { induction rows as [|x rows IH]; intros acc Hacc; simpl; [done|].
    apply IH. apply sort_insert_sorted_by; try done.
    - intros a b. unfold simplesort_comparer, cmp. rewrite sortHelper_lt.
      fold (key_at rcd prop a) (key_at rcd prop b).
      destruct descending; simpl.
      + rewrite (Comparator_antisym (key_at rcd prop a)).
        by destruct (Comparator (key_at rcd prop a) (key_at rcd prop b)).
      + by destruct (Comparator (key_at rcd prop a) (key_at rcd prop b)).
    - intros a b. unfold cmp. destruct descending; apply Comparator_antisym.
    - intros a b d. unfold cmp. destruct descending.
      + intros H1 H2. by apply (Comparator_le_lt_trans _ (key_at rcd prop b)).
      + apply Comparator_lt_le_trans. }
  apply H. constructor.
Qed.

Lemma StronglySorted_reverse {A : Type} (R : relation A) (l : list A) :
  StronglySorted R l -> StronglySorted (fun a b => R b a) (reverse l).
Proof.
  induction 1 as [|a l Hs IH Hall]; [constructor|].
  rewrite reverse_cons. apply StronglySorted_app_2; [|done|by repeat constructor].
  intros x1 x2 H1 H2%list_elem_of_singleton. subst x2.
  rewrite elem_of_reverse in H1. rewrite Forall_forall in Hall. by apply Hall.
Qed.

Lemma sorted_by_ascending_or_reversed (rcd : list (gmap string value))
    (prop : string) (descending : bool) (l : list Z) :
  StronglySorted (key_le rcd prop) l ->
  StronglySorted (sorted_by rcd prop descending)
    (if descending then reverse l else l).
Proof.
  intros Hs. destruct descending; [|done].
  by apply StronglySorted_reverse in Hs.
Qed.

Lemma ensureIndex_keeps_valid (c : Collection) (property : string) (bi : BinaryIndex) :
  binaryIndices c !! property = Some bi ->
  binary_index_ok (data c) property bi ->
  data (ensureIndex c property false) = data c
  /\ exists bi', binaryIndices (ensureIndex c property false) !! property = Some bi'
       /\ binary_index_ok (data c) property bi'.
Proof.
  intros Hbi Hok. split; [apply ensureIndex_data|].
  destruct (adaptiveBinaryIndices c) eqn:Had.
  - exists bi. split; [|done]. unfold ensureIndex. cbv zeta. rewrite Hbi, Had.
    simpl. by destruct (negb (bi_dirty bi)).
  - destruct (ensureIndex_valid c property false) as (_ & _ & bi' & H1 & _ & H2).
    + by rewrite Hbi.
    + intros bi0 Hbi0 _. rewrite Hbi in Hbi0. by injection Hbi0 as <-.
    + right. by left.
    + by exists bi'.
Qed.


(** ** [eqJoin] *)

Lemma build_joinMap_spec (rightJoinKey : joinKey)
    (rows : list (gmap string value)) (m : JoinMap) :
  (forall row, row ∈ rows -> join_key rightJoinKey row <> "__proto__") ->
  exists m', build_joinMap rightJoinKey (Some <$> rows) m = Return m'
    /\ proto m' = proto m
    /\ forall key, own m' !! key
         = match matching_row rightJoinKey rows key with
           | Some row => Some row
           | None => own m !! key
           end.
Proof.
  revert m. induction rows as [|row rows IH]; intros m Hkeys.
  - exists m. by repeat split.
  - rewrite fmap_cons. cbn [build_joinMap].
    destruct (IH (JoinMap_set m (join_key rightJoinKey row) row))
      as (m' & -> & Hproto & Hown).
    { intros r Hr. apply Hkeys. by right. }
    exists m'. split; [done|].
    assert (join_key rightJoinKey row <> "__proto__") as Hne by (apply Hkeys; left).
    unfold JoinMap_set in Hproto, Hown.
    rewrite (String_eqb_false _ _ Hne) in Hproto, Hown. simpl in Hproto, Hown.
    split; [done|]. intros key. rewrite Hown. unfold matching_row.
    destruct (decide (join_key rightJoinKey row = key)) as [Heq|Hneq].
    + rewrite filter_cons_True by done. rewrite Heq, lookup_insert_eq.
      destruct (filter _ rows) as [|r rest] eqn:Hf; [done|].
      rewrite (last_cons row (r :: rest)). by destruct (last (r :: rest)).
    + rewrite filter_cons_False by done. by rewrite lookup_insert_ne.
Qed.


(** ** Removing a batch of rows *)

Lemma ensureIndex_forced (c : Collection) (property : string) :
  ensureIndex c property true
  = set_dirty (fun _ => true)
      (set_binaryIndices
         (fun b => <[property :=
                       {| bi_name := property; bi_dirty := false;
                          values := array_sort (wrappedComparer property (data c))
                                               (prepareFullDocIndex c) |}]> b) c).
Proof.
  unfold ensureIndex. cbv zeta.
  destruct (binaryIndices c !! property); simpl; by rewrite ?andb_false_r.
Qed.

Lemma ensureIndex_forced_ok (c : Collection) (property : string) :
  binary_index_ok (data c) property
    {| bi_name := property; bi_dirty := false;
       values := array_sort (wrappedComparer property (data c))
                            (prepareFullDocIndex c) |}.
Proof.
  split; simpl.
  - apply array_sort_Permutation.
  - apply index_sorted_iff, array_sort_sorted.
Qed.

Lemma foldl_ensureIndex (keys : list string) (c : Collection) :
  let c' := foldl (fun c key => ensureIndex c key true) c keys in
  data c' = data c /\ idIndex c' = idIndex c
  /\ constraints_unique c' = constraints_unique c
  /\ uniqueNames c' = uniqueNames c
  /\ adaptiveBinaryIndices c' = adaptiveBinaryIndices c
  /\ transactional c' = transactional c
  /\ cachedData c' = cachedData c /\ cachedIndex c' = cachedIndex c
  /\ forall name bi, binaryIndices c' !! name = Some bi ->
       (name ∈ keys /\ binary_index_ok (data c) name bi)
       \/ ((name ∉ keys) /\ binaryIndices c !! name = Some bi).
Proof.
  revert c. induction keys as [|key keys IH]; intros c; cbv zeta.
  - cbn [foldl]. do 8 (split; [done|]). intros name bi Hbi. right.
    split; [apply not_elem_of_nil|done].
  - cbn [foldl].
    destruct (IH (ensureIndex c key true))
      as (Hd & Hi & Hcu & Hun & Had & Htr & Hcd & Hci & Hbi).
    rewrite Hd, Hi, Hcu, Hun, Had, Htr, Hcd, Hci.
    pose proof (ensureIndex_forced c key) as He.
    set (e := ensureIndex c key true) in *.
    do 8 (split; [by rewrite He|]). subst e.
    intros name bi Hname. destruct (Hbi name bi Hname) as [[Hin Hok]|[Hnot Hold]].
    + left. split; [by right|]. by rewrite ensureIndex_data in Hok.
    + rewrite ensureIndex_forced in Hold. simpl in Hold.
      destruct (decide (name = key)) as [->|Hne].
      * rewrite lookup_insert_eq in Hold. injection Hold as <-.
        left. split; [by left|]. apply ensureIndex_forced_ok.
      * rewrite lookup_insert_ne in Hold by done. right. split; [|done].
        by apply not_elem_of_cons.
Qed.

Lemma ensureAllIndexes_forced (c : Collection) :
  let c' := ensureAllIndexes c true in
  data c' = data c /\ idIndex c' = idIndex c
  /\ constraints_unique c' = constraints_unique c
  /\ uniqueNames c' = uniqueNames c
  /\ adaptiveBinaryIndices c' = adaptiveBinaryIndices c
  /\ transactional c' = transactional c
  /\ cachedData c' = cachedData c /\ cachedIndex c' = cachedIndex c
  /\ indices_ok c'.
Proof.
  unfold ensureAllIndexes.
  destruct (foldl_ensureIndex (map fst (map_to_list (binaryIndices c))) c)
    as (Hd & Hi & Hcu & Hun & Had & Htr & Hcd & Hci & Hbi).
  cbv zeta. do 8 (split; [done|]).
  intros name bi Hname. rewrite Hd.
  destruct (Hbi name bi Hname) as [[_ Hok]|[Hnot Hold]]; [done|].
  exfalso. apply Hnot, list_elem_of_In, in_map_iff.
  exists (name, bi). split; [done|].
  by apply list_elem_of_In, elem_of_map_to_list.
Qed.

Lemma filter_by_position {A : Type} (l : list A) (P : A -> Prop) (Q : Z -> Prop)
    `{forall x, Decision (P x)} `{forall p, Decision (Q p)} :
  (forall p x, nthZ l p = Some x -> (P x <-> Q p)) ->
  filter P l = omap (fun p => nthZ l p) (filter Q (seqZ 0 (lengthZ l))).
Proof.
  induction l as [|x l IH] using rev_ind; intros HPQ; [done|].
  rewrite lengthZ_app. change (lengthZ [x]) with 1.
  rewrite seqZ_app by (unfold lengthZ; lia). rewrite !filter_app, omap_app.
  rewrite Z.add_0_l. change (seqZ (lengthZ l) 1) with [lengthZ l].
  f_equal.
  - rewrite IH.
    + apply list_omap_ext, Forall_Forall2_diag, Forall_forall.
      intros p Hp. apply list_elem_of_filter in Hp as [_ Hp].
      apply elem_of_seqZ in Hp. rewrite nthZ_app_l; [done|lia].
    + intros p y Hy. apply HPQ. rewrite nthZ_app_l; [done|].
      apply nthZ_Some_range in Hy. lia.
  - pose proof (HPQ (lengthZ l) x (nthZ_snoc l x)) as Hx.
    destruct (decide (P x)) as [HP|HP].
    + rewrite filter_cons_True by done. rewrite (filter_cons_True Q) by (by apply Hx).
      simpl. by rewrite nthZ_snoc.
    + rewrite filter_cons_False by done.
      rewrite (filter_cons_False Q) by (by rewrite <- Hx). done.
Qed.

(** X21. [removeBatchByPositions], which [Resultset.remove()] hands its
    rows, removes the documents at these positions and no other, and keeps
    the others in their order.  On a collection without unique indexes,
    whose [$loki] read as strings are pairwise different, the documents left
    are those at the positions that were not passed; [idIndex] lists their
    [$loki]; with adaptive indices every binary index is rebuilt as a sorted
    permutation of the new positions, and otherwise every binary index is
    flagged dirty.  No [$loki] is to read as the name of a member of
    [Object.prototype], which the hash object of the ids to remove would
    inherit. *)
Theorem removeBatchByPositions_removes_rows (c : Collection) (positions : list Z) :
  idIndex_parallel c ->
  NoDup ((fun id => ToString id) <$> loki_ids c) ->
  (forall id, id ∈ loki_ids c -> ToString id ∉ Object_prototype_keys) ->
  constraints_unique c = ∅ ->
  (forall p, p ∈ positions -> 0 <= p < lengthZ (data c)) ->
  exists c',
    removeBatchByPositions c positions = (BatchUndefined, c')
    /\ data c' = omap (fun p => nthZ (data c) p)
                   (filter (fun p => p ∉ positions) (seqZ 0 (lengthZ (data c))))
    /\ idIndex c' = Some (loki_ids c')
    /\ adaptiveBinaryIndices c' = adaptiveBinaryIndices c
    /\ (adaptiveBinaryIndices c = true -> indices_ok c')
    /\ (adaptiveBinaryIndices c = false ->
        forall name bi, binaryIndices c' !! name = Some bi -> bi_dirty bi = true).
Proof.
  intros Hpar Hnd Hproto Hcu Hrange.
  unfold removeBatchByPositions, removeBatch_try. cbv zeta.
  rewrite Hcu. rewrite (bool_decide_eq_true_2 (∅ = ∅)) by done.
  cbn [negb]. rewrite orb_false_r.
  destruct (startTransaction_fields c)
    as (Hd1 & Hi1 & Hb1 & Hc1 & Hn1 & Ha1 & Hcl1 & Hm1).
  set (c1 := startTransaction c) in *.
  assert (data (ensureId c1) = data c /\ idIndex (ensureId c1) = Some (loki_ids c)
          /\ binaryIndices (ensureId c1) = binaryIndices c
          /\ adaptiveBinaryIndices (ensureId c1) = adaptiveBinaryIndices c)
    as (Hd2 & Hi2 & Hb2 & Ha2).
  { unfold ensureId. rewrite Hi1. unfold idIndex_parallel in Hpar.
    destruct (idIndex c) as [ids|] eqn:Hidx; simpl in *.
    - by rewrite Hi1, Hpar.
    - unfold loki_ids. by rewrite Hd1. }
  set (c2 := ensureId c1) in *. rewrite Hi2. cbn [default].
  set (xo := hash_names ((fun pos => ToString (val_at (loki_ids c) pos)) <$> positions)).
  assert (forall p d, nthZ (data c) p = Some d ->
            (ToString (get_prop d "$loki") ∉ xo <-> p ∉ positions)) as Hxo.
  { intros p d Hd.
    assert (nthZ ((fun id => ToString id) <$> loki_ids c) p
            = Some (ToString (get_prop d "$loki"))) as Hp
      by (unfold loki_ids; by rewrite !nthZ_fmap, Hd).
    pose proof (nthZ_Some_range _ _ _ Hd) as Hpr.
    split; intros Hnot Hin; apply Hnot.
    - unfold xo, hash_names. apply elem_of_app. left.
      apply list_elem_of_fmap. exists p. split; [|done].
      unfold val_at, loki_ids. by rewrite nthZ_fmap, Hd.
    - unfold xo, hash_names in Hin. apply elem_of_app in Hin as [Hin|Hin].
      2:{ exfalso. apply (Hproto (get_prop d "$loki")); [|done].
          unfold loki_ids. apply list_elem_of_fmap. exists d. split; [done|].
          rewrite nthZ_lookup in Hd by lia. by eapply list_elem_of_lookup_2. }
      apply list_elem_of_fmap in Hin as (p' & Heq & Hp').
      destruct (nthZ_is_Some (data c) p' (Hrange p' Hp')) as [d' Hd'].
      assert (nthZ ((fun id => ToString id) <$> loki_ids c) p'
              = Some (ToString (get_prop d "$loki"))) as Hp''.
      { unfold loki_ids. rewrite !nthZ_fmap, Hd'. simpl. f_equal.
        rewrite Heq. unfold val_at, loki_ids. by rewrite nthZ_fmap, Hd'. }
      pose proof (Hrange p' Hp') as Hpr'.
      rewrite nthZ_lookup in Hp, Hp'' by lia.
      assert (Z.to_nat p = Z.to_nat p') as Hsame
        by (by eapply NoDup_lookup).
      assert (p = p') as -> by lia. done. }
  assert (filter (fun obj => ToString (get_prop obj "$loki") ∉ xo) (data c)
          = omap (fun p => nthZ (data c) p)
                 (filter (fun p => p ∉ positions) (seqZ 0 (lengthZ (data c)))))
    as Hdata by (by apply filter_by_position).
  assert (filter (fun id => ToString id ∉ xo) (loki_ids c)
          = (fun d => get_prop d "$loki")
              <$> filter (fun obj => ToString (get_prop obj "$loki") ∉ xo) (data c))
    as Hids by (unfold loki_ids; by rewrite filter_fmap_comm).
  assert (forall cf,
            data cf = filter (fun obj => ToString (get_prop obj "$loki") ∉ xo) (data c) ->
            idIndex cf = Some (filter (fun id => ToString id ∉ xo) (loki_ids c)) ->
            data (set_dirty (fun _ => true) (commit cf))
            = omap (fun p => nthZ (data c) p)
                   (filter (fun p => p ∉ positions) (seqZ 0 (lengthZ (data c))))
            /\ idIndex (set_dirty (fun _ => true) (commit cf))
               = Some (loki_ids (set_dirty (fun _ => true) (commit cf)))
            /\ adaptiveBinaryIndices (set_dirty (fun _ => true) (commit cf))
               = adaptiveBinaryIndices cf
            /\ binaryIndices (set_dirty (fun _ => true) (commit cf))
               = binaryIndices cf) as Hfinal.
  { intros cf Hdf Hif.
    destruct (commit_fields cf) as (Hd & Hi & Hb & _ & _ & Ha & _).
    cbn [data idIndex adaptiveBinaryIndices binaryIndices set_dirty].
    unfold loki_ids at 1. cbn [data set_dirty].
    rewrite Hd, Hi, Hb, Ha, Hdf, Hif, Hids, Hdata. done. }
  destruct (bool_decide (binaryIndices c = ∅)) eqn:Hbic; cbn [negb].
  - (* no binary index *)
    apply bool_decide_eq_true in Hbic.
    rewrite !andb_false_r. cbn [andb].
    set (c3 := set_idIndex _ (set_data _ c2)).
    destruct (Hfinal c3) as (H1 & H2 & H3 & H4);
      [by subst c3; simpl; rewrite Hd2|done|].
    eexists. split; [reflexivity|].
    split; [done|]. split; [done|]. split; [by rewrite H3|].
    split; intros _ name bi; rewrite H4; subst c3; simpl;
      rewrite Hb2, Hbic, lookup_empty; done.
  - (* binary indices: flagged dirty, then rebuilt when adaptive *)
    rewrite !andb_true_r. rewrite Ha2.
    destruct (adaptiveBinaryIndices c) eqn:Had; cbn [negb andb].
    + set (c3 := set_idIndex _ (set_data _ (flagBinaryIndexesDirty c2))).
      assert (adaptiveBinaryIndices c3 = true) as -> by (subst c3; simpl; done).
      cbn [andb].
      destruct (ensureAllIndexes_forced (set_adaptiveBinaryIndices false c3))
        as (He1 & He2 & _ & _ & _ & _ & _ & _ & He9).
      set (c4 := ensureAllIndexes (set_adaptiveBinaryIndices false c3) true) in *.
      assert (data c4
              = filter (fun obj => ToString (get_prop obj "$loki") ∉ xo) (data c))
        as Hd4 by (rewrite He1; subst c3; simpl; by rewrite Hd2).
      destruct (Hfinal (set_adaptiveBinaryIndices true c4)) as (H1 & H2 & H3 & H4);
        [done| |].
      { cbn [idIndex set_adaptiveBinaryIndices]. by rewrite He2. }
      eexists. split; [reflexivity|].
      split; [done|]. split; [done|]. split; [by rewrite H3|]. split; [|done].
      intros _ name bi. rewrite H4, H1. cbn [binaryIndices set_adaptiveBinaryIndices].
      intros Hname. destruct (He9 name bi Hname) as [Hperm Hsorted].
      rewrite Hd4, Hdata in Hperm, Hsorted. by split.
    + set (c3 := set_idIndex _ (set_data _ (flagBinaryIndexesDirty c2))).
      assert (adaptiveBinaryIndices c3 = false) as -> by (subst c3; simpl; done).
      cbn [andb].
      destruct (Hfinal c3) as (H1 & H2 & H3 & H4);
        [by subst c3; simpl; rewrite Hd2|done|].
      eexists. split; [reflexivity|].
      split; [done|]. split; [done|].
      split; [rewrite H3; subst c3; simpl; by rewrite Ha2|]. split; [done|].
      intros _ name bi. rewrite H4. subst c3. simpl. rewrite lookup_fmap, Hb2.
      destruct (binaryIndices c !! name); simpl; by intros [= <-].
Qed.

(** The loop of [checkIndex] accepts the positions whose key is not above
    the key of the next position. *)
Lemma checkIndex_loop_spec (key : Z -> value) (positions : list Z) :
  checkIndex_loop key positions = true
  <-> forall idx, idx ∈ positions -> Comparator (key idx) (key (idx + 1)) <> Gt.
Proof.
  induction positions as [|idx rest IH]; simpl.
  - split; [|done]. intros _ idx Hidx. by apply elem_of_nil in Hidx.
  - rewrite ltHelper_Comparator.
    destruct (Comparator (key idx) (key (idx + 1))) eqn:E; simpl.
    + rewrite IH. split.
      * intros H i [->|Hi]%elem_of_cons; [by rewrite E|by apply H].
      * intros H i Hi. apply H. by right.
    + rewrite IH. split.
      * intros H i [->|Hi]%elem_of_cons; [by rewrite E|by apply H].
      * intros H i Hi. apply H. by right.
    + split; [done|]. intros H. exfalso. apply (H idx); [by left|done].
Qed.

(** Keys that do not decrease from each position to the next are sorted. *)
Lemma keys_sorted_adjacent (key : Z -> value) (n : Z) :
  keys_sorted key n
  <-> forall idx, 0 <= idx < n - 1 -> Comparator (key idx) (key (idx + 1)) <> Gt.
Proof.
  split.
  - intros H idx Hidx. apply H; lia.
  - intros H i j Hi Hij Hj.
    replace j with (i + Z.of_nat (Z.to_nat (j - i))) by lia.
    assert (i + Z.of_nat (Z.to_nat (j - i)) < n) as Hb by lia.
    induction (Z.to_nat (j - i)) as [|k IH].
    + rewrite Z.add_0_r, Comparator_refl. done.
    + eapply Comparator_le_trans; [apply IH; lia|].
      replace (i + Z.of_nat (S k)) with (i + Z.of_nat k + 1) by lia.
      apply H. lia.
Qed.

(** X22. [checkIndex(property, { repair })] on an index the collection
    keeps up to date (adaptive indices, or an index that is not dirty).  It
    accepts every index that is a sorted permutation of the positions of
    [data]; on an index that lists every position once it accepts no other;
    it changes nothing unless it rejects the index and is to repair it, and
    then leaves a rebuilt index, which is valid. *)
Theorem checkIndex_accepts_sorted_permutations (c : Collection) (property : string)
    (repair : bool) (bi : BinaryIndex) :
  binaryIndices c !! property = Some bi ->
  adaptiveBinaryIndices c = true \/ bi_dirty bi = false ->
  exists valid c',
    checkIndex c property repair = (Return valid, c')
    /\ data c' = data c
    /\ (binary_index_ok (data c) property bi -> valid = true)
    /\ (values bi ≡ₚ seqZ 0 (lengthZ (data c)) -> valid = true ->
        binary_index_ok (data c) property bi)
    /\ (valid = true \/ repair = false -> c' = c)
    /\ (valid = false -> repair = true ->
        exists bi', binaryIndices c' !! property = Some bi'
                    /\ bi_dirty bi' = false
                    /\ binary_index_ok (data c) property bi').
Proof.
  intros Hbi Hkept. unfold checkIndex. rewrite Hbi. cbv zeta.
  assert ((if negb (adaptiveBinaryIndices c) then ensureIndex c property false else c)
          = c) as ->.
  { destruct (adaptiveBinaryIndices c) eqn:Had; [done|]. simpl.
    destruct Hkept as [?|Hclean]; [done|].
    unfold ensureIndex. cbv zeta. by rewrite Hbi, Hclean. }
  rewrite Hbi.
  assert (exists bi', binaryIndices (ensureIndex c property true) !! property = Some bi'
                      /\ bi_dirty bi' = false
                      /\ binary_index_ok (data c) property bi') as Hrepair.
  { rewrite ensureIndex_forced. eexists. split; [apply lookup_insert_eq|].
    split; [done|]. apply ensureIndex_forced_ok. }
  destruct (lengthZ (values bi) =? lengthZ (data c)) eqn:Hlen; cbn [negb].
  2:{ apply Z.eqb_neq in Hlen.
      assert (~ values bi ≡ₚ seqZ 0 (lengthZ (data c))) as Hnot.
      { intros Hperm. apply Hlen. rewrite (lengthZ_Permutation _ _ Hperm).
        apply lengthZ_seqZ. unfold lengthZ. lia. }
      eexists _, _. split; [reflexivity|].
      split; [by destruct repair; rewrite ?ensureIndex_data|].
      split; [by intros [? _]|]. split; [done|].
      split; [by intros [?| ->]|]. by intros _ ->. }
  apply Z.eqb_eq in Hlen.
  destruct (lengthZ (values bi) =? 0) eqn:Hzero.
  { apply Z.eqb_eq in Hzero.
    eexists _, _. split; [reflexivity|]. split; [done|]. split; [done|].
    split; [|done]. intros Hperm _. split; [done|].
    intros i j ? ? ?. lia. }
  apply Z.eqb_neq in Hzero.
  set (key := indexed_value (data c) (values bi) property (has_dot property)).
  set (valid := if lengthZ (values bi) =? 1 then _ else _).
  assert ((values bi ≡ₚ seqZ 0 (lengthZ (data c)) -> valid = true ->
           index_sorted (data c) (values bi) property)
          /\ (binary_index_ok (data c) property bi -> valid = true)) as [Hexact Haccepts].
  { subst valid. unfold index_sorted. fold key.
    destruct (lengthZ (values bi) =? 1) eqn:Hone.
    - apply Z.eqb_eq in Hone. split.
      + intros _ _ i j ? ? ?. replace j with i by lia. by rewrite Comparator_refl.
      + intros [Hperm _]. rewrite <- Hlen, Hone in Hperm.
        change (seqZ 0 1) with [0] in Hperm.
        apply Permutation_singleton_r in Hperm. rewrite Hperm.
        by apply bool_decide_eq_true.
    - split.
      + intros _ Hvalid. apply keys_sorted_adjacent. intros idx Hidx.
        apply (proj1 (checkIndex_loop_spec _ _) Hvalid). apply elem_of_seqZ. lia.
      + intros [_ Hsorted]. apply checkIndex_loop_spec. intros idx Hidx.
        apply elem_of_seqZ in Hidx.
        apply (proj1 (keys_sorted_adjacent _ _) Hsorted). lia. }
  clearbody valid.
  eexists _, _. split; [reflexivity|].
  split; [by destruct (negb valid && repair); rewrite ?ensureIndex_data|].
  split; [done|]. split; [by split; [|apply Hexact]|].
  split.
  - intros [->| ->]; [done|]. by rewrite andb_false_r.
  - intros -> ->. done.
Qed.

End Engine.

(** * Concrete collections

    The properties above are run on the example collections, the builtins
    being instantiated by [integerStringToNumber] and
    [integerNumberToString]. *)

(** [people] satisfies the invariants. *)
Lemma people_indices_ok : indices_ok integerStringToNumber people.
Proof.
  intros name bi H. unfold people in H. cbn [binaryIndices] in H.
  apply lookup_singleton_Some in H as [<- <-]. split.
  - apply perm_swap.
  - apply keys_sortedb_sound. vm_compute. done.
Qed.

Lemma people_ids_ascending : ids_ascending (loki_ids people).
Proof. apply ids_ascendingb_sound. vm_compute. done. Qed.

Lemma people_ids_below_maxId :
  ids_below_maxId integerStringToNumber people.
Proof.
  exists (Q2Qc (inject_Z 3)). split; [done|]. intros v Hv.
  unfold loki_ids, people in Hv. simpl in Hv.
  repeat (apply elem_of_cons in Hv as [->|Hv]);
    try (eexists; split; [reflexivity|vm_compute; done]).
  by apply elem_of_nil in Hv.
Qed.

Lemma people_maxId_safe :
  safe_integer (ToNumber integerStringToNumber (maxId people)).
Proof. exists 3. split; [done|lia]. Qed.

Lemma people_unique_ok : unique_ok people.
Proof.
  split; [constructor|]. intros name u H. unfold people in H.
  cbn [constraints_unique] in H. by rewrite lookup_empty in H.
Qed.

(** C1 (counterexample): the specification places [null] below [NaN]; the
    helpers place [NaN] below [null]. *)
Lemma null_is_not_below_NaN :
  spec_tier VNull < spec_tier (VNum NaN)
  /\ ltHelper integerStringToNumber integerNumberToString VNull (VNum NaN) false = false
  /\ ltHelper integerStringToNumber integerNumberToString (VNum NaN) VNull false = true.
Proof. repeat split. Qed.

(** C3 (counterexample): [null] is a hole of the index on [age] of [people];
    [calculateRangeEnd] computes -1 for it and [$gt] returns [[0, 2]], not
    [[-1, 2]].  For [$in] an empty match is the empty array, not [[0, -1]]. *)
Lemma gt_below_every_key_is_not_ubound :
  calculateRangeEnd integerStringToNumber integerNumberToString
    (data people) [1; 0; 2] "age" VNull false = -1
  /\ calculateRange integerStringToNumber integerNumberToString
       (data people) [1; 0; 2] (O_gt VNull) "age" = Range 0 2
  /\ calculateRange integerStringToNumber integerNumberToString
       (data people) [1; 0; 2] (O_in [VNum (num_of_Z 7)]) "age" = Positions [].
Proof. vm_compute. done. Qed.

(** The edge policy on the index of [people]: no document is 7 years old; 30
    is a key of the index and 28 is a hole. *)
Lemma calculateRange_edge_policy_witness :
  calculateRange integerStringToNumber integerNumberToString
    (data people) [1; 0; 2] (O_eq (VNum (num_of_Z 7))) "age" = Range 0 (-1)
  /\ calculateRange integerStringToNumber integerNumberToString
       (data people) [1; 0; 2] (O_gt (VNum (num_of_Z 30))) "age"
     = Range (calculateRangeEnd integerStringToNumber integerNumberToString
                (data people) [1; 0; 2] "age" (VNum (num_of_Z 30)) false + 1) 2
  /\ calculateRange integerStringToNumber integerNumberToString
       (data people) [1; 0; 2] (O_gt (VNum (num_of_Z 28))) "age"
     = Range (calculateRangeEnd integerStringToNumber integerNumberToString
                (data people) [1; 0; 2] "age" (VNum (num_of_Z 28)) false) 2.
Proof.
  destruct (calculateRange_edge_policy integerStringToNumber integerNumberToString
              (data people) [1; 0; 2] "age") as [Hempty Hgt].
  - vm_compute. done.
  - vm_compute. done.
  - apply keys_sortedb_sound. vm_compute. done.
  - split; [|split].
    + apply Hempty; [done|]. intros i Hi.
      assert (i = 0 \/ i = 1 \/ i = 2) as [-> | [-> | ->]] by (unfold lengthZ in Hi; simpl in Hi; lia);
        vm_compute; done.
    + destruct (Hgt (VNum (num_of_Z 30))) as (_ & Hfound & _).
      * exists 2. split; [vm_compute; done|]. vm_compute. done.
      * apply Hfound. exists 1. split; [vm_compute; done|]. vm_compute. done.
    + destruct (Hgt (VNum (num_of_Z 28))) as (_ & _ & Hhole).
      * exists 2. split; [vm_compute; done|]. vm_compute. done.
      * apply Hhole; [vm_compute; done|]. intros i Hi.
        assert (i = 0 \/ i = 1 \/ i = 2) as [-> | [-> | ->]] by (unfold lengthZ in Hi; simpl in Hi; lia);
          vm_compute; done.
Defined.

(** C8 (counterexample): [get(1.5)] returns [null]; it does not throw. *)
Lemma get_of_a_fraction_returns_null :
  (Collection_get integerStringToNumber integerNumberToString
     people (VNum (Finite (Q2Qc (3 # 2)))) false).1 = Return GotNull.
Proof. vm_compute. done. Qed.

(** C9 (counterexample): a document that was inserted and then removed is
    inserted a second time.  [remove] deletes [$loki] from the object it is
    passed and returns that object: once removed, the reference [insert]
    had returned holds [{ name: 'd' }]. *)
Lemma removed_document_is_inserted_again :
  exists c1 c2 c3,
    Collection_insert integerStringToNumber integerNumberToString
      new_collection (ArgDoc {[ "name" := VStr "d" ]})
    = (Return {[ "name" := VStr "d"; "$loki" := VNum (num_of_Z 1) ]}, c1)
    /\ Collection_remove integerStringToNumber integerNumberToString
         c1 (ArgDoc {[ "name" := VStr "d"; "$loki" := VNum (num_of_Z 1) ]})
       = (Return (RemovedDoc {[ "name" := VStr "d" ]}), c2)
    /\ Collection_insert integerStringToNumber integerNumberToString
         c2 (ArgDoc {[ "name" := VStr "d" ]})
       = (Return {[ "name" := VStr "d"; "$loki" := VNum (num_of_Z 2) ]}, c3).
Proof.
  eexists _, _, _. split; [vm_compute; reflexivity|].
  split; [vm_compute; reflexivity|].
  vm_compute. reflexivity.
Qed.

(** [get(2, true)] on [people]. *)
Lemma get_by_id_witness :
  (Collection_get integerStringToNumber integerNumberToString
     people (VNum (num_of_Z 2)) true).1
  = Return (GotPair (Some (person "b" (VNum (num_of_Z 25)) 2)) 1).
Proof.
  destruct (get_by_id integerStringToNumber integerNumberToString
              people (VNum (num_of_Z 2)) true) as [_ H].
  - vm_compute. done.
  - apply ids_ascendingb_sound. vm_compute. done.
  - destruct H as [H _]; [vm_compute; done|].
    apply (H 1 (person "b" (VNum (num_of_Z 25)) 2)); vm_compute; done.
Defined.

(** A document of [people] is not added again. *)
Lemma add_rejects_document_with_loki_witness :
  Collection_add integerStringToNumber integerNumberToString
    people (ArgDoc (person "b" (VNum (num_of_Z 25)) 2))
  = (Throw already_in_collection, people)
  /\ Collection_insert integerStringToNumber integerNumberToString
       people (ArgDoc (person "b" (VNum (num_of_Z 25)) 2))
     = (Throw already_in_collection, people).
Proof.
  destruct (add_rejects_document_with_loki integerStringToNumber
              integerNumberToString people (person "b" (VNum (num_of_Z 25)) 2))
    as (Hadd & Hinsert & _).
  - left. vm_compute. done.
  - by split.
Defined.

(** [data()] on [people.chain()], and on a result set that matched nothing. *)
Lemma data_on_empty_filteredrows_witness :
  (Resultset_data (chain people) no_options).1 = Return (Some <$> data people)
  /\ (Resultset_data {| collection := people; filteredrows := [];
                        filterInitialized := true |} no_options).1 = Return [].
Proof.
  split.
  - destruct (data_on_empty_filteredrows (chain people) no_options eq_refl)
      as [H _].
    destruct (H eq_refl) as (_ & _ & _ & H'). exact (H' eq_refl).
  - destruct (data_on_empty_filteredrows
                {| collection := people; filteredrows := [];
                   filterInitialized := true |} no_options eq_refl) as [_ H].
    exact (H eq_refl).
Defined.

(** [named] is the state reached by [insert({ name: 'a' })] on a new
    collection with a unique constraint on [name]. *)
Example named_is_reached :
  (Collection_insert integerStringToNumber integerNumberToString
     (ensureUniqueIndex integerNumberToString new_collection "name").2
     (ArgDoc {[ "name" := VStr "a" ]})).2 = named.
Proof. vm_compute. done. Qed.

(** The second [insert({ name: 'a' })] throws and [count()] stays 1. *)
Example second_insert_throws :
  (Collection_insert integerStringToNumber integerNumberToString
     named (ArgDoc {[ "name" := VStr "a" ]})).1
  = Throw (Error "Duplicate key for property name: a")
  /\ Collection_count
       (Collection_insert integerStringToNumber integerNumberToString
          named (ArgDoc {[ "name" := VStr "a" ]})).2 = 1.
Proof. vm_compute. done. Qed.

(** The duplicate is rejected on [named]. *)
Lemma unique_constraint_rejects_duplicate_witness :
  exists e c',
    Collection_insert integerStringToNumber integerNumberToString
      named (ArgDoc {[ "name" := VStr "a" ]}) = (Throw e, c')
    /\ DuplicateKey e
    /\ Collection_count c' = Collection_count named.
Proof.
  destruct (unique_constraint_rejects_duplicate
              integerStringToNumber integerNumberToString named "name"
              {| field := "name";
                 keyMap := {[ "a" := {[ "name" := VStr "a";
                                        "$loki" := VNum (num_of_Z 1) ]} ]};
                 lokiMap := {[ "1" := VStr "a" ]} |}
              {[ "name" := VStr "a" ]}
              {[ "name" := VStr "a"; "$loki" := VNum (num_of_Z 1) ]})
    as (e & c' & Hthrow & Hdup & Hcount & _); try (vm_compute; done).
  - apply list_elem_of_In. vm_compute. by left.
  - apply list_elem_of_In. vm_compute. by left.
  - by exists e, c'.
Defined.

(** C7: on [ageless], whose binary index on [age] serves the first [find],
    [{ age: { $aeq: NaN } }] finds the document, and the same [find] chained
    once more, a linear scan with [==], finds nothing. *)
Theorem find_twice_is_not_find_once :
  found_rows (Resultset_find integerStringToNumber integerNumberToString
                aeq_NaN false (chain ageless)) = Return [0]
  /\ found_rows (find_twice integerStringToNumber integerNumberToString
                   aeq_NaN (chain ageless)) = Return [].
Proof. vm_compute. done. Qed.

(** C10: a left document whose join key is 'constructor' has no match in
    empty right data, and the map function receives what [joinMap] inherits
    under that name, not an empty object. *)
Theorem eqJoin_unmatched_row_inherits :
  Resultset_eqJoin integerNumberToString (chain constructors) (JoinArray [])
    (KeyField "k") (KeyField "k") default_mapFun no_options
  = Return [({[ "k" := VStr "constructor"; "$loki" := VNum (num_of_Z 1) ]},
             RightInherited "constructor")].
Proof. vm_compute. done. Qed.

(** Removing the document at position 1 of [people] turns the index
    [[1; 0; 2]] into [[0; 1]]. *)
Lemma remove_shifts_binary_indices_witness :
  exists c',
    Collection_remove integerStringToNumber integerNumberToString
      people (ArgDoc (person "b" (VNum (num_of_Z 25)) 2))
    = (Return (RemovedDoc (delete "meta" (delete "$loki"
                 (person "b" (VNum (num_of_Z 25)) 2)))), c')
    /\ data c' = splice_remove (data people) 1
    /\ (values <$> binaryIndices c' !! "age") = Some [0; 1].
Proof.
  destruct (remove_shifts_binary_indices integerStringToNumber integerNumberToString
              people 1 (person "b" (VNum (num_of_Z 25)) 2) (num_of_Z 2))
    as (c' & Hrm & Hdata & Hbi & _).
  - done.
  - vm_compute. done.
  - apply people_ids_ascending.
  - apply people_indices_ok.
  - vm_compute. done.
  - vm_compute. done.
  - done.
  - done.
  - exists c'. split; [done|]. split; [done|].
    destruct (Hbi "age" {| bi_name := "age"; bi_dirty := false; values := [1; 0; 2] |})
      as (bi' & Hlookup & Hvalues); [done|].
    rewrite Hlookup. simpl. rewrite Hvalues. vm_compute. done.
Defined.


(** [calculateRange] is exact on the index of [people]. *)
Lemma calculateRange_exact_witness :
  let key := indexed_value (data people) [1; 0; 2] "age"
               (has_dot "age") in
  (forall op, range_operator op = true ->
     exists lo hi,
       calculateRange integerStringToNumber integerNumberToString
         (data people) [1; 0; 2] op "age" = Range lo hi
       /\ (lo <= hi -> 0 <= lo /\ hi < lengthZ [1; 0; 2])
       /\ forall i, 0 <= i < lengthZ [1; 0; 2] ->
            (lo <= i <= hi <-> range_test integerStringToNumber integerNumberToString op (key i) = true))
  /\ (forall vals,
        exists seg,
          calculateRange integerStringToNumber integerNumberToString
            (data people) [1; 0; 2] (O_in vals) "age" = Positions seg
          /\ NoDup seg
          /\ forall i, i ∈ seg <->
               0 <= i < lengthZ [1; 0; 2]
               /\ exists v, v ∈ vals
                    /\ aeqHelper integerStringToNumber integerNumberToString (key i) v = true).
Proof.
  apply (calculateRange_exact integerStringToNumber integerNumberToString
           (data people) [1; 0; 2] "age").
  - vm_compute. done.
  - vm_compute. done.
  - apply keys_sortedb_sound. vm_compute. done.
Defined.

(** [ensureIndex] builds an index on [name], which [people] does not index. *)
Lemma ensureIndex_builds_index_witness :
  let c' := ensureIndex integerStringToNumber integerNumberToString
              people "name" false in
  (exists bi, binaryIndices c' !! "name" = Some bi
     /\ bi_dirty bi = false
     /\ binary_index_ok integerStringToNumber (data c') "name" bi)
  /\ data c' = data people
  /\ idIndex c' = idIndex people
  /\ constraints_unique c' = constraints_unique people
  /\ (forall p, p <> "name" -> binaryIndices c' !! p = binaryIndices people !! p).
Proof.
  apply (ensureIndex_builds_index integerStringToNumber integerNumberToString
           people "name" false).
  - apply (bool_decide_unpack _). vm_compute. done.
  - intros bi H. vm_compute in H. discriminate H.
  - right. right. vm_compute. done.
Defined.


(** Inserting a fourth document into [people] and looking the four up. *)
Lemma insert_then_get_witness :
  let doc : gmap string value := {[ "name" := VStr "d"; "age" := VNum (num_of_Z 28) ]} in
  let d : gmap string value :=
    {[ "name" := VStr "d"; "age" := VNum (num_of_Z 28); "$loki" := VNum (num_of_Z 4) ]} in
  let c1 := (Collection_insert integerStringToNumber integerNumberToString
               people (ArgDoc doc)).2 in
  exists stored,
    data c1 = data people ++ [stored]
    /\ d = (if cloneObjects people then clone stored ParseStringify else stored)
    /\ get_prop d "$loki" = VNum (num_succ (ToNumber integerStringToNumber (maxId people)))
    /\ Collection_count c1 = Collection_count people + 1
    /\ (Collection_get integerStringToNumber integerNumberToString c1 (get_prop d "$loki") true).1
       = Return (GotPair (Some stored) (Collection_count people))
    /\ (forall pos old, nthZ (data people) pos = Some old ->
          (Collection_get integerStringToNumber integerNumberToString c1 (get_prop old "$loki") true).1
          = Return (GotPair (Some old) pos)).
Proof.
  intros doc d c1.
  apply (insert_then_get integerStringToNumber integerNumberToString
           people c1 doc d).
  - vm_compute. done.
  - apply people_ids_ascending.
  - apply people_ids_below_maxId.
  - apply people_maxId_safe.
  - vm_compute. done.
Defined.

(** [people] is still well formed with a fourth document. *)
Lemma insert_keeps_invariants_witness :
  let doc : gmap string value := {[ "name" := VStr "d"; "age" := VNum (num_of_Z 28) ]} in
  let c1 := (Collection_insert integerStringToNumber integerNumberToString
               people (ArgDoc doc)).2 in
  adaptiveBinaryIndices c1 = true
  /\ idIndex_parallel c1 /\ ids_ascending (loki_ids c1)
  /\ ids_below_maxId integerStringToNumber c1
  /\ indices_ok integerStringToNumber c1 /\ unique_ok c1
  /\ uniqueNames c1 = uniqueNames people
  /\ (forall name, is_Some (binaryIndices c1 !! name)
                   <-> is_Some (binaryIndices people !! name)).
Proof.
  intros doc c1.
  apply (insert_keeps_invariants integerStringToNumber integerNumberToString
           people c1 doc
           {[ "name" := VStr "d"; "age" := VNum (num_of_Z 28);
              "$loki" := VNum (num_of_Z 4) ]}).
  - done.
  - vm_compute. done.
  - apply people_ids_ascending.
  - apply people_ids_below_maxId.
  - apply people_maxId_safe.
  - exists 4. split; [vm_compute; done|lia].
  - apply people_indices_ok.
  - apply people_unique_ok.
  - vm_compute. done.
Defined.

(** [people] is still well formed without its second document. *)
Lemma remove_keeps_invariants_witness :
  exists r c',
    Collection_remove integerStringToNumber integerNumberToString
      people (ArgDoc (person "b" (VNum (num_of_Z 25)) 2)) = (Return r, c')
    /\ adaptiveBinaryIndices c' = true
    /\ idIndex_parallel c' /\ ids_ascending (loki_ids c')
    /\ ids_below_maxId integerStringToNumber c'
    /\ indices_ok integerStringToNumber c' /\ unique_ok c'
    /\ maxId c' = maxId people
    /\ Collection_count c' = Collection_count people - 1.
Proof.
  apply (remove_keeps_invariants integerStringToNumber integerNumberToString
           people 1 (person "b" (VNum (num_of_Z 25)) 2) (num_of_Z 2)).
  - done.
  - vm_compute. done.
  - apply people_ids_ascending.
  - apply people_ids_below_maxId.
  - apply people_indices_ok.
  - apply people_unique_ok.
  - vm_compute. done.
  - vm_compute. done.
  - done.
  - done.
Defined.

(** Once the second document of [people] is removed, [get(2)] is [null] and
    the third document is found at position 1. *)
Lemma remove_then_get_witness :
  exists r c',
    Collection_remove integerStringToNumber integerNumberToString
      people (ArgDoc (person "b" (VNum (num_of_Z 25)) 2)) = (Return r, c')
    /\ (Collection_get integerStringToNumber integerNumberToString c' (VNum (num_of_Z 2)) true).1
       = Return GotNull
    /\ (forall pos other, pos <> 1 -> nthZ (data people) pos = Some other ->
          (Collection_get integerStringToNumber integerNumberToString c' (get_prop other "$loki") true).1
          = Return (GotPair (Some other) (if pos >? 1 then pos - 1 else pos))).
Proof.
  apply (remove_then_get integerStringToNumber integerNumberToString
           people 1 (person "b" (VNum (num_of_Z 25)) 2) (num_of_Z 2)).
  - done.
  - vm_compute. done.
  - apply people_ids_ascending.
  - apply people_indices_ok.
  - vm_compute. done.
  - vm_compute. done.
  - done.
  - done.
Defined.

Lemma named_unique_ok : unique_ok named.
Proof.
  split; [apply NoDup_singleton|]. intros name u H. unfold named in H.
  cbn [constraints_unique] in H. by apply lookup_singleton_Some in H as [<- <-].
Qed.

(** Filing [{ name: 'a', $loki: 1 }] in a new unique index on [name]. *)
Lemma UniqueIndex_set_get_remove_witness :
  let obj : gmap string value := {[ "name" := VStr "a"; "$loki" := VNum (num_of_Z 1) ]} in
  let u := UniqueIndex_new "name" in
  let u' := {| field := "name"; keyMap := {[ "a" := obj ]};
               lokiMap := {[ "1" := VStr "a" ]} |} in
  let key := get_prop obj (field u) in
  (forall key', ToString integerNumberToString key' = ToString integerNumberToString key ->
     UniqueIndex_get integerNumberToString u' key' = Some obj)
  /\ (forall key', ToString integerNumberToString key' <> ToString integerNumberToString key ->
        UniqueIndex_get integerNumberToString u' key'
        = UniqueIndex_get integerNumberToString u key')
  /\ (forall other, has_key (get_prop other (field u)) = true ->
        ToString integerNumberToString (get_prop other (field u))
        = ToString integerNumberToString key ->
        exists e, UniqueIndex_set integerNumberToString u' other = Throw e
                  /\ DuplicateKey e)
  /\ exists u'', UniqueIndex_remove integerNumberToString u' key = Return u''
       /\ UniqueIndex_get integerNumberToString u'' key = None
       /\ keyMap u'' = keyMap u /\ field u'' = field u.
Proof.
  intros obj u u' key.
  apply (UniqueIndex_set_get_remove integerNumberToString u u' obj).
  - vm_compute. done.
  - done.
Defined.

(** On [named], the document inserted with the name 'b' is found under
    'b'. *)
Lemma insert_then_by_witness :
  let doc : gmap string value := {[ "name" := VStr "b" ]} in
  let d : gmap string value := {[ "name" := VStr "b"; "$loki" := VNum (num_of_Z 2) ]} in
  let c1 := (Collection_insert integerStringToNumber integerNumberToString
               named (ArgDoc doc)).2 in
  Collection_by integerNumberToString c1 "name" (get_prop d "name")
  = (Return (ByDoc d), c1).
Proof.
  intros doc d c1.
  apply (insert_then_by integerStringToNumber integerNumberToString
           named c1 doc d "name" (Q2Qc (inject_Z 1))).
  - apply named_unique_ok.
  - done.
  - apply list_elem_of_In. vm_compute. by left.
  - vm_compute. done.
  - done.
Defined.



(** Searching [4] in [[1; 3; 5]] with [a - b]: not found, to be inserted at
    position 2. *)
Lemma binarySearch_finds_or_places_witness :
  let at_ i := Z.sub 4 (default 0 (nthZ [1; 3; 5] i)) in
  let r := binarySearch 0 [1; 3; 5] 4 Z.sub in
  0 <= index r <= lengthZ [1; 3; 5]
  /\ (found r = true -> index r < lengthZ [1; 3; 5] /\ at_ (index r) = 0)
  /\ (found r = false ->
      (forall i, 0 <= i < index r -> 0 < at_ i)
      /\ (forall i, index r <= i < lengthZ [1; 3; 5] -> at_ i < 0))
  /\ (found r = true <-> exists i, 0 <= i < lengthZ [1; 3; 5] /\ at_ i = 0).
Proof.
  apply (binarySearch_finds_or_places 0 [1; 3; 5] 4 Z.sub).
  intros i j Hi Hij Hj. change (lengthZ [1; 3; 5]) with 3 in Hj.
  assert (i = 0 \/ i = 1 \/ i = 2) as [-> | [-> | ->]] by lia;
    assert (j = 0 \/ j = 1 \/ j = 2) as [-> | [-> | ->]] by lia;
    vm_compute; split; intros H; try done; try (by destruct H); lia.
Defined.

(** On [registered], inserting [{ name: 'b', email: 'a@x' }] fails on the
    email and leaves the name 'b' taken. *)
Lemma failed_insert_is_not_undone_witness :
  let doc : gmap string value := {[ "name" := VStr "b"; "email" := VStr "a@x" ]} in
  let obj : gmap string value :=
    <["$loki" := VNum (Finite (Q2Qc (inject_Z 1) + 1)%Qc)]> doc in
  exists e c',
    Collection_insert integerStringToNumber integerNumberToString
      registered (ArgDoc doc) = (Throw e, c')
    /\ DuplicateKey e
    /\ Collection_count c' = Collection_count registered
    /\ maxId c' = VNum (Finite (Q2Qc (inject_Z 1) + 1)%Qc)
    /\ Collection_by integerNumberToString c' "name" (get_prop obj "name")
       = (Return (ByDoc obj), c').
Proof.
  intros doc obj.
  apply (failed_insert_is_not_undone integerStringToNumber integerNumberToString
           registered doc "name" "email" []
           {| field := "name";
              keyMap := {[ "a" := {[ "name" := VStr "a"; "email" := VStr "a@x";
                                     "$loki" := VNum (num_of_Z 1) ]} ]};
              lokiMap := {[ "1" := VStr "a" ]} |}
           {| field := "email";
              keyMap := {[ "a@x" := {[ "name" := VStr "a"; "email" := VStr "a@x";
                                       "$loki" := VNum (num_of_Z 1) ]} ]};
              lokiMap := {[ "1" := VStr "a@x" ]} |}
           {[ "name" := VStr "a"; "email" := VStr "a@x";
              "$loki" := VNum (num_of_Z 1) ]}
           (Q2Qc (inject_Z 1))).
  - done.
  - done.
  - vm_compute. done.
  - done.
  - vm_compute. done.
  - done.
  - vm_compute. done.
  - done.
  - exists 1. split; [done|lia].
  - vm_compute. done.
  - vm_compute. done.
  - vm_compute. done.
  - vm_compute. done.
Defined.

(** [people] once the second document is 50 years old: the index
    [[1; 0; 2]] on [age] is sorted apart from position 1, and is repaired. *)
Lemma adaptiveBinaryIndexUpdate_repairs_witness :
  binary_index_ok integerStringToNumber
    [person "a" (VNum (num_of_Z 30)) 1; person "b" (VNum (num_of_Z 50)) 2;
     person "c" (VNum (num_of_Z 40)) 3] "age"
    (adaptiveBinaryIndexUpdate integerStringToNumber integerNumberToString
       [person "a" (VNum (num_of_Z 30)) 1; person "b" (VNum (num_of_Z 50)) 2;
        person "c" (VNum (num_of_Z 40)) 3] 1 "age"
       {| bi_name := "age"; bi_dirty := false; values := [1; 0; 2] |}).
Proof.
  apply (adaptiveBinaryIndexUpdate_repairs integerStringToNumber integerNumberToString).
  - apply perm_swap.
  - vm_compute. split; [discriminate|done].
  - replace (filter (fun v => v <> 1) (values {| bi_name := "age"; bi_dirty := false;
                                                 values := [1; 0; 2] |}))
      with [0; 2] by done.
    apply index_sorted_iff, keys_sortedb_sound. vm_compute. done.
Defined.

(** Updating the second document of [people] to the age of 50. *)
Lemma update_replaces_document_witness :
  let doc := person "b" (VNum (num_of_Z 50)) 2 in
  exists c',
    Collection_update integerStringToNumber integerNumberToString
      people (ArgDoc doc) = (Return doc, c')
    /\ nthZ (data c') 1 = Some doc
    /\ (forall pos, pos <> 1 -> nthZ (data c') pos = nthZ (data people) pos)
    /\ Collection_count c' = Collection_count people
    /\ adaptiveBinaryIndices c' = true
    /\ idIndex_parallel c' /\ loki_ids c' = loki_ids people
    /\ indices_ok integerStringToNumber c'
    /\ (Collection_get integerStringToNumber integerNumberToString
          c' (VNum (Finite (Q2Qc (inject_Z 2)))) true).1
       = Return (GotPair (Some doc) 1).
Proof.
  intros doc.
  apply (update_replaces_document integerStringToNumber integerNumberToString
           people 1 (person "b" (VNum (num_of_Z 25)) 2) doc (Q2Qc (inject_Z 2))).
  - done.
  - vm_compute. done.
  - apply people_ids_ascending.
  - apply people_indices_ok.
  - vm_compute. done.
  - done.
  - done.
  - done.
Defined.

(** Renaming the document of [named] from 'a' to 'b' in its unique index. *)
Lemma UniqueIndex_update_moves_key_witness :
  let obj : gmap string value := {[ "name" := VStr "a"; "$loki" := VNum (num_of_Z 1) ]} in
  let doc : gmap string value := {[ "name" := VStr "b"; "$loki" := VNum (num_of_Z 1) ]} in
  let u := {| field := "name"; keyMap := {[ "a" := obj ]};
              lokiMap := {[ "1" := VStr "a" ]} |} in
  exists u', UniqueIndex_update integerNumberToString u obj doc = Return u'
    /\ UniqueIndex_get integerNumberToString u' (VStr "b") = Some doc
    /\ UniqueIndex_get integerNumberToString u' (VStr "a") = None.
Proof.
  intros obj doc u.
  destruct (UniqueIndex_update_moves_key integerNumberToString u obj doc (VStr "a"))
    as [_ Hmoved].
  - vm_compute. done.
  - done.
  - done.
  - specialize (Hmoved eq_refl eq_refl).
    change (keyMap u !! ToString integerNumberToString (get_prop doc (field u)))
      with (keyMap u !! "b") in Hmoved.
    replace (keyMap u !! "b") with (@None (gmap string value)) in Hmoved
      by (vm_compute; done).
    destruct Hmoved as (u' & H1 & H2 & H3 & _). by exists u'.
Defined.



(** Removing the first and the last document of [people] leaves the second,
    with its index rebuilt. *)
Lemma removeBatchByPositions_removes_rows_witness :
  exists c',
    removeBatchByPositions integerStringToNumber integerNumberToString
      people [0; 2] = (BatchUndefined, c')
    /\ data c' = omap (fun p => nthZ (data people) p)
                   (filter (fun p => p ∉ [0; 2]) (seqZ 0 (lengthZ (data people))))
    /\ idIndex c' = Some (loki_ids c')
    /\ adaptiveBinaryIndices c' = adaptiveBinaryIndices people
    /\ (adaptiveBinaryIndices people = true -> indices_ok integerStringToNumber c')
    /\ (adaptiveBinaryIndices people = false ->
        forall name bi, binaryIndices c' !! name = Some bi -> bi_dirty bi = true).
Proof.
  apply (removeBatchByPositions_removes_rows integerStringToNumber
           integerNumberToString people [0; 2]).
  - done.
  - apply (bool_decide_unpack _). vm_compute. done.
  - intros id Hid. unfold loki_ids, people in Hid. cbn [data fmap list_fmap] in Hid.
    repeat (apply elem_of_cons in Hid as [-> | Hid]);
      try (apply (bool_decide_unpack _); vm_compute; done).
    by apply elem_of_nil in Hid.
  - done.
  - intros p Hp. repeat (apply elem_of_cons in Hp as [-> | Hp]);
      try (vm_compute; split; [by intros ?|done]).
    by apply elem_of_nil in Hp.
Defined.

(** The index of [people] on [age] passes the check. *)
Lemma checkIndex_accepts_sorted_permutations_witness :
  let bi := {| bi_name := "age"; bi_dirty := false; values := [1; 0; 2] |} in
  exists valid c',
    checkIndex integerStringToNumber integerNumberToString people "age" true
    = (Return valid, c')
    /\ data c' = data people
    /\ (binary_index_ok integerStringToNumber (data people) "age" bi -> valid = true)
    /\ (values bi ≡ₚ seqZ 0 (lengthZ (data people)) -> valid = true ->
        binary_index_ok integerStringToNumber (data people) "age" bi)
    /\ (valid = true \/ true = false -> c' = people)
    /\ (valid = false -> true = true ->
        exists bi', binaryIndices c' !! "age" = Some bi'
                    /\ bi_dirty bi' = false
                    /\ binary_index_ok integerStringToNumber (data people) "age" bi').
Proof.
  intros bi.
  apply (checkIndex_accepts_sorted_permutations integerStringToNumber
           integerNumberToString people "age" true bi).
  - done.
  - by left.
Defined.

(** Rebuilding the unique index of [named] on [name]: the one document is
    filed under 'a'. *)
Lemma ensureUniqueIndex_indexes_every_document_witness :
  (NoDup (unique_keys integerNumberToString "name" (data named)) ->
   exists index c',
     ensureUniqueIndex integerNumberToString named "name" = (Return index, c')
     /\ constraints_unique c' !! "name" = Some index /\ field index = "name"
     /\ data c' = data named
     /\ (constraints_unique named !! "name" = None -> "name" ∈ uniqueNames c')
     /\ forall k d, keyMap index !! k = Some d <->
          d ∈ data named /\ has_key (get_prop d "name") = true
          /\ k = ToString integerNumberToString (get_prop d "name"))
  /\ (~ NoDup (unique_keys integerNumberToString "name" (data named)) ->
      exists e, (ensureUniqueIndex integerNumberToString named "name").1 = Throw e
                /\ DuplicateKey e).
Proof.
  apply (ensureUniqueIndex_indexes_every_document integerNumberToString named "name").
  apply (bool_decide_unpack _). vm_compute. done.
Defined.
